(** * LED drone replacement simulator: dispatch and fleet-coordination engine

    A shallow embedding of the route optimizer ([tsp.js]), the fleet state
    store ([store.js]) and the dispatch controller, auto-service scheduler,
    mission engine and global tick of the backend, with the properties the
    specification states about them.

    JavaScript numbers that carry coordinates and distances are kept behind
    the interface [JsNumber]: the engine only adds, subtracts and compares
    them.  Counters, identifiers, battery levels and timestamps are integers
    in every state the engine builds and are modelled in [Z]. *)

From stdpp Require Import base list strings gmap pretty.
From Stdlib Require Import ZArith Lia Sorted.

Open Scope Z_scope.

(** ** Numbers *)

(** The finite (non-NaN) JavaScript numbers with the operations the engine
    applies to coordinates and distances.  [Number.POSITIVE_INFINITY] only
    occurs as the initial value of a running minimum and is modelled by
    [None] in an [option num] (see [ltInf]). *)
Class JsNumber := {
  num : Type;
  fzero : num;
  fadd : num → num → num;
  fsub : num → num → num;
  fmul : num → num → num;
  fdiv : num → num → num;
  fhypot : num → num → num;
  fltb : num → num → bool;
  fleb : num → num → bool
}.

(** A [{lat, lng}] object. *)
Record LatLng `{JsNumber} := { lat : num; lng : num }.

(** [geoDistance] is the haversine formula; it is built from [Math.sin],
    [Math.cos], [Math.atan2] and [Math.sqrt] and enters the engine only as a
    cost to be added and compared, so it is a member of the interface.
    [DRONE_STEP_DEG] is the constant [0.00075]. *)
Class Geometry `{JsNumber} := {
  geoDistance : LatLng → LatLng → num;
  DRONE_STEP_DEG : num
}.

(** What the proofs use about numbers: [<] is a strict order, and the sign
    of a difference agrees with it (as it does on finite doubles). *)
Class JsNumberLaws `{JsNumber} := {
  fltb_irrefl : ∀ x, fltb x x = false;
  fltb_trans : ∀ x y z, fltb x y = true → fltb y z = true → fltb x z = true;
  fsub_neg : ∀ x y, fltb (fsub x y) fzero = fltb x y
}.

(** ** Entities *)

Inductive LampStatus := lamp_ok | lamp_replace | lamp_in_progress.
Inductive DroneStatus := idle | charging | enroute | replacing | servicing.
Inductive MissionStatus := planned | running | completed.
Inductive MissionSource := manual | auto_service.
Inductive SwapStatus := not_replaced | swap_in_progress | replaced.

#[global] Instance LampStatus_eq_dec : EqDecision LampStatus.
Proof. solve_decision. Defined.
#[global] Instance DroneStatus_eq_dec : EqDecision DroneStatus.
Proof. solve_decision. Defined.
#[global] Instance MissionStatus_eq_dec : EqDecision MissionStatus.
Proof. solve_decision. Defined.
#[global] Instance MissionSource_eq_dec : EqDecision MissionSource.
Proof. solve_decision. Defined.

Section Model.
Context `{Geo : Geometry}.

Record Lamp := {
  lamp_id : Z;
  lamp_name : string;
  lamp_lat : num;
  lamp_lng : num;
  lamp_status : LampStatus;
  powerOn : bool;
  ambientTemp : num;
  cassettePresent : bool;
  energyW : Z
}.

(** A lamp passed where a point is expected: its [lat] and [lng]. *)
Definition lampPoint (lamp : Lamp) : LatLng :=
  {| lat := lamp_lat lamp; lng := lamp_lng lamp |}.

(** ** Route optimizer ([tsp.js]) *)

(** [d < best] where [best] starts as [Number.POSITIVE_INFINITY]. *)
Definition ltInf (d : num) (best : option num) : bool :=
  match best with
  | None => true
  | Some b => fltb d b
  end.

(** The generator [permutations]: for every index in turn, that element
    followed by every permutation of the others.  The recursion is on the
    length of [items]. *)
Fixpoint permutations_rec {A} (n : nat) (items : list A) : list (list A) :=
  match n with
  | O => [items]
  | S n' =>
      if decide (length items ≤ 1)%nat then [items]
      else
        flat_map
          (λ index,
             match items !! index with
             | Some current =>
                 map (cons current)
                   (permutations_rec n' (take index items ++ drop (S index) items))
             | None => []
             end)
          (seq 0 (length items))
  end.

Definition permutations {A} (items : list A) : list (list A) :=
  permutations_rec (length items) items.

(** The loop [for index < route.length - 1: distance += geoDistance(route[index], route[index + 1])]. *)
Fixpoint sumLegs (distance : num) (route : list Lamp) : num :=
  match route with
  | a :: (b :: _) as rest =>
      sumLegs (fadd distance (geoDistance (lampPoint a) (lampPoint b))) rest
  | _ => distance
  end.

Definition routeDistance (route : list Lamp) (startPosition : LatLng) : num :=
  match route with
  | [] => fzero
  | first :: _ => sumLegs (geoDistance startPosition (lampPoint first)) route
  end.

(** One iteration of the search loop of [bruteForceBestRoute]; the state is
    [(bestRoute, bestDistance)].  A route from [permutations] of two or more
    lamps is never empty, so [route[0]] exists. *)
Definition bruteForceStep (startPosition : LatLng)
    (best : option (list Lamp) * option num) (route : list Lamp)
    : option (list Lamp) * option num :=
  match route with
  | [] => best
  | first :: _ =>
      let distance := sumLegs (geoDistance startPosition (lampPoint first)) route in
      if ltInf distance best.2 then (Some route, Some distance) else best
  end.

Definition bruteForceBestRoute (lamps : list Lamp) (startPosition : LatLng) : list Lamp :=
  if decide (length lamps ≤ 1)%nat then lamps
  else
    default lamps (foldl (bruteForceStep startPosition) (None, None) (permutations lamps)).1.

(** The inner loop of the greedy branch: index of the first lamp of
    [remaining] closest to [current]. *)
Fixpoint nearestIndex (current : LatLng) (remaining : list Lamp) (index : nat)
    (bestIndex : nat) (bestDistance : option num) : nat :=
  match remaining with
  | [] => bestIndex
  | lamp :: rest =>
      let distance := geoDistance current (lampPoint lamp) in
      if ltInf distance bestDistance
      then nearestIndex current rest (S index) index (Some distance)
      else nearestIndex current rest (S index) bestIndex bestDistance
  end.

(** The loop [while (remaining.length > 0)]; [n] counts the lamps left. *)
Fixpoint greedyRoute (n : nat) (remaining : list Lamp) (current : LatLng) : list Lamp :=
  match n with
  | O => []
  | S n' =>
      let bestIndex := nearestIndex current remaining 0 0 None in
      match remaining !! bestIndex with
      | Some nextLamp =>
          nextLamp :: greedyRoute n' (take bestIndex remaining ++ drop (S bestIndex) remaining)
                        (lampPoint nextLamp)
      | None => []
      end
  end.

Definition MAX_EXACT_POINTS : nat := 8.

Definition nearestNeighborRoute (lamps : list Lamp) (startPosition : LatLng) : list Lamp :=
  if decide (length lamps = 0)%nat then []
  else if decide (length lamps ≤ MAX_EXACT_POINTS)%nat then bruteForceBestRoute lamps startPosition
  else greedyRoute (length lamps) lamps startPosition.

(** Insertion-ordered objects with string keys ([droneRoutes], [activeRoutes]):
    assigning to a key that is present keeps its place, a new key goes last.
    This is the order of [Object.keys] and [Object.values] for keys that are
    not array indices (canonical decimal numbers), which a JavaScript object
    lists first, in numeric order; the ids that the server makes,
    [drone-NN], are not of that kind.  The statements about objects below
    go through [objGet], relate an object to itself, or hold up to the
    order of the keys. *)
Fixpoint objSet {V} (k : string) (v : V) (o : list (string * V)) : list (string * V) :=
  match o with
  | [] => [(k, v)]
  | (k', v') :: rest =>
      if decide (k = k') then (k, v) :: rest else (k', v') :: objSet k v rest
  end.

Fixpoint objGet {V} (k : string) (o : list (string * V)) : option V :=
  match o with
  | [] => None
  | (k', v') :: rest => if decide (k = k') then Some v' else objGet k rest
  end.

Definition objValues {V} (o : list (string * V)) : list V := map snd o.
Definition objKeys {V} (o : list (string * V)) : list string := map fst o.

Record Drone := {
  drone_id : string;
  battery : Z;
  isOperational : bool;
  drone_status : DroneStatus;
  targetLampId : option Z;
  pendingContainerOps : Z;
  containerLampsRemaining : Z;
  serviceEndsAt : option Z;
  homeDockId : option string;
  activeDockId : option string;
  position : LatLng
}.

(** [a < b] for two running minima that may still be infinite. *)
Definition ltInf2 (a b : option num) : bool :=
  match a with
  | None => false
  | Some x => ltInf x b
  end.

(** The loop of [bestInsertionDelta] from [insertIndex] on; [prev] is
    [startPosition] or the stop before [insertIndex], [rest] the stops from
    [insertIndex]. *)
Fixpoint insertionScan (lamp : Lamp) (prev : LatLng) (rest : list Lamp)
    (insertIndex : nat) (bestIndex : nat) (bestDelta : option num) : nat * option num :=
  let removed :=
    match rest with
    | next :: _ => geoDistance prev (lampPoint next)
    | [] => fzero
    end in
  let added :=
    fadd (geoDistance prev (lampPoint lamp))
      match rest with
      | next :: _ => geoDistance (lampPoint lamp) (lampPoint next)
      | [] => fzero
      end in
  let delta := fsub added removed in
  let '(bestIndex', bestDelta') :=
    if ltInf delta bestDelta then (insertIndex, Some delta) else (bestIndex, bestDelta) in
  match rest with
  | next :: rest' =>
      insertionScan lamp (lampPoint next) rest' (S insertIndex) bestIndex' bestDelta'
  | [] => (bestIndex', bestDelta')
  end.

Definition bestInsertionDelta (route : list Lamp) (lamp : Lamp) (startPosition : LatLng)
    : nat * option num :=
  match route with
  | [] => (0%nat, Some (geoDistance startPosition (lampPoint lamp)))
  | _ => insertionScan lamp startPosition route 0 0 None
  end.

(** [[...r.slice(0, i), ...r.slice(i, j + 1).reverse(), ...r.slice(j + 1)]]. *)
Definition reverseSegment (route : list Lamp) (i j : nat) : list Lamp :=
  take i route ++ reverse (take (S j - i) (drop i route)) ++ drop (S j) route.

(** The body of the two nested loops of [twoOptRoute]; the state is
    [(bestRoute, bestDistance, improved)]. *)
Definition twoOptTry (startPosition : LatLng) (i : nat)
    (st : list Lamp * num * bool) (j : nat) : list Lamp * num * bool :=
  let '(bestRoute, bestDistance, improved) := st in
  let candidate := reverseSegment bestRoute i j in
  let candidateDistance := routeDistance candidate startPosition in
  if fltb candidateDistance bestDistance
  then (candidate, candidateDistance, true)
  else st.

(** One run of [for i < length - 2: for i + 1 <= j < length - 1]. *)
Definition twoOptPass (startPosition : LatLng) (len : nat)
    (st : list Lamp * num * bool) : list Lamp * num * bool :=
  foldl
    (λ st i, foldl (twoOptTry startPosition i) st (seq (S i) (len - 1 - S i)))
    st (seq 0 (len - 2)).

(** [while (improved)]: a pass that improves is followed by another.
    [fuel] bounds the number of passes; [twoOptRoute] supplies a bound that
    is never reached (see [twoOptWhile_fuel]). *)
Fixpoint twoOptWhile (fuel : nat) (startPosition : LatLng)
    (bestRoute : list Lamp) (bestDistance : num) : list Lamp :=
  match fuel with
  | O => bestRoute
  | S fuel' =>
      let '(bestRoute', bestDistance', improved) :=
        twoOptPass startPosition (length bestRoute) (bestRoute, bestDistance, false) in
      if improved then twoOptWhile fuel' startPosition bestRoute' bestDistance'
      else bestRoute'
  end.

Definition twoOptRoute (route : list Lamp) (startPosition : LatLng) : list Lamp :=
  if decide (length route < 4)%nat then route
  else twoOptWhile (S (length (permutations route))) startPosition route
         (routeDistance route startPosition).

(** [array.splice(index, 1)] and [array.splice(index, 0, x)]. *)
Definition spliceOut {A} (index : nat) (l : list A) : list A :=
  take index l ++ drop (S index) l.
Definition spliceIn {A} (index : nat) (x : A) (l : list A) : list A :=
  take index l ++ x :: drop index l.

(** The double loop of the seeding phase: the first closest pair
    [(droneIndex, lampIndex)]. *)
Definition seedScan (seedDrones : list Drone) (unassigned : list Lamp) : nat * nat :=
  let '(bestDroneIndex, bestLampIndex, _) :=
    foldl
      (λ st di,
         match seedDrones !! di with
         | None => st
         | Some drone =>
             foldl
               (λ '(bestDroneIndex, bestLampIndex, bestDistance) li,
                  match unassigned !! li with
                  | None => (bestDroneIndex, bestLampIndex, bestDistance)
                  | Some lamp =>
                      let distance := geoDistance (position drone) (lampPoint lamp) in
                      if ltInf distance bestDistance then (di, li, Some distance)
                      else (bestDroneIndex, bestLampIndex, bestDistance)
                  end)
               st (seq 0 (length unassigned))
         end)
      (0%nat, 0%nat, None) (seq 0 (length seedDrones)) in
  (bestDroneIndex, bestLampIndex).

Definition routeOf (routesByDrone : gmap string (list Lamp)) (droneId : string) : list Lamp :=
  default [] (routesByDrone !! droneId).

(** [while (seedDrones.length > 0 && unassigned.length > 0)]; [n] counts the
    seed drones left. *)
Fixpoint seedLoop (n : nat) (seedDrones : list Drone) (unassigned : list Lamp)
    (routesByDrone : gmap string (list Lamp)) : list Lamp * gmap string (list Lamp) :=
  match n with
  | O => (unassigned, routesByDrone)
  | S n' =>
      if decide (seedDrones = [] ∨ unassigned = []) then (unassigned, routesByDrone)
      else
        let '(bestDroneIndex, bestLampIndex) := seedScan seedDrones unassigned in
        match seedDrones !! bestDroneIndex, unassigned !! bestLampIndex with
        | Some chosenDrone, Some seedLamp =>
            seedLoop n' (spliceOut bestDroneIndex seedDrones)
              (spliceOut bestLampIndex unassigned)
              (alter (λ r, r ++ [seedLamp]) (drone_id chosenDrone) routesByDrone)
        | _, _ => (unassigned, routesByDrone)
        end
  end.

(** The double loop of the insertion phase: the first cheapest
    [(lampIndex, droneId, insertIndex)]. *)
Definition insertionChoice (activeDrones : list Drone) (unassigned : list Lamp)
    (routesByDrone : gmap string (list Lamp)) (firstId : string) : nat * string * nat :=
  let '(bestLampIndex, bestDroneId, bestInsertIndex, _) :=
    foldl
      (λ st li,
         match unassigned !! li with
         | None => st
         | Some lamp =>
             foldl
               (λ '(bestLampIndex, bestDroneId, bestInsertIndex, bestDelta) drone,
                  let insertion :=
                    bestInsertionDelta (routeOf routesByDrone (drone_id drone)) lamp
                      (position drone) in
                  if ltInf2 insertion.2 bestDelta
                  then (li, drone_id drone, insertion.1, insertion.2)
                  else (bestLampIndex, bestDroneId, bestInsertIndex, bestDelta))
               st activeDrones
         end)
      (0%nat, firstId, 0%nat, None) (seq 0 (length unassigned)) in
  (bestLampIndex, bestDroneId, bestInsertIndex).

(** [while (unassigned.length > 0)]; [n] counts the lamps left. *)
Fixpoint insertionLoop (n : nat) (activeDrones : list Drone) (unassigned : list Lamp)
    (routesByDrone : gmap string (list Lamp)) (firstId : string) : gmap string (list Lamp) :=
  match n with
  | O => routesByDrone
  | S n' =>
      let '(bestLampIndex, bestDroneId, bestInsertIndex) :=
        insertionChoice activeDrones unassigned routesByDrone firstId in
      match unassigned !! bestLampIndex with
      | Some lampToAssign =>
          insertionLoop n' activeDrones (spliceOut bestLampIndex unassigned)
            (alter (spliceIn bestInsertIndex lampToAssign) bestDroneId routesByDrone) firstId
      | None => routesByDrone
      end
  end.

(** The routes of [optimizeMultiDroneRoutes] as lists of lamps, one entry
    per active drone, before they are turned into lamp ids. *)
Definition optimizedLampRoutes (lamps : list Lamp) (drones : list Drone)
    : list (string * list Lamp) :=
  let activeDrones := List.filter isOperational drones in
  match lamps, activeDrones with
  | [], _ | _, [] => []
  | _, first :: _ =>
      let routesByDrone : gmap string (list Lamp) :=
        list_to_map (map (λ drone, (drone_id drone, [])) activeDrones) in
      let '(unassigned, seeded) :=
        seedLoop (length activeDrones) activeDrones lamps routesByDrone in
      let inserted :=
        insertionLoop (length unassigned) activeDrones unassigned seeded (drone_id first) in
      foldl
        (λ droneRoutes drone,
           objSet (drone_id drone)
             (twoOptRoute (routeOf inserted (drone_id drone)) (position drone)) droneRoutes)
        [] activeDrones
  end.

(** The result object [{ routeLampIds, droneRoutes }] of the two planners. *)
Record RoutePlan := {
  plan_routeLampIds : list Z;
  plan_droneRoutes : list (string * list Z)
}.

Definition optimizeMultiDroneRoutes (lamps : list Lamp) (drones : list Drone) : RoutePlan :=
  let droneRoutes :=
    map (λ kv : string * list Lamp, (kv.1, map lamp_id kv.2)) (optimizedLampRoutes lamps drones) in
  {| plan_routeLampIds := concat (objValues droneRoutes); plan_droneRoutes := droneRoutes |}.

(** ** Fleet state store ([store.js]) *)

Record Dock := {
  dock_id : string;
  dock_name : string;
  dock_lat : num;
  dock_lng : num;
  roofHeightM : Z;
  fullContainers : Z;
  emptyContainers : Z;
  dock_isOperational : bool;
  containerSwapStatus : SwapStatus;
  containerSwapUpdatedAt : option Z;
  lastSwapCompletedAt : option Z
}.

Record Mission := {
  mission_id : string;
  createdAt : Z;
  startedAt : option Z;
  finishedAt : option Z;
  mission_status : MissionStatus;
  mission_source : MissionSource;
  launchDockId : option string;
  droneRoutes : list (string * list Z);
  routeLampIds : list Z;
  completedLampIds : list Z
}.

(** Payloads of log entries. *)
#[warnings="-register-all"]
Inductive JsVal :=
  | VNull
  | VNum (z : Z)
  | VStr (s : string)
  | VList (l : list JsVal)
  | VObj (fields : list (string * JsVal)).

(** A log entry; the random suffix of its [id] is not modelled, and
    timestamps are the clock value instead of its ISO rendering. *)
Record LogEntry := {
  log_type : string;
  log_message : string;
  log_payload : JsVal;
  log_timestamp : Z
}.

(** The per-drone record that [runMission] keeps in its closure.  The drone
    object is referred to by its index in [state.drones] (drones are only
    ever appended). *)
Record Worker := {
  w_drone : nat;
  queue : list Z;
  w_targetLampId : option Z;
  replaceStartedAt : Z;
  replacedCount : Z;
  returning : bool;
  w_completed : bool
}.

(** An interval timer made by [runMission]: the mission object it closes
    over, its workers, and whether [clearInterval] has stopped it. *)
Record Timer := {
  timer_mission : nat;
  timer_workers : list Worker;
  timer_cleared : bool
}.

(** [state] of the store together with the module-level variables of the
    server.  [missions] is newest first, as [unshift] leaves it; a mission
    object is referred to by its position counted from the back of the list,
    which [unshift] does not change.  A timer handle is its index in
    [timers].  The legacy alias [state.drone] of [state.drones[0]] is left
    out. *)
Record State := {
  st_ambientTemp : num;
  autoServiceEnabled : bool;
  docks : list Dock;
  drones : list Drone;
  lamps : list Lamp;
  missions : list Mission;
  logs : list LogEntry;
  lastAutoDispatchAt : Z;
  lastDockRefillAt : Z;
  autoServiceProgress : gmap string nat;
  timers : list Timer;
  activeMissionTimers : gmap string nat
}.

(** *** Field updates *)

Definition lamp_with_status (v : LampStatus) (l : Lamp) : Lamp :=
  {| lamp_id := lamp_id l; lamp_name := lamp_name l; lamp_lat := lamp_lat l;
     lamp_lng := lamp_lng l; lamp_status := v; powerOn := powerOn l;
     ambientTemp := ambientTemp l; cassettePresent := cassettePresent l;
     energyW := energyW l |}.
Definition lamp_with_powerOn (v : bool) (l : Lamp) : Lamp :=
  {| lamp_id := lamp_id l; lamp_name := lamp_name l; lamp_lat := lamp_lat l;
     lamp_lng := lamp_lng l; lamp_status := lamp_status l; powerOn := v;
     ambientTemp := ambientTemp l; cassettePresent := cassettePresent l;
     energyW := energyW l |}.
Definition lamp_with_ambientTemp (v : num) (l : Lamp) : Lamp :=
  {| lamp_id := lamp_id l; lamp_name := lamp_name l; lamp_lat := lamp_lat l;
     lamp_lng := lamp_lng l; lamp_status := lamp_status l; powerOn := powerOn l;
     ambientTemp := v; cassettePresent := cassettePresent l;
     energyW := energyW l |}.
Definition lamp_with_cassettePresent (v : bool) (l : Lamp) : Lamp :=
  {| lamp_id := lamp_id l; lamp_name := lamp_name l; lamp_lat := lamp_lat l;
     lamp_lng := lamp_lng l; lamp_status := lamp_status l; powerOn := powerOn l;
     ambientTemp := ambientTemp l; cassettePresent := v;
     energyW := energyW l |}.
Definition lamp_with_energyW (v : Z) (l : Lamp) : Lamp :=
  {| lamp_id := lamp_id l; lamp_name := lamp_name l; lamp_lat := lamp_lat l;
     lamp_lng := lamp_lng l; lamp_status := lamp_status l; powerOn := powerOn l;
     ambientTemp := ambientTemp l; cassettePresent := cassettePresent l;
     energyW := v |}.

Definition drone_with_battery (v : Z) (d : Drone) : Drone :=
  {| drone_id := drone_id d; battery := v; isOperational := isOperational d;
     drone_status := drone_status d; targetLampId := targetLampId d;
     pendingContainerOps := pendingContainerOps d;
     containerLampsRemaining := containerLampsRemaining d;
     serviceEndsAt := serviceEndsAt d; homeDockId := homeDockId d;
     activeDockId := activeDockId d; position := position d |}.
Definition drone_with_status (v : DroneStatus) (d : Drone) : Drone :=
  {| drone_id := drone_id d; battery := battery d; isOperational := isOperational d;
     drone_status := v; targetLampId := targetLampId d;
     pendingContainerOps := pendingContainerOps d;
     containerLampsRemaining := containerLampsRemaining d;
     serviceEndsAt := serviceEndsAt d; homeDockId := homeDockId d;
     activeDockId := activeDockId d; position := position d |}.
Definition drone_with_targetLampId (v : option Z) (d : Drone) : Drone :=
  {| drone_id := drone_id d; battery := battery d; isOperational := isOperational d;
     drone_status := drone_status d; targetLampId := v;
     pendingContainerOps := pendingContainerOps d;
     containerLampsRemaining := containerLampsRemaining d;
     serviceEndsAt := serviceEndsAt d; homeDockId := homeDockId d;
     activeDockId := activeDockId d; position := position d |}.
Definition drone_with_pendingContainerOps (v : Z) (d : Drone) : Drone :=
  {| drone_id := drone_id d; battery := battery d; isOperational := isOperational d;
     drone_status := drone_status d; targetLampId := targetLampId d;
     pendingContainerOps := v;
     containerLampsRemaining := containerLampsRemaining d;
     serviceEndsAt := serviceEndsAt d; homeDockId := homeDockId d;
     activeDockId := activeDockId d; position := position d |}.
Definition drone_with_containerLampsRemaining (v : Z) (d : Drone) : Drone :=
  {| drone_id := drone_id d; battery := battery d; isOperational := isOperational d;
     drone_status := drone_status d; targetLampId := targetLampId d;
     pendingContainerOps := pendingContainerOps d;
     containerLampsRemaining := v;
     serviceEndsAt := serviceEndsAt d; homeDockId := homeDockId d;
     activeDockId := activeDockId d; position := position d |}.
Definition drone_with_serviceEndsAt (v : option Z) (d : Drone) : Drone :=
  {| drone_id := drone_id d; battery := battery d; isOperational := isOperational d;
     drone_status := drone_status d; targetLampId := targetLampId d;
     pendingContainerOps := pendingContainerOps d;
     containerLampsRemaining := containerLampsRemaining d;
     serviceEndsAt := v; homeDockId := homeDockId d;
     activeDockId := activeDockId d; position := position d |}.
Definition drone_with_homeDockId (v : option string) (d : Drone) : Drone :=
  {| drone_id := drone_id d; battery := battery d; isOperational := isOperational d;
     drone_status := drone_status d; targetLampId := targetLampId d;
     pendingContainerOps := pendingContainerOps d;
     containerLampsRemaining := containerLampsRemaining d;
     serviceEndsAt := serviceEndsAt d; homeDockId := v;
     activeDockId := activeDockId d; position := position d |}.
Definition drone_with_activeDockId (v : option string) (d : Drone) : Drone :=
  {| drone_id := drone_id d; battery := battery d; isOperational := isOperational d;
     drone_status := drone_status d; targetLampId := targetLampId d;
     pendingContainerOps := pendingContainerOps d;
     containerLampsRemaining := containerLampsRemaining d;
     serviceEndsAt := serviceEndsAt d; homeDockId := homeDockId d;
     activeDockId := v; position := position d |}.
Definition drone_with_position (v : LatLng) (d : Drone) : Drone :=
  {| drone_id := drone_id d; battery := battery d; isOperational := isOperational d;
     drone_status := drone_status d; targetLampId := targetLampId d;
     pendingContainerOps := pendingContainerOps d;
     containerLampsRemaining := containerLampsRemaining d;
     serviceEndsAt := serviceEndsAt d; homeDockId := homeDockId d;
     activeDockId := activeDockId d; position := v |}.

Definition dock_with_fullContainers (v : Z) (k : Dock) : Dock :=
  {| dock_id := dock_id k; dock_name := dock_name k; dock_lat := dock_lat k;
     dock_lng := dock_lng k; roofHeightM := roofHeightM k; fullContainers := v;
     emptyContainers := emptyContainers k; dock_isOperational := dock_isOperational k;
     containerSwapStatus := containerSwapStatus k;
     containerSwapUpdatedAt := containerSwapUpdatedAt k;
     lastSwapCompletedAt := lastSwapCompletedAt k |}.
Definition dock_with_emptyContainers (v : Z) (k : Dock) : Dock :=
  {| dock_id := dock_id k; dock_name := dock_name k; dock_lat := dock_lat k;
     dock_lng := dock_lng k; roofHeightM := roofHeightM k;
     fullContainers := fullContainers k;
     emptyContainers := v; dock_isOperational := dock_isOperational k;
     containerSwapStatus := containerSwapStatus k;
     containerSwapUpdatedAt := containerSwapUpdatedAt k;
     lastSwapCompletedAt := lastSwapCompletedAt k |}.
Definition dock_with_containerSwapStatus (v : SwapStatus) (k : Dock) : Dock :=
  {| dock_id := dock_id k; dock_name := dock_name k; dock_lat := dock_lat k;
     dock_lng := dock_lng k; roofHeightM := roofHeightM k;
     fullContainers := fullContainers k;
     emptyContainers := emptyContainers k; dock_isOperational := dock_isOperational k;
     containerSwapStatus := v;
     containerSwapUpdatedAt := containerSwapUpdatedAt k;
     lastSwapCompletedAt := lastSwapCompletedAt k |}.
Definition dock_with_containerSwapUpdatedAt (v : option Z) (k : Dock) : Dock :=
  {| dock_id := dock_id k; dock_name := dock_name k; dock_lat := dock_lat k;
     dock_lng := dock_lng k; roofHeightM := roofHeightM k;
     fullContainers := fullContainers k;
     emptyContainers := emptyContainers k; dock_isOperational := dock_isOperational k;
     containerSwapStatus := containerSwapStatus k;
     containerSwapUpdatedAt := v;
     lastSwapCompletedAt := lastSwapCompletedAt k |}.
Definition dock_with_lastSwapCompletedAt (v : option Z) (k : Dock) : Dock :=
  {| dock_id := dock_id k; dock_name := dock_name k; dock_lat := dock_lat k;
     dock_lng := dock_lng k; roofHeightM := roofHeightM k;
     fullContainers := fullContainers k;
     emptyContainers := emptyContainers k; dock_isOperational := dock_isOperational k;
     containerSwapStatus := containerSwapStatus k;
     containerSwapUpdatedAt := containerSwapUpdatedAt k;
     lastSwapCompletedAt := v |}.

Definition mission_with_startedAt (v : option Z) (m : Mission) : Mission :=
  {| mission_id := mission_id m; createdAt := createdAt m; startedAt := v;
     finishedAt := finishedAt m; mission_status := mission_status m;
     mission_source := mission_source m; launchDockId := launchDockId m;
     droneRoutes := droneRoutes m; routeLampIds := routeLampIds m;
     completedLampIds := completedLampIds m |}.
Definition mission_with_finishedAt (v : option Z) (m : Mission) : Mission :=
  {| mission_id := mission_id m; createdAt := createdAt m; startedAt := startedAt m;
     finishedAt := v; mission_status := mission_status m;
     mission_source := mission_source m; launchDockId := launchDockId m;
     droneRoutes := droneRoutes m; routeLampIds := routeLampIds m;
     completedLampIds := completedLampIds m |}.
Definition mission_with_status (v : MissionStatus) (m : Mission) : Mission :=
  {| mission_id := mission_id m; createdAt := createdAt m; startedAt := startedAt m;
     finishedAt := finishedAt m; mission_status := v;
     mission_source := mission_source m; launchDockId := launchDockId m;
     droneRoutes := droneRoutes m; routeLampIds := routeLampIds m;
     completedLampIds := completedLampIds m |}.
Definition mission_with_droneRoutes (v : list (string * list Z)) (m : Mission) : Mission :=
  {| mission_id := mission_id m; createdAt := createdAt m; startedAt := startedAt m;
     finishedAt := finishedAt m; mission_status := mission_status m;
     mission_source := mission_source m; launchDockId := launchDockId m;
     droneRoutes := v; routeLampIds := routeLampIds m;
     completedLampIds := completedLampIds m |}.
Definition mission_with_routeLampIds (v : list Z) (m : Mission) : Mission :=
  {| mission_id := mission_id m; createdAt := createdAt m; startedAt := startedAt m;
     finishedAt := finishedAt m; mission_status := mission_status m;
     mission_source := mission_source m; launchDockId := launchDockId m;
     droneRoutes := droneRoutes m; routeLampIds := v;
     completedLampIds := completedLampIds m |}.
Definition mission_with_completedLampIds (v : list Z) (m : Mission) : Mission :=
  {| mission_id := mission_id m; createdAt := createdAt m; startedAt := startedAt m;
     finishedAt := finishedAt m; mission_status := mission_status m;
     mission_source := mission_source m; launchDockId := launchDockId m;
     droneRoutes := droneRoutes m; routeLampIds := routeLampIds m;
     completedLampIds := v |}.

Definition worker_with_queue (v : list Z) (w : Worker) : Worker :=
  {| w_drone := w_drone w; queue := v; w_targetLampId := w_targetLampId w;
     replaceStartedAt := replaceStartedAt w; replacedCount := replacedCount w;
     returning := returning w; w_completed := w_completed w |}.
Definition worker_with_targetLampId (v : option Z) (w : Worker) : Worker :=
  {| w_drone := w_drone w; queue := queue w; w_targetLampId := v;
     replaceStartedAt := replaceStartedAt w; replacedCount := replacedCount w;
     returning := returning w; w_completed := w_completed w |}.
Definition worker_with_replaceStartedAt (v : Z) (w : Worker) : Worker :=
  {| w_drone := w_drone w; queue := queue w; w_targetLampId := w_targetLampId w;
     replaceStartedAt := v; replacedCount := replacedCount w;
     returning := returning w; w_completed := w_completed w |}.
Definition worker_with_replacedCount (v : Z) (w : Worker) : Worker :=
  {| w_drone := w_drone w; queue := queue w; w_targetLampId := w_targetLampId w;
     replaceStartedAt := replaceStartedAt w; replacedCount := v;
     returning := returning w; w_completed := w_completed w |}.
Definition worker_with_returning (v : bool) (w : Worker) : Worker :=
  {| w_drone := w_drone w; queue := queue w; w_targetLampId := w_targetLampId w;
     replaceStartedAt := replaceStartedAt w; replacedCount := replacedCount w;
     returning := v; w_completed := w_completed w |}.
Definition worker_with_completed (v : bool) (w : Worker) : Worker :=
  {| w_drone := w_drone w; queue := queue w; w_targetLampId := w_targetLampId w;
     replaceStartedAt := replaceStartedAt w; replacedCount := replacedCount w;
     returning := returning w; w_completed := v |}.

Definition with_ambientTemp (v : num) (s : State) : State :=
  {| st_ambientTemp := v; autoServiceEnabled := autoServiceEnabled s; docks := docks s;
     drones := drones s; lamps := lamps s; missions := missions s; logs := logs s;
     lastAutoDispatchAt := lastAutoDispatchAt s; lastDockRefillAt := lastDockRefillAt s;
     autoServiceProgress := autoServiceProgress s; timers := timers s;
     activeMissionTimers := activeMissionTimers s |}.
Definition with_autoServiceEnabled (v : bool) (s : State) : State :=
  {| st_ambientTemp := st_ambientTemp s; autoServiceEnabled := v; docks := docks s;
     drones := drones s; lamps := lamps s; missions := missions s; logs := logs s;
     lastAutoDispatchAt := lastAutoDispatchAt s; lastDockRefillAt := lastDockRefillAt s;
     autoServiceProgress := autoServiceProgress s; timers := timers s;
     activeMissionTimers := activeMissionTimers s |}.
Definition with_docks (v : list Dock) (s : State) : State :=
  {| st_ambientTemp := st_ambientTemp s; autoServiceEnabled := autoServiceEnabled s;
     docks := v;
     drones := drones s; lamps := lamps s; missions := missions s; logs := logs s;
     lastAutoDispatchAt := lastAutoDispatchAt s; lastDockRefillAt := lastDockRefillAt s;
     autoServiceProgress := autoServiceProgress s; timers := timers s;
     activeMissionTimers := activeMissionTimers s |}.
Definition with_drones (v : list Drone) (s : State) : State :=
  {| st_ambientTemp := st_ambientTemp s; autoServiceEnabled := autoServiceEnabled s;
     docks := docks s;
     drones := v; lamps := lamps s; missions := missions s; logs := logs s;
     lastAutoDispatchAt := lastAutoDispatchAt s; lastDockRefillAt := lastDockRefillAt s;
     autoServiceProgress := autoServiceProgress s; timers := timers s;
     activeMissionTimers := activeMissionTimers s |}.
Definition with_lamps (v : list Lamp) (s : State) : State :=
  {| st_ambientTemp := st_ambientTemp s; autoServiceEnabled := autoServiceEnabled s;
     docks := docks s;
     drones := drones s; lamps := v; missions := missions s; logs := logs s;
     lastAutoDispatchAt := lastAutoDispatchAt s; lastDockRefillAt := lastDockRefillAt s;
     autoServiceProgress := autoServiceProgress s; timers := timers s;
     activeMissionTimers := activeMissionTimers s |}.
Definition with_missions (v : list Mission) (s : State) : State :=
  {| st_ambientTemp := st_ambientTemp s; autoServiceEnabled := autoServiceEnabled s;
     docks := docks s;
     drones := drones s; lamps := lamps s; missions := v; logs := logs s;
     lastAutoDispatchAt := lastAutoDispatchAt s; lastDockRefillAt := lastDockRefillAt s;
     autoServiceProgress := autoServiceProgress s; timers := timers s;
     activeMissionTimers := activeMissionTimers s |}.
Definition with_logs (v : list LogEntry) (s : State) : State :=
  {| st_ambientTemp := st_ambientTemp s; autoServiceEnabled := autoServiceEnabled s;
     docks := docks s;
     drones := drones s; lamps := lamps s; missions := missions s; logs := v;
     lastAutoDispatchAt := lastAutoDispatchAt s; lastDockRefillAt := lastDockRefillAt s;
     autoServiceProgress := autoServiceProgress s; timers := timers s;
     activeMissionTimers := activeMissionTimers s |}.
Definition with_lastAutoDispatchAt (v : Z) (s : State) : State :=
  {| st_ambientTemp := st_ambientTemp s; autoServiceEnabled := autoServiceEnabled s;
     docks := docks s;
     drones := drones s; lamps := lamps s; missions := missions s; logs := logs s;
     lastAutoDispatchAt := v; lastDockRefillAt := lastDockRefillAt s;
     autoServiceProgress := autoServiceProgress s; timers := timers s;
     activeMissionTimers := activeMissionTimers s |}.
Definition with_lastDockRefillAt (v : Z) (s : State) : State :=
  {| st_ambientTemp := st_ambientTemp s; autoServiceEnabled := autoServiceEnabled s;
     docks := docks s;
     drones := drones s; lamps := lamps s; missions := missions s; logs := logs s;
     lastAutoDispatchAt := lastAutoDispatchAt s; lastDockRefillAt := v;
     autoServiceProgress := autoServiceProgress s; timers := timers s;
     activeMissionTimers := activeMissionTimers s |}.
Definition with_autoServiceProgress (v : gmap string nat) (s : State) : State :=
  {| st_ambientTemp := st_ambientTemp s; autoServiceEnabled := autoServiceEnabled s;
     docks := docks s;
     drones := drones s; lamps := lamps s; missions := missions s; logs := logs s;
     lastAutoDispatchAt := lastAutoDispatchAt s; lastDockRefillAt := lastDockRefillAt s;
     autoServiceProgress := v; timers := timers s;
     activeMissionTimers := activeMissionTimers s |}.
Definition with_timers (v : list Timer) (s : State) : State :=
  {| st_ambientTemp := st_ambientTemp s; autoServiceEnabled := autoServiceEnabled s;
     docks := docks s;
     drones := drones s; lamps := lamps s; missions := missions s; logs := logs s;
     lastAutoDispatchAt := lastAutoDispatchAt s; lastDockRefillAt := lastDockRefillAt s;
     autoServiceProgress := autoServiceProgress s; timers := v;
     activeMissionTimers := activeMissionTimers s |}.
Definition with_activeMissionTimers (v : gmap string nat) (s : State) : State :=
  {| st_ambientTemp := st_ambientTemp s; autoServiceEnabled := autoServiceEnabled s;
     docks := docks s;
     drones := drones s; lamps := lamps s; missions := missions s; logs := logs s;
     lastAutoDispatchAt := lastAutoDispatchAt s; lastDockRefillAt := lastDockRefillAt s;
     autoServiceProgress := autoServiceProgress s; timers := timers s;
     activeMissionTimers := v |}.

(** Writes through a reference to a drone, a mission or a lamp object. *)
Definition updDrone (ref : nat) (f : Drone → Drone) (s : State) : State :=
  with_drones (alter f ref (drones s)) s.

Definition missionIndex (ms : list Mission) (ref : nat) : nat :=
  (length ms - 1 - ref)%nat.

Definition missionAt (s : State) (ref : nat) : option Mission :=
  if decide (ref < length (missions s))%nat
  then missions s !! missionIndex (missions s) ref
  else None.

Definition updMission (ref : nat) (f : Mission → Mission) (s : State) : State :=
  if decide (ref < length (missions s))%nat
  then with_missions (alter f (missionIndex (missions s) ref) (missions s)) s
  else s.

(** [state.lamps.find((item) => item.id === lampId)] and a write to the
    object it returns. *)
Definition findLamp (s : State) (lampId : Z) : option Lamp :=
  List.find (λ item, bool_decide (lamp_id item = lampId)) (lamps s).

Fixpoint alterFirst {A} (p : A → bool) (f : A → A) (l : list A) : list A :=
  match l with
  | [] => []
  | x :: rest => if p x then f x :: rest else x :: alterFirst p f rest
  end.

Definition updLamp (lampId : Z) (f : Lamp → Lamp) (s : State) : State :=
  with_lamps (alterFirst (λ item, bool_decide (lamp_id item = lampId)) f (lamps s)) s.

(** *** Store operations *)

Definition addLog (now : Z) (type message : string) (payload : JsVal) (s : State) : State :=
  with_logs
    (logs s ++ [{| log_type := type; log_message := message; log_payload := payload;
                   log_timestamp := now |}]) s.

Definition setAmbientTemp (value : num) (s : State) : State :=
  with_lamps (map (lamp_with_ambientTemp value) (lamps s)) (with_ambientTemp value s).

(** [lamp.status = 'replace'; lamp.powerOn = false; lamp.energyW = 0]. *)
Definition markedLamp (lamp : Lamp) : Lamp :=
  lamp_with_energyW 0 (lamp_with_powerOn false (lamp_with_status lamp_replace lamp)).

(** Returns the lamp object, or [None] for [null]. *)
Definition markLampForReplacement (now : Z) (lampId : Z) (s : State) : State * option Lamp :=
  match findLamp s lampId with
  | None => (s, None)
  | Some lamp =>
      let mark := markedLamp in
      let s1 := updLamp lampId mark s in
      (addLog now "alarm" ("Фонарь " +:+ lamp_name lamp +:+ " переведен в статус замены")
         (VObj [("lampId", VNum lampId)]) s1,
       Some (mark lamp))
  end.

Definition lampIdsVal (ids : list Z) : JsVal := VList (map VNum ids).
Definition optStrVal (o : option string) : JsVal :=
  match o with Some x => VStr x | None => VNull end.
Definition sourceVal (src : MissionSource) : JsVal :=
  VStr match src with manual => "manual" | auto_service => "auto_service" end.

(** [createMission(routeLampIds, launchDockId, options)]; returns the
    reference to the new mission. *)
Definition createMission (now : Z) (routeLampIds : list Z) (launchDockId : option string)
    (optDroneRoutes : option (list (string * list Z))) (optSource : option MissionSource)
    (s : State) : State * nat :=
  let droneRoutes := default [] optDroneRoutes in
  let source := default manual optSource in
  let mission :=
    {| mission_id := "M-" +:+ pretty now; createdAt := now; startedAt := None;
       finishedAt := None; mission_status := planned; mission_source := source;
       launchDockId := launchDockId; droneRoutes := droneRoutes;
       routeLampIds := routeLampIds; completedLampIds := [] |} in
  let ref := length (missions s) in
  (addLog now "mission" ("Сформирована миссия " +:+ mission_id mission)
     (VObj [("routeLampIds", lampIdsVal routeLampIds);
            ("launchDockId", optStrVal launchDockId);
            ("source", sourceVal source)])
     (with_missions (mission :: missions s) s),
   ref).

(** [state.missions.find((mission) => mission.id === missionId)], as a
    reference. *)
Definition findMission (s : State) (missionId : string) : option nat :=
  match list_find (λ mission, mission_id mission = missionId) (missions s) with
  | Some (index, _) => Some (length (missions s) - 1 - index)%nat
  | None => None
  end.

(** ** Server constants *)

Definition TICK_MS : Z := 1000.
Definition CHARGE_RATE_PER_TICK : Z := 2.
Definition FLIGHT_TICK_MS : Z := 250.
Definition REPLACEMENT_DURATION_MS : Z := 1800.
Definition DOCK_SERVICE_MS : Z := 30000.
Definition AUTO_DISPATCH_COOLDOWN_MS : Z := 4000.
Definition MIN_BATTERY_FOR_FLIGHT : Z := 60.
Definition RETURN_TO_DOCK_BATTERY_THRESHOLD : Z := 25.
Definition LAMPS_PER_CONTAINER : Z := 5.
Definition DOCK_REFILL_INTERVAL_MS : Z := 10000.
Definition DOCK_REFILL_UNITS : Z := 1.
Definition DOCK_REFILL_PAUSE_AFTER_SWAP_MS : Z := 60000.

Definition AUTO_SERVICE_PLAN : list (string * list Z) :=
  [ ("drone-01", [142; 112; 129; 132; 119; 141; 125; 115; 108; 117; 106; 134; 116; 104; 133]);
    ("drone-02", [128; 130; 145; 124; 136]);
    ("drone-03", [114; 100; 101; 107; 143; 139]);
    ("drone-04", [110; 122; 118; 137; 148; 123; 126; 149; 102; 127; 138]);
    ("drone-05", [109; 144; 120; 147; 146; 113; 121; 105; 140; 103; 131; 111; 135]) ].

(** The initial value of [autoServiceProgress]. *)
Definition initialAutoServiceProgress : gmap string nat :=
  list_to_map (map (λ droneId, (droneId, 0%nat)) (objKeys AUTO_SERVICE_PLAN)).

(** ** Docks and movement *)

(** Truthiness of an optional string and of an optional timestamp. *)
Definition truthyStr (o : option string) : bool :=
  match o with
  | Some x => negb (bool_decide (x = ""))
  | None => false
  end.
Definition truthyNum (o : option Z) : bool :=
  match o with
  | Some x => negb (bool_decide (x = 0))
  | None => false
  end.

(** [drone.homeDockId ?? drone.activeDockId]. *)
Definition boundDockId (drone : Drone) : option string :=
  match homeDockId drone with
  | Some x => Some x
  | None => activeDockId drone
  end.

Definition getActiveDock (s : State) (drone : Drone) : option Dock :=
  match boundDockId drone with
  | Some x => List.find (λ dock, bool_decide (dock_id dock = x)) (docks s)
  | None => None
  end.

(** A write to the dock object that [getActiveDock] returned. *)
Definition updDock (dockId : string) (f : Dock → Dock) (s : State) : State :=
  with_docks (alterFirst (λ dock, bool_decide (dock_id dock = dockId)) f (docks s)) s.

Definition enforceDroneDockBinding (drone : Drone) : Drone :=
  let drone1 :=
    if negb (truthyStr (homeDockId drone)) && truthyStr (activeDockId drone)
    then drone_with_homeDockId (activeDockId drone) drone
    else drone in
  if truthyStr (homeDockId drone1) && negb (bool_decide (activeDockId drone1 = homeDockId drone1))
  then drone_with_activeDockId (homeDockId drone1) drone1
  else drone1.

(** [containerLampsRemaining] is a finite number in the model, so the
    fallback of [ensureDroneContainerState] never applies. *)
Definition ensureDroneContainerState (drone : Drone) : Drone := drone.

(** [String(n).padStart(2, '0')]. *)
Definition padStart2 (x : string) : string :=
  if decide (String.length x < 2)%nat then "0" +:+ x else x.

Definition createDroneForDock (dock : Dock) (index : nat) : Drone :=
  {| drone_id := "drone-" +:+ padStart2 (pretty (Z.of_nat index + 1));
     battery := 100;
     isOperational := true;
     drone_status := idle;
     targetLampId := None;
     pendingContainerOps := 0;
     containerLampsRemaining := LAMPS_PER_CONTAINER;
     serviceEndsAt := None;
     homeDockId := Some (dock_id dock);
     activeDockId := Some (dock_id dock);
     position := {| lat := dock_lat dock; lng := dock_lng dock |} |}.

Definition moveDroneToDockIfAvailable (s : State) (drone : Drone) : Drone :=
  match getActiveDock s drone with
  | Some dock => drone_with_position {| lat := dock_lat dock; lng := dock_lng dock |} drone
  | None => drone
  end.

(** Returns the moved drone and whether it has arrived. *)
Definition moveDroneTowards (drone : Drone) (target : LatLng) : Drone * bool :=
  let current := position drone in
  let deltaLat := fsub (lat target) (lat current) in
  let deltaLng := fsub (lng target) (lng current) in
  let distance := fhypot deltaLat deltaLng in
  if fleb distance DRONE_STEP_DEG
  then (drone_with_position {| lat := lat target; lng := lng target |} drone, true)
  else
    let ratio := fdiv DRONE_STEP_DEG distance in
    (drone_with_position
       {| lat := fadd (lat current) (fmul deltaLat ratio);
          lng := fadd (lng current) (fmul deltaLng ratio) |} drone,
     false).

Definition ensureDroneCoverageForAllDocks (now : Z) (s : State) : State :=
  let s1 :=
    foldl
      (λ s '(index, dock),
         match List.find (λ drone, bool_decide (boundDockId drone = Some (dock_id dock)))
                 (drones s) with
         | Some _ => s
         | None =>
             let newDrone := createDroneForDock dock index in
             addLog now "drone"
               ("Добавлен " +:+ drone_id newDrone +:+ " для " +:+ dock_name dock)
               (VObj [("droneId", VStr (drone_id newDrone)); ("dockId", VStr (dock_id dock))])
               (with_drones (drones s ++ [newDrone]) s)
         end)
      s (zip (seq 0 (length (docks s))) (docks s)) in
  with_drones
    (map
       (λ drone,
          let drone1 := ensureDroneContainerState (enforceDroneDockBinding drone) in
          if negb (bool_decide (drone_status drone1 = enroute))
             && negb (bool_decide (drone_status drone1 = replacing))
          then moveDroneToDockIfAvailable s1 drone1
          else drone1)
       (drones s1))
    s1.

(** ** Dispatch controller *)

Definition isReadyDrone (drone : Drone) : bool :=
  isOperational drone
  && (MIN_BATTERY_FOR_FLIGHT <=? battery drone)
  && (bool_decide (drone_status drone = idle) || bool_decide (drone_status drone = charging))
  && negb (truthyNum (serviceEndsAt drone)).

(** The ready drones, each with its index in [state.drones]. *)
Definition getReadyDronesForMission (s : State) : list (nat * Drone) :=
  List.filter (λ rd, isReadyDrone rd.2) (zip (seq 0 (length (drones s))) (drones s)).

Definition buildMissionRoutes (lamps : list Lamp) (drones : list Drone) : RoutePlan :=
  optimizeMultiDroneRoutes lamps drones.

Definition getDroneLampCapacity (drone : Drone) : Z :=
  Z.max 0 (Z.min LAMPS_PER_CONTAINER (containerLampsRemaining drone)).

Definition getOccupiedLampIds (s : State) (excludeMissionId : option string) : gset Z :=
  let fromMissions :=
    foldl
      (λ (occupied : gset Z) mission,
         if bool_decide (Some (mission_id mission) = excludeMissionId)
            || negb (bool_decide (mission_status mission = running))
         then occupied
         else
           let completed : gset Z := list_to_set (completedLampIds mission) in
           foldl
             (λ (occupied : gset Z) lampId,
                if bool_decide (lampId ∈ completed) then occupied else {[lampId]} ∪ occupied)
             occupied (routeLampIds mission))
      (∅ : gset Z) (missions s) in
  foldl
    (λ (occupied : gset Z) drone,
       if bool_decide (drone_status drone = enroute) || bool_decide (drone_status drone = replacing)
       then match targetLampId drone with
            | Some lampId => {[lampId]} ∪ occupied
            | None => occupied
            end
       else occupied)
    fromMissions (drones s).

(** [Array.prototype.sort] with a comparator: a stable sort; [x] goes
    before the first element that the comparator puts after it. *)
Fixpoint sortInsert {A} (compare : A → A → num) (x : A) (sorted : list A) : list A :=
  match sorted with
  | [] => [x]
  | y :: rest =>
      if fltb (compare x y) fzero then x :: y :: rest
      else y :: sortInsert compare x rest
  end.

Definition jsSort {A} (compare : A → A → num) (l : list A) : list A :=
  foldl (λ sorted x, sortInsert compare x sorted) [] l.

(** [capacityByDrone.get(id) ?? 0]. *)
Definition capacityOf (capacityByDrone : gmap string Z) (droneId : string) : Z :=
  default 0 (capacityByDrone !! droneId).

(** The body of [validLamps.forEach] in [buildCapacityAwareRoutes]; the
    state is [(assignedByDrone, capacityByDrone)]. *)
Definition assignLamp (activeDrones : list Drone)
    (st : gmap string (list Lamp) * gmap string Z) (lamp : Lamp)
    : gmap string (list Lamp) * gmap string Z :=
  let '(assignedByDrone, capacityByDrone) := st in
  let sortedDrones :=
    jsSort
      (λ left right,
         fsub (geoDistance (position left) (lampPoint lamp))
              (geoDistance (position right) (lampPoint lamp)))
      activeDrones in
  match List.find (λ drone, 0 <? capacityOf capacityByDrone (drone_id drone)) sortedDrones with
  | None => st
  | Some selectedDrone =>
      (alter (λ assigned, assigned ++ [lamp]) (drone_id selectedDrone) assignedByDrone,
       <[drone_id selectedDrone := capacityOf capacityByDrone (drone_id selectedDrone) - 1]>
         capacityByDrone)
  end.

(** [new Map(pairs)]: a later pair with the same key replaces an earlier one. *)
Definition newMap `{Countable K} {V} (pairs : list (K * V)) : gmap K V :=
  foldl (λ m kv, <[kv.1 := kv.2]> m) ∅ pairs.

(** The maps [assignedByDrone] and [capacityByDrone] as they are created. *)
Definition initialAssignment (activeDrones : list Drone)
    : gmap string (list Lamp) * gmap string Z :=
  (newMap (map (λ drone, (drone_id drone, [])) activeDrones),
   newMap (map (λ drone, (drone_id drone, getDroneLampCapacity drone)) activeDrones)).

(** The lamps that [buildCapacityAwareRoutes] hands to every drone, before
    they are ordered. *)
Definition assignedLamps (lamps : list Lamp) (activeDrones : list Drone)
    : gmap string (list Lamp) :=
  (foldl (assignLamp activeDrones) (initialAssignment activeDrones) lamps).1.

Definition buildCapacityAwareRoutes (lamps : list Lamp) (drones : list Drone) : RoutePlan :=
  let activeDrones := List.filter isOperational drones in
  match lamps, activeDrones with
  | [], _ | _, [] => {| plan_routeLampIds := []; plan_droneRoutes := [] |}
  | _, _ =>
      let assignedByDrone := assignedLamps lamps activeDrones in
      let droneRoutes :=
        foldl
          (λ droneRoutes drone,
             let assigned := default [] (assignedByDrone !! drone_id drone) in
             let orderedLamps := nearestNeighborRoute assigned (position drone) in
             objSet (drone_id drone) (map lamp_id orderedLamps) droneRoutes)
          [] activeDrones in
      {| plan_routeLampIds := concat (objValues droneRoutes); plan_droneRoutes := droneRoutes |}
  end.

Definition getNearestReadyDroneForLamp (lamp : Lamp) (readyDrones : list Drone) : option Drone :=
  match readyDrones with
  | [] => None
  | first :: rest =>
      Some (foldl
              (λ '(nearestDrone, nearestDistance) drone,
                 let distance := geoDistance (position drone) (lampPoint lamp) in
                 if fltb distance nearestDistance then (drone, distance)
                 else (nearestDrone, nearestDistance))
              (first, geoDistance (position first) (lampPoint lamp)) rest).1
  end.

(** The outcome object [{ ok, statusCode, error }]. *)
Inductive StartResult :=
  | StartOk
  | StartFailed (statusCode : Z) (error : string).

Definition ERR_NOT_FOUND : string := "Mission not found".
Definition ERR_RUNNING : string := "Mission already running".
Definition ERR_COMPLETED : string := "Mission already completed".
Definition ERR_NO_READY : string :=
  "Нет готовых дронов: зарядите дроны минимум до " +:+ pretty MIN_BATTERY_FOR_FLIGHT
  +:+ "% для вылета.".
Definition ERR_NO_ROUTES : string := "Для миссии не найдено доступных маршрутов дронов.".
Definition ERR_NO_ASSIGNED : string :=
  "Не найдено назначенных готовых дронов для запуска миссии.".

(** [new Map(state.lamps.map((lamp) => [lamp.id, lamp]))]. *)
Definition lampByIdMap (s : State) : gmap Z Lamp :=
  newMap (map (λ lamp, (lamp_id lamp, lamp)) (lamps s)).

(** [mission.routeLampIds.map((id) => lampById.get(id)).filter(Boolean)]. *)
Definition missionLampsOf (lampById : gmap Z Lamp) (ids : list Z) : list Lamp :=
  omap (λ id, lampById !! id) ids.

(** The filter over one drone's proposed route; [assignedLampIds] grows as
    stops are kept. *)
Fixpoint filterRoute (occupiedLampIds : gset Z) (lampById : gmap Z Lamp)
    (route : list Z) (assignedLampIds : gset Z) : list Z * gset Z :=
  match route with
  | [] => ([], assignedLampIds)
  | lampId :: rest =>
      if bool_decide (lampId ∈ occupiedLampIds) || bool_decide (lampId ∈ assignedLampIds)
      then filterRoute occupiedLampIds lampById rest assignedLampIds
      else
        match lampById !! lampId with
        | Some lamp =>
            if bool_decide (lamp_status lamp = lamp_replace)
            then
              let '(kept, assigned') :=
                filterRoute occupiedLampIds lampById rest ({[lampId]} ∪ assignedLampIds) in
              (lampId :: kept, assigned')
            else filterRoute occupiedLampIds lampById rest assignedLampIds
        | None => filterRoute occupiedLampIds lampById rest assignedLampIds
        end
  end.

(** [readyDrones.forEach] building [activeRoutes]. *)
Definition buildActiveRoutes (occupiedLampIds : gset Z) (lampById : gmap Z Lamp)
    (missionRoutes : list (string * list Z)) (readyDrones : list (nat * Drone))
    : list (string * list Z) :=
  (foldl
     (λ '(activeRoutes, assignedLampIds) rd,
        match objGet (drone_id rd.2) missionRoutes with
        | Some proposed =>
            let '(route, assigned') :=
              filterRoute occupiedLampIds lampById proposed assignedLampIds in
            (match route with
             | [] => activeRoutes
             | _ => objSet (drone_id rd.2) route activeRoutes
             end, assigned')
        | None => (activeRoutes, assignedLampIds)
        end)
     ([], (∅ : gset Z)) readyDrones).1.

(** [runMission]: the workers and the interval timer of a started mission. *)
Definition runMission (missionRef : nat) (missionId : string)
    (droneRoutes : list (string * list Z)) (missionDrones : list (nat * Drone))
    (s : State) : State :=
  let workers :=
    map
      (λ rd : nat * Drone,
         {| w_drone := rd.1;
            queue := default [] (objGet (drone_id rd.2) droneRoutes);
            w_targetLampId := None;
            replaceStartedAt := 0;
            replacedCount := 0;
            returning := false;
            w_completed := false |})
      missionDrones in
  let timerId := length (timers s) in
  with_activeMissionTimers (<[missionId := timerId]> (activeMissionTimers s))
    (with_timers
       (timers s ++ [{| timer_mission := missionRef; timer_workers := workers;
                        timer_cleared := false |}])
       s).

(** The body of [state.drones.forEach] that [tryStartMission] runs when no
    drone is ready. *)
Definition sentToCharge (s : State) (drone : Drone) : Drone :=
  if battery drone <? 100
  then moveDroneToDockIfAvailable s (drone_with_status charging drone)
  else drone.

(** [tryStartMission(mission)]; the argument is a mission reference or
    [None] for [undefined].  [broadcast] sends the snapshot to the connected
    observers and does not change the state. *)
Definition tryStartMission (now : Z) (missionArg : option nat) (s : State)
    : State * StartResult :=
  match missionArg ≫= missionAt s with
  | None => (s, StartFailed 404 ERR_NOT_FOUND)
  | Some mission =>
      let ref := default 0%nat missionArg in
      if bool_decide (mission_status mission = running) then (s, StartFailed 400 ERR_RUNNING)
      else if bool_decide (mission_status mission = completed)
      then (s, StartFailed 400 ERR_COMPLETED)
      else
        let readyDrones := getReadyDronesForMission s in
        match readyDrones with
        | [] =>
            (with_drones (map (sentToCharge s) (drones s)) s, StartFailed 409 ERR_NO_READY)
        | _ =>
            let lampById := lampByIdMap s in
            let occupiedLampIds := getOccupiedLampIds s (Some (mission_id mission)) in
            let '(missionRoutes, s1) :=
              match mission_source mission with
              | manual =>
                  let missionLamps := missionLampsOf lampById (routeLampIds mission) in
                  let optimized := buildCapacityAwareRoutes missionLamps (map snd readyDrones) in
                  (plan_droneRoutes optimized,
                   updMission ref
                     (λ m, mission_with_droneRoutes (plan_droneRoutes optimized)
                             (mission_with_routeLampIds (plan_routeLampIds optimized) m)) s)
              | _ =>
                  match objKeys (droneRoutes mission) with
                  | [] =>
                      let missionLamps := missionLampsOf lampById (routeLampIds mission) in
                      let missionRoutes :=
                        plan_droneRoutes (buildMissionRoutes missionLamps (map snd readyDrones)) in
                      (missionRoutes, updMission ref (mission_with_droneRoutes missionRoutes) s)
                  | _ => (droneRoutes mission, s)
                  end
              end in
            let activeRoutes :=
              buildActiveRoutes occupiedLampIds lampById missionRoutes readyDrones in
            let s2 :=
              updMission ref (mission_with_routeLampIds (concat (objValues activeRoutes))) s1 in
            if negb (existsb (λ route : list Z, bool_decide (0 < length route)%nat)
                       (objValues activeRoutes))
            then (s2, StartFailed 400 ERR_NO_ROUTES)
            else
              let assignedDrones :=
                List.filter
                  (λ rd : nat * Drone,
                     match objGet (drone_id rd.2) activeRoutes with
                     | Some route => bool_decide (0 < length route)%nat
                     | None => false
                     end)
                  readyDrones in
              match assignedDrones with
              | [] => (s2, StartFailed 400 ERR_NO_ASSIGNED)
              | _ =>
                  let s3 :=
                    updMission ref
                      (λ m, mission_with_droneRoutes activeRoutes
                              (mission_with_startedAt (Some now)
                                 (mission_with_status running m))) s2 in
                  let s4 :=
                    foldl
                      (λ s rd,
                         updDrone rd.1
                           (λ drone,
                              drone_with_targetLampId None
                                (drone_with_status enroute
                                   (moveDroneToDockIfAvailable s drone))) s)
                      s3 assignedDrones in
                  let s5 :=
                    addLog now "mission" ("Запуск миссии " +:+ mission_id mission)
                      (VObj [("source", sourceVal (mission_source mission));
                             ("drones", VList (map VStr (objKeys activeRoutes)))]) s4 in
                  (runMission ref (mission_id mission) activeRoutes assignedDrones s5, StartOk)
              end
        end
  end.

(** ** Auto-service scheduler *)

(** The loop of [findNextPlannedLampsForDrone] over the rest of the plan. *)
Fixpoint planScan (s : State) (plan : list Z) (index : nat) (lampIds : list Z)
    (maxCount : Z) : list Z * nat :=
  match plan with
  | [] => (lampIds, index)
  | lampId :: rest =>
      if bool_decide (Z.of_nat (length lampIds) < maxCount)
      then
        planScan s rest (S index)
          match findLamp s lampId with
          | Some lamp =>
              if bool_decide (lamp_status lamp = lamp_replace) then lampIds ++ [lampId]
              else lampIds
          | None => lampIds
          end
          maxCount
      else (lampIds, index)
  end.

(** Returns [(lampIds, nextIndex)]. *)
Definition findNextPlannedLampsForDrone (s : State) (droneId : string) (startIndex : nat)
    (maxCount : Z) : list Z * nat :=
  let plan := default [] (objGet droneId AUTO_SERVICE_PLAN) in
  planScan s (drop startIndex plan) startIndex [] maxCount.

Record AutoDispatch := {
  ad_droneRoutes : list (string * list Z);
  ad_routeLampIds : list Z;
  ad_nextProgress : list (string * nat)
}.

Definition buildAutoServiceDispatch (s : State) (readyDrones : list (nat * Drone))
    : AutoDispatch :=
  foldl
    (λ dispatch rd,
       let drone : Drone := rd.2 in
       let currentProgress := default 0%nat (autoServiceProgress s !! drone_id drone) in
       let lampsForDrone :=
         Z.max 1 (Z.min LAMPS_PER_CONTAINER (containerLampsRemaining drone)) in
       let '(lampIds, nextIndex) :=
         findNextPlannedLampsForDrone s (drone_id drone) currentProgress lampsForDrone in
       let nextProgress := objSet (drone_id drone) nextIndex (ad_nextProgress dispatch) in
       match lampIds with
       | [] =>
           {| ad_droneRoutes := ad_droneRoutes dispatch;
              ad_routeLampIds := ad_routeLampIds dispatch;
              ad_nextProgress := nextProgress |}
       | _ =>
           {| ad_droneRoutes := objSet (drone_id drone) lampIds (ad_droneRoutes dispatch);
              ad_routeLampIds := ad_routeLampIds dispatch ++ lampIds;
              ad_nextProgress := nextProgress |}
       end)
    {| ad_droneRoutes := []; ad_routeLampIds := []; ad_nextProgress := [] |}
    readyDrones.

(** The guards of [tryAutoServiceDispatch]: the dispatch it goes on to
    attempt, or [None] when it returns early. *)
Definition autoDispatchAttempt (now : Z) (s : State) : option AutoDispatch :=
  if negb (autoServiceEnabled s) || (now - lastAutoDispatchAt s <? AUTO_DISPATCH_COOLDOWN_MS)
  then None
  else if existsb
            (λ mission,
               bool_decide (mission_source mission = manual)
               && (bool_decide (mission_status mission = planned)
                   || bool_decide (mission_status mission = running)))
            (missions s)
  then None
  else
    match getReadyDronesForMission s with
    | [] => None
    | readyDrones =>
        let dispatch := buildAutoServiceDispatch s readyDrones in
        match ad_routeLampIds dispatch with
        | [] => None
        | _ => Some dispatch
        end
    end.

Definition routesVal (routes : list (string * list Z)) : JsVal :=
  VObj (map (λ kv : string * list Z, (kv.1, lampIdsVal kv.2)) routes).

Definition tryAutoServiceDispatch (now : Z) (s : State) : State :=
  match autoDispatchAttempt now s with
  | None => s
  | Some dispatch =>
      let '(s1, ref) :=
        createMission now (ad_routeLampIds dispatch) None (Some (ad_droneRoutes dispatch))
          (Some auto_service) s in
      let missionId := "M-" +:+ pretty now in
      match tryStartMission now (Some ref) s1 with
      | (s2, StartOk) =>
          let s3 :=
            with_autoServiceProgress
              (foldl (λ progress kv, <[kv.1 := kv.2]> progress) (autoServiceProgress s2)
                 (ad_nextProgress dispatch))
              s2 in
          addLog now "auto" ("Автообслуживание: запуск миссии " +:+ missionId)
            (VObj [("missionId", VStr missionId);
                   ("droneRoutes", routesVal (ad_droneRoutes dispatch))])
            (with_lastAutoDispatchAt now s3)
      | (s2, StartFailed statusCode error) =>
          addLog now "error" ("Автообслуживание: не удалось запустить миссию " +:+ missionId)
            (VObj [("missionId", VStr missionId); ("reason", VStr error);
                   ("statusCode", VNum statusCode)])
            s2
      end
  end.

(** ** Commands *)

(** [POST /api/lamps/:lampId/fail]; returns the response status. *)
Definition apiFailLamp (now : Z) (lampId : Z) (s : State) : State * Z :=
  match markLampForReplacement now lampId s with
  | (s1, None) => (s1, 404)
  | (s1, Some _) =>
      (if autoServiceEnabled s1 then tryAutoServiceDispatch now s1 else s1, 200)
  end.

(** [POST /api/missions/plan] with the numeric lamp ids of the request;
    returns the response status and the planned mission. *)
Definition apiPlanMission (now : Z) (requestedLampIds : list Z) (s : State)
    : State * Z * option nat :=
  let requestedLampIdSet : gset Z := list_to_set requestedLampIds in
  let occupiedLampIds := getOccupiedLampIds s None in
  let candidateLamps :=
    List.filter
      (λ lamp,
         bool_decide (lamp_id lamp ∈ requestedLampIdSet)
         && bool_decide (lamp_status lamp = lamp_replace)
         && negb (bool_decide (lamp_id lamp ∈ occupiedLampIds)))
      (lamps s) in
  match candidateLamps with
  | [] =>
      (addLog now "error" "Не удалось сформировать план миссии: нет столбов в статусе replace"
         (VObj [("requestedLampIds", lampIdsVal requestedLampIds); ("statusCode", VNum 400)]) s,
       400, None)
  | _ =>
      let availableDrones :=
        List.filter (λ drone, isOperational drone && (0 <? getDroneLampCapacity drone))
          (drones s) in
      let optimized := buildCapacityAwareRoutes candidateLamps availableDrones in
      match plan_routeLampIds optimized with
      | [] =>
          (addLog now "error"
             "Не удалось сформировать план миссии: нет доступных дронов с лампами"
             (VObj [("requestedLampIds", lampIdsVal requestedLampIds);
                    ("statusCode", VNum 409)]) s,
           409, None)
      | _ =>
          let '(s1, ref) :=
            createMission now (plan_routeLampIds optimized) None
              (Some (plan_droneRoutes optimized)) (Some manual) s in
          (s1, 200, Some ref)
      end
  end.

(** [POST /api/missions/:missionId/start]. *)
Definition apiStartMission (now : Z) (missionId : string) (s : State) : State * Z :=
  match tryStartMission now (findMission s missionId) s with
  | (s1, StartOk) => (s1, 200)
  | (s1, StartFailed statusCode error) =>
      (addLog now "error" ("Не удалось запустить миссию " +:+ missionId)
         (VObj [("missionId", VStr missionId); ("reason", VStr error);
                ("statusCode", VNum statusCode)]) s1,
       statusCode)
  end.

Definition restingStatus (drone : Drone) : DroneStatus :=
  if battery drone <? 100 then charging else idle.

(** [POST /api/drones/containers/replace-all]. *)
Definition apiReplaceAllContainers (now : Z) (s : State) : State :=
  let s1 :=
    with_drones
      (map
         (λ drone,
            let drone1 :=
              drone_with_serviceEndsAt None
                (drone_with_pendingContainerOps 0
                   (drone_with_containerLampsRemaining LAMPS_PER_CONTAINER drone)) in
            if bool_decide (drone_status drone1 = servicing)
            then drone_with_status (restingStatus drone1) drone1
            else drone1)
         (drones s))
      s in
  let s2 :=
    with_docks
      (map
         (λ dock,
            dock_with_lastSwapCompletedAt (Some now)
              (dock_with_containerSwapUpdatedAt (Some now)
                 (dock_with_containerSwapStatus replaced dock)))
         (docks s1))
      s1 in
  addLog now "dock" "Контейнеры принудительно заменены на всех дронах"
    (VObj [("drones",
            VList (map (λ drone,
                          VObj [("droneId", VStr (drone_id drone));
                                ("containerLampsRemaining",
                                 VNum (containerLampsRemaining drone))])
                     (drones s2)));
           ("lampsPerContainer", VNum LAMPS_PER_CONTAINER)])
    s2.

(** [POST /api/auto-service] with a boolean body. *)
Definition apiAutoServiceToggle (now : Z) (enabled : bool) (s : State) : State :=
  addLog now "auto"
    (if enabled then "Автообслуживание включено" else "Автообслуживание выключено")
    (VObj []) (with_autoServiceEnabled enabled s).

(** ** Mission execution engine *)

(** The two random draws of a completed replacement:
    [Math.round(Math.random() * 12)] and [Math.round(Math.random() * 2)]. *)
Record Draws := { drawEnergy : Z; drawBattery : Z }.

Definition lampStatusVal (st : LampStatus) : JsVal :=
  VStr match st with
       | lamp_ok => "ok"
       | lamp_replace => "replace"
       | lamp_in_progress => "in_progress"
       end.

Definition optNumVal (o : option Z) : JsVal :=
  match o with Some x => VNum x | None => VNull end.

(** Lines 648-663: the low-battery interruption. *)
Definition interruptLowBattery (now : Z) (s : State) (w : Worker) : State * Worker :=
  match drones s !! w_drone w with
  | None => (s, w)
  | Some drone =>
      if (battery drone <=? RETURN_TO_DOCK_BATTERY_THRESHOLD)
         && bool_decide (w_targetLampId w ≠ None)
         && negb (bool_decide (drone_status drone = replacing))
      then
        let s1 :=
          addLog now "drone" (drone_id drone +:+ ": возврат на док для подзарядки")
            (VObj [("droneId", VStr (drone_id drone));
                   ("battery", VNum (battery drone));
                   ("threshold", VNum RETURN_TO_DOCK_BATTERY_THRESHOLD);
                   ("interruptedLampId", optNumVal (w_targetLampId w))]) s in
        (updDrone (w_drone w)
           (λ d, drone_with_status enroute (drone_with_targetLampId None d)) s1,
         worker_with_targetLampId None (worker_with_queue [] w))
      else (s, w)
  end.

(** The worker drops its target: [worker.targetLampId = null;
    worker.drone.targetLampId = null; worker.drone.status = 'enroute']. *)
Definition dropTarget (s : State) (w : Worker) : State * Worker :=
  (updDrone (w_drone w) (λ d, drone_with_status enroute (drone_with_targetLampId None d)) s,
   worker_with_targetLampId None w).

(** Lines 665-742: the worker has a target lamp. *)
Definition serveTarget (now : Z) (draws : Draws) (missionRef : nat) (s : State) (w : Worker)
    (target : Z) (drone : Drone) : State * Worker :=
  match findLamp s target with
  | None => dropTarget s w
  | Some lamp =>
      if negb (bool_decide (drone_status drone = replacing))
         && negb (bool_decide (lamp_status lamp = lamp_replace))
      then
        dropTarget
          (addLog now "replace"
             (drone_id drone +:+ " пропустил " +:+ lamp_name lamp
              +:+ ": повторная замена не требуется")
             (VObj [("lampId", VNum (lamp_id lamp)); ("droneId", VStr (drone_id drone));
                    ("lampStatus", lampStatusVal (lamp_status lamp))]) s)
          w
      else if bool_decide (drone_status drone = replacing)
      then
        if now - replaceStartedAt w <? REPLACEMENT_DURATION_MS then (s, w)
        else
          let s1 :=
            updLamp target
              (λ l, lamp_with_energyW (100 + drawEnergy draws)
                      (lamp_with_powerOn true
                         (lamp_with_cassettePresent true (lamp_with_status lamp_ok l)))) s in
          let s2 :=
            updMission missionRef
              (λ m, mission_with_completedLampIds (completedLampIds m ++ [lamp_id lamp]) m) s1 in
          let remaining := Z.max 0 (containerLampsRemaining drone - 1) in
          let s3 :=
            updDrone (w_drone w)
              (λ d, drone_with_containerLampsRemaining remaining
                      (drone_with_battery
                         (Z.max 20 (battery d - (4 + drawBattery draws))) d)) s2 in
          let s4 :=
            addLog now "replace" (drone_id drone +:+ " завершил замену на " +:+ lamp_name lamp)
              (VObj [("lampId", VNum (lamp_id lamp)); ("droneId", VStr (drone_id drone));
                     ("containerLampsRemaining", VNum remaining);
                     ("lampsPerContainer", VNum LAMPS_PER_CONTAINER)]) s3 in
          dropTarget s4 (worker_with_replacedCount (replacedCount w + 1) w)
      else
        let '(moved, arrived) :=
          moveDroneTowards (drone_with_status enroute drone)
            {| lat := lamp_lat lamp; lng := lamp_lng lamp |} in
        let s1 := updDrone (w_drone w) (λ _, moved) s in
        if arrived
        then
          if negb (bool_decide (lamp_status lamp = lamp_replace)) then dropTarget s1 w
          else if containerLampsRemaining moved <=? 0
          then
            dropTarget
              (addLog now "dock" (drone_id drone +:+ ": контейнер пуст, требуется замена")
                 (VObj [("droneId", VStr (drone_id drone));
                        ("dockId",
                         match getActiveDock s1 moved with
                         | Some dock => VStr (dock_id dock)
                         | None => VNull
                         end);
                        ("lampsPerContainer", VNum LAMPS_PER_CONTAINER)]) s1)
              (worker_with_queue [] w)
          else
            (addLog now "replace"
               (drone_id drone +:+ " выполняет замену кассеты на " +:+ lamp_name lamp)
               (VObj [("lampId", VNum (lamp_id lamp)); ("droneId", VStr (drone_id drone))])
               (updDrone (w_drone w) (drone_with_status replacing)
                  (updLamp target (lamp_with_status lamp_in_progress) s1)),
             worker_with_replaceStartedAt now w)
        else (s1, w)
  end.

(** Lines 754-786: the queue is exhausted, the drone goes home. *)
Definition returnToDock (now : Z) (s : State) (w : Worker) (drone : Drone) : State * Worker :=
  match getActiveDock s drone with
  | None =>
      (updDrone (w_drone w)
         (λ d, drone_with_status (restingStatus d) (drone_with_targetLampId None d)) s,
       worker_with_completed true w)
  | Some dock =>
      let w1 := worker_with_returning true w in
      let '(moved, arrived) :=
        moveDroneTowards (drone_with_status enroute drone)
          {| lat := dock_lat dock; lng := dock_lng dock |} in
      let s1 := updDrone (w_drone w) (λ _, moved) s in
      if arrived
      then
        if containerLampsRemaining moved <=? 0
        then
          let ops := pendingContainerOps moved + 1 in
          let s2 :=
            updDrone (w_drone w)
              (λ d, drone_with_serviceEndsAt (Some (now + DOCK_SERVICE_MS))
                      (drone_with_pendingContainerOps ops
                         (drone_with_status servicing (drone_with_targetLampId None d)))) s1 in
          let s3 :=
            updDock (dock_id dock)
              (λ k, dock_with_containerSwapUpdatedAt (Some now)
                      (dock_with_containerSwapStatus swap_in_progress k)) s2 in
          (addLog now "dock"
             (drone_id drone +:+ " начал сервис контейнеров на " +:+ dock_name dock)
             (VObj [("droneId", VStr (drone_id drone)); ("dockId", VStr (dock_id dock));
                    ("replacements", VNum (replacedCount w1));
                    ("containersToSwap", VNum ops);
                    ("lampsRemaining", VNum (containerLampsRemaining moved));
                    ("serviceSeconds", VNum (DOCK_SERVICE_MS `div` 1000))]) s3,
           worker_with_completed true (worker_with_replacedCount 0 w1))
        else
          (updDrone (w_drone w)
             (λ d, drone_with_status (restingStatus d) (drone_with_targetLampId None d)) s1,
           worker_with_completed true w1)
      else (s1, w1)
  end.

(** Lines 665-786: what a worker does after the interruption check. *)
Definition workerStep (now : Z) (draws : Draws) (missionRef : nat) (s : State) (w : Worker)
    : State * Worker :=
  match drones s !! w_drone w with
  | None => (s, w)
  | Some drone =>
      match w_targetLampId w with
      | Some target => serveTarget now draws missionRef s w target drone
      | None =>
          match queue w with
          | nextLampId :: rest =>
              (updDrone (w_drone w)
                 (λ d, drone_with_status enroute (drone_with_targetLampId (Some nextLampId) d)) s,
               worker_with_targetLampId (Some nextLampId) (worker_with_queue rest w))
          | [] => returnToDock now s w drone
          end
      end
  end.

(** The body of [workers.forEach] in the interval callback. *)
Definition workerTick (now : Z) (draws : Draws) (missionRef : nat) (s : State) (w : Worker)
    : State * Worker :=
  match drones s !! w_drone w with
  | None => (s, w)
  | Some drone =>
      if w_completed w || negb (isOperational drone) then (s, w)
      else
        let '(s1, w1) := interruptLowBattery now s w in
        workerStep now draws missionRef s1 w1
  end.

Definition clearTimer (timerId : nat) (s : State) : State :=
  with_timers
    (alter (λ t, {| timer_mission := timer_mission t; timer_workers := timer_workers t;
                    timer_cleared := true |}) timerId (timers s)) s.

Definition completeMission (now : Z) (missionRef : nat) (workers : list Worker) (s : State)
    : State :=
  let missionId := default "" (mission_id <$> missionAt s missionRef) in
  let s1 :=
    match activeMissionTimers s !! missionId with
    | Some timerId =>
        with_activeMissionTimers (delete missionId (activeMissionTimers s))
          (clearTimer timerId s)
    | None => s
    end in
  let s2 :=
    updMission missionRef
      (λ m, mission_with_finishedAt (Some now) (mission_with_status completed m)) s1 in
  let s3 :=
    foldl
      (λ s w,
         updDrone (w_drone w)
           (λ d,
              let d1 := drone_with_targetLampId None d in
              if bool_decide (drone_status d1 = servicing) then d1
              else
                let d2 := drone_with_status (restingStatus d1) d1 in
                if bool_decide (drone_status d2 = charging)
                then moveDroneToDockIfAvailable s d2
                else d2)
           s)
      s2 workers in
  addLog now "mission" ("Миссия " +:+ missionId +:+ " завершена") (VObj []) s3.

(** All workers of a timer, in order; [draws] gives each worker its draws. *)
Fixpoint runWorkers (now : Z) (draws : nat → Draws) (missionRef : nat) (index : nat)
    (s : State) (workers : list Worker) : State * list Worker :=
  match workers with
  | [] => (s, [])
  | w :: rest =>
      let '(s1, w1) := workerTick now (draws index) missionRef s w in
      let '(s2, rest') := runWorkers now draws missionRef (S index) s1 rest in
      (s2, w1 :: rest')
  end.

(** One firing of a mission's interval timer. *)
Definition missionTick (now : Z) (draws : nat → Draws) (timerId : nat) (s : State) : State :=
  match timers s !! timerId with
  | None => s
  | Some timer =>
      if timer_cleared timer then s
      else
        let '(s1, workers) :=
          runWorkers now draws (timer_mission timer) 0 s (timer_workers timer) in
        let s2 :=
          with_timers
            (alter (λ t, {| timer_mission := timer_mission t; timer_workers := workers;
                            timer_cleared := timer_cleared t |}) timerId (timers s1)) s1 in
        if forallb
             (λ w,
                w_completed w
                || negb (default true (isOperational <$> drones s2 !! w_drone w)))
             workers
        then completeMission now (timer_mission timer) workers s2
        else s2
  end.

(** ** Global tick *)

Definition refillDocks (now : Z) (s : State) : State :=
  if DOCK_REFILL_INTERVAL_MS <=? now - lastDockRefillAt s
  then
    with_lastDockRefillAt now
      (with_docks
         (map
            (λ dock,
               if now - default 0 (lastSwapCompletedAt dock) <? DOCK_REFILL_PAUSE_AFTER_SWAP_MS
               then dock
               else
                 let refillUnits := Z.min DOCK_REFILL_UNITS (emptyContainers dock) in
                 if 0 <? refillUnits
                 then dock_with_fullContainers (fullContainers dock + refillUnits)
                        (dock_with_emptyContainers (emptyContainers dock - refillUnits) dock)
                 else dock)
            (docks s))
         s)
  else s.

(** The body of [state.drones.forEach] in the global tick, for the drone at
    [index]. *)
Definition tickDrone (now : Z) (s : State) (index : nat) : State :=
  match drones s !! index with
  | None => s
  | Some drone =>
      if bool_decide (drone_status drone = servicing)
      then
        if truthyNum (serviceEndsAt drone) && (default 0 (serviceEndsAt drone) <=? now)
        then
          let s1 :=
            match getActiveDock s drone with
            | Some dock =>
                if 0 <? pendingContainerOps drone
                then
                  let ops := pendingContainerOps drone in
                  let s' :=
                    updDock (dock_id dock)
                      (λ k, dock_with_containerSwapUpdatedAt (Some now)
                              (dock_with_lastSwapCompletedAt (Some now)
                                 (dock_with_containerSwapStatus replaced
                                    (dock_with_emptyContainers (emptyContainers k + ops)
                                       (dock_with_fullContainers
                                          (Z.max 0 (fullContainers k - ops)) k))))) s in
                  addLog now "dock" (drone_id drone +:+ ": сервис контейнеров завершен")
                    (VObj [("droneId", VStr (drone_id drone)); ("dockId", VStr (dock_id dock));
                           ("processedContainers", VNum ops);
                           ("lampsLoaded", VNum (LAMPS_PER_CONTAINER * ops))])
                    (updDrone index
                       (drone_with_containerLampsRemaining (LAMPS_PER_CONTAINER * ops)) s')
                else s
            | None => s
            end in
          updDrone index
            (λ d, drone_with_status (restingStatus d)
                    (drone_with_serviceEndsAt None (drone_with_pendingContainerOps 0 d))) s1
        else s
      else if bool_decide (drone_status drone = idle)
              || bool_decide (drone_status drone = charging)
      then
        if battery drone <? 100
        then
          let charged :=
            drone_with_battery (Z.min 100 (battery drone + CHARGE_RATE_PER_TICK))
              (moveDroneToDockIfAvailable s (drone_with_status charging drone)) in
          if 100 <=? battery charged
          then
            addLog now "drone" (drone_id drone +:+ " полностью заряжен и готов к вылету")
              (VObj [("droneId", VStr (drone_id drone))])
              (updDrone index (λ _, drone_with_status idle charged) s)
          else updDrone index (λ _, charged) s
        else if bool_decide (drone_status drone = charging)
        then updDrone index (drone_with_status idle) s
        else s
      else s
  end.

(** The callback of the coarse interval. *)
Definition globalTick (now : Z) (s : State) : State :=
  let s1 := ensureDroneCoverageForAllDocks now s in
  let s2 := refillDocks now s1 in
  let s3 := foldl (tickDrone now) s2 (seq 0 (length (drones s2))) in
  tryAutoServiceDispatch now s3.

(** ** Events *)

(** What drives the engine: the firing of a mission's interval timer, the
    firing of the coarse interval, and the commands of the HTTP layer. *)
Inductive Event :=
  | MissionTimer (now : Z) (draws : nat → Draws) (timerId : nat)
  | GlobalTimer (now : Z)
  | FailLamp (now : Z) (lampId : Z)
  | PlanMission (now : Z) (requestedLampIds : list Z)
  | StartMission (now : Z) (missionId : string)
  | ReplaceAllContainers (now : Z)
  | ToggleAutoService (now : Z) (enabled : bool).

Definition engineStep (e : Event) (s : State) : State :=
  match e with
  | MissionTimer now draws timerId => missionTick now draws timerId s
  | GlobalTimer now => globalTick now s
  | FailLamp now lampId => (apiFailLamp now lampId s).1
  | PlanMission now requestedLampIds => (apiPlanMission now requestedLampIds s).1.1
  | StartMission now missionId => (apiStartMission now missionId s).1
  | ReplaceAllContainers now => apiReplaceAllContainers now s
  | ToggleAutoService now enabled => apiAutoServiceToggle now enabled s
  end.

(** A dock passed where a point is expected. *)
Definition pointOfDock (dock : Dock) : LatLng :=
  {| lat := dock_lat dock; lng := dock_lng dock |}.

(** [findNearestDock(position)] of the store; [None] is [null]. *)
Definition findNearestDock (s : State) (position : option LatLng) : option Dock :=
  match position, docks s with
  | None, _ | _, [] => None
  | Some position, first :: rest =>
      Some (foldl
              (λ '(nearest, bestDistance) dock,
                 let distance := geoDistance position (pointOfDock dock) in
                 if fltb distance bestDistance then (dock, distance)
                 else (nearest, bestDistance))
              (first, geoDistance position (pointOfDock first)) rest).1
  end.

End Model.

(** ** A concrete number system *)

(** The instance used for concrete runs: fixed-point numbers with five
    decimals held in [Z] (one unit is [0.00001]); the distance is the planar
    arc length, which the haversine distance approaches for points that are
    a few hundredths of a degree apart near the equator.  It is a stand-in
    for the floating-point numbers and the haversine of the code, not a
    model of them: [fmul], [fdiv] and the square root truncate, so a step
    of a drone can be a unit short, and two distances that tie here need
    not tie in the code.  The theorems of the development are stated for
    every instance; this one only runs the examples. *)
Definition fixedScale : Z := 100000.

Definition FixedNumber : JsNumber := {|
  num := Z;
  fzero := 0;
  fadd := Z.add;
  fsub := Z.sub;
  fmul := λ x y, (x * y) `div` fixedScale;
  fdiv := λ x y, (x * fixedScale) `div` y;
  fhypot := λ x y, Z.sqrt (x * x + y * y);
  fltb := Z.ltb;
  fleb := Z.leb
|}.

Definition FixedGeometry : @Geometry FixedNumber := {|
  geoDistance := λ a b : @LatLng FixedNumber,
    let dLat : Z := @lat FixedNumber b - @lat FixedNumber a in
    let dLng : Z := @lng FixedNumber b - @lng FixedNumber a in
    Z.sqrt (dLat * dLat + dLng * dLng);
  DRONE_STEP_DEG := 75
|}.


Section Concrete.
#[local] Existing Instances FixedNumber FixedGeometry.

Definition exLamp (id : Z) (la ln : Z) (st : LampStatus) : Lamp :=
  {| lamp_id := id; lamp_name := "Lamp-" +:+ pretty id; lamp_lat := la; lamp_lng := ln;
     lamp_status := st; powerOn := false; ambientTemp := 0; cassettePresent := true;
     energyW := 0 |}.

Definition exDrone (id : string) (dock : string) (la ln : Z) (level : Z) (st : DroneStatus)
    : Drone :=
  {| drone_id := id; battery := level; isOperational := true; drone_status := st;
     targetLampId := None; pendingContainerOps := 0;
     containerLampsRemaining := LAMPS_PER_CONTAINER; serviceEndsAt := None;
     homeDockId := Some dock; activeDockId := Some dock;
     position := {| lat := la; lng := ln |} |}.

Definition exDock (id : string) (la ln : Z) : Dock :=
  {| dock_id := id; dock_name := "Dock " +:+ id; dock_lat := la; dock_lng := ln;
     roofHeightM := 40; fullContainers := 10; emptyContainers := 2;
     dock_isOperational := true; containerSwapStatus := not_replaced;
     containerSwapUpdatedAt := None; lastSwapCompletedAt := None |}.

Definition exState (ds : list Dock) (dr : list Drone) (ls : list Lamp) (ms : list Mission)
    : State :=
  {| st_ambientTemp := 0; autoServiceEnabled := false; docks := ds; drones := dr;
     lamps := ls; missions := ms; logs := []; lastAutoDispatchAt := 0;
     lastDockRefillAt := 0; autoServiceProgress := initialAutoServiceProgress;
     timers := []; activeMissionTimers := ∅ |}.

Definition origin : LatLng := {| lat := 0; lng := 0 |}.

(** The coordinates of a point, as a pair. *)
Definition coords (p : LatLng) : Z * Z := (lat p, lng p).

(** Four lamps around a drone at the origin (coordinates in units of
    [0.00001] degree). *)
Definition fourLamps : list Lamp :=
  [ exLamp 100 1000 1000 lamp_replace; exLamp 101 (-4000) 4000 lamp_replace;
    exLamp 102 (-1000) 2000 lamp_replace; exLamp 103 2000 0 lamp_replace ].

Definition exMission (id : string) (st : MissionStatus) (src : MissionSource)
    (routes : list (string * list Z)) (done : list Z) : Mission :=
  {| mission_id := id; createdAt := 0; startedAt := None; finishedAt := None;
     mission_status := st; mission_source := src; launchDockId := None;
     droneRoutes := routes; routeLampIds := concat (objValues routes);
     completedLampIds := done |}.

Definition droneAtOrigin : Drone := exDrone "drone-01" "D-1" 0 0 100 idle.

(** Three lamps and two drones with full containers. *)
Definition threeLamps : list Lamp := take 3 fourLamps.
Definition twoDrones : list Drone :=
  [droneAtOrigin; exDrone "drone-02" "D-2" (-3000) 3000 100 idle].

(** A planned manual mission for a lamp that has been serviced since. *)
Definition staleMissionState : State :=
  exState [exDock "D-1" 0 0] [droneAtOrigin] [exLamp 100 1000 1000 lamp_ok]
    [exMission "M-1" planned manual [("drone-01", [100])] []].

(** A fleet with no ready drone: [drone-01] is flying to lamp 100 for a
    running mission with its battery at 50, [drone-02] is idle at 40; a
    second, planned mission asks for lamp 101. *)
Definition busyFleetState : State :=
  exState [exDock "D-1" 0 0; exDock "D-2" 3000 3000]
    [drone_with_targetLampId (Some 100) (exDrone "drone-01" "D-1" 500 500 50 enroute);
     exDrone "drone-02" "D-2" 3000 3000 40 idle]
    [exLamp 100 1000 1000 lamp_replace; exLamp 101 2000 2000 lamp_replace]
    [exMission "M-2" planned manual [("drone-02", [101])] [];
     exMission "M-1" running manual [("drone-01", [100])] []].


(** A drone at the end of a dock service with two container operations
    pending. *)
Definition doubleServiceState : State :=
  exState [exDock "D-1" 0 0]
    [drone_with_serviceEndsAt (Some 500)
       (drone_with_pendingContainerOps 2
          (drone_with_containerLampsRemaining 0 (exDrone "drone-01" "D-1" 0 0 40 servicing)))]
    [] [].

(** A drone at [24%] on its way to lamp 100, with lamp 101 still queued;
    [la], [ln] is where the drone is, its dock is at the origin. *)
Definition lowBatteryDrone (la ln : Z) : Drone :=
  drone_with_targetLampId (Some 100) (exDrone "drone-01" "D-1" la ln 24 enroute).
Definition lowBatteryState (la ln : Z) : State :=
  exState [exDock "D-1" 0 0] [lowBatteryDrone la ln]
    [exLamp 100 1000 1000 lamp_replace; exLamp 101 2000 0 lamp_replace]
    [exMission "M-1" running manual [("drone-01", [100; 101])] []].
Definition lowBatteryWorker : Worker :=
  {| w_drone := 0; queue := [101]; w_targetLampId := Some 100; replaceStartedAt := 0;
     replacedCount := 0; returning := false; w_completed := false |}.
Definition noDraws : Draws := {| drawEnergy := 0; drawBattery := 0 |}.

(** Automatic service is on and [drone-01] is ready for lamp 142, the first
    lamp of its plan, while another drone is already flying to that lamp. *)
Definition blockedAutoState : State :=
  with_autoServiceEnabled true
    (exState [exDock "D-1" 0 0]
       [droneAtOrigin;
        drone_with_targetLampId (Some 142) (exDrone "drone-02" "D-1" 500 500 80 enroute)]
       [exLamp 142 1000 1000 lamp_replace] []).

(** Two docks with a drone each and two lamps to replace, lamp 100 within
    one step of the first dock; and a run in which lamp 100 is replaced by
    the first mission, fails again, and is planned and started anew while
    the first mission is still under way. *)
Definition cleanState : State :=
  exState [exDock "D-1" 0 0; exDock "D-2" 3000 3000]
    [droneAtOrigin; exDrone "drone-02" "D-2" 3000 3000 100 idle]
    [exLamp 100 50 0 lamp_replace; exLamp 101 1000 1000 lamp_replace] [].

Definition refailTrace : list Event :=
  [PlanMission 1000 [100; 101]; StartMission 1100 "M-1000";
   MissionTimer 1250 (λ _, noDraws) 0; MissionTimer 1500 (λ _, noDraws) 0;
   MissionTimer 3500 (λ _, noDraws) 0;
   FailLamp 4000 100; PlanMission 5000 [100]; StartMission 5100 "M-5000"].

(** One dock, one drone and nine lamps within one step of the dock; and a
    run in which the drone, busy with a first mission, is sent to charge by
    a start that finds no ready drone, is taken by a second mission at the
    next start, and is then flown by the workers of both missions, whose
    timers fire in turn. *)
Definition oneDroneState : State :=
  exState [exDock "D-1" 0 0] [droneAtOrigin]
    [exLamp 100 10 0 lamp_replace; exLamp 101 20 0 lamp_replace; exLamp 102 30 0 lamp_replace;
     exLamp 103 40 0 lamp_replace; exLamp 104 50 0 lamp_replace; exLamp 105 60 0 lamp_replace;
     exLamp 106 70 0 lamp_replace; exLamp 107 70 10 lamp_replace;
     exLamp 108 70 20 lamp_replace] [].

Fixpoint alternateTimers (n : nat) (now : Z) : list Event :=
  match n with
  | O => []
  | S n =>
      MissionTimer now (λ _, noDraws) 0 :: MissionTimer (now + 100) (λ _, noDraws) 1
      :: alternateTimers n (now + 2000)
  end.

Definition doubleDispatchTrace : list Event :=
  [PlanMission 1000 [100; 101; 102; 103; 104]; StartMission 1100 "M-1000";
   MissionTimer 1250 (λ _, noDraws) 0; MissionTimer 1500 (λ _, noDraws) 0;
   MissionTimer 3500 (λ _, noDraws) 0;
   PlanMission 5000 [105; 106; 107; 108];
   StartMission 5100 "M-5000"; StartMission 5200 "M-5000"]
  ++ alternateTimers 11 6000 ++ [GlobalTimer 100000].

(** The clean fleet after the planning command for both lamps, and the
    mission that the command has made. *)
Definition plannedState : State := (apiPlanMission 1000 [100; 101] cleanState).1.1.

Definition plannedMission : Mission :=
  {| mission_id := "M-1000"; createdAt := 1000; startedAt := None; finishedAt := None;
     mission_status := planned; mission_source := manual; launchDockId := None;
     droneRoutes := [("drone-01", [100; 101]); ("drone-02", [])];
     routeLampIds := [100; 101]; completedLampIds := [] |}.

(** The planned mission once it has been started: its timer, with one
    worker for [drone-01], and the mission as it is then. *)
Definition startedState : State := (tryStartMission 1100 (Some 0%nat) plannedState).1.

Definition startedTimer : Timer :=
  {| timer_mission := 0;
     timer_workers :=
       [{| w_drone := 0; queue := [100; 101]; w_targetLampId := None; replaceStartedAt := 0;
           replacedCount := 0; returning := false; w_completed := false |}];
     timer_cleared := false |}.

Definition startedMission : Mission :=
  {| mission_id := "M-1000"; createdAt := 1000; startedAt := Some 1100; finishedAt := None;
     mission_status := running; mission_source := manual; launchDockId := None;
     droneRoutes := [("drone-01", [100; 101])];
     routeLampIds := [100; 101]; completedLampIds := [] |}.

(** A drone at lamp 100 that has been replacing its cassette since 1000. *)
Definition replacingDrone : Drone :=
  drone_with_targetLampId (Some 100) (exDrone "drone-01" "D-1" 1000 1000 80 replacing).
Definition replacingState : State :=
  exState [exDock "D-1" 0 0] [replacingDrone] [exLamp 100 1000 1000 lamp_in_progress]
    [exMission "M-1" running manual [("drone-01", [100])] []].
Definition replacingWorker : Worker :=
  {| w_drone := 0; queue := []; w_targetLampId := Some 100; replaceStartedAt := 1000;
     replacedCount := 0; returning := false; w_completed := false |}.

End Concrete.

(** * Specification predicates *)

Section Predicates.
Context {Num : JsNumber} {Geo : Geometry}.

(** [best] is the state of the search of [bruteForceBestRoute] after the
    routes [seen]: the first shortest of them. *)
Definition bestSoFar (startPosition : LatLng) (seen : list (list Lamp))
    (best : option (list Lamp) * option num) : Prop :=
  match best with
  | (Some route, Some distance) =>
      In route seen ∧ distance = routeDistance route startPosition
      ∧ ∀ p, In p seen → fltb (routeDistance p startPosition) distance = false
  | (None, None) => seen = []
  | _ => False
  end.

(** A comparator that subtracts keys, and the order it sorts into. *)
Definition byKey {A} (key : A → num) (x y : A) : num := fsub (key x) (key y).
Definition notAfter {A} (key : A → num) (x y : A) : Prop := fltb (key y) (key x) = false.

(** The cost that [buildCapacityAwareRoutes] sorts the drones by. *)
Definition droneDistance (lamp : Lamp) (drone : Drone) : num :=
  geoDistance (position drone) (lampPoint lamp).

(** From the specification: [drone] is a nearest drone to [lamp] among the
    drones with remaining capacity. *)
Definition nearestAvailable (activeDrones : list Drone) (capacityByDrone : gmap string Z)
    (lamp : Lamp) (drone : Drone) : Prop :=
  In drone activeDrones
  ∧ 0 < capacityOf capacityByDrone (drone_id drone)
  ∧ ∀ other, In other activeDrones →
      0 < capacityOf capacityByDrone (drone_id other) →
      fltb (droneDistance lamp other) (droneDistance lamp drone) = false.

(** From the specification: the capacity-aware assignment.  For each point
    in input order the point goes to a nearest drone with remaining capacity,
    whose capacity is decremented; a point for which every drone is at zero
    capacity is left out. *)
Inductive assignsByCapacity (activeDrones : list Drone)
  : list Lamp → gmap string (list Lamp) * gmap string Z
    → gmap string (list Lamp) * gmap string Z → Prop :=
  | assigns_nil st : assignsByCapacity activeDrones [] st st
  | assigns_skip lamp lamps st st' :
      (∀ drone, In drone activeDrones → capacityOf st.2 (drone_id drone) ≤ 0) →
      assignsByCapacity activeDrones lamps st st' →
      assignsByCapacity activeDrones (lamp :: lamps) st st'
  | assigns_nearest lamp lamps st drone st' :
      nearestAvailable activeDrones st.2 lamp drone →
      assignsByCapacity activeDrones lamps
        (alter (λ assigned, assigned ++ [lamp]) (drone_id drone) st.1,
         <[drone_id drone := capacityOf st.2 (drone_id drone) - 1]> st.2)
        st' →
      assignsByCapacity activeDrones (lamp :: lamps) st st'.

(** The lamps handed to a drone. *)
Definition assignedTo (assignedByDrone : gmap string (list Lamp)) (drone : Drone) : list Lamp :=
  default [] (assignedByDrone !! drone_id drone).

(** What holds of [(assignedByDrone, capacityByDrone)] all along the
    assignment: every active drone has its list, what a drone id was handed
    plus what it can still take is its initial capacity, and no capacity is
    negative. *)
Definition capacityInvariant (activeDrones : list Drone) (capacity0 : gmap string Z)
    (st : gmap string (list Lamp) * gmap string Z) : Prop :=
  (∀ drone, In drone activeDrones → is_Some (st.1 !! drone_id drone))
  ∧ (∀ id, Z.of_nat (length (default [] (st.1 !! id))) + capacityOf st.2 id
           = capacityOf capacity0 id)
  ∧ (∀ id, 0 ≤ capacityOf st.2 id).

(** The number of lamps handed out to the active drones. *)
Definition totalAssigned (activeDrones : list Drone) (assignedByDrone : gmap string (list Lamp))
    : nat :=
  sum_list (map (λ drone, length (assignedTo assignedByDrone drone)) activeDrones).

(** State of the 2-opt search that started from [route0]. *)
Definition twoOptState (startPosition : LatLng) (route0 : list Lamp)
    (st : list Lamp * num * bool) : Prop :=
  st.1.1 ≡ₚ route0 ∧ st.1.2 = routeDistance st.1.1 startPosition.

(** Progress of a pass from [(route, distance, false)]. *)
Definition twoOptProgress (distance : num) (st0 st : list Lamp * num * bool) : Prop :=
  (st.2 = false ∧ st = st0) ∨ (st.2 = true ∧ fltb st.1.2 distance = true).










(** The range that the specification gives for the container stock. *)
Definition containerRange (s : State) : Prop :=
  ∀ d, d ∈ drones s → 0 ≤ containerLampsRemaining d ≤ LAMPS_PER_CONTAINER.

(** The low-battery interruption as the specification words it: at the end
    of the tick the queue is empty, the target is cleared, the drone is
    [enroute] and the lamps are as they were. *)
Definition lowBatteryClaim (now : Z) (draws : Draws) (missionRef : nat) (s : State)
    (w : Worker) : Prop :=
  ∀ drone target,
    drones s !! w_drone w = Some drone →
    w_completed w = false →
    isOperational drone = true →
    battery drone ≤ RETURN_TO_DOCK_BATTERY_THRESHOLD →
    w_targetLampId w = Some target →
    drone_status drone ≠ replacing →
    let result := workerTick now draws missionRef s w in
    queue result.2 = []
    ∧ w_targetLampId result.2 = None
    ∧ lamps result.1 = lamps s
    ∧ ∃ drone',
        drones result.1 !! w_drone w = Some drone'
        ∧ targetLampId drone' = None
        ∧ drone_status drone' = enroute.

(** What the cooldown and the plan cursors of the automatic dispatch are
    read from. *)
Definition dispatchCursor (s : State) : bool * Z * gmap string nat :=
  (autoServiceEnabled s, lastAutoDispatchAt s, autoServiceProgress s).

(** [tryAutoServiceDispatch] gets as far as creating a mission, and the
    start of that mission fails. *)
Definition autoStartFails (now : Z) (s : State) : Prop :=
  ∃ dispatch statusCode error,
    autoDispatchAttempt now s = Some dispatch
    ∧ let created :=
        createMission now (ad_routeLampIds dispatch) None (Some (ad_droneRoutes dispatch))
          (Some auto_service) s in
      (tryStartMission now (Some created.2) created.1).2 = StartFailed statusCode error.

(** The failure path as the specification words it: cursors kept, failure
    logged, and no attempt until the cooldown has elapsed. *)
Definition autoFailureClaim (now : Z) (s : State) : Prop :=
  autoStartFails now s →
  let s' := tryAutoServiceDispatch now s in
  autoServiceProgress s' = autoServiceProgress s
  ∧ (∃ entry, last (logs s') = Some entry ∧ log_type entry = "error")
  ∧ ∀ later, now ≤ later < now + AUTO_DISPATCH_COOLDOWN_MS →
      autoDispatchAttempt later s' = None.

(** Whether the guards of the automatic dispatch let an attempt through. *)
Definition attempts (now : Z) (s : State) : bool :=
  match autoDispatchAttempt now s with Some _ => true | None => false end.

(** ** Dispatch without double assignment *)

(** The stops of a mission that it has not completed. *)
Definition pendingLampIds (m : Mission) : list Z :=
  filter (λ lampId, lampId ∉ completedLampIds m) (routeLampIds m).

(** [drone] is flying to [lampId] or replacing its cassette. *)
Definition activeTarget (drone : Drone) (lampId : Z) : Prop :=
  (drone_status drone = enroute ∨ drone_status drone = replacing)
  ∧ targetLampId drone = Some lampId.

(** What makes a lamp occupied for a dispatch decision that leaves out the
    missions with id [exclude]: it is a pending stop of another running
    mission, or the target of a drone that is flying or replacing. *)
Definition occupiedIn (s : State) (exclude : option string) (x : Z) : Prop :=
  (∃ m, m ∈ missions s ∧ Some (mission_id m) ≠ exclude ∧ mission_status m = running
        ∧ x ∈ pendingLampIds m)
  ∨ (∃ d, d ∈ drones s ∧ activeTarget d x).

(** No lamp is a pending stop of two running missions.  Missions are named
    by their references, which stay the same when a mission is added. *)
Definition pendingDisjoint (s : State) : Prop :=
  ∀ ref1 ref2 m1 m2 lampId,
    ref1 ≠ ref2 →
    missionAt s ref1 = Some m1 → missionAt s ref2 = Some m2 →
    mission_status m1 = running → mission_status m2 = running →
    lampId ∈ pendingLampIds m1 → lampId ∉ pendingLampIds m2.

(** No two missions have the same id: no two were created in the same
    millisecond. *)
Definition idsDistinct (s : State) : Prop := NoDup (map mission_id (missions s)).

Definition dispatchInvariant (s : State) : Prop := pendingDisjoint s ∧ idsDistinct s.

(** A mission after a step that starts nothing: the same id, and when it is
    running it was running and has no new pending stop. *)
Definition missionShrinks (m m' : Mission) : Prop :=
  mission_id m' = mission_id m
  ∧ (mission_status m' = running →
     mission_status m = running ∧ ∀ x, x ∈ pendingLampIds m' → x ∈ pendingLampIds m).

Definition missionsShrink (s s' : State) : Prop :=
  Forall2 missionShrinks (missions s) (missions s').

(** The clock value from which an event may make a mission id. *)
Definition createsAt (e : Event) : option Z :=
  match e with
  | GlobalTimer now | FailLamp now _ | PlanMission now _ => Some now
  | _ => None
  end.

(** The id that [e] would give to a mission is not in use. *)
Definition clockFresh (e : Event) (s : State) : bool :=
  match createsAt e with
  | Some now => bool_decide ("M-" +:+ pretty now ∉ map mission_id (missions s))
  | None => true
  end.

(** The drones among which an event may dispatch. *)
Definition dispatchFleet (e : Event) (s : State) : list Drone :=
  match e with
  | GlobalTimer now => drones (ensureDroneCoverageForAllDocks now s)
  | _ => drones s
  end.

(** The drones among which [e] may dispatch have distinct ids. *)
Definition fleetDistinct (e : Event) (s : State) : bool :=
  bool_decide (NoDup (map drone_id (dispatchFleet e s))).

(** A run of the engine, and what is asked of the clock and of the drone
    ids along it. *)
Definition engineRun (events : list Event) (s : State) : State :=
  foldl (λ s e, engineStep e s) s events.

Fixpoint freshRun (events : list Event) (s : State) : bool :=
  match events with
  | [] => true
  | e :: rest => clockFresh e s && fleetDistinct e s && freshRun rest (engineStep e s)
  end.

(** A state in which nothing has been planned or started yet. *)
Definition freshStart (s : State) : bool :=
  match missions s, timers s with
  | [], [] => forallb (λ d, bool_decide (targetLampId d = None)) (drones s)
  | _, _ => false
  end.

(** The invariant as the specification words it: a lamp in [replace]
    is in the route of at most one running mission and is the target of at
    most one drone. *)
Definition lampNeedsReplacement (s : State) (lampId : Z) : bool :=
  match findLamp s lampId with
  | Some lamp => bool_decide (lamp_status lamp = lamp_replace)
  | None => false
  end.

Definition routeReferences (s : State) (lampId : Z) : nat :=
  length (List.filter
            (λ m, bool_decide (mission_status m = running)
                  && bool_decide (lampId ∈ routeLampIds m))
            (missions s)).

Definition targetReferences (s : State) (lampId : Z) : nat :=
  length (List.filter (λ d, bool_decide (targetLampId d = Some lampId)) (drones s)).

Definition noDoubleAssignment (s : State) : Prop :=
  ∀ lampId, lampNeedsReplacement s lampId = true →
    (routeReferences s lampId ≤ 1)%nat ∧ (targetReferences s lampId ≤ 1)%nat.

(** ** The workers and the targets of the drones *)

(** The lamps a worker still means to visit: its target and its queue. *)
Definition workerStops (w : Worker) : list Z :=
  match w_targetLampId w with Some lampId => [lampId] | None => [] end ++ queue w.

(** The workers of a timer share no stop, and no worker has a stop twice. *)
Definition workersDisjoint (workers : list Worker) : Prop :=
  (∀ w, w ∈ workers → NoDup (workerStops w))
  ∧ ∀ p q wp wq x,
      workers !! p = Some wp → workers !! q = Some wq →
      x ∈ workerStops wp → x ∈ workerStops wq → p = q.

(** What holds of the timer at index [t]: its mission has been started,
    and as long as the timer has not been cleared the mission is running,
    is registered under its id with this timer, and the stops of the workers
    are distinct pending stops of the mission. *)
Definition timerInvariant (s : State) (t : nat) (timer : Timer) : Prop :=
  ∃ m, missionAt s (timer_mission timer) = Some m
       ∧ mission_status m ≠ planned
       ∧ (timer_cleared timer = false →
          mission_status m = running
          ∧ activeMissionTimers s !! mission_id m = Some t
          ∧ workersDisjoint (timer_workers timer)
          ∧ ∀ w x, w ∈ timer_workers timer → x ∈ workerStops w → x ∈ pendingLampIds m).

(** The target of a drone is the target of a worker of a live timer that
    flies this drone. *)
Definition targetsWitnessed (tm : list Timer) (s : State) : Prop :=
  ∀ i d x,
    drones s !! i = Some d → targetLampId d = Some x →
    ∃ t timer w,
      tm !! t = Some timer ∧ timer_cleared timer = false
      ∧ w ∈ timer_workers timer ∧ w_drone w = i ∧ w_targetLampId w = Some x.

(** The invariant of the mission engine; [tm] is the list of timers, which
    in the middle of a tick is ahead of [timers s]. *)
Definition fleetInvariant (tm : list Timer) (s : State) : Prop :=
  NoDup (map timer_mission tm)
  ∧ (∀ t timer, tm !! t = Some timer → timerInvariant s t timer)
  ∧ targetsWitnessed tm s
  ∧ (∀ r m, missionAt s r = Some m → mission_status m = planned → completedLampIds m = []).

(** No two drones have the same target lamp. *)
Definition targetsDistinct (s : State) : Prop :=
  ∀ i j di dj x,
    i ≠ j → drones s !! i = Some di → drones s !! j = Some dj →
    targetLampId di = Some x → targetLampId dj ≠ Some x.

(** What one worker's tick does, as far as targets, stops and missions go. *)
Definition workerEffect (missionRef : nat) (s : State) (w : Worker) (s' : State) (w' : Worker)
    : Prop :=
  w_drone w' = w_drone w
  ∧ activeMissionTimers s' = activeMissionTimers s
  ∧ (∀ d' x,
       drones s' !! w_drone w = Some d' → targetLampId d' = Some x →
       w_targetLampId w' = Some x
       ∨ (w_targetLampId w' = w_targetLampId w
          ∧ ∃ d, drones s !! w_drone w = Some d ∧ targetLampId d = Some x))
  ∧ ((missions s' = missions s ∧ workerStops w' `sublist_of` workerStops w)
     ∨ ∃ x,
         w_targetLampId w = Some x ∧ workerStops w' = queue w
         ∧ missions s'
           = missions (updMission missionRef
                         (λ m, mission_with_completedLampIds (completedLampIds m ++ [x]) m) s)).

(** Between [s] and [s'] no drone has been given a target. *)
Definition targetsKept (s s' : State) : Prop :=
  ∀ i d' x,
    drones s' !! i = Some d' → targetLampId d' = Some x →
    ∃ d, drones s !! i = Some d ∧ targetLampId d = Some x.

(** The point a route leaves from on its way to stop [i]: the start
    position, or the stop before. *)
Definition stopBefore (startPosition : LatLng) (route : list Lamp) (i : nat) : LatLng :=
  match i with
  | O => startPosition
  | S j => default startPosition (lampPoint <$> route !! j)
  end.

(** The cost of putting [lamp] at position [k] of [route], as
    [bestInsertionDelta] computes it. *)
Definition insertionDelta (route : list Lamp) (lamp : Lamp) (startPosition : LatLng)
    (k : nat) : num :=
  let prev := stopBefore startPosition route k in
  match route !! k with
  | Some next =>
      fsub (fadd (geoDistance prev (lampPoint lamp))
                 (geoDistance (lampPoint lamp) (lampPoint next)))
           (geoDistance prev (lampPoint next))
  | None => fsub (fadd (geoDistance prev (lampPoint lamp)) fzero) fzero
  end.

(** ** What every event preserves *)

(** The two random draws of a completed replacement are within the ranges
    of [Math.round(Math.random() * 12)] and [Math.round(Math.random() * 2)]. *)
Definition drawsInRange (draws : Draws) : Prop :=
  0 ≤ drawEnergy draws ≤ 12 ∧ 0 ≤ drawBattery draws ≤ 2.

Definition drawsValid (e : Event) : Prop :=
  match e with
  | MissionTimer _ draws _ => ∀ index, drawsInRange (draws index)
  | _ => True
  end.

(** A lamp is lit, holds a cassette and draws 100 to 112 W exactly when its
    status is [ok]; otherwise it is off and draws nothing. *)
Definition lampConsistent (l : Lamp) : Prop :=
  if bool_decide (lamp_status l = lamp_ok)
  then powerOn l = true ∧ cassettePresent l = true ∧ 100 ≤ energyW l ≤ 112
  else powerOn l = false ∧ energyW l = 0.

(** The battery of a drone is between 20 and 100, its count of pending
    container operations is not negative, and a drone in [servicing] has a
    service deadline and at least one pending operation. *)
Definition droneSound (d : Drone) : Prop :=
  20 ≤ battery d ≤ 100
  ∧ 0 ≤ pendingContainerOps d
  ∧ (drone_status d = servicing → is_Some (serviceEndsAt d) ∧ 1 ≤ pendingContainerOps d).

(** The order in which a mission goes through its statuses. *)
Definition statusRank (st : MissionStatus) : nat :=
  match st with planned => 0 | running => 1 | completed => 2 end.

(** How an event may change a lamp, a dock, a drone and a mission; [valid]
    says that the draws of the event are in range. *)
Definition lampEvolves (valid : Prop) (l l' : Lamp) : Prop :=
  lamp_id l' = lamp_id l ∧ lamp_name l' = lamp_name l
  ∧ lamp_lat l' = lamp_lat l ∧ lamp_lng l' = lamp_lng l
  ∧ ambientTemp l' = ambientTemp l
  ∧ (valid → lampConsistent l → lampConsistent l').

Definition dockEvolves (k k' : Dock) : Prop :=
  dock_id k' = dock_id k ∧ dock_name k' = dock_name k
  ∧ dock_lat k' = dock_lat k ∧ dock_lng k' = dock_lng k
  ∧ (0 ≤ fullContainers k → 0 ≤ emptyContainers k →
     0 ≤ fullContainers k' ∧ 0 ≤ emptyContainers k').

Definition droneEvolves (valid : Prop) (d d' : Drone) : Prop :=
  drone_id d' = drone_id d ∧ isOperational d' = isOperational d
  ∧ (valid → droneSound d → droneSound d').

Definition missionAdvances (m m' : Mission) : Prop :=
  mission_id m' = mission_id m ∧ mission_source m' = mission_source m
  ∧ createdAt m' = createdAt m
  ∧ (statusRank (mission_status m) ≤ statusRank (mission_status m'))%nat
  ∧ completedLampIds m `prefix_of` completedLampIds m'
  ∧ (mission_status m ≠ planned →
     routeLampIds m' = routeLampIds m ∧ droneRoutes m' = droneRoutes m).

(** The cursor of a drone in the auto-service plan. *)
Definition progressOf (s : State) (droneId : string) : nat :=
  default 0%nat (autoServiceProgress s !! droneId).

(** How an event may change the state: lamps and docks stay in place and
    keep what identifies them; a drone keeps its place, its id and its
    operational flag, and a new drone is operational; a mission keeps its
    reference and advances; the log and the plan cursors only grow. *)
Definition evolves (valid : Prop) (s s' : State) : Prop :=
  Forall2 (lampEvolves valid) (lamps s) (lamps s')
  ∧ Forall2 dockEvolves (docks s) (docks s')
  ∧ (∀ j, match drones s !! j, drones s' !! j with
          | Some d, Some d' => droneEvolves valid d d'
          | Some _, None => False
          | None, Some d' => isOperational d' = true ∧ (valid → droneSound d')
          | None, None => True
          end)
  ∧ (∀ ref m, missionAt s ref = Some m →
       ∃ m', missionAt s' ref = Some m' ∧ missionAdvances m m')
  ∧ logs s `prefix_of` logs s'
  ∧ ∀ droneId, (progressOf s droneId ≤ progressOf s' droneId)%nat.

End Predicates.

(** * Properties *)

Section Properties.
Context {Num : JsNumber} {Geo : Geometry} {Laws : JsNumberLaws}.

(** ** The permutation generator *)

Lemma permutations_rec_sound {A} (n : nat) (items p : list A) :
  In p (permutations_rec n items) → p ≡ₚ items.
Proof.
  revert items p. induction n as [|n IH]; intros items p Hin; simpl in Hin.
  - destruct Hin as [<-|[]]. reflexivity.
  - destruct (decide (length items ≤ 1)%nat) as [Hle|Hgt].
    + destruct Hin as [<-|[]]. reflexivity.
    + apply in_flat_map in Hin as (index & _ & Hin).
      destruct (items !! index) as [current|] eqn:Hcur; [|destruct Hin].
      apply in_map_iff in Hin as (tail & <- & Htail).
      apply IH in Htail. rewrite Htail, <- delete_take_drop.
      symmetry. by apply delete_Permutation.
Qed.

Lemma permutations_rec_complete {A} (n : nat) (items p : list A) :
  (length items ≤ n)%nat → p ≡ₚ items → In p (permutations_rec n items).
Proof.
  revert items p. induction n as [|n IH]; intros items p Hlen Hperm; simpl.
  - destruct items; [|simpl in Hlen; lia].
    apply Permutation_nil_r in Hperm as ->. by left.
  - destruct (decide (length items ≤ 1)%nat) as [Hle|Hgt].
    + left. destruct items as [|x [|y items]]; [| |simpl in Hle; lia].
      * apply Permutation_nil_r in Hperm. done.
      * apply Permutation_singleton_r in Hperm. done.
    + destruct p as [|x p].
      { symmetry in Hperm. apply Permutation_nil_r in Hperm. subst. simpl in Hgt. lia. }
      assert (Hx : x ∈ items) by (rewrite <- Hperm; left).
      apply list_elem_of_lookup in Hx as [index Hx].
      apply in_flat_map. exists index. split.
      * apply in_seq. apply lookup_lt_Some in Hx. lia.
      * rewrite Hx. apply in_map. apply IH.
        -- rewrite <- delete_take_drop, length_delete by eauto. lia.
        -- rewrite <- delete_take_drop. apply (Permutation_cons_inv (a := x)).
           rewrite Hperm. by apply delete_Permutation.
Qed.

Lemma permutations_spec {A} (items p : list A) :
  In p (permutations items) ↔ p ≡ₚ items.
Proof.
  split.
  - apply permutations_rec_sound.
  - by apply permutations_rec_complete.
Qed.

(** ** Exact routes for up to eight lamps *)

Lemma bruteForceStep_keeps startPosition seen best route :
  route ≠ [] →
  bestSoFar startPosition seen best →
  bestSoFar startPosition (seen ++ [route]) (bruteForceStep startPosition best route).
Proof.
  intros Hne Hinv. destruct route as [|first rest]; [done|].
  unfold bruteForceStep.
  change (sumLegs (geoDistance startPosition (lampPoint first)) (first :: rest))
    with (routeDistance (first :: rest) startPosition).
  set (route := first :: rest) in *. unfold bestSoFar in *.
  destruct best as [[r|] [d|]]; try done.
  - destruct Hinv as (Hr & -> & Hmin). unfold ltInf, snd.
    destruct (fltb (routeDistance route startPosition) (routeDistance r startPosition)) eqn:Hlt.
    + split; [apply in_app_iff; right; by left|]. split; [done|].
      intros p [Hp|[<-|[]]]%in_app_iff.
      * destruct (fltb (routeDistance p startPosition) (routeDistance route startPosition))
          eqn:Hp'; [|done].
        rewrite <- (Hmin p Hp). symmetry. eapply fltb_trans; eauto.
      * apply fltb_irrefl.
    + split; [apply in_app_iff; by left|]. split; [done|].
      intros p [Hp|[<-|[]]]%in_app_iff; auto.
  - subst seen. unfold ltInf, snd. split; [by left|]. split; [done|].
    intros p [<-|[]]. apply fltb_irrefl.
Qed.

Lemma bruteForce_fold startPosition routes seen best :
  (∀ p, In p routes → p ≠ []) →
  bestSoFar startPosition seen best →
  bestSoFar startPosition (seen ++ routes) (foldl (bruteForceStep startPosition) best routes).
Proof.
  revert seen best. induction routes as [|route routes IH]; intros seen best Hne Hinv.
  - by rewrite app_nil_r.
  - simpl. rewrite (cons_middle route seen routes), app_assoc.
    apply IH.
    + intros p Hp. apply Hne. by right.
    + apply bruteForceStep_keeps; [|done]. apply Hne. by left.
Qed.

Lemma bruteForceBestRoute_exact lamps startPosition :
  bruteForceBestRoute lamps startPosition ≡ₚ lamps
  ∧ ∀ p, p ≡ₚ lamps →
      fltb (routeDistance p startPosition)
        (routeDistance (bruteForceBestRoute lamps startPosition) startPosition) = false.
Proof.
  unfold bruteForceBestRoute. destruct (decide (length lamps ≤ 1)%nat) as [Hle|Hgt].
  - split; [done|]. intros p Hp.
    assert (p = lamps) as ->; [|apply fltb_irrefl].
    destruct lamps as [|x [|y lamps]]; [| |simpl in Hle; lia].
    + by apply Permutation_nil_r.
    + by apply Permutation_singleton_r.
  - pose proof (bruteForce_fold startPosition (permutations lamps) [] (None, None)) as Hfold.
    simpl in Hfold.
    assert (Hne : ∀ p, In p (permutations lamps) → p ≠ []).
    { intros p Hp%permutations_spec ->. symmetry in Hp.
      apply Permutation_nil_r in Hp. subst. simpl in Hgt. lia. }
    specialize (Hfold Hne eq_refl).
    destruct (foldl (bruteForceStep startPosition) (None, None) (permutations lamps))
      as [[r|] [d|]]; simpl in Hfold; try done.
    + destruct Hfold as (Hr & -> & Hmin). simpl. split.
      * by apply permutations_spec.
      * intros p Hp. apply Hmin. by apply permutations_spec.
    + assert (In lamps (permutations lamps)) as Hin by by apply permutations_spec.
      rewrite Hfold in Hin. destruct Hin.
Qed.

(** C4.  For every non-empty list of at most eight lamps and every start
    position, [nearestNeighborRoute] returns a permutation of the lamps, and
    no permutation of the lamps has a shorter path from the start through
    its stops in order. *)
Theorem nearestNeighborRoute_exact lamps startPosition :
  lamps ≠ [] →
  (length lamps ≤ 8)%nat →
  nearestNeighborRoute lamps startPosition ≡ₚ lamps
  ∧ ∀ p, p ≡ₚ lamps →
      fltb (routeDistance p startPosition)
        (routeDistance (nearestNeighborRoute lamps startPosition) startPosition) = false.
Proof.
  intros Hne Hlen. unfold nearestNeighborRoute.
  destruct (decide (length lamps = 0)%nat) as [Hz|_].
  { destruct lamps; [done|discriminate]. }
  destruct (decide (length lamps ≤ MAX_EXACT_POINTS)%nat) as [_|Hgt].
  - apply bruteForceBestRoute_exact.
  - unfold MAX_EXACT_POINTS in Hgt. lia.
Qed.

(** ** Store: references *)

Lemma alterFirst_length {A} (p : A → bool) (f : A → A) (l : list A) :
  length (alterFirst p f l) = length l.
Proof. induction l as [|x l IH]; simpl; [done|]. destruct (p x); simpl; congruence. Qed.

Lemma find_alterFirst {A} (p : A → bool) (f : A → A) (l : list A) (x : A) :
  List.find p l = Some x → p (f x) = true → List.find p (alterFirst p f l) = Some (f x).
Proof.
  intros Hfind Hp. induction l as [|y l IH]; simpl in *; [done|].
  destruct (p y) eqn:Hy.
  - injection Hfind as ->. simpl. by rewrite Hp.
  - simpl. rewrite Hy. auto.
Qed.

Lemma find_none_iff {A} (p : A → bool) (l : list A) :
  List.find p l = None ↔ ∀ x, In x l → p x = false.
Proof.
  split; [apply find_none|]. intros Hall.
  destruct (List.find p l) as [x|] eqn:Hfind; [|done].
  apply find_some in Hfind as [Hin Hp]. rewrite (Hall x Hin) in Hp. done.
Qed.

Lemma findLamp_Some s lampId lamp :
  findLamp s lampId = Some lamp → In lamp (lamps s) ∧ lamp_id lamp = lampId.
Proof.
  intros [Hin Hid]%find_some. split; [done|]. by apply bool_decide_eq_true in Hid.
Qed.

Lemma findLamp_None s lampId :
  findLamp s lampId = None ↔ ∀ lamp, In lamp (lamps s) → lamp_id lamp ≠ lampId.
Proof.
  unfold findLamp. rewrite find_none_iff. split; intros Hall lamp Hin.
  - specialize (Hall lamp Hin). by apply bool_decide_eq_false in Hall.
  - apply bool_decide_eq_false. auto.
Qed.

Lemma missionAt_updMission ref f s :
  missionAt (updMission ref f s) ref = f <$> missionAt s ref.
Proof.
  unfold missionAt, updMission.
  destruct (decide (ref < length (missions s))%nat) as [Hlt|Hge]; simpl.
  - rewrite length_alter. rewrite decide_True by done.
    unfold missionIndex. rewrite length_alter. by rewrite list_lookup_alter_eq.
  - by rewrite decide_False.
Qed.

Lemma updMission_updMission ref f g s :
  updMission ref f (updMission ref g s) = updMission ref (f ∘ g) s.
Proof.
  unfold updMission.
  destruct (decide (ref < length (missions s))%nat) as [Hlt|Hge]; simpl.
  - rewrite length_alter. rewrite decide_True by done.
    unfold missionIndex, with_missions. simpl. rewrite length_alter.
    by rewrite list_alter_alter_eq.
  - by rewrite decide_False.
Qed.

(** ** C10: marking a lamp for replacement *)

(** C10.  [markLampForReplacement] returns [null] exactly when no lamp has
    the given id, and then leaves the state as it is; when a lamp has the id
    it returns that lamp with status [replace], power off and energy [0],
    whatever its status was (a lamp that is [in_progress] included), and the
    state holds the lamp so changed. *)
Theorem markLampForReplacement_spec now lampId s :
  let result := markLampForReplacement now lampId s in
  (result.2 = None ↔ ∀ lamp, In lamp (lamps s) → lamp_id lamp ≠ lampId)
  ∧ (result.2 = None → result.1 = s)
  ∧ (∀ lamp, findLamp s lampId = Some lamp →
       ∃ marked,
         result.2 = Some marked
         ∧ findLamp result.1 lampId = Some marked
         ∧ lamp_status marked = lamp_replace
         ∧ powerOn marked = false
         ∧ energyW marked = 0
         ∧ lamp_id marked = lamp_id lamp
         ∧ lamp_name marked = lamp_name lamp
         ∧ cassettePresent marked = cassettePresent lamp
         ∧ length (lamps result.1) = length (lamps s)
         ∧ drones result.1 = drones s
         ∧ missions result.1 = missions s).
Proof.
  unfold markLampForReplacement. rewrite <- findLamp_None.
  destruct (findLamp s lampId) as [lamp|] eqn:Hfind; simpl.
  - split; [split; intros; done|]. split; [done|].
    intros ? [= <-]. eexists. split; [done|].
    split.
    { unfold findLamp, updLamp. simpl.
      apply (find_alterFirst _ markedLamp _ _ Hfind). simpl.
      apply findLamp_Some in Hfind as [_ Hid]. by apply bool_decide_eq_true. }
    repeat split; try done.
    apply alterFirst_length.
  - split; [done|]. split; [done|]. intros ? [=].
Qed.

(** A lamp that a drone is working on is put back to [replace] as well. *)
Corollary markLampForReplacement_in_progress now lampId s lamp :
  findLamp s lampId = Some lamp →
  lamp_status lamp = lamp_in_progress →
  ∃ marked,
    findLamp (markLampForReplacement now lampId s).1 lampId = Some marked
    ∧ lamp_status marked = lamp_replace.
Proof.
  intros Hfind _. unfold markLampForReplacement. rewrite Hfind. simpl.
  exists (markedLamp lamp). split; [|done].
  unfold findLamp, updLamp. simpl.
  apply (find_alterFirst _ markedLamp _ _ Hfind). simpl.
  apply findLamp_Some in Hfind as [_ Hid]. by apply bool_decide_eq_true.
Qed.

(** ** Dispatch controller: failures *)

Lemma concat_no_route (routes : list (list Z)) :
  existsb (λ route : list Z, bool_decide (0 < length route)%nat) routes = false →
  concat routes = [].
Proof.
  induction routes as [|route routes IH]; simpl; [done|].
  intros [Hr Hrest]%orb_false_elim. apply bool_decide_eq_false in Hr.
  destruct route; [|simpl in Hr; lia]. simpl. auto.
Qed.

(** The first three checks of [tryStartMission], in their order: a missing
    mission gives 404; a running or completed mission gives 400; with no
    ready drone every drone whose battery is below 100 (whatever its
    status) is set to [charging] and the answer is 409. *)
Lemma tryStartMission_preconditions now missionArg s :
  match missionArg ≫= missionAt s with
  | None => tryStartMission now missionArg s = (s, StartFailed 404 ERR_NOT_FOUND)
  | Some mission =>
      match mission_status mission with
      | running => tryStartMission now missionArg s = (s, StartFailed 400 ERR_RUNNING)
      | completed => tryStartMission now missionArg s = (s, StartFailed 400 ERR_COMPLETED)
      | planned =>
          getReadyDronesForMission s = [] →
          tryStartMission now missionArg s
          = (with_drones (map (sentToCharge s) (drones s)) s, StartFailed 409 ERR_NO_READY)
      end
  end.
Proof.
  unfold tryStartMission.
  destruct (missionArg ≫= missionAt s) as [mission|]; [|done].
  destruct (mission_status mission); simpl; try done.
  by intros ->.
Qed.

Lemma sentToCharge_status s drone :
  drone_status (sentToCharge s drone)
  = if battery drone <? 100 then charging else drone_status drone.
Proof.
  unfold sentToCharge, moveDroneToDockIfAvailable.
  destruct (battery drone <? 100); [|done].
  by destruct (getActiveDock _ _).
Qed.

(** C9.  When [tryStartMission] answers a planned manual mission with the
    no-route failure, the mission is still [planned], but its
    [routeLampIds] is now empty and its [droneRoutes] is the newly computed
    capacity-aware assignment; nothing else in the state has changed, and
    the routes the mission had before the call are gone. *)
Theorem tryStartMission_no_route_not_atomic now ref s mission s' :
  missionAt s ref = Some mission →
  mission_source mission = manual →
  mission_status mission = planned →
  tryStartMission now (Some ref) s = (s', StartFailed 400 ERR_NO_ROUTES) →
  let optimized :=
    buildCapacityAwareRoutes (missionLampsOf (lampByIdMap s) (routeLampIds mission))
      (map snd (getReadyDronesForMission s)) in
  let left :=
    mission_with_routeLampIds [] (mission_with_droneRoutes (plan_droneRoutes optimized) mission) in
  s' = updMission ref
         (λ m, mission_with_routeLampIds []
                 (mission_with_droneRoutes (plan_droneRoutes optimized) m)) s
  ∧ missionAt s' ref = Some left
  ∧ mission_status left = planned
  ∧ routeLampIds left = []
  ∧ droneRoutes left = plan_droneRoutes optimized.
Proof.
  intros Hm Hsrc Hst Hrun optimized left.
  assert (Hs' : s' = updMission ref (λ m, mission_with_routeLampIds []
                              (mission_with_droneRoutes (plan_droneRoutes optimized) m)) s).
  { unfold tryStartMission in Hrun. simpl in Hrun. rewrite Hm in Hrun.
    rewrite Hst, Hsrc in Hrun. simpl in Hrun.
    destruct (getReadyDronesForMission s) as [|rd ready] eqn:Hready; [done|].
    fold optimized in Hrun.
    destruct (existsb _ _) eqn:Hany in Hrun; unfold negb in Hrun; cbv iota in Hrun.
    - destruct (List.filter _ _) in Hrun; [|done].
      injection Hrun as _ Herr. discriminate Herr.
    - injection Hrun as <-. rewrite (concat_no_route _ Hany).
      rewrite updMission_updMission. done. }
  split; [done|]. split; [|done].
  rewrite Hs', missionAt_updMission, Hm. done.
Qed.

(** ** Order and sorting *)

Lemma fltb_asym x y : fltb x y = true → fltb y x = false.
Proof.
  intros Hxy. destruct (fltb y x) eqn:Hyx; [|done].
  rewrite <- (fltb_irrefl x). symmetry. eapply fltb_trans; eauto.
Qed.

Section sorting.
Context {A : Type} (key : A → num).


Lemma sortInsert_perm x l : sortInsert (byKey key) x l ≡ₚ x :: l.
Proof.
  induction l as [|y l IH]; simpl; [done|].
  destruct (fltb _ _); [done|]. rewrite IH. apply perm_swap.
Qed.

Lemma jsSort_perm_acc l acc : foldl (λ sorted x, sortInsert (byKey key) x sorted) acc l ≡ₚ acc ++ l.
Proof.
  revert acc. induction l as [|x l IH]; intros acc; simpl.
  - by rewrite app_nil_r.
  - rewrite IH, sortInsert_perm. simpl. apply Permutation_middle.
Qed.

Lemma jsSort_perm l : jsSort (byKey key) l ≡ₚ l.
Proof. apply (jsSort_perm_acc l []). Qed.

Lemma sortInsert_sorted x l :
  StronglySorted (notAfter key) l → StronglySorted (notAfter key) (sortInsert (byKey key) x l).
Proof.
  induction 1 as [|y l Hsorted IH Hy]; simpl.
  - repeat constructor.
  - unfold byKey at 1. rewrite fsub_neg.
    destruct (fltb (key x) (key y)) eqn:Hxy.
    + constructor; [by constructor|].
      constructor; [by apply fltb_asym|].
      eapply Forall_impl; [exact Hy|]. intros z Hz. unfold notAfter in *.
      destruct (fltb (key z) (key x)) eqn:Hzx; [|done].
      rewrite <- Hz. symmetry. eapply fltb_trans; eauto.
    + constructor; [done|].
      rewrite (sortInsert_perm x l). by constructor.
Qed.

Lemma jsSort_sorted_acc l acc :
  StronglySorted (notAfter key) acc →
  StronglySorted (notAfter key) (foldl (λ sorted x, sortInsert (byKey key) x sorted) acc l).
Proof.
  revert acc. induction l as [|x l IH]; intros acc Hacc; simpl; [done|].
  apply IH. by apply sortInsert_sorted.
Qed.

Lemma jsSort_sorted l : StronglySorted (notAfter key) (jsSort (byKey key) l).
Proof. apply jsSort_sorted_acc. constructor. Qed.

Lemma find_sorted_first (p : A → bool) l x :
  StronglySorted (notAfter key) l →
  List.find p l = Some x →
  ∀ y, In y l → p y = true → fltb (key y) (key x) = false.
Proof.
  induction 1 as [|z l Hsorted IH Hz]; simpl; [done|].
  destruct (p z) eqn:Hpz.
  - intros [= ->] y [<-|Hy] _; [apply fltb_irrefl|].
    rewrite Forall_forall in Hz. apply Hz. by apply list_elem_of_In.
  - intros Hfind y [<-|Hy] Hpy; [congruence|]. by apply IH.
Qed.

End sorting.

(** ** Maps built from pairs *)
Section newMap.
Context `{Countable K} {V : Type}.
Implicit Types (pairs : list (K * V)) (m : gmap K V).

Lemma foldl_insert_notin pairs m k :
  k ∉ map fst pairs → foldl (λ m kv, <[kv.1 := kv.2]> m) m pairs !! k = m !! k.
Proof.
  revert m. induction pairs as [|[k' v'] pairs IH]; intros m Hk; simpl; [done|].
  rewrite IH.
  - apply lookup_insert_ne. intros ->. apply Hk. simpl. left.
  - intros Hin. apply Hk. simpl. by right.
Qed.

Lemma foldl_insert_Some pairs m k v :
  foldl (λ m kv, <[kv.1 := kv.2]> m) m pairs !! k = Some v → In (k, v) pairs ∨ m !! k = Some v.
Proof.
  revert m. induction pairs as [|[k' v'] pairs IH]; intros m; simpl; [auto|].
  intros [Hin|Hm]%IH; [auto|].
  destruct (decide (k' = k)) as [->|Hne].
  - rewrite lookup_insert_eq in Hm. injection Hm as ->. auto.
  - rewrite lookup_insert_ne in Hm by done. auto.
Qed.

Lemma foldl_insert_is_Some pairs m k :
  k ∈ map fst pairs ∨ is_Some (m !! k) →
  is_Some (foldl (λ m kv, <[kv.1 := kv.2]> m) m pairs !! k).
Proof.
  revert m. induction pairs as [|[k' v'] pairs IH]; intros m; simpl.
  - intros [Hin|Hm]; [|done]. by apply elem_of_nil in Hin.
  - intros [Hin|Hm]; apply IH.
    + apply elem_of_cons in Hin as [->|Hin]; [right|by left].
      rewrite lookup_insert_eq. eauto.
    + right. destruct (decide (k' = k)) as [->|Hne].
      * rewrite lookup_insert_eq. eauto.
      * by rewrite lookup_insert_ne.
Qed.

Lemma newMap_lookup_NoDup pairs k v :
  NoDup (map fst pairs) → In (k, v) pairs → newMap pairs !! k = Some v.
Proof.
  unfold newMap. generalize (∅ : gmap K V).
  induction pairs as [|[k' v'] pairs IH]; intros m Hnd Hin; simpl; [destruct Hin|].
  apply NoDup_cons in Hnd as [Hk' Hnd].
  destruct Hin as [[= -> ->]|Hin].
  - rewrite foldl_insert_notin by done. apply lookup_insert_eq.
  - by apply IH.
Qed.

Lemma newMap_lookup_Some pairs k v : newMap pairs !! k = Some v → In (k, v) pairs.
Proof.
  intros [Hin|Hm]%foldl_insert_Some; [done|]. by rewrite lookup_empty in Hm.
Qed.

Lemma newMap_is_Some pairs k : k ∈ map fst pairs → is_Some (newMap pairs !! k).
Proof. intros Hk. apply foldl_insert_is_Some. by left. Qed.

End newMap.

(** ** Capacity-aware assignment *)

Lemma assignLamp_spec activeDrones st lamp :
  ((∀ drone, In drone activeDrones → capacityOf st.2 (drone_id drone) ≤ 0)
   ∧ assignLamp activeDrones st lamp = st)
  ∨ (∃ drone,
       nearestAvailable activeDrones st.2 lamp drone
       ∧ assignLamp activeDrones st lamp
         = (alter (λ assigned, assigned ++ [lamp]) (drone_id drone) st.1,
            <[drone_id drone := capacityOf st.2 (drone_id drone) - 1]> st.2)).
Proof.
  destruct st as [assigned capacity]. unfold assignLamp.
  change (jsSort _ activeDrones) with (jsSort (byKey (droneDistance lamp)) activeDrones).
  pose proof (jsSort_perm (droneDistance lamp) activeDrones) as Hperm.
  pose proof (jsSort_sorted (droneDistance lamp) activeDrones) as Hsorted.
  destruct (List.find _ _) as [drone|] eqn:Hfind.
  - right. exists drone. split; [|done].
    pose proof (find_some _ _ Hfind) as [Hin Hcap].
    split; [|split].
    + apply list_elem_of_In. rewrite <- Hperm. by apply list_elem_of_In.
    + simpl. by apply Z.ltb_lt.
    + intros other Hother Hcap'.
      eapply (find_sorted_first _ _ _ _ Hsorted Hfind).
      * apply list_elem_of_In. rewrite Hperm. by apply list_elem_of_In.
      * by apply Z.ltb_lt.
  - left. split; [|done]. intros drone Hin. simpl.
    assert (In drone (jsSort (byKey (droneDistance lamp)) activeDrones)) as Hin'.
    { apply list_elem_of_In. rewrite Hperm. by apply list_elem_of_In. }
    pose proof (find_none _ _ Hfind _ Hin') as Hcap. simpl in Hcap.
    apply Z.ltb_ge in Hcap. done.
Qed.

Lemma assignLamps_refine activeDrones lamps st :
  assignsByCapacity activeDrones lamps st (foldl (assignLamp activeDrones) st lamps).
Proof.
  revert st. induction lamps as [|lamp lamps IH]; intros st; simpl; [constructor|].
  destruct (assignLamp_spec activeDrones st lamp) as [[Hnone ->]|(drone & Hnear & ->)].
  - by apply assigns_skip.
  - by eapply assigns_nearest.
Qed.


Lemma capacityOf_insert capacity id v id' :
  capacityOf (<[id := v]> capacity) id' = if decide (id = id') then v else capacityOf capacity id'.
Proof.
  unfold capacityOf. destruct (decide (id = id')) as [->|Hne].
  - by rewrite lookup_insert_eq.
  - by rewrite lookup_insert_ne.
Qed.

Lemma assigned_alter (assigned : gmap string (list Lamp)) id lamp id' :
  is_Some (assigned !! id) →
  default [] (alter (λ l, l ++ [lamp]) id assigned !! id')
  = if decide (id = id') then default [] (assigned !! id') ++ [lamp]
    else default [] (assigned !! id').
Proof.
  intros [l Hl]. destruct (decide (id = id')) as [<-|Hne].
  - rewrite lookup_alter_eq, Hl. done.
  - by rewrite lookup_alter_ne.
Qed.

Lemma assignLamp_capacityInvariant activeDrones capacity0 st lamp :
  capacityInvariant activeDrones capacity0 st →
  capacityInvariant activeDrones capacity0 (assignLamp activeDrones st lamp).
Proof.
  intros (Hdom & Hsum & Hpos).
  destruct (assignLamp_spec activeDrones st lamp) as [[_ ->]|(drone & Hnear & ->)]; [done|].
  destruct Hnear as (Hin & Hcap & _). split; [|split]; simpl.
  - intros other Hother. rewrite lookup_alter. destruct (decide _); [|by apply Hdom].
    apply fmap_is_Some. by apply Hdom.
  - intros id. rewrite assigned_alter, capacityOf_insert by by apply Hdom.
    destruct (decide (drone_id drone = id)) as [<-|Hne]; [|apply Hsum].
    rewrite length_app. simpl. specialize (Hsum (drone_id drone)). lia.
  - intros id. rewrite capacityOf_insert. destruct (decide _); [lia|apply Hpos].
Qed.

Lemma getDroneLampCapacity_range drone :
  0 ≤ getDroneLampCapacity drone ≤ LAMPS_PER_CONTAINER.
Proof. unfold getDroneLampCapacity, LAMPS_PER_CONTAINER. lia. Qed.

Lemma initial_capacityInvariant activeDrones :
  capacityInvariant activeDrones (initialAssignment activeDrones).2
    (initialAssignment activeDrones).
Proof.
  split; [|split]; simpl.
  - intros drone Hin. apply newMap_is_Some. rewrite map_map. simpl.
    apply list_elem_of_In. apply in_map_iff. eauto.
  - intros id.
    destruct (newMap (map (λ drone, (drone_id drone, [])) activeDrones) !! id) as [l|] eqn:Hl;
      simpl; [|lia].
    apply newMap_lookup_Some in Hl. apply in_map_iff in Hl as (drone & [= _ <-] & _).
    simpl. lia.
  - intros id. unfold capacityOf.
    destruct (newMap _ !! id) as [c|] eqn:Hc; simpl; [|done].
    apply newMap_lookup_Some in Hc. apply in_map_iff in Hc as (drone & [= _ <-] & _).
    apply getDroneLampCapacity_range.
Qed.

Lemma assignLamps_capacityInvariant activeDrones capacity0 lamps st :
  capacityInvariant activeDrones capacity0 st →
  capacityInvariant activeDrones capacity0 (foldl (assignLamp activeDrones) st lamps).
Proof.
  revert st. induction lamps as [|lamp lamps IH]; intros st Hinv; simpl; [done|].
  apply IH. by apply assignLamp_capacityInvariant.
Qed.

Lemma initial_capacity_NoDup activeDrones drone :
  NoDup (map drone_id activeDrones) → In drone activeDrones →
  capacityOf (initialAssignment activeDrones).2 (drone_id drone) = getDroneLampCapacity drone.
Proof.
  intros Hnd Hin. unfold capacityOf. simpl.
  rewrite (newMap_lookup_NoDup _ (drone_id drone) (getDroneLampCapacity drone)); [done| |].
  - by rewrite map_map.
  - apply in_map_iff. eauto.
Qed.

Lemma assigned_within_capacity lamps activeDrones drone :
  NoDup (map drone_id activeDrones) → In drone activeDrones →
  Z.of_nat (length (assignedTo (assignedLamps lamps activeDrones) drone))
  ≤ getDroneLampCapacity drone.
Proof.
  intros Hnd Hin.
  destruct (assignLamps_capacityInvariant activeDrones _ lamps _
              (initial_capacityInvariant activeDrones)) as (_ & Hsum & Hpos).
  specialize (Hsum (drone_id drone)). specialize (Hpos (drone_id drone)).
  rewrite initial_capacity_NoDup in Hsum by done.
  unfold assignedTo, assignedLamps. lia.
Qed.


(** ** Every route is a permutation of its lamps *)
Lemma nearestIndex_bound current remaining index bestIndex bestDistance :
  (bestIndex < index + length remaining)%nat →
  (nearestIndex current remaining index bestIndex bestDistance < index + length remaining)%nat.
Proof.
  revert index bestIndex bestDistance.
  induction remaining as [|lamp rest IH]; intros index bestIndex bestDistance Hlt; simpl; [done|].
  destruct (ltInf _ _).
  - replace (index + S (length rest))%nat with (S index + length rest)%nat by lia.
    apply IH. lia.
  - replace (index + S (length rest))%nat with (S index + length rest)%nat by lia.
    apply IH. simpl in Hlt. lia.
Qed.

Lemma greedyRoute_perm n remaining current :
  length remaining = n → greedyRoute n remaining current ≡ₚ remaining.
Proof.
  revert remaining current. induction n as [|n IH]; intros remaining current Hlen; simpl.
  - by destruct remaining.
  - pose proof (nearestIndex_bound current remaining 0 0 None) as Hlt.
    simpl in Hlt. specialize (Hlt ltac:(lia)).
    apply lookup_lt_is_Some_2 in Hlt as [nextLamp Hnext]. rewrite Hnext.
    rewrite <- delete_take_drop. rewrite IH.
    + symmetry. by apply delete_Permutation.
    + rewrite length_delete by eauto. lia.
Qed.

Lemma nearestNeighborRoute_perm lamps startPosition :
  nearestNeighborRoute lamps startPosition ≡ₚ lamps.
Proof.
  unfold nearestNeighborRoute.
  destruct (decide (length lamps = 0)%nat) as [Hz|Hnz].
  { by destruct lamps. }
  destruct (decide _).
  - apply bruteForceBestRoute_exact.
  - by apply greedyRoute_perm.
Qed.

(** ** Objects with distinct keys *)
Lemma objSet_fresh {V} (k : string) (v : V) o :
  k ∉ objKeys o → objSet k v o = o ++ [(k, v)].
Proof.
  induction o as [|[k' v'] o IH]; simpl; [done|].
  intros Hk. destruct (decide (k = k')) as [->|Hne].
  - exfalso. apply Hk. left.
  - f_equal. apply IH. intros Hin. apply Hk. by right.
Qed.

Lemma foldl_objSet_NoDup {A V} (key : A → string) (value : A → V) (l : list A) acc :
  NoDup (objKeys acc ++ map key l) →
  foldl (λ o x, objSet (key x) (value x) o) acc l = acc ++ map (λ x, (key x, value x)) l.
Proof.
  revert acc. induction l as [|x l IH]; intros acc Hnd; simpl.
  - by rewrite app_nil_r.
  - simpl in Hnd. rewrite objSet_fresh.
    + rewrite IH.
      * by rewrite <- app_assoc.
      * unfold objKeys. rewrite map_app. simpl. by rewrite <- app_assoc.
    + apply NoDup_app in Hnd as (_ & Hdisj & _). intros Hin.
      apply (Hdisj _ Hin). left.
Qed.

Lemma objGet_map_NoDup {A V} (key : A → string) (value : A → V) (l : list A) x :
  NoDup (map key l) → In x l → objGet (key x) (map (λ x, (key x, value x)) l) = Some (value x).
Proof.
  induction l as [|y l IH]; simpl; [done|].
  intros [Hy Hnd]%NoDup_cons [->|Hin].
  - by rewrite decide_True.
  - rewrite decide_False; [auto|]. intros Heq. apply Hy. rewrite <- Heq.
    apply list_elem_of_In, in_map, Hin.
Qed.


Lemma totalAssigned_alter_notin activeDrones assignedByDrone id lamp :
  id ∉ map drone_id activeDrones →
  totalAssigned activeDrones (alter (λ l, l ++ [lamp]) id assignedByDrone)
  = totalAssigned activeDrones assignedByDrone.
Proof.
  unfold totalAssigned. induction activeDrones as [|drone rest IH]; simpl; [done|].
  intros Hid. rewrite IH by (intros Hin; apply Hid; by right).
  unfold assignedTo. rewrite lookup_alter_ne; [done|].
  intros ->. apply Hid. left.
Qed.

Lemma totalAssigned_alter_in activeDrones assignedByDrone id lamp :
  NoDup (map drone_id activeDrones) →
  id ∈ map drone_id activeDrones →
  is_Some (assignedByDrone !! id) →
  totalAssigned activeDrones (alter (λ l, l ++ [lamp]) id assignedByDrone)
  = S (totalAssigned activeDrones assignedByDrone).
Proof.
  intros Hnd Hin Hsome. induction activeDrones as [|drone rest IH]; simpl in *.
  { by apply elem_of_nil in Hin. }
  apply NoDup_cons in Hnd as [Hfresh Hnd].
  change (totalAssigned (drone :: rest) ?m)
    with (length (assignedTo m drone) + totalAssigned rest m)%nat.
  unfold assignedTo at 1 2. rewrite assigned_alter by done.
  destruct (decide (id = drone_id drone)) as [->|Hne].
  - rewrite totalAssigned_alter_notin by done. rewrite length_app. simpl. lia.
  - apply elem_of_cons in Hin as [?|Hin]; [done|]. rewrite IH by done. lia.
Qed.

Lemma assignLamp_mono activeDrones st lamp id l :
  (∀ drone, In drone activeDrones → is_Some (st.1 !! drone_id drone)) →
  In l (default [] (st.1 !! id)) →
  In l (default [] ((assignLamp activeDrones st lamp).1 !! id)).
Proof.
  intros Hdom Hin.
  destruct (assignLamp_spec activeDrones st lamp) as [[_ ->]|(drone & Hnear & ->)]; [done|].
  simpl. rewrite assigned_alter by (apply Hdom, Hnear).
  destruct (decide _); [|done]. apply in_app_iff. by left.
Qed.

Lemma assignLamps_mono activeDrones capacity0 lamps st id l :
  capacityInvariant activeDrones capacity0 st →
  In l (default [] (st.1 !! id)) →
  In l (default [] ((foldl (assignLamp activeDrones) st lamps).1 !! id)).
Proof.
  revert st. induction lamps as [|lamp lamps IH]; intros st Hinv Hin; simpl; [done|].
  apply IH.
  - by apply assignLamp_capacityInvariant.
  - apply assignLamp_mono; [apply Hinv|done].
Qed.

(** When every drone can still take as many lamps as there are, every lamp
    goes to a drone nearest to it, and all lamps are assigned. *)
Lemma assignLamps_enough_capacity activeDrones capacity0 lamps st :
  capacityInvariant activeDrones capacity0 st →
  NoDup (map drone_id activeDrones) →
  activeDrones ≠ [] →
  (∀ drone, In drone activeDrones →
     Z.of_nat (length lamps) ≤ capacityOf st.2 (drone_id drone)) →
  let st' := foldl (assignLamp activeDrones) st lamps in
  (∀ lamp, In lamp lamps →
     ∃ drone, In drone activeDrones ∧ In lamp (assignedTo st'.1 drone)
       ∧ ∀ other, In other activeDrones →
           fltb (droneDistance lamp other) (droneDistance lamp drone) = false)
  ∧ totalAssigned activeDrones st'.1 = (totalAssigned activeDrones st.1 + length lamps)%nat.
Proof.
  intros Hinv Hnd Hne. revert st Hinv.
  induction lamps as [|lamp lamps IH]; intros st Hinv Hcap; simpl.
  { split; [intros ? []|lia]. }
  destruct (assignLamp_spec activeDrones st lamp) as [[Hnone _]|(drone & Hnear & Hstep)].
  { exfalso. destruct activeDrones as [|d rest]; [done|].
    specialize (Hnone d (or_introl eq_refl)). specialize (Hcap d (or_introl eq_refl)).
    simpl in Hcap. lia. }
  pose proof (assignLamp_capacityInvariant _ _ _ lamp Hinv) as Hinv'.
  rewrite Hstep in *. destruct Hnear as (Hin & Hpos & Hnearest).
  destruct (IH _ Hinv') as [Hall Htotal].
  { intros other Hother. simpl. rewrite capacityOf_insert.
    specialize (Hcap other Hother). simpl in Hcap.
    destruct (decide _) as [Heq|_]; [|lia]. rewrite Heq. lia. }
  split.
  - intros l [<-|Hl]; [|by apply Hall].
    exists drone. split; [done|]. split.
    + unfold assignedTo. eapply assignLamps_mono; [exact Hinv'|]. simpl.
      rewrite assigned_alter by (apply Hinv, Hin). rewrite decide_True by done.
      apply in_app_iff. right. by left.
    + intros other Hother. apply Hnearest; [done|].
      specialize (Hcap other Hother). simpl in Hcap. lia.
  - rewrite Htotal. simpl. rewrite totalAssigned_alter_in; [lia|done| |apply Hinv, Hin].
    apply list_elem_of_In, in_map, Hin.
Qed.

Lemma totalAssigned_routes activeDrones assignedByDrone :
  length
    (concat
       (map (λ drone, map lamp_id (nearestNeighborRoute (assignedTo assignedByDrone drone)
                                     (position drone))) activeDrones))
  = totalAssigned activeDrones assignedByDrone.
Proof.
  unfold totalAssigned. induction activeDrones as [|drone rest IH]; simpl; [done|].
  rewrite length_app, IH, length_map. f_equal.
  apply Permutation_length, nearestNeighborRoute_perm.
Qed.

Lemma buildCapacityAwareRoutes_droneRoutes lamps drones :
  let activeDrones := List.filter isOperational drones in
  NoDup (map drone_id activeDrones) →
  lamps ≠ [] →
  plan_droneRoutes (buildCapacityAwareRoutes lamps drones)
  = map (λ drone,
           (drone_id drone,
            map lamp_id
              (nearestNeighborRoute (assignedTo (assignedLamps lamps activeDrones) drone)
                 (position drone))))
      activeDrones
  ∧ plan_routeLampIds (buildCapacityAwareRoutes lamps drones)
    = concat (objValues (plan_droneRoutes (buildCapacityAwareRoutes lamps drones))).
Proof.
  intros activeDrones Hnd Hne. unfold buildCapacityAwareRoutes. fold activeDrones.
  destruct lamps as [|lamp lamps]; [done|].
  destruct activeDrones as [|drone rest] eqn:Hactive; [done|].
  rewrite <- Hactive in *. simpl. split; [|done].
  rewrite (foldl_objSet_NoDup drone_id
             (λ drone, map lamp_id
                (nearestNeighborRoute
                   (default [] (assignedLamps (lamp :: lamps) activeDrones !! drone_id drone))
                   (position drone)))); done.
Qed.


Lemma totalAssigned_initial activeDrones :
  totalAssigned activeDrones (initialAssignment activeDrones).1 = 0%nat.
Proof.
  destruct (initial_capacityInvariant activeDrones) as (_ & Hsum & _).
  assert (Hzero : ∀ drone, length (assignedTo (initialAssignment activeDrones).1 drone) = 0%nat).
  { intros drone. specialize (Hsum (drone_id drone)). unfold assignedTo. lia. }
  unfold totalAssigned. generalize dependent (initialAssignment activeDrones).1.
  intros m _ Hzero. induction activeDrones as [|x l IH]; simpl; [done|].
  by rewrite Hzero, IH.
Qed.

(** C5.  In [buildCapacityAwareRoutes] (drone ids distinct) the lamps are
    handed out as the specification says: each lamp in input order goes to a
    nearest drone among those with remaining capacity, whose capacity is
    decremented, and drones at zero capacity are passed over; so no drone
    gets more lamps than its initial capacity.  With three lamps and two
    operational drones of capacity 5, each lamp goes to a drone nearest to
    it and the plan holds three lamp ids. *)
Theorem buildCapacityAwareRoutes_nearest_available lamps drones :
  let activeDrones := List.filter isOperational drones in
  let final := foldl (assignLamp activeDrones) (initialAssignment activeDrones) lamps in
  NoDup (map drone_id activeDrones) →
  assignedLamps lamps activeDrones = final.1
  ∧ assignsByCapacity activeDrones lamps (initialAssignment activeDrones) final
  ∧ (∀ drone, In drone activeDrones →
       Z.of_nat (length (assignedTo final.1 drone)) ≤ getDroneLampCapacity drone)
  ∧ (∀ l1 l2 l3 d1 d2,
       lamps = [l1; l2; l3] → drones = [d1; d2] →
       isOperational d1 = true → isOperational d2 = true →
       getDroneLampCapacity d1 = LAMPS_PER_CONTAINER →
       getDroneLampCapacity d2 = LAMPS_PER_CONTAINER →
       length (plan_routeLampIds (buildCapacityAwareRoutes lamps drones)) = 3%nat
       ∧ ∀ lamp, In lamp lamps →
           ∃ drone route,
             In drone drones
             ∧ In lamp (assignedTo final.1 drone)
             ∧ objGet (drone_id drone) (plan_droneRoutes (buildCapacityAwareRoutes lamps drones))
               = Some route
             ∧ In (lamp_id lamp) route
             ∧ ∀ other, In other drones →
                 fltb (droneDistance lamp other) (droneDistance lamp drone) = false).
Proof.
  intros activeDrones final Hnd. split; [done|]. split; [apply assignLamps_refine|].
  split; [intros drone Hin; by apply assigned_within_capacity|].
  intros l1 l2 l3 d1 d2 Hlamps Hdrones Hop1 Hop2 Hc1 Hc2.
  assert (Hactive : activeDrones = drones).
  { unfold activeDrones. rewrite Hdrones. simpl. by rewrite Hop1, Hop2. }
  destruct (assignLamps_enough_capacity activeDrones _ lamps _
              (initial_capacityInvariant activeDrones) Hnd) as [Hall Htotal].
  { rewrite Hactive, Hdrones. done. }
  { intros drone Hin. rewrite initial_capacity_NoDup by done.
    rewrite Hactive, Hdrones in Hin. rewrite Hlamps. simpl.
    destruct Hin as [<-|[<-|[]]]; rewrite ?Hc1, ?Hc2; unfold LAMPS_PER_CONTAINER; lia. }
  fold final in Hall, Htotal. rewrite totalAssigned_initial in Htotal.
  destruct (buildCapacityAwareRoutes_droneRoutes lamps drones Hnd) as [Hroutes Hids].
  { by rewrite Hlamps. }
  fold activeDrones in Hroutes. split.
  - rewrite Hids, Hroutes. unfold objValues. rewrite map_map. simpl.
    rewrite totalAssigned_routes. change (assignedLamps lamps activeDrones) with final.1.
    rewrite Htotal, Hlamps. done.
  - intros lamp Hlamp. destruct (Hall lamp Hlamp) as (drone & Hin & Hassigned & Hnear).
    exists drone. eexists. split; [by rewrite <- Hactive|]. split; [done|].
    split; [|split; [|by rewrite <- Hactive]].
    + rewrite Hroutes. by apply (objGet_map_NoDup drone_id).
    + apply in_map. apply list_elem_of_In. rewrite nearestNeighborRoute_perm.
      by apply list_elem_of_In.
Qed.

(** ** 2-opt *)

Lemma reverseSegment_perm route i j : (i ≤ j)%nat → reverseSegment route i j ≡ₚ route.
Proof.
  intros Hij. unfold reverseSegment. rewrite reverse_Permutation.
  replace (drop (S j) route) with (drop (S j - i) (drop i route))
    by (rewrite drop_drop; f_equal; lia).
  by rewrite !take_drop.
Qed.

Lemma twoOptTry_state startPosition route0 i j st :
  (i ≤ j)%nat → twoOptState startPosition route0 st →
  twoOptState startPosition route0 (twoOptTry startPosition i st j).
Proof.
  intros Hij [Hperm Hdist]. destruct st as [[route distance] improved]. simpl in *.
  unfold twoOptTry. destruct (fltb _ _); [|done].
  split; simpl; [|done]. by rewrite reverseSegment_perm.
Qed.

Lemma twoOptTry_progress startPosition distance st0 i j st :
  st0.1.2 = distance →
  twoOptProgress distance st0 st →
  twoOptProgress distance st0 (twoOptTry startPosition i st j).
Proof.
  intros Hd0 Hprog. destruct st as [[route d] improved]. unfold twoOptTry.
  destruct (fltb _ d) eqn:Hlt; [|done].
  right. split; [done|]. simpl.
  destruct Hprog as [[_ <-]|[_ Hd]]; simpl in *.
  - by subst.
  - eapply fltb_trans; eauto.
Qed.

Lemma foldl_preserves {A B} (P : A → Prop) (f : A → B → A) (l : list B) (a : A) :
  (∀ a x, In x l → P a → P (f a x)) → P a → P (foldl f a l).
Proof.
  revert a. induction l as [|x l IH]; intros a Hstep Ha; simpl; [done|].
  apply IH.
  - intros a' y Hy. apply Hstep. by right.
  - apply Hstep; [by left|done].
Qed.

Lemma twoOptPass_state startPosition route0 len st :
  twoOptState startPosition route0 st →
  twoOptState startPosition route0 (twoOptPass startPosition len st).
Proof.
  unfold twoOptPass. apply foldl_preserves. intros st1 i _.
  apply foldl_preserves. intros st2 j Hj%in_seq.
  apply twoOptTry_state. lia.
Qed.

Lemma twoOptPass_progress startPosition len st0 :
  twoOptProgress st0.1.2 st0 (twoOptPass startPosition len st0) ∨ st0.2 = true.
Proof.
  destruct (st0.2) eqn:Himp; [by right|left].
  unfold twoOptPass.
  apply (foldl_preserves (twoOptProgress st0.1.2 st0)); [|by left].
  intros st1 i _. apply foldl_preserves. intros st2 j _.
  by apply twoOptTry_progress.
Qed.

Lemma twoOptWhile_state fuel startPosition route0 route distance :
  route ≡ₚ route0 → distance = routeDistance route startPosition →
  twoOptWhile fuel startPosition route distance ≡ₚ route0
  ∧ fltb (routeDistance route startPosition)
      (routeDistance (twoOptWhile fuel startPosition route distance) startPosition) = false.
Proof.
  revert route distance. induction fuel as [|fuel IH]; intros route distance Hperm Hdist; simpl.
  { split; [done|apply fltb_irrefl]. }
  pose proof (twoOptPass_state startPosition route0 (length route) (route, distance, false))
    as Hstate.
  destruct (twoOptPass_progress startPosition (length route) (route, distance, false))
    as [Hprog|?]; [|done].
  destruct (twoOptPass _ _ _) as [[route' distance'] improved].
  destruct Hstate as [Hperm' Hdist']; [done|]. simpl in *.
  destruct improved.
  - destruct Hprog as [[? _]|[_ Hlt]]; [done|]. simpl in Hlt.
    destruct (IH route' distance' Hperm' Hdist') as [Hres Hle]. split; [done|].
    destruct (fltb (routeDistance route startPosition) _) eqn:Hcontra; [|done].
    rewrite <- Hle. symmetry. subst. eapply fltb_trans; eauto.
  - destruct Hprog as [[_ [= -> ->]]|[? _]]; [|done].
    split; [done|apply fltb_irrefl].
Qed.






(** ** Mission engine: the low-battery interruption *)

Lemma lookup_updDrone ref f s : drones (updDrone ref f s) !! ref = f <$> drones s !! ref.
Proof. unfold updDrone. simpl. apply list_lookup_alter_eq. Qed.

Lemma lookup_updDrone_ne ref ref' f s :
  ref ≠ ref' → drones (updDrone ref f s) !! ref' = drones s !! ref'.
Proof. intros Hne. unfold updDrone. simpl. by apply list_lookup_alter_ne. Qed.

Lemma drones_addLog now type message payload s :
  drones (addLog now type message payload s) = drones s.
Proof. done. Qed.

Lemma getActiveDock_ext s s' drone drone' :
  docks s' = docks s → homeDockId drone' = homeDockId drone →
  activeDockId drone' = activeDockId drone →
  getActiveDock s' drone' = getActiveDock s drone.
Proof. intros Hd Hh Ha. unfold getActiveDock, boundDockId. by rewrite Hd, Hh, Ha. Qed.

Lemma moveDroneTowards_spec drone target :
  let moved := moveDroneTowards drone target in
  moved.1 = drone_with_position (position moved.1) drone
  ∧ (moved.2 = true → position moved.1 = target).
Proof.
  unfold moveDroneTowards. destruct (fleb _ _); simpl; [|done].
  split; [done|]. intros _. by destruct target.
Qed.

Lemma moveDroneTowards_position drone drone' target :
  position drone' = position drone →
  (moveDroneTowards drone' target).2 = (moveDroneTowards drone target).2
  ∧ position (moveDroneTowards drone' target).1 = position (moveDroneTowards drone target).1.
Proof.
  intros Hpos. unfold moveDroneTowards. rewrite Hpos. by destruct (fleb _ _).
Qed.

Lemma restingStatus_low drone : battery drone < 100 → restingStatus drone = charging.
Proof. intros Hlow. unfold restingStatus. by rewrite (proj2 (Z.ltb_lt _ _) Hlow). Qed.

(** What the return-to-dock step does for a worker whose drone is [drone]. *)
Lemma returnToDock_spec now s w drone :
  drones s !! w_drone w = Some drone →
  let result := returnToDock now s w drone in
  queue result.2 = queue w
  ∧ w_targetLampId result.2 = w_targetLampId w
  ∧ lamps result.1 = lamps s
  ∧ missions result.1 = missions s
  ∧ ∃ drone',
      drones result.1 !! w_drone w = Some drone'
      ∧ battery drone' = battery drone
      ∧ containerLampsRemaining drone' = containerLampsRemaining drone
      ∧ match getActiveDock s drone with
        | None =>
            w_completed result.2 = true
            ∧ targetLampId drone' = None
            ∧ drone_status drone' = restingStatus drone
        | Some dock =>
            let dockPoint := {| lat := dock_lat dock; lng := dock_lng dock |} in
            position drone' = position (moveDroneTowards drone dockPoint).1
            ∧ if (moveDroneTowards drone dockPoint).2
              then w_completed result.2 = true
                   ∧ targetLampId drone' = None
                   ∧ drone_status drone'
                     = (if containerLampsRemaining drone <=? 0 then servicing
                        else restingStatus drone)
              else w_completed result.2 = w_completed w
                   ∧ targetLampId drone' = targetLampId drone
                   ∧ drone_status drone' = enroute
        end.
Proof.
  intros Hdrone. unfold returnToDock.
  destruct (getActiveDock s drone) as [dock|] eqn:Hdock; simpl.
  - destruct (moveDroneTowards_position drone (drone_with_status enroute drone)
                {| lat := dock_lat dock; lng := dock_lng dock |} eq_refl) as [Harr Hpos].
    pose proof (moveDroneTowards_spec (drone_with_status enroute drone)
                  {| lat := dock_lat dock; lng := dock_lng dock |}) as [Hmoved _].
    destruct (moveDroneTowards (drone_with_status enroute drone) _) as [moved arrived] eqn:Hmove.
    simpl in *. rewrite <- Harr, <- Hpos. rewrite Hmoved.
    destruct arrived; simpl.
    + destruct (containerLampsRemaining drone <=? 0) eqn:Hempty; simpl.
      * repeat split. eexists. rewrite !list_lookup_alter_eq, Hdrone. simpl.
        split; [done|]. done.
      * repeat split. eexists. rewrite !list_lookup_alter_eq, Hdrone. simpl.
        split; [done|]. done.
    + repeat split. eexists. rewrite !list_lookup_alter_eq, Hdrone. simpl.
      split; [done|]. done.
  - repeat split. eexists. rewrite !list_lookup_alter_eq, Hdrone. simpl.
    split; [done|]. done.
Qed.

Lemma interruptLowBattery_fires now s w drone target :
  drones s !! w_drone w = Some drone →
  battery drone ≤ RETURN_TO_DOCK_BATTERY_THRESHOLD →
  w_targetLampId w = Some target →
  drone_status drone ≠ replacing →
  ∃ s1,
    interruptLowBattery now s w = (s1, worker_with_targetLampId None (worker_with_queue [] w))
    ∧ lamps s1 = lamps s ∧ missions s1 = missions s ∧ docks s1 = docks s
    ∧ drones s1 !! w_drone w
      = Some (drone_with_status enroute (drone_with_targetLampId None drone)).
Proof.
  intros Hdrone Hbat Htarget Hstatus. unfold interruptLowBattery.
  rewrite Hdrone, Htarget.
  rewrite (proj2 (Z.leb_le _ _) Hbat), bool_decide_true, bool_decide_false by done.
  simpl. eexists. split; [done|]. do 3 (split; [done|]).
  by rewrite lookup_updDrone, drones_addLog, Hdrone.
Qed.

(** C7, as amended.  On a mission tick where an operational drone of an
    unfinished worker has its battery at or below the return threshold, has
    a current target and is not replacing, the worker's queue is emptied,
    the target of the worker and of the drone is cleared and no lamp is
    modified.  The same tick goes on with the return to the dock: when the
    dock is farther than one step the drone is [enroute] and has moved
    towards it; when the drone reaches its dock within this tick, or has no
    dock, the worker is complete and the drone is [servicing] (empty
    container at the dock) or [charging]. *)
Theorem workerTick_low_battery now draws missionRef s w drone target :
  drones s !! w_drone w = Some drone →
  w_completed w = false →
  isOperational drone = true →
  battery drone ≤ RETURN_TO_DOCK_BATTERY_THRESHOLD →
  w_targetLampId w = Some target →
  drone_status drone ≠ replacing →
  let result := workerTick now draws missionRef s w in
  queue result.2 = []
  ∧ w_targetLampId result.2 = None
  ∧ lamps result.1 = lamps s
  ∧ ∃ drone',
      drones result.1 !! w_drone w = Some drone'
      ∧ targetLampId drone' = None
      ∧ match getActiveDock s drone with
        | None => w_completed result.2 = true ∧ drone_status drone' = charging
        | Some dock =>
            let dockPoint := {| lat := dock_lat dock; lng := dock_lng dock |} in
            position drone' = position (moveDroneTowards drone dockPoint).1
            ∧ if (moveDroneTowards drone dockPoint).2
              then w_completed result.2 = true
                   ∧ drone_status drone'
                     = (if containerLampsRemaining drone <=? 0 then servicing else charging)
              else w_completed result.2 = false ∧ drone_status drone' = enroute
        end.
Proof.
  intros Hdrone Hcompleted Hop Hbat Htarget Hstatus result. subst result.
  unfold workerTick. rewrite Hdrone, Hcompleted, Hop. cbn [orb negb].
  destruct (interruptLowBattery_fires now s w drone target)
    as (s1 & Hfire & Hlamps & Hmissions & Hdocks & Hdrone1); [done..|].
  rewrite Hfire. set (w1 := worker_with_targetLampId None (worker_with_queue [] w)).
  change (w_drone w) with (w_drone w1) in Hdrone1 |- *.
  unfold workerStep. rewrite Hdrone1.
  change (w_targetLampId w1) with (@None Z). change (queue w1) with (@nil Z).
  cbv iota.
  set (drone1 := drone_with_status enroute (drone_with_targetLampId None drone)).
  destruct (returnToDock_spec now s1 w1 drone1 Hdrone1)
    as (Hq & Ht & Hl & _ & drone' & Hlookup & _ & _ & Hcases).
  split; [by rewrite Hq|]. split; [by rewrite Ht|]. split; [by rewrite Hl|].
  exists drone'. split; [done|].
  rewrite (getActiveDock_ext s s1 drone drone1 Hdocks eq_refl eq_refl) in Hcases.
  assert (Hlow : battery drone < 100) by (unfold RETURN_TO_DOCK_BATTERY_THRESHOLD in Hbat; lia).
  destruct (getActiveDock s drone) as [dock|].
  - simpl in Hcases. destruct Hcases as [Hpos Hcases].
    destruct (moveDroneTowards_position drone drone1
                {| lat := dock_lat dock; lng := dock_lng dock |} eq_refl) as [Harr Hpos'].
    rewrite Harr, Hpos' in *. simpl.
    destruct ((moveDroneTowards drone _).2).
    + destruct Hcases as (Hc & Htgt & Hst). split; [done|]. split; [done|]. split; [done|].
      rewrite Hst. simpl. by rewrite (restingStatus_low drone1 Hlow).
    + destruct Hcases as (Hc & Htgt & Hst). split; [done|]. split; [done|].
      split; [congruence|done].
  - destruct Hcases as (Hc & Htgt & Hst). split; [done|]. split; [done|].
    rewrite Hst. by apply restingStatus_low.
Qed.

(** ** Container stock *)

Lemma map_alter_preserved {A B} (g : A → B) (f : A → A) (i : nat) (l : list A) :
  (∀ x, g (f x) = g x) → map g (alter f i l) = map g l.
Proof.
  intros Hgf. revert i. induction l as [|x l IH]; intros [|i]; f_equal/=; auto.
Qed.

Lemma map_map_preserved {A B} (g : A → B) (f : A → A) (l : list A) :
  (∀ x, g (f x) = g x) → map g (map f l) = map g l.
Proof. intros Hgf. rewrite map_map. apply map_ext. done. Qed.












Lemma drones_updDock dockId f s : drones (updDock dockId f s) = drones s.
Proof. done. Qed.

Lemma tickDrone_other now s i j : i ≠ j → drones (tickDrone now s i) !! j = drones s !! j.
Proof.
  intros Hne. unfold tickDrone. repeat case_match; try done;
    rewrite ?drones_addLog, ?lookup_updDrone_ne, ?drones_addLog, ?lookup_updDrone_ne by done;
    done.
Qed.


Lemma tickDrones_other now l s j :
  j ∉ l → drones (foldl (tickDrone now) s l) !! j = drones s !! j.
Proof.
  revert s. induction l as [|i l IH]; intros s Hj; simpl; [done|].
  rewrite IH by (intros Hin; apply Hj; by right).
  apply tickDrone_other. intros ->. apply Hj. left.
Qed.




Ltac drone_lookups :=
  repeat first
    [ rewrite drones_addLog | rewrite drones_updDock
    | rewrite lookup_updDrone_ne by done | rewrite lookup_updDrone
    | rewrite list_lookup_alter_ne by done | rewrite list_lookup_alter_eq
    | progress change (drones (updMission ?r ?f ?s)) with (drones s)
    | progress change (drones (updLamp ?i ?f ?s)) with (drones s) ].

Lemma drones_updMission ref f s : drones (updMission ref f s) = drones s.
Proof. unfold updMission. by destruct (decide _). Qed.

Lemma workerTick_other now draws missionRef s w j :
  w_drone w ≠ j → drones (workerTick now draws missionRef s w).1 !! j = drones s !! j.
Proof.
  intros Hne. unfold workerTick.
  destruct (drones s !! w_drone w) as [drone|] eqn:Hd; [|done].
  destruct (w_completed w || negb (isOperational drone)); [done|].
  assert (Hint : drones (interruptLowBattery now s w).1 !! j = drones s !! j
                 ∧ w_drone (interruptLowBattery now s w).2 = w_drone w).
  { unfold interruptLowBattery. rewrite Hd. destruct (_ && _); [|done].
    simpl. split; [|done]. by rewrite list_lookup_alter_ne. }
  destruct (interruptLowBattery now s w) as [s1 w1]. simpl in Hint.
  destruct Hint as [<- Hw1]. rewrite <- Hw1 in Hne. clear Hd Hw1.
  unfold workerStep. destruct (drones s1 !! w_drone w1) as [d1|]; [|done].
  destruct (w_targetLampId w1) as [target|].
  - unfold serveTarget, dropTarget.
    repeat case_match; simpl; rewrite ?drones_updMission; drone_lookups; done.
  - destruct (queue w1); [|simpl; by rewrite list_lookup_alter_ne].
    unfold returnToDock. repeat case_match; simpl; drone_lookups; done.
Qed.













(** ** The failure path of the automatic dispatch *)

Lemma dispatchCursor_updMission ref f s :
  dispatchCursor (updMission ref f s) = dispatchCursor s.
Proof. unfold updMission. by case_decide. Qed.

Lemma dispatchCursor_foldl_updDrone {A} (key : A → nat) (f : State → A → Drone → Drone) l s :
  dispatchCursor (foldl (λ s x, updDrone (key x) (f s x) s) s l) = dispatchCursor s.
Proof.
  revert s. induction l as [|x l IH]; intros s; [done|].
  simpl. by rewrite IH.
Qed.

Lemma tryStartMission_dispatchCursor now missionArg s :
  dispatchCursor (tryStartMission now missionArg s).1 = dispatchCursor s.
Proof.
  unfold tryStartMission.
  destruct (missionArg ≫= missionAt s) as [mission|]; [|done].
  destruct (bool_decide (mission_status mission = running)); [done|].
  destruct (bool_decide (mission_status mission = completed)); [done|].
  destruct (getReadyDronesForMission s) as [|rd ready] eqn:Hready; [done|].
  destruct (match mission_source mission with manual => _ | auto_service => _ end)
    as [missionRoutes s1] eqn:Hroutes.
  assert (Hs1 : dispatchCursor s1 = dispatchCursor s).
  { destruct (mission_source mission).
    - injection Hroutes as _ <-. apply dispatchCursor_updMission.
    - destruct (objKeys (droneRoutes mission)); injection Hroutes as _ <-;
        [apply dispatchCursor_updMission|done]. }
  destruct (negb _); [simpl; by rewrite dispatchCursor_updMission|].
  destruct (List.filter _ _) as [|ad assigned]; [simpl; by rewrite dispatchCursor_updMission|].
  generalize (ad :: assigned). intros assignedDrones. simpl fst. unfold runMission.
  change (dispatchCursor (with_activeMissionTimers ?a (with_timers ?b ?s)))
    with (dispatchCursor s).
  change (dispatchCursor (addLog ?a ?b ?c ?d ?s)) with (dispatchCursor s).
  rewrite (dispatchCursor_foldl_updDrone fst
             (λ s (rd : nat * Drone) drone,
                drone_with_targetLampId None
                  (drone_with_status enroute (moveDroneToDockIfAvailable s drone)))).
  by rewrite !dispatchCursor_updMission.
Qed.

(** C8, as amended.  When the mission created by an automatic dispatch
    fails to start, no plan cursor is changed, the time of the last
    dispatch is not changed either, and one [error] entry naming the
    mission, the reason and the status code is appended to the log.  As the
    time of the last dispatch is only written on success, the cooldown guard
    stays open: it lets every later poll through. *)
Theorem tryAutoServiceDispatch_failure now s dispatch statusCode error :
  autoDispatchAttempt now s = Some dispatch →
  let created :=
    createMission now (ad_routeLampIds dispatch) None (Some (ad_droneRoutes dispatch))
      (Some auto_service) s in
  let started := tryStartMission now (Some created.2) created.1 in
  started.2 = StartFailed statusCode error →
  let s' := tryAutoServiceDispatch now s in
  autoServiceProgress s' = autoServiceProgress s
  ∧ lastAutoDispatchAt s' = lastAutoDispatchAt s
  ∧ logs s' =
      logs started.1 ++
      [{| log_type := "error";
          log_message :=
            "Автообслуживание: не удалось запустить миссию " +:+ "M-" +:+ pretty now;
          log_payload :=
            VObj [("missionId", VStr ("M-" +:+ pretty now)); ("reason", VStr error);
                  ("statusCode", VNum statusCode)];
          log_timestamp := now |}]
  ∧ ∀ later, now ≤ later →
      negb (autoServiceEnabled s')
      || (later - lastAutoDispatchAt s' <? AUTO_DISPATCH_COOLDOWN_MS) = false.
Proof.
  intros Hattempt created started Hstart s'. subst s'.
  unfold tryAutoServiceDispatch. rewrite Hattempt.
  pose proof (tryStartMission_dispatchCursor now (Some created.2) created.1) as Hframe.
  fold started in Hframe.
  assert (Hcreated : dispatchCursor created.1 = dispatchCursor s) by done.
  rewrite Hcreated in Hframe. clear Hcreated.
  destruct (createMission now _ _ _ _ s) as [s1 ref] eqn:Hcreate.
  subst created. cbn [fst snd] in started. subst started.
  destruct (tryStartMission now (Some ref) s1) as [s2 result]. simpl in Hstart, Hframe.
  subst result. unfold dispatchCursor in Hframe.
  injection Hframe as Henabled Hlast Hprogress.
  change (autoServiceProgress (addLog ?a ?b ?c ?d ?s)) with (autoServiceProgress s).
  change (lastAutoDispatchAt (addLog ?a ?b ?c ?d ?s)) with (lastAutoDispatchAt s).
  change (autoServiceEnabled (addLog ?a ?b ?c ?d ?s)) with (autoServiceEnabled s).
  split; [done|]. split; [done|]. split; [done|].
  intros later Hlater. rewrite Henabled, Hlast.
  unfold autoDispatchAttempt in Hattempt.
  destruct (negb (autoServiceEnabled s)
            || (now - lastAutoDispatchAt s <? AUTO_DISPATCH_COOLDOWN_MS)) eqn:Hgate; [done|].
  apply orb_false_iff in Hgate as [Hen Hcool]. rewrite Hen. simpl.
  apply Z.ltb_ge in Hcool. apply Z.ltb_ge. lia.
Qed.

(** ** C1: the occupied lamps and the running missions *)

Lemma occupied_route (completed : gset Z) route (occupied : gset Z) x :
  x ∈ foldl (λ (occupied : gset Z) lampId,
               if bool_decide (lampId ∈ completed) then occupied else {[lampId]} ∪ occupied)
        occupied route
  ↔ x ∈ occupied ∨ (x ∈ route ∧ x ∉ completed).
Proof.
  revert occupied. induction route as [|y route IH]; intros occupied; simpl.
  - split; [by left|]. intros [?|[Hin _]]; [done|]. by apply elem_of_nil in Hin.
  - rewrite IH. clear IH. rewrite elem_of_cons. case_bool_decide as Hy.
    + split; [tauto|]. intros [?|[[->|?] ?]]; tauto.
    + rewrite elem_of_union, elem_of_singleton. split; [|tauto].
      intros [[->|?]|[? ?]]; tauto.
Qed.

Lemma occupied_missions exclude ms (occupied : gset Z) x :
  x ∈ foldl
        (λ (occupied : gset Z) mission,
           if bool_decide (Some (mission_id mission) = exclude)
              || negb (bool_decide (mission_status mission = running))
           then occupied
           else
             let completed : gset Z := list_to_set (completedLampIds mission) in
             foldl
               (λ (occupied : gset Z) lampId,
                  if bool_decide (lampId ∈ completed) then occupied else {[lampId]} ∪ occupied)
               occupied (routeLampIds mission))
        occupied ms
  ↔ x ∈ occupied
    ∨ ∃ m, m ∈ ms ∧ Some (mission_id m) ≠ exclude ∧ mission_status m = running
           ∧ x ∈ pendingLampIds m.
Proof.
  revert occupied. induction ms as [|m ms IH]; intros occupied; simpl.
  - split; [by left|]. intros [?|(m & Hm & _)]; [done|]. by apply elem_of_nil in Hm.
  - rewrite IH. clear IH. unfold pendingLampIds.
    do 2 case_bool_decide; simpl.
    + split; [intros [?|(m' & ? & ?)]; [by left|right; exists m'; rewrite elem_of_cons; tauto]|].
      intros [?|(m' & [->|?]%elem_of_cons & ? & ? & ?)]; [by left|done|right; by exists m'].
    + split; [intros [?|(m' & ? & ?)]; [by left|right; exists m'; rewrite elem_of_cons; tauto]|].
      intros [?|(m' & [->|?]%elem_of_cons & ? & ? & ?)]; [by left|done|right; by exists m'].
    + rewrite occupied_route. split.
      * intros [[?|[Hin Hnot]]|(m' & ? & ?)]; [by left| |right; exists m'; rewrite elem_of_cons; tauto].
        right. exists m. split; [by left|]. split; [done|]. split; [done|].
        apply list_elem_of_filter. split; [|done]. by rewrite elem_of_list_to_set in Hnot.
      * intros [?|(m' & [->|?]%elem_of_cons & ? & ? & Hp)]; [by left;left| |right; by exists m'].
        apply list_elem_of_filter in Hp as [Hnot Hin]. left. right.
        split; [done|]. by rewrite elem_of_list_to_set.
    + split; [intros [?|(m' & ? & ?)]; [by left|right; exists m'; rewrite elem_of_cons; tauto]|].
      intros [?|(m' & [->|?]%elem_of_cons & ? & ? & ?)]; [by left|done|right; by exists m'].
Qed.

Lemma occupied_drones ds (occupied : gset Z) x :
  x ∈ foldl
        (λ (occupied : gset Z) drone,
           if bool_decide (drone_status drone = enroute)
              || bool_decide (drone_status drone = replacing)
           then match targetLampId drone with
                | Some lampId => {[lampId]} ∪ occupied
                | None => occupied
                end
           else occupied)
        occupied ds
  ↔ x ∈ occupied ∨ ∃ d, d ∈ ds ∧ activeTarget d x.
Proof.
  revert occupied. induction ds as [|d ds IH]; intros occupied; simpl.
  - split; [by left|]. intros [?|(m & Hm & _)]; [done|]. by apply elem_of_nil in Hm.
  - rewrite IH. clear IH. unfold activeTarget.
    split.
    + intros [Hx|(d' & ? & ?)]; [|right; exists d'; rewrite elem_of_cons; tauto].
      destruct (bool_decide (drone_status d = enroute) || bool_decide (drone_status d = replacing))
        eqn:Hactive; [|by left].
      destruct (targetLampId d) as [lampId|] eqn:Htarget; [|by left].
      apply elem_of_union in Hx as [->%elem_of_singleton|?]; [|by left].
      right. exists d. split; [by left|]. split; [|done].
      apply orb_true_iff in Hactive as [?%bool_decide_eq_true|?%bool_decide_eq_true]; auto.
    + intros [?|(d' & [->|?]%elem_of_cons & Hactive & Htarget)].
      * left. repeat case_match; rewrite ?elem_of_union; tauto.
      * left. rewrite Htarget.
        destruct Hactive as [->| ->]; simpl; rewrite ?orb_true_r, elem_of_union, elem_of_singleton; by left.
      * right. by exists d'.
Qed.

Lemma getOccupiedLampIds_spec s exclude x :
  x ∈ getOccupiedLampIds s exclude ↔ occupiedIn s exclude x.
Proof.
  unfold getOccupiedLampIds, occupiedIn. rewrite occupied_drones, occupied_missions.
  rewrite elem_of_empty. tauto.
Qed.

Lemma filterRoute_free occupied lampById route assigned x :
  x ∈ (filterRoute occupied lampById route assigned).1 →
  (x ∉ occupied) ∧ x ∈ route
  ∧ ∃ lamp, lampById !! x = Some lamp ∧ lamp_status lamp = lamp_replace.
Proof.
  revert assigned. induction route as [|y route IH]; intros assigned; simpl.
  - intros Hin. by apply elem_of_nil in Hin.
  - assert (Hrest : ∀ assigned',
              x ∈ (filterRoute occupied lampById route assigned').1 →
              (x ∉ occupied) ∧ x ∈ y :: route
              ∧ ∃ lamp, lampById !! x = Some lamp ∧ lamp_status lamp = lamp_replace).
    { intros assigned' Hin. destruct (IH _ Hin) as (? & ? & ?).
      split; [done|]. split; [by right|done]. }
    destruct (bool_decide (y ∈ occupied)) eqn:Hocc; simpl; [by apply Hrest|].
    destruct (bool_decide (y ∈ assigned)); simpl; [by apply Hrest|].
    destruct (lampById !! y) as [lamp|] eqn:Hlamp; [|by apply Hrest].
    destruct (bool_decide (lamp_status lamp = lamp_replace)) eqn:Hst; [|by apply Hrest].
    destruct (filterRoute occupied lampById route ({[y]} ∪ assigned)) as [kept assigned'] eqn:Hf.
    simpl. intros [->|Hin]%elem_of_cons.
    + apply bool_decide_eq_false in Hocc. apply bool_decide_eq_true in Hst.
      split; [done|]. split; [by left|]. by exists lamp.
    + apply (Hrest ({[y]} ∪ assigned)). by rewrite Hf.
Qed.

Lemma objValues_objSet {V} (Q : V → Prop) k v (o : list (string * V)) :
  Forall Q (objValues o) → Q v → Forall Q (objValues (objSet k v o)).
Proof.
  unfold objValues. intros Ho Hv. induction o as [|[k' v'] o IH]; simpl.
  - by constructor.
  - apply Forall_cons in Ho as [Hv' Ho]. case_decide; simpl.
    + by constructor.
    + constructor; [done|by apply IH].
Qed.

Lemma elem_of_concat {A} (x : A) (ls : list (list A)) :
  x ∈ concat ls ↔ ∃ l, x ∈ l ∧ l ∈ ls.
Proof.
  induction ls as [|l ls IH]; simpl.
  - split; [by intros ?%elem_of_nil|]. by intros (l & _ & ?%elem_of_nil).
  - rewrite elem_of_app, IH. split.
    + intros [?|(l' & ? & ?)]; [exists l; split; [done|by left]|].
      exists l'. split; [done|by right].
    + intros (l' & ? & [->|?]%elem_of_cons); [by left|]. right. by exists l'.
Qed.

Lemma buildActiveRoutes_free occupied lampById missionRoutes readyDrones x :
  x ∈ concat (objValues (buildActiveRoutes occupied lampById missionRoutes readyDrones)) →
  (x ∉ occupied) ∧ ∃ lamp, lampById !! x = Some lamp ∧ lamp_status lamp = lamp_replace.
Proof.
  set (Q := λ route : list Z,
         Forall (λ x, (x ∉ occupied)
                      ∧ ∃ lamp, lampById !! x = Some lamp ∧ lamp_status lamp = lamp_replace)
           route).
  assert (Hinv : ∀ ready acc,
            Forall Q (objValues acc.1) →
            Forall Q (objValues
              (foldl
                 (λ '(activeRoutes, assignedLampIds) (rd : nat * Drone),
                    match objGet (drone_id rd.2) missionRoutes with
                    | Some proposed =>
                        let '(route, assigned') :=
                          filterRoute occupied lampById proposed assignedLampIds in
                        (match route with
                         | [] => activeRoutes
                         | _ => objSet (drone_id rd.2) route activeRoutes
                         end, assigned')
                    | None => (activeRoutes, assignedLampIds)
                    end)
                 acc ready).1)).
  { induction ready as [|rd ready IH]; intros [activeRoutes assigned] Hacc; [done|].
    simpl. apply IH.
    destruct (objGet (drone_id rd.2) missionRoutes) as [proposed|]; [|done].
    destruct (filterRoute occupied lampById proposed assigned) as [route assigned'] eqn:Hf.
    destruct route as [|y route]; [done|]. simpl.
    apply objValues_objSet; [done|].
    apply Forall_forall. intros z Hz.
    pose proof (filterRoute_free occupied lampById proposed assigned z) as Hfree.
    rewrite Hf in Hfree. destruct (Hfree Hz) as (? & _ & ?). done. }
  intros Hin. apply elem_of_concat in Hin as (route & Hx & Hroute).
  specialize (Hinv readyDrones ([], ∅) (Forall_nil_2 _)).
  rewrite Forall_forall in Hinv. specialize (Hinv route Hroute).
  unfold Q in Hinv. rewrite Forall_forall in Hinv. by apply Hinv.
Qed.

(** ** Missions through a step *)

Lemma missionAt_ext s s' ref : missions s' = missions s → missionAt s' ref = missionAt s ref.
Proof. unfold missionAt. by intros ->. Qed.

Lemma missionAt_updMission_ne ref ref' f s :
  ref ≠ ref' → missionAt (updMission ref f s) ref' = missionAt s ref'.
Proof.
  intros Hne. unfold missionAt, updMission.
  destruct (decide (ref < length (missions s))%nat) as [Hlt|Hge]; [|done]. simpl.
  rewrite length_alter.
  destruct (decide (ref' < length (missions s))%nat) as [Hlt'|Hge']; [|done].
  unfold missionIndex. rewrite length_alter.
  apply list_lookup_alter_ne. lia.
Qed.

Lemma missionAt_elem_of s ref m : missionAt s ref = Some m → m ∈ missions s.
Proof.
  unfold missionAt. case_decide; [|done]. apply list_elem_of_lookup_2.
Qed.

Lemma missions_updMission_id ref f s m :
  missionAt s ref = Some m → f m = m → missions (updMission ref f s) = missions s.
Proof.
  unfold missionAt, updMission. case_decide; [|done]. simpl. intros Hm Hf.
  apply list_eq. intros i. destruct (decide (i = missionIndex (missions s) ref)) as [->|Hne].
  - rewrite list_lookup_alter_eq, Hm. simpl. by rewrite Hf.
  - by rewrite list_lookup_alter_ne.
Qed.

Lemma missionIds_updMission ref f s m :
  missionAt s ref = Some m → mission_id (f m) = mission_id m →
  map mission_id (missions (updMission ref f s)) = map mission_id (missions s).
Proof.
  unfold missionAt, updMission. case_decide; [|done]. simpl. intros Hm Hf.
  apply list_eq. intros i. rewrite !list_lookup_fmap.
  destruct (decide (i = missionIndex (missions s) ref)) as [->|Hne].
  - rewrite list_lookup_alter_eq, Hm. simpl. by rewrite Hf.
  - by rewrite list_lookup_alter_ne.
Qed.

Lemma missions_foldl_updDrone {A} (key : A → nat) (f : State → A → Drone → Drone) l s :
  missions (foldl (λ s x, updDrone (key x) (f s x) s) s l) = missions s.
Proof.
  revert s. induction l as [|x l IH]; intros s; [done|].
  simpl. by rewrite IH.
Qed.

Lemma idsDistinct_ne s ref1 ref2 m1 m2 :
  idsDistinct s → ref1 ≠ ref2 →
  missionAt s ref1 = Some m1 → missionAt s ref2 = Some m2 →
  mission_id m1 ≠ mission_id m2.
Proof.
  unfold idsDistinct, missionAt. intros Hnd Hne.
  destruct (decide (ref1 < length (missions s))%nat); [|done].
  destruct (decide (ref2 < length (missions s))%nat); [|done].
  intros H1 H2 Heq.
  assert (missionIndex (missions s) ref1 = missionIndex (missions s) ref2) as Hidx.
  { apply (NoDup_lookup _ _ _ (mission_id m1) Hnd).
    - by rewrite list_lookup_fmap, H1.
    - rewrite list_lookup_fmap, H2. simpl. by rewrite Heq. }
  unfold missionIndex in Hidx. lia.
Qed.

(** What [tryStartMission] does to the missions: it writes to the mission
    it is given only, keeps its id, and when that mission is [running]
    afterwards, either it has not been touched or every one of its stops is
    a lamp to replace that is not occupied. *)
Lemma tryStartMission_missions now ref s mission :
  missionAt s ref = Some mission →
  ∃ f, missions (tryStartMission now (Some ref) s).1 = missions (updMission ref f s)
       ∧ mission_id (f mission) = mission_id mission
       ∧ (mission_status (f mission) = running →
          f mission = mission
          ∨ ∀ x, x ∈ routeLampIds (f mission) →
                 (x ∉ getOccupiedLampIds s (Some (mission_id mission)))
                 ∧ ∃ lamp, lampByIdMap s !! x = Some lamp
                           ∧ lamp_status lamp = lamp_replace).
Proof.
  intros Hm. unfold tryStartMission. simpl. rewrite Hm.
  assert (Hid : ∃ f, missions s = missions (updMission ref f s)
                     ∧ mission_id (f mission) = mission_id mission
                     ∧ (mission_status (f mission) = running →
                        f mission = mission
                        ∨ ∀ x, x ∈ routeLampIds (f mission) →
                               (x ∉ getOccupiedLampIds s (Some (mission_id mission)))
                               ∧ ∃ lamp, lampByIdMap s !! x = Some lamp
                                         ∧ lamp_status lamp = lamp_replace)).
  { exists (λ m, m). split; [by rewrite (missions_updMission_id ref _ s mission)|].
    split; [done|]. by left. }
  destruct (bool_decide (mission_status mission = running)) eqn:Hrunning; [done|].
  destruct (bool_decide (mission_status mission = completed)); [done|].
  apply bool_decide_eq_false in Hrunning.
  destruct (getReadyDronesForMission s) as [|rd ready] eqn:Hready; [done|].
  clear Hid.
  set (occupied := getOccupiedLampIds s (Some (mission_id mission))).
  destruct (match mission_source mission with manual => _ | auto_service => _ end)
    as [missionRoutes s1] eqn:Hroutes.
  assert (Hs1 : ∃ g, s1 = updMission ref g s
                     ∧ mission_id (g mission) = mission_id mission
                     ∧ mission_status (g mission) = mission_status mission).
  { destruct (mission_source mission).
    - injection Hroutes as _ <-. by eexists.
    - destruct (objKeys (droneRoutes mission)); injection Hroutes as _ <-.
      + by eexists.
      + exists (λ m, m). split; [|done].
        unfold updMission. case_decide; [|done].
        destruct s. unfold with_missions. simpl. f_equal.
        symmetry. by apply list_alter_id. }
  destruct Hs1 as (g & -> & Hgid & Hgst).
  set (activeRoutes := buildActiveRoutes occupied (lampByIdMap s) missionRoutes (rd :: ready)).
  rewrite updMission_updMission.
  destruct (negb _).
  { simpl. eexists. split; [done|]. simpl. split; [done|]. intros Hst. congruence. }
  destruct (List.filter _ _) as [|ad assigned].
  { simpl. eexists. split; [done|]. simpl. split; [done|]. intros Hst. congruence. }
  generalize (ad :: assigned). intros assignedDrones. simpl fst. unfold runMission.
  change (missions (with_activeMissionTimers ?a (with_timers ?b ?s))) with (missions s).
  change (missions (addLog ?a ?b ?c ?d ?s)) with (missions s).
  rewrite (missions_foldl_updDrone fst
             (λ s (rd : nat * Drone) drone,
                drone_with_targetLampId None
                  (drone_with_status enroute (moveDroneToDockIfAvailable s drone)))).
  rewrite updMission_updMission.
  eexists. split; [done|]. simpl. split; [done|]. intros _. right.
  intros x Hx. by apply (buildActiveRoutes_free _ _ _ _ _ Hx).
Qed.

Lemma dispatchInvariant_ext s s' :
  missions s' = missions s → dispatchInvariant s → dispatchInvariant s'.
Proof.
  intros Heq [Hpending Hids]. split.
  - intros ref1 ref2 m1 m2 x Hne H1 H2. rewrite (missionAt_ext s s') in H1, H2 by done.
    by apply (Hpending ref1 ref2).
  - unfold idsDistinct. by rewrite Heq.
Qed.

Lemma pendingLampIds_route m x : x ∈ pendingLampIds m → x ∈ routeLampIds m.
Proof. unfold pendingLampIds. by intros [_ ?]%list_elem_of_filter. Qed.

Lemma tryStartMission_invariant now missionArg s :
  dispatchInvariant s → dispatchInvariant (tryStartMission now missionArg s).1.
Proof.
  intros [Hpending Hids].
  destruct missionArg as [ref|]; [|done].
  destruct (missionAt s ref) as [mission|] eqn:Hm;
    [|unfold tryStartMission; simpl; by rewrite Hm].
  destruct (tryStartMission_missions now ref s mission Hm) as (f & Hmissions & Hid & Hstarted).
  apply (dispatchInvariant_ext (updMission ref f s)); [done|].
  assert (Hfree : ∀ r m x,
            r ≠ ref → missionAt s r = Some m → mission_status m = running →
            mission_status (f mission) = running →
            x ∈ pendingLampIds m → x ∈ pendingLampIds (f mission) → False).
  { intros r m x Hne Hr Hst Hst' Hx Hx'.
    destruct (Hstarted Hst') as [Hsame|Hroutes].
    - rewrite Hsame in Hst', Hx'. by apply (Hpending r ref m mission x).
    - destruct (Hroutes x) as [Hfree _]; [by apply pendingLampIds_route|].
      apply Hfree. apply getOccupiedLampIds_spec. left. exists m.
      split; [by apply (missionAt_elem_of s r)|]. split; [|done].
      intros [= Heq]. by apply (idsDistinct_ne s r ref m mission). }
  split.
  - intros ref1 ref2 m1 m2 x Hne H1 H2 Hst1 Hst2 Hx1 Hx2.
    destruct (decide (ref1 = ref)) as [->|Hne1]; destruct (decide (ref2 = ref)) as [->|Hne2].
    + done.
    + rewrite missionAt_updMission, Hm in H1. injection H1 as <-.
      rewrite missionAt_updMission_ne in H2 by done. by apply (Hfree ref2 m2 x).
    + rewrite missionAt_updMission, Hm in H2. injection H2 as <-.
      rewrite missionAt_updMission_ne in H1 by done. by apply (Hfree ref1 m1 x).
    + rewrite missionAt_updMission_ne in H1, H2 by done.
      by apply (Hpending ref1 ref2 m1 m2 x).
  - unfold idsDistinct. by rewrite (missionIds_updMission ref f s mission).
Qed.

Lemma missionShrinks_refl m : missionShrinks m m.
Proof. by split. Qed.

Lemma missionsShrink_eq s s' : missions s' = missions s → missionsShrink s s'.
Proof.
  unfold missionsShrink. intros ->. apply Forall_Forall2_diag, Forall_forall.
  intros m _. apply missionShrinks_refl.
Qed.

Lemma missionsShrink_trans s1 s2 s3 :
  missionsShrink s1 s2 → missionsShrink s2 s3 → missionsShrink s1 s3.
Proof.
  unfold missionsShrink. intros H12 H23.
  eapply Forall2_trans; [|done..].
  intros m1 m2 m3 [Hid12 H12'] [Hid23 H23']. split; [congruence|].
  intros Hst. destruct (H23' Hst) as [Hst2 Hsub2]. destruct (H12' Hst2) as [Hst1 Hsub1].
  split; [done|]. auto.
Qed.

Lemma missionsShrink_updMission ref f s s' :
  (∀ m, missionShrinks m (f m)) → missions s' = missions (updMission ref f s) →
  missionsShrink s s'.
Proof.
  intros Hf Heq. unfold missionsShrink. rewrite Heq. unfold updMission.
  case_decide; simpl.
  - apply Forall2_same_length_lookup_2; [by rewrite length_alter|].
    intros i m m' Hi Hi'.
    destruct (decide (i = missionIndex (missions s) ref)) as [->|Hne].
    + rewrite list_lookup_alter_eq, Hi in Hi'. injection Hi' as <-. apply Hf.
    + rewrite list_lookup_alter_ne, Hi in Hi' by done. injection Hi' as <-.
      apply missionShrinks_refl.
  - by apply missionsShrink_eq.
Qed.

Lemma missionsShrink_invariant s s' :
  missionsShrink s s' → dispatchInvariant s → dispatchInvariant s'.
Proof.
  unfold missionsShrink. intros Hshrink [Hpending Hids].
  assert (Hlen : length (missions s') = length (missions s))
    by (symmetry; by eapply Forall2_length).
  assert (Hat : ∀ r m', missionAt s' r = Some m' →
                        ∃ m, missionAt s r = Some m ∧ missionShrinks m m').
  { intros r m'. unfold missionAt, missionIndex. rewrite Hlen.
    case_decide; [|done]. intros Hm'.
    destruct (Forall2_lookup_r _ _ _ _ _ Hshrink Hm') as (m & Hm & ?). by exists m. }
  split.
  - intros ref1 ref2 m1' m2' x Hne H1 H2 Hst1 Hst2 Hx1 Hx2.
    destruct (Hat _ _ H1) as (m1 & Hm1 & _ & Hs1).
    destruct (Hat _ _ H2) as (m2 & Hm2 & _ & Hs2).
    destruct (Hs1 Hst1) as [Hr1 Hsub1]. destruct (Hs2 Hst2) as [Hr2 Hsub2].
    apply (Hpending ref1 ref2 m1 m2 x); auto.
  - unfold idsDistinct.
    replace (map mission_id (missions s')) with (map mission_id (missions s)); [done|].
    apply list_eq_Forall2. apply Forall2_fmap.
    eapply Forall2_impl; [done|]. by intros m m' [-> _].
Qed.

Lemma missionAt_cons s s' m0 ref :
  missions s' = m0 :: missions s →
  missionAt s' ref = if decide (ref = length (missions s)) then Some m0 else missionAt s ref.
Proof.
  intros Heq. unfold missionAt, missionIndex. rewrite Heq. simpl length.
  destruct (decide (ref = length (missions s))) as [->|Hne].
  - rewrite decide_True by lia. by replace (S (length (missions s)) - 1 - length (missions s))%nat with 0%nat by lia.
  - destruct (decide (ref < length (missions s))%nat).
    + rewrite decide_True by lia.
      by replace (S (length (missions s)) - 1 - ref)%nat
        with (S (length (missions s) - 1 - ref)) by lia.
    + by rewrite decide_False by lia.
Qed.

Lemma dispatchInvariant_cons s s' m0 :
  missions s' = m0 :: missions s →
  mission_status m0 ≠ running → mission_id m0 ∉ map mission_id (missions s) →
  dispatchInvariant s → dispatchInvariant s'.
Proof.
  intros Heq Hst Hfresh [Hpending Hids]. split.
  - intros ref1 ref2 m1 m2 x Hne H1 H2 Hst1 Hst2.
    rewrite (missionAt_cons s s' m0) in H1, H2 by done.
    destruct (decide (ref1 = _)); [congruence|].
    destruct (decide (ref2 = _)); [congruence|].
    by apply (Hpending ref1 ref2).
  - unfold idsDistinct. rewrite Heq. simpl. by apply NoDup_cons.
Qed.

(** *** The mission timer *)

Lemma completion_shrinks lampId m :
  missionShrinks m (mission_with_completedLampIds (completedLampIds m ++ [lampId]) m).
Proof.
  split; [done|]. intros Hst. split; [done|].
  unfold pendingLampIds. simpl. intros x [Hnot Hin]%list_elem_of_filter.
  apply list_elem_of_filter. split; [|done].
  intros Hx. apply Hnot. apply elem_of_app. by left.
Qed.

Lemma serveTarget_missions now draws missionRef s w target drone :
  missionsShrink s (serveTarget now draws missionRef s w target drone).1.
Proof.
  unfold serveTarget.
  destruct (findLamp s target) as [lamp|]; [|by apply missionsShrink_eq].
  destruct (negb _ && negb _); [by apply missionsShrink_eq|].
  destruct (bool_decide (drone_status drone = replacing)).
  - destruct (now - replaceStartedAt w <? REPLACEMENT_DURATION_MS);
      [by apply missionsShrink_eq|].
    set (s1 := updLamp target _ s).
    apply (missionsShrink_trans s s1); [by apply missionsShrink_eq|].
    eapply (missionsShrink_updMission missionRef _ s1); [|reflexivity].
    intros m. apply completion_shrinks.
  - destruct (moveDroneTowards _ _) as [moved arrived].
    destruct arrived; [|by apply missionsShrink_eq].
    destruct (negb _); [by apply missionsShrink_eq|].
    destruct (containerLampsRemaining moved <=? 0); by apply missionsShrink_eq.
Qed.

Lemma returnToDock_missions now s w drone :
  missions (returnToDock now s w drone).1 = missions s.
Proof.
  unfold returnToDock. destruct (getActiveDock s drone) as [dock|]; [|done].
  destruct (moveDroneTowards _ _) as [moved arrived].
  destruct arrived; [|done]. by destruct (containerLampsRemaining moved <=? 0).
Qed.

Lemma workerTick_missions now draws missionRef s w :
  missionsShrink s (workerTick now draws missionRef s w).1.
Proof.
  unfold workerTick. destruct (drones s !! w_drone w) as [drone|]; [|by apply missionsShrink_eq].
  destruct (w_completed w || negb (isOperational drone)); [by apply missionsShrink_eq|].
  destruct (interruptLowBattery now s w) as [s1 w1] eqn:Hint.
  assert (Hs1 : missions s1 = missions s).
  { unfold interruptLowBattery in Hint. destruct (drones s !! w_drone w); [|congruence].
    destruct (_ && _); by injection Hint as <- _. }
  apply (missionsShrink_trans s s1); [by apply missionsShrink_eq|].
  unfold workerStep. destruct (drones s1 !! w_drone w1) as [drone1|]; [|by apply missionsShrink_eq].
  destruct (w_targetLampId w1) as [target|]; [apply serveTarget_missions|].
  destruct (queue w1); [|by apply missionsShrink_eq].
  apply missionsShrink_eq, returnToDock_missions.
Qed.

Lemma runWorkers_missions now draws missionRef index s workers :
  missionsShrink s (runWorkers now draws missionRef index s workers).1.
Proof.
  revert index s. induction workers as [|w workers IH]; intros index s; simpl.
  - by apply missionsShrink_eq.
  - pose proof (workerTick_missions now (draws index) missionRef s w) as Hw.
    destruct (workerTick now (draws index) missionRef s w) as [s1 w1].
    pose proof (IH (S index) s1) as Hrest.
    destruct (runWorkers now draws missionRef (S index) s1 workers) as [s2 rest'].
    by apply (missionsShrink_trans s s1).
Qed.

Lemma completeMission_missions now missionRef workers s :
  missionsShrink s (completeMission now missionRef workers s).
Proof.
  unfold completeMission.
  change (missions (addLog ?a ?b ?c ?d ?s)) with (missions s).
  set (s1 := match activeMissionTimers s !! _ with Some _ => _ | None => s end).
  assert (Hs1 : missions s1 = missions s) by (subst s1; by destruct (_ !! _)).
  apply (missionsShrink_trans s s1); [by apply missionsShrink_eq|].
  eapply (missionsShrink_updMission missionRef
            (λ m, mission_with_finishedAt (Some now) (mission_with_status completed m)) s1).
  - intros m. split; [done|]. simpl. discriminate.
  - apply (missions_foldl_updDrone w_drone
             (λ s (w : Worker) d,
                let d1 := drone_with_targetLampId None d in
                if bool_decide (drone_status d1 = servicing) then d1
                else
                  let d2 := drone_with_status (restingStatus d1) d1 in
                  if bool_decide (drone_status d2 = charging)
                  then moveDroneToDockIfAvailable s d2
                  else d2)).
Qed.

Lemma missionTick_missions now draws timerId s :
  missionsShrink s (missionTick now draws timerId s).
Proof.
  unfold missionTick. destruct (timers s !! timerId) as [timer|]; [|by apply missionsShrink_eq].
  destruct (timer_cleared timer); [by apply missionsShrink_eq|].
  pose proof (runWorkers_missions now draws (timer_mission timer) 0 s (timer_workers timer))
    as Hrun.
  destruct (runWorkers now draws (timer_mission timer) 0 s (timer_workers timer))
    as [s1 workers].
  simpl in Hrun. destruct (forallb _ _); [|done].
  eapply missionsShrink_trans; [done|].
  eapply missionsShrink_trans; [|apply completeMission_missions].
  by apply missionsShrink_eq.
Qed.

(** *** The global tick and the commands *)

Lemma ensureDroneCoverage_missions now s :
  missions (ensureDroneCoverageForAllDocks now s) = missions s.
Proof.
  unfold ensureDroneCoverageForAllDocks.
  change (missions (with_drones ?a ?s)) with (missions s).
  generalize (zip (seq 0 (length (docks s))) (docks s)). intros l.
  revert s. induction l as [|[index dock] l IH]; intros s; [done|].
  simpl. rewrite IH. by destruct (List.find _ _).
Qed.

Lemma tickDrone_missions now s index : missions (tickDrone now s index) = missions s.
Proof. unfold tickDrone. by repeat case_match. Qed.

Lemma tickDrones_missions now l s : missions (foldl (tickDrone now) s l) = missions s.
Proof.
  revert s. induction l as [|i l IH]; intros s; [done|].
  simpl. by rewrite IH, tickDrone_missions.
Qed.

Lemma refillDocks_missions now s : missions (refillDocks now s) = missions s.
Proof. unfold refillDocks. by case_match. Qed.

Lemma tryAutoServiceDispatch_invariant now s :
  "M-" +:+ pretty now ∉ map mission_id (missions s) →
  dispatchInvariant s → dispatchInvariant (tryAutoServiceDispatch now s).
Proof.
  intros Hfresh Hinv. unfold tryAutoServiceDispatch.
  destruct (autoDispatchAttempt now s) as [dispatch|]; [|done].
  destruct (createMission now _ _ _ _ s) as [s1 ref] eqn:Hcreate.
  assert (Hs1 : dispatchInvariant s1).
  { unfold createMission in Hcreate. injection Hcreate as <- _.
    eapply (dispatchInvariant_cons s); [reflexivity|discriminate|done|done]. }
  pose proof (tryStartMission_invariant now (Some ref) s1 Hs1) as Hstart.
  destruct (tryStartMission now (Some ref) s1) as [s2 [|statusCode error]]; simpl in Hstart.
  - by apply (dispatchInvariant_ext s2).
  - by apply (dispatchInvariant_ext s2).
Qed.

(** ** C1: the targets of the drones *)

Lemma workerEffect_refl missionRef s w : workerEffect missionRef s w s w.
Proof.
  split; [done|]. split; [done|]. split; [|by left].
  intros d' x Hd' Hx. right. split; [done|]. by exists d'.
Qed.

Lemma workerStops_drop w : queue w `sublist_of` workerStops w.
Proof. unfold workerStops. apply sublist_inserts_l. done. Qed.

Lemma serveTarget_effect now draws missionRef s w target drone :
  drones s !! w_drone w = Some drone →
  w_targetLampId w = Some target →
  let result := serveTarget now draws missionRef s w target drone in
  workerEffect missionRef s w result.1 result.2.
Proof.
  intros Hd Htarget. unfold serveTarget, dropTarget.
  assert (Hdrop : ∀ s1 w1,
            w_drone w1 = w_drone w → queue w1 `sublist_of` queue w →
            activeMissionTimers s1 = activeMissionTimers s → missions s1 = missions s →
            workerEffect missionRef s w
              (updDrone (w_drone w1)
                 (λ d, drone_with_status enroute (drone_with_targetLampId None d)) s1)
              (worker_with_targetLampId None w1)).
  { intros s1 w1 Hw1 Hq Ha Hm. split; [done|]. split; [done|]. split.
    - intros d' x Hd'. rewrite Hw1, lookup_updDrone in Hd'.
      apply fmap_Some in Hd' as (d0 & _ & ->). done.
    - left. split; [done|]. unfold workerStops at 1. simpl.
      etrans; [done|]. apply workerStops_drop. }
  destruct (findLamp s target) as [lamp|] eqn:Hlamp; [|by apply Hdrop].
  destruct (negb _ && negb _); [by apply Hdrop|].
  destruct (bool_decide (drone_status drone = replacing)).
  - destruct (now - replaceStartedAt w <? REPLACEMENT_DURATION_MS);
      [apply workerEffect_refl|].
    simpl. split; [done|]. split.
    { unfold updMission. by case_decide. }
    split.
    { intros d' x Hd'. rewrite lookup_updDrone in Hd'.
      apply fmap_Some in Hd' as (d0 & _ & ->). done. }
    right. exists target. split; [done|]. split; [done|].
    apply findLamp_Some in Hlamp as [_ ->].
    unfold updMission. simpl. by case_decide.
  - destruct (moveDroneTowards _ _) as [moved arrived] eqn:Hmove.
    pose proof (moveDroneTowards_spec (drone_with_status enroute drone)
                  {| lat := lamp_lat lamp; lng := lamp_lng lamp |}) as [Hmoved _].
    rewrite Hmove in Hmoved. simpl in Hmoved.
    assert (Hkeep : ∀ s1 w1 f,
              w_drone w1 = w_drone w → w_targetLampId w1 = w_targetLampId w →
              queue w1 = queue w →
              activeMissionTimers s1 = activeMissionTimers s → missions s1 = missions s →
              drones s1 !! w_drone w = f <$> Some moved →
              (∀ d, targetLampId (f d) = targetLampId d) →
              workerEffect missionRef s w s1 w1).
    { intros s1 w1 f Hw1 Ht Hq Ha Hm Hd1 Hf. split; [done|]. split; [done|]. split.
      - intros d' x Hd'. rewrite Hd1 in Hd'. injection Hd' as <-. rewrite Hf, Hmoved. simpl.
        intros Hx. right. split; [done|]. by exists drone.
      - left. split; [done|]. unfold workerStops. by rewrite Ht, Hq. }
    destruct arrived.
    + destruct (negb _); [by apply Hdrop|].
      destruct (containerLampsRemaining moved <=? 0);
        [apply Hdrop; [done|apply sublist_nil_l|done|done]|].
      simpl. apply (Hkeep _ _ (drone_with_status replacing)); try done.
      simpl. by rewrite !list_lookup_alter_eq, Hd.
    + simpl. apply (Hkeep _ _ (λ d, d)); try done.
      simpl. by rewrite list_lookup_alter_eq, Hd.
Qed.

Lemma returnToDock_timers now s w drone :
  activeMissionTimers (returnToDock now s w drone).1 = activeMissionTimers s.
Proof.
  unfold returnToDock. destruct (getActiveDock s drone) as [dock|]; [|done].
  destruct (moveDroneTowards _ _) as [moved arrived].
  destruct arrived; [|done]. by destruct (containerLampsRemaining moved <=? 0).
Qed.

Lemma returnToDock_target now s w drone :
  drones s !! w_drone w = Some drone →
  ∀ d' x,
    drones (returnToDock now s w drone).1 !! w_drone w = Some d' →
    targetLampId d' = Some x → targetLampId drone = Some x.
Proof.
  intros Hd d' x Hd' Hx.
  destruct (returnToDock_spec now s w drone Hd) as (_ & _ & _ & _ & d1 & Hd1 & _ & _ & Hcase).
  rewrite Hd1 in Hd'. injection Hd' as ->.
  destruct (getActiveDock s drone) as [dock|].
  - destruct Hcase as [_ Hcase]. destruct (moveDroneTowards drone _).2.
    + destruct Hcase as (_ & Hnone & _). congruence.
    + destruct Hcase as (_ & Hsame & _). congruence.
  - destruct Hcase as (_ & Hnone & _). congruence.
Qed.

Lemma workerStep_effect now draws missionRef s w :
  let result := workerStep now draws missionRef s w in
  workerEffect missionRef s w result.1 result.2.
Proof.
  unfold workerStep. destruct (drones s !! w_drone w) as [drone|] eqn:Hd;
    [|apply workerEffect_refl].
  destruct (w_targetLampId w) as [target|] eqn:Htarget; [by apply serveTarget_effect|].
  destruct (queue w) as [|nextLampId rest] eqn:Hqueue.
  - destruct (returnToDock_spec now s w drone Hd) as (Hq & Ht & _ & Hm & _).
    split; [|split; [apply returnToDock_timers|split]].
    + unfold returnToDock. destruct (getActiveDock s drone); [|done].
      destruct (moveDroneTowards _ _) as [moved arrived].
      destruct arrived; [|done]. by destruct (containerLampsRemaining moved <=? 0).
    + intros d' x Hd' Hx. right. split; [by rewrite Ht|].
      exists drone. split; [done|]. by apply (returnToDock_target now s w drone Hd d' x).
    + left. split; [done|]. unfold workerStops. by rewrite Hq, Ht.
  - simpl. split; [done|]. split; [done|]. split.
    + intros d' x Hd'. rewrite lookup_updDrone, Hd in Hd'. injection Hd' as <-.
      simpl. intros [= <-]. by left.
    + left. split; [done|]. unfold workerStops. simpl. by rewrite Htarget, Hqueue.
Qed.

Lemma workerTick_effect now draws missionRef s w :
  let result := workerTick now draws missionRef s w in
  workerEffect missionRef s w result.1 result.2.
Proof.
  unfold workerTick. destruct (drones s !! w_drone w) as [drone|] eqn:Hd;
    [|apply workerEffect_refl].
  destruct (w_completed w || negb (isOperational drone)); [apply workerEffect_refl|].
  unfold interruptLowBattery. rewrite Hd.
  destruct (_ && _) eqn:Hfire; [|apply workerStep_effect].
  set (s1 := updDrone _ _ _). set (w1 := worker_with_targetLampId None _).
  set (drone1 := drone_with_status enroute (drone_with_targetLampId None drone)).
  assert (Hd1 : drones s1 !! w_drone w1 = Some drone1).
  { unfold s1. by rewrite lookup_updDrone, drones_addLog, Hd. }
  unfold workerStep. rewrite Hd1. change (w_targetLampId w1) with (@None Z).
  change (queue w1) with (@nil Z). cbv iota.
  destruct (returnToDock_spec now s1 w1 drone1 Hd1) as (Hq & Ht & _ & Hm & _).
  split; [|split; [by rewrite returnToDock_timers|split]].
  - unfold returnToDock. destruct (getActiveDock s1 drone1); [|done].
    destruct (moveDroneTowards _ _) as [moved arrived].
    destruct arrived; [|done]. by destruct (containerLampsRemaining moved <=? 0).
  - intros d' x Hd' Hx.
    by pose proof (returnToDock_target now s1 w1 drone1 Hd1 d' x Hd' Hx).
  - left. split; [by rewrite Hm|]. unfold workerStops. rewrite Hq, Ht. apply sublist_nil_l.
Qed.

(** ** One worker's tick and the fleet invariant *)

Lemma lookup_replaced {A} (pre post : list A) (x x' : A) p y' :
  (pre ++ x' :: post) !! p = Some y' →
  (p = length pre ∧ y' = x' ∧ (pre ++ x :: post) !! p = Some x)
  ∨ (p ≠ length pre ∧ (pre ++ x :: post) !! p = Some y').
Proof.
  intros Hp. destruct (decide (p = length pre)) as [->|Hne].
  - left. rewrite list_lookup_middle in Hp by done. injection Hp as <-.
    by rewrite list_lookup_middle.
  - right. split; [done|]. destruct (decide (p < length pre)%nat).
    + rewrite lookup_app_l in Hp by done. by rewrite lookup_app_l.
    + rewrite lookup_app_r in Hp by lia. rewrite lookup_app_r by lia.
      destruct (p - length pre)%nat as [|k] eqn:Hk; [lia|]. done.
Qed.

Lemma workersDisjoint_shrink pre w w' post :
  workersDisjoint (pre ++ w :: post) →
  workerStops w' `sublist_of` workerStops w →
  workersDisjoint (pre ++ w' :: post).
Proof.
  intros [Hnd Hdisj] Hsub. split.
  - intros w0 [Hin|[->|Hin]%elem_of_cons]%elem_of_app.
    + apply Hnd. apply elem_of_app. by left.
    + eapply sublist_NoDup; [|done]. apply Hnd. apply elem_of_app. right. left.
    + apply Hnd. apply elem_of_app. right. by right.
  - intros p q wp wq x Hp Hq Hxp Hxq.
    destruct (lookup_replaced pre post w w' p wp Hp) as [(-> & -> & Hp0)|[_ Hp0]];
      destruct (lookup_replaced pre post w w' q wq Hq) as [(-> & -> & Hq0)|[_ Hq0]].
    + done.
    + apply (Hdisj _ _ _ _ x Hp0 Hq0); [exact (elem_of_sublist _ _ _ Hxp Hsub)|done].
    + apply (Hdisj _ _ _ _ x Hp0 Hq0); [done|exact (elem_of_sublist _ _ _ Hxq Hsub)].
    + by apply (Hdisj _ _ _ _ x Hp0 Hq0).
Qed.

Lemma missionAt_push ref ref' x s s' :
  missions s'
  = missions (updMission ref
                (λ m, mission_with_completedLampIds (completedLampIds m ++ [x]) m) s) →
  missionAt s' ref'
  = if decide (ref' = ref)
    then (λ m, mission_with_completedLampIds (completedLampIds m ++ [x]) m) <$> missionAt s ref
    else missionAt s ref'.
Proof.
  intros Heq. rewrite (missionAt_ext _ _ _ Heq). destruct (decide (ref' = ref)) as [->|Hne].
  - apply missionAt_updMission.
  - by apply missionAt_updMission_ne.
Qed.

Lemma pendingLampIds_push m x y :
  y ∈ pendingLampIds m → y ≠ x →
  y ∈ pendingLampIds (mission_with_completedLampIds (completedLampIds m ++ [x]) m).
Proof.
  unfold pendingLampIds. simpl. intros [Hnot Hin]%list_elem_of_filter Hne.
  apply list_elem_of_filter. split; [|done].
  intros [?|?%list_elem_of_singleton]%elem_of_app; done.
Qed.

Lemma worker_step_invariant tm s t timer pre w post s' w' :
  fleetInvariant tm s →
  tm !! t = Some timer → timer_cleared timer = false →
  timer_workers timer = pre ++ w :: post →
  workerEffect (timer_mission timer) s w s' w' →
  (∀ j, j ≠ w_drone w → drones s' !! j = drones s !! j) →
  fleetInvariant
    (<[t := {| timer_mission := timer_mission timer; timer_workers := pre ++ w' :: post;
               timer_cleared := false |}]> tm)
    s'.
Proof.
  intros (Hrefs & Htimers & Htargets & Hplanned) Ht Hlive Hworkers
    (Hdrone & Hactive & Hown & Hstops) Hothers.
  set (r := timer_mission timer) in *.
  set (timer' := {| timer_mission := r; timer_workers := pre ++ w' :: post;
                    timer_cleared := false |}).
  assert (Hlt : (t < length tm)%nat) by by eapply lookup_lt_Some.
  destruct (Htimers t timer Ht) as (m & Hm & Hnotplanned & Hlive'). fold r in Hm.
  destruct (Hlive' Hlive) as (Hrunning & Hmap & Hdisjoint & Hpending). clear Hlive'.
  rewrite Hworkers in Hdisjoint, Hpending.
  assert (Hsub : workerStops w' `sublist_of` workerStops w).
  { destruct Hstops as [[_ ?]|(x & _ & -> & _)]; [done|apply workerStops_drop]. }
  (* the missions after the step *)
  assert (Hmissions : ∀ r' m',
            missionAt s' r' = Some m' →
            ∃ m0, missionAt s r' = Some m0
                  ∧ mission_status m' = mission_status m0
                  ∧ mission_id m' = mission_id m0
                  ∧ (r' ≠ r → m' = m0)).
  { intros r' m' Hm'. destruct Hstops as [[Heq _]|(x & _ & _ & Heq)].
    - rewrite (missionAt_ext _ _ _ Heq) in Hm'. by exists m'.
    - rewrite (missionAt_push _ _ _ _ _ Heq) in Hm'. case_decide as Hr.
      + subst r'. apply fmap_Some in Hm' as (m0 & Hm0 & ->). exists m0.
        split; [done|]. split; [done|]. split; [done|]. done.
      + by exists m'. }
  assert (Hother : ∀ r' , r' ≠ r → missionAt s' r' = missionAt s r').
  { intros r' Hr. destruct Hstops as [[Heq _]|(x & _ & _ & Heq)].
    - by apply missionAt_ext.
    - rewrite (missionAt_push _ _ _ _ _ Heq). by rewrite decide_False. }
  split; [|split; [|split]].
  - rewrite list_fmap_insert. simpl. rewrite list_insert_id; [done|].
    by rewrite list_lookup_fmap, Ht.
  - intros t' timer0 Ht'. destruct (decide (t' = t)) as [->|Hne].
    + rewrite list_lookup_insert_eq in Ht' by done. injection Ht' as <-.
      destruct Hstops as [[Heq _]|(x & Hx & Hw' & Heq)].
      * exists m. split; [by rewrite (missionAt_ext _ _ _ Heq)|]. split; [done|].
        intros _. split; [done|]. split; [by rewrite Hactive|]. simpl.
        split; [by apply (workersDisjoint_shrink pre w)|].
        intros w0 x Hw0 Hx.
        apply list_elem_of_lookup in Hw0 as [p Hp].
        destruct (lookup_replaced pre post w w' p w0 Hp) as [(-> & -> & Hp0)|[_ Hp0]].
        -- apply (Hpending w); [by eapply list_elem_of_lookup_2|exact (elem_of_sublist _ _ _ Hx Hsub)].
        -- apply (Hpending w0); [by eapply list_elem_of_lookup_2|done].
      * eexists. split.
        { rewrite (missionAt_push _ _ _ _ _ Heq), decide_True by done.
          by rewrite Hm. }
        split; [done|]. intros _. split; [done|]. split; [by rewrite Hactive|]. simpl.
        split; [by apply (workersDisjoint_shrink pre w)|].
        assert (Hwx : x ∈ workerStops w).
        { unfold workerStops. rewrite Hx. left. }
        assert (Hwn : (pre ++ w :: post) !! length pre = Some w) by by rewrite list_lookup_middle.
        intros w0 y Hw0 Hy.
        apply list_elem_of_lookup in Hw0 as [p Hp].
        destruct (lookup_replaced pre post w w' p w0 Hp) as [(-> & -> & Hp0)|[Hpn Hp0]].
        -- apply pendingLampIds_push.
           ++ apply (Hpending w); [by eapply list_elem_of_lookup_2|exact (elem_of_sublist _ _ _ Hy Hsub)].
           ++ intros ->. destruct Hdisjoint as [Hnd _].
              specialize (Hnd w (list_elem_of_lookup_2 _ _ _ Hwn)).
              unfold workerStops in Hnd. rewrite Hx in Hnd. simpl in Hnd.
              apply NoDup_cons in Hnd as [Hnotin _]. by rewrite Hw' in Hy.
        -- apply pendingLampIds_push.
           ++ apply (Hpending w0); [by eapply list_elem_of_lookup_2|done].
           ++ intros ->. destruct Hdisjoint as [_ Hdisj].
              by specialize (Hdisj _ _ _ _ x Hp0 Hwn Hy Hwx).
    + rewrite list_lookup_insert_ne in Ht' by done.
      destruct (Htimers t' timer0 Ht') as (m0 & Hm0 & Hnp0 & Hlive0).
      assert (Hr0 : timer_mission timer0 ≠ r).
      { intros Heq. apply Hne.
        apply (NoDup_lookup _ _ _ r Hrefs); rewrite list_lookup_fmap.
        - rewrite Ht'. simpl. by rewrite Heq.
        - by rewrite Ht. }
      exists m0. split; [by rewrite Hother|]. split; [done|].
      intros Hl. destruct (Hlive0 Hl) as (? & ? & ? & ?). by rewrite Hactive.
  - intros i d x Hd Hx.
    assert (Hold : ∀ d0, drones s !! i = Some d0 → targetLampId d0 = Some x →
              (i = w_drone w → w_targetLampId w' = w_targetLampId w) →
              ∃ t0 timer0 w0,
                <[t := timer']> tm !! t0 = Some timer0 ∧ timer_cleared timer0 = false
                ∧ w0 ∈ timer_workers timer0 ∧ w_drone w0 = i ∧ w_targetLampId w0 = Some x).
    { intros d0 Hd0 Hx0 Hsame.
      destruct (Htargets i d0 x Hd0 Hx0) as (t0 & timer0 & w0 & Ht0 & Hl0 & Hw0 & Hi0 & Hx0').
      destruct (decide (t0 = t)) as [->|Hne].
      - rewrite Ht in Ht0. injection Ht0 as <-. rewrite Hworkers in Hw0.
        exists t, timer'. apply elem_of_app in Hw0 as [Hin|[->|Hin]%elem_of_cons].
        + exists w0. rewrite list_lookup_insert_eq by done. repeat split; try done.
          simpl. apply elem_of_app. by left.
        + exists w'. rewrite list_lookup_insert_eq by done. repeat split; try done.
          * simpl. apply elem_of_app. right. left.
          * congruence.
          * rewrite Hsame; [done|]. done.
        + exists w0. rewrite list_lookup_insert_eq by done. repeat split; try done.
          simpl. apply elem_of_app. right. by right.
      - exists t0, timer0, w0. rewrite list_lookup_insert_ne by done. done. }
    destruct (decide (i = w_drone w)) as [->|Hne].
    + destruct (Hown d x Hd Hx) as [Hnew|(Hsame & d0 & Hd0 & Hx0)].
      * exists t, timer', w'. rewrite list_lookup_insert_eq by done.
        repeat split; try done. simpl. apply elem_of_app. right. left.
      * by apply (Hold d0).
    + rewrite Hothers in Hd by done. by apply (Hold d).
  - intros r' m' Hm' Hst. destruct (Hmissions r' m' Hm') as (m0 & Hm0 & Hst0 & _ & Hsame).
    rewrite Hst in Hst0. destruct (decide (r' = r)) as [->|Hne].
    + rewrite Hm in Hm0. injection Hm0 as <-. congruence.
    + rewrite (Hsame Hne). by apply (Hplanned r').
Qed.

Lemma workerTick_timers now draws missionRef s w :
  timers (workerTick now draws missionRef s w).1 = timers s.
Proof.
  unfold workerTick. destruct (drones s !! w_drone w) as [drone|] eqn:Hd; [|done].
  destruct (w_completed w || negb (isOperational drone)); [done|].
  destruct (interruptLowBattery now s w) as [s1 w1] eqn:Hint.
  assert (Hs1 : timers s1 = timers s).
  { unfold interruptLowBattery in Hint. rewrite Hd in Hint.
    destruct (_ && _); by injection Hint as <- _. }
  rewrite <- Hs1. clear Hint Hs1 Hd. unfold workerStep.
  destruct (drones s1 !! w_drone w1) as [drone1|]; [|done].
  destruct (w_targetLampId w1) as [target|].
  - unfold serveTarget, dropTarget. destruct (findLamp s1 target) as [lamp|]; [|done].
    destruct (negb _ && negb _); [done|].
    destruct (bool_decide (drone_status drone1 = replacing)).
    + destruct (_ <? _); [done|]. simpl. unfold updMission. by case_decide.
    + destruct (moveDroneTowards _ _) as [moved arrived].
      destruct arrived; [|done]. destruct (negb _); [done|].
      by destruct (containerLampsRemaining moved <=? 0).
  - destruct (queue w1); [|done].
    unfold returnToDock. destruct (getActiveDock s1 drone1); [|done].
    destruct (moveDroneTowards _ _) as [moved arrived].
    destruct arrived; [|done]. by destruct (containerLampsRemaining moved <=? 0).
Qed.

Lemma runWorkers_invariant now draws t workers :
  ∀ index pre s tm timer,
    fleetInvariant tm s →
    tm !! t = Some timer → timer_cleared timer = false →
    timer_workers timer = pre ++ workers →
    let result := runWorkers now draws (timer_mission timer) index s workers in
    fleetInvariant
      (<[t := {| timer_mission := timer_mission timer; timer_workers := pre ++ result.2;
                 timer_cleared := false |}]> tm)
      result.1
    ∧ timers result.1 = timers s.
Proof.
  induction workers as [|w rest IH]; intros index pre s tm timer Hinv Ht Hlive Hworkers; simpl.
  - split; [|done]. rewrite list_insert_id; [done|]. rewrite Ht. f_equal.
    destruct timer. simpl in *. by subst.
  - pose proof (workerTick_effect now (draws index) (timer_mission timer) s w) as Heffect.
    pose proof (workerTick_other now (draws index) (timer_mission timer) s w) as Hothers.
    pose proof (workerTick_timers now (draws index) (timer_mission timer) s w) as Htimers.
    destruct (workerTick now (draws index) (timer_mission timer) s w) as [s1 w1].
    simpl in Heffect, Hothers, Htimers.
    pose proof (worker_step_invariant tm s t timer pre w rest s1 w1 Hinv Ht Hlive Hworkers
                  Heffect) as Hstep.
    set (timer1 := {| timer_mission := timer_mission timer; timer_workers := pre ++ w1 :: rest;
                      timer_cleared := false |}) in *.
    assert (Hlt : (t < length tm)%nat) by by eapply lookup_lt_Some.
    assert (Hworkers1 : timer_workers timer1 = (pre ++ [w1]) ++ rest)
      by (simpl; by rewrite <- app_assoc).
    assert (Hstep1 : fleetInvariant (<[t := timer1]> tm) s1).
    { apply Hstep. intros j Hj. by apply Hothers. }
    pose proof (IH (S index) (pre ++ [w1]) s1 (<[t := timer1]> tm) timer1 Hstep1
                  (list_lookup_insert_eq _ _ _ Hlt) eq_refl Hworkers1) as IH'.
    simpl in IH'.
    destruct (runWorkers now draws (timer_mission timer) (S index) s1 rest) as [s2 rest'].
    simpl in *. destruct IH' as [IH1 IH2]. split; [|congruence].
    rewrite list_insert_insert_eq in IH1. by rewrite <- app_assoc in IH1.
Qed.

Lemma completeDrones_target (workers : list Worker) :
  ∀ s i d' x,
    drones
      (foldl
         (λ s w,
            updDrone (w_drone w)
              (λ d,
                 let d1 := drone_with_targetLampId None d in
                 if bool_decide (drone_status d1 = servicing) then d1
                 else
                   let d2 := drone_with_status (restingStatus d1) d1 in
                   if bool_decide (drone_status d2 = charging)
                   then moveDroneToDockIfAvailable s d2
                   else d2)
              s)
         s workers) !! i = Some d' →
    targetLampId d' = Some x →
    (i ∉ map w_drone workers) ∧ ∃ d, drones s !! i = Some d ∧ targetLampId d = Some x.
Proof.
  induction workers as [|w rest IH]; intros s i d' x Hd' Hx; simpl in *.
  - split; [apply not_elem_of_nil|]. by exists d'.
  - destruct (IH _ i d' x Hd' Hx) as (Hnotin & d1 & Hd1 & Hx1).
    destruct (decide (w_drone w = i)) as [<-|Hne].
    + exfalso. rewrite lookup_updDrone in Hd1. apply fmap_Some in Hd1 as (d0 & _ & ->).
      simpl in Hx1. unfold moveDroneToDockIfAvailable in Hx1.
      repeat case_match; simpl in Hx1; done.
    + rewrite lookup_updDrone_ne in Hd1 by done. split; [|by exists d1].
      intros [?|?]%elem_of_cons; done.
Qed.

Lemma timers_foldl_updDrone {A} (key : A → nat) (f : State → A → Drone → Drone) l s :
  timers (foldl (λ s x, updDrone (key x) (f s x) s) s l) = timers s
  ∧ activeMissionTimers (foldl (λ s x, updDrone (key x) (f s x) s) s l)
    = activeMissionTimers s.
Proof.
  revert s. induction l as [|x l IH]; intros s; [done|].
  simpl. by destruct (IH (updDrone (key x) (f s x) s)).
Qed.

Lemma completeMission_shape now r workers s m t :
  missionAt s r = Some m → activeMissionTimers s !! mission_id m = Some t →
  let s' := completeMission now r workers s in
  timers s'
  = alter (λ t0, {| timer_mission := timer_mission t0; timer_workers := timer_workers t0;
                    timer_cleared := true |}) t (timers s)
  ∧ activeMissionTimers s' = delete (mission_id m) (activeMissionTimers s)
  ∧ (∀ r', missionAt s' r'
           = if decide (r' = r)
             then Some (mission_with_finishedAt (Some now) (mission_with_status completed m))
             else missionAt s r')
  ∧ ∀ i d' x,
      drones s' !! i = Some d' → targetLampId d' = Some x →
      (i ∉ map w_drone workers) ∧ ∃ d, drones s !! i = Some d ∧ targetLampId d = Some x.
Proof.
  intros Hm Hmap s'. subst s'. unfold completeMission. rewrite Hm.
  change (default "" (mission_id <$> Some m)) with (mission_id m). cbv zeta. rewrite Hmap.
  set (s1 := with_activeMissionTimers _ (clearTimer t s)).
  set (s2 := updMission r _ s1).
  change (timers (addLog ?a ?b ?c ?d ?s)) with (timers s).
  change (activeMissionTimers (addLog ?a ?b ?c ?d ?s)) with (activeMissionTimers s).
  change (drones (addLog ?a ?b ?c ?d ?s)) with (drones s).
  match goal with
  | |- context [foldl ?step s2 workers] =>
      destruct (timers_foldl_updDrone w_drone
                  (λ s (w : Worker) d,
                     let d1 := drone_with_targetLampId None d in
                     if bool_decide (drone_status d1 = servicing) then d1
                     else
                       let d2 := drone_with_status (restingStatus d1) d1 in
                       if bool_decide (drone_status d2 = charging)
                       then moveDroneToDockIfAvailable s d2
                       else d2) workers s2) as [Htimers Hactive];
      pose proof (missions_foldl_updDrone w_drone
                  (λ s (w : Worker) d,
                     let d1 := drone_with_targetLampId None d in
                     if bool_decide (drone_status d1 = servicing) then d1
                     else
                       let d2 := drone_with_status (restingStatus d1) d1 in
                       if bool_decide (drone_status d2 = charging)
                       then moveDroneToDockIfAvailable s d2
                       else d2) workers s2) as Hmissions;
      pose proof (completeDrones_target workers s2) as Hdrones
  end.
  cbv zeta in Htimers, Hactive, Hmissions, Hdrones.
  split; [|split; [|split]].
  - rewrite Htimers. unfold s2, updMission. by case_decide.
  - rewrite Hactive. unfold s2, updMission. by case_decide.
  - intros r'. erewrite missionAt_ext; [|exact Hmissions]. unfold s2.
    destruct (decide (r' = r)) as [->|Hne].
    + rewrite missionAt_updMission. by rewrite (missionAt_ext s), Hm.
    + rewrite missionAt_updMission_ne by done. by apply missionAt_ext.
  - intros i d' x Hd' Hx. destruct (Hdrones i d' x Hd' Hx) as (Hnotin & d & Hd & Hxd).
    split; [done|]. exists d. split; [|done].
    revert Hd. unfold s2. by rewrite drones_updMission.
Qed.

Lemma completeMission_invariant now t timer s :
  dispatchInvariant s → fleetInvariant (timers s) s →
  timers s !! t = Some timer → timer_cleared timer = false →
  let s' := completeMission now (timer_mission timer) (timer_workers timer) s in
  fleetInvariant (timers s') s'.
Proof.
  intros [_ Hids] (Hrefs & Htimers & Htargets & Hplanned) Ht Hlive.
  set (r := timer_mission timer) in *.
  destruct (Htimers t timer Ht) as (m & Hm & Hnotplanned & Hlive'). fold r in Hm.
  destruct (Hlive' Hlive) as (Hrunning & Hmap & _). clear Hlive'.
  destruct (completeMission_shape now r (timer_workers timer) s m t Hm Hmap)
    as (Htm & Hactive & Hat & Hdrones).
  intros s'. subst s'. set (s' := completeMission now r (timer_workers timer) s) in *.
  rewrite Htm. split; [|split; [|split]].
  - replace (map timer_mission (alter _ t (timers s))) with (map timer_mission (timers s));
      [done|]. symmetry. by apply map_alter_preserved.
  - intros t' timer0 Ht'. destruct (decide (t' = t)) as [->|Hne].
    + rewrite list_lookup_alter_eq, Ht in Ht'. injection Ht' as <-. simpl.
      eexists. rewrite Hat, decide_True by done. split; [done|]. split; [done|]. done.
    + rewrite list_lookup_alter_ne in Ht' by done.
      destruct (Htimers t' timer0 Ht') as (m0 & Hm0 & Hnp0 & Hlive0).
      assert (Hr0 : timer_mission timer0 ≠ r).
      { intros Heq. apply Hne.
        apply (NoDup_lookup _ _ _ r Hrefs); rewrite list_lookup_fmap.
        - rewrite Ht'. simpl. by rewrite Heq.
        - by rewrite Ht. }
      exists m0. rewrite Hat, decide_False by done. split; [done|]. split; [done|].
      intros Hl. destruct (Hlive0 Hl) as (? & ? & ? & ?). split; [done|]. split; [|done].
      rewrite Hactive. rewrite lookup_delete_ne; [done|].
      intros Heq. by apply (idsDistinct_ne s r (timer_mission timer0) m m0).
  - intros i d' x Hd' Hx.
    destruct (Hdrones i d' x Hd' Hx) as (Hnotin & d & Hd0 & Hxd).
    destruct (Htargets i d x Hd0 Hxd) as (t0 & timer0 & w0 & Ht0 & Hl0 & Hw0 & Hi0 & Hx0).
    destruct (decide (t0 = t)) as [->|Hne].
    + exfalso. rewrite Ht in Ht0. injection Ht0 as <-. apply Hnotin.
      rewrite <- Hi0. apply list_elem_of_fmap. by exists w0.
    + exists t0, timer0, w0. rewrite list_lookup_alter_ne by done. done.
  - intros r' m' Hm' Hst. rewrite Hat in Hm'. case_decide.
    + injection Hm' as <-. done.
    + by apply (Hplanned r').
Qed.

Lemma fleetInvariant_ext tm s s' :
  missions s' = missions s → activeMissionTimers s' = activeMissionTimers s →
  drones s' = drones s →
  fleetInvariant tm s → fleetInvariant tm s'.
Proof.
  intros Hm Ha Hd (Hrefs & Htimers & Htargets & Hplanned).
  split; [done|]. split; [|split].
  - intros t timer Ht. destruct (Htimers t timer Ht) as (m & Hat & Hnp & Hlive).
    exists m. rewrite (missionAt_ext s s') by done. split; [done|]. split; [done|].
    by rewrite Ha.
  - intros i d x. rewrite Hd. apply Htargets.
  - intros r m. rewrite (missionAt_ext s s') by done. apply Hplanned.
Qed.

Lemma list_alter_insert_eq {A} (f : A → A) (l : list A) i x :
  l !! i = Some x → alter f i l = <[i := f x]> l.
Proof.
  intros Hx. apply list_eq. intros j. destruct (decide (j = i)) as [->|Hne].
  - rewrite list_lookup_alter_eq, Hx, list_lookup_insert_eq; [done|].
    by eapply lookup_lt_Some.
  - by rewrite list_lookup_alter_ne, list_lookup_insert_ne.
Qed.

Lemma missionTick_fleet now draws t s :
  dispatchInvariant s → fleetInvariant (timers s) s →
  fleetInvariant (timers (missionTick now draws t s)) (missionTick now draws t s).
Proof.
  intros Hdispatch Hinv. unfold missionTick.
  destruct (timers s !! t) as [timer|] eqn:Ht; [|done].
  destruct (timer_cleared timer) eqn:Hlive; [done|].
  pose proof (runWorkers_invariant now draws t (timer_workers timer) 0 [] s (timers s) timer
                Hinv Ht Hlive eq_refl) as Hrun.
  pose proof (runWorkers_missions now draws (timer_mission timer) 0 s (timer_workers timer))
    as Hshrink.
  destruct (runWorkers now draws (timer_mission timer) 0 s (timer_workers timer))
    as [s1 workers].
  simpl in Hrun, Hshrink. destruct Hrun as [Hrun Htimers].
  set (s2 := with_timers _ s1).
  assert (Htm2 : timers s2
                 = <[t := {| timer_mission := timer_mission timer; timer_workers := workers;
                             timer_cleared := false |}]> (timers s)).
  { unfold s2. simpl. rewrite Htimers. rewrite (list_alter_insert_eq _ _ _ _ Ht).
    by rewrite Hlive. }
  assert (Hinv2 : fleetInvariant (timers s2) s2).
  { rewrite Htm2. by apply (fleetInvariant_ext _ s1). }
  destruct (forallb _ _); [|done].
  apply (completeMission_invariant now t
           {| timer_mission := timer_mission timer; timer_workers := workers;
              timer_cleared := false |} s2).
  - apply (dispatchInvariant_ext s1); [done|]. by apply (missionsShrink_invariant s).
  - done.
  - rewrite Htm2. apply list_lookup_insert_eq. by eapply lookup_lt_Some.
  - done.
Qed.

Lemma targetsKept_eq s s' : drones s' = drones s → targetsKept s s'.
Proof. intros Heq i d' x Hd' Hx. rewrite Heq in Hd'. by exists d'. Qed.

Lemma targetsKept_trans s1 s2 s3 : targetsKept s1 s2 → targetsKept s2 s3 → targetsKept s1 s3.
Proof.
  intros H12 H23 i d3 x Hd3 Hx. destruct (H23 i d3 x Hd3 Hx) as (d2 & Hd2 & Hx2).
  by apply (H12 i d2 x).
Qed.

Lemma targetsKept_updDrone ref f s :
  (∀ d x, targetLampId (f d) = Some x → targetLampId d = Some x) →
  targetsKept s (updDrone ref f s).
Proof.
  intros Hf i d' x Hd' Hx. destruct (decide (ref = i)) as [->|Hne].
  - rewrite lookup_updDrone in Hd'. apply fmap_Some in Hd' as (d & Hd & ->).
    exists d. split; [done|]. by apply Hf.
  - rewrite lookup_updDrone_ne in Hd' by done. by exists d'.
Qed.

Lemma targetsKept_foldl_updDrone {A} (key : A → nat) (f : State → A → Drone → Drone) l s :
  (∀ s a d x, targetLampId (f s a d) = Some x → targetLampId d = Some x) →
  targetsKept s (foldl (λ s a, updDrone (key a) (f s a) s) s l).
Proof.
  intros Hf. revert s. induction l as [|a l IH]; intros s; simpl.
  - by apply targetsKept_eq.
  - eapply targetsKept_trans; [|apply IH]. apply targetsKept_updDrone. apply Hf.
Qed.

Lemma targetsKept_map (f : Drone → Drone) s s' :
  (∀ d, targetLampId (f d) = targetLampId d) → drones s' = map f (drones s) →
  targetsKept s s'.
Proof.
  intros Hf Heq i d' x Hd' Hx. rewrite Heq, list_lookup_fmap in Hd'.
  apply fmap_Some in Hd' as (d & Hd & ->). exists d. split; [done|]. by rewrite <- Hf.
Qed.

(** ** The routes of a started mission *)

Lemma objGet_objSet {V} (k k' : string) (v : V) o :
  objGet k' (objSet k v o) = if decide (k' = k) then Some v else objGet k' o.
Proof.
  induction o as [|[k0 v0] o IH]; simpl.
  - by destruct (decide (k' = k)).
  - destruct (decide (k = k0)) as [->|Hne]; simpl.
    + by destruct (decide (k' = k0)).
    + destruct (decide (k' = k0)) as [->|Hne'].
      * by rewrite decide_False.
      * done.
Qed.

Lemma objGet_values {V} (k : string) (v : V) o : objGet k o = Some v → v ∈ objValues o.
Proof.
  induction o as [|[k0 v0] o IH]; simpl; [done|].
  destruct (decide (k = k0)).
  - intros [= ->]. left.
  - intros Hv. right. by apply IH.
Qed.

Lemma filterRoute_fresh occupied lampById route assigned :
  let result := filterRoute occupied lampById route assigned in
  NoDup result.1
  ∧ (∀ x, x ∈ result.1 → (x ∉ assigned) ∧ x ∈ result.2)
  ∧ (∀ x, x ∈ assigned → x ∈ result.2).
Proof.
  revert assigned. induction route as [|y route IH]; intros assigned; simpl.
  - split; [constructor|]. split; [by intros x ?%elem_of_nil|done].
  - destruct (bool_decide (y ∈ occupied) || bool_decide (y ∈ assigned)) eqn:Hskip;
      [apply IH|].
    destruct (lampById !! y) as [lamp|]; [|apply IH].
    destruct (bool_decide (lamp_status lamp = lamp_replace)); [|apply IH].
    apply orb_false_iff in Hskip as [_ Hy%bool_decide_eq_false].
    specialize (IH ({[y]} ∪ assigned)).
    destruct (filterRoute occupied lampById route ({[y]} ∪ assigned)) as [kept assigned'].
    simpl in *. destruct IH as (Hnd & Hkept & Hmono).
    split; [|split].
    + apply NoDup_cons. split; [|done]. intros Hin. destruct (Hkept y Hin) as [Hnot _].
      apply Hnot. apply elem_of_union. left. by apply elem_of_singleton.
    + intros x [->|Hin]%elem_of_cons.
      * split; [done|]. apply Hmono. apply elem_of_union. left. by apply elem_of_singleton.
      * destruct (Hkept x Hin) as [Hnot Hin']. split; [|done].
        intros Hx. apply Hnot. apply elem_of_union. by right.
    + intros x Hx. apply Hmono. apply elem_of_union. by right.
Qed.

Lemma buildActiveRoutes_disjoint occupied lampById missionRoutes readyDrones :
  let activeRoutes := buildActiveRoutes occupied lampById missionRoutes readyDrones in
  (∀ k v, objGet k activeRoutes = Some v → NoDup v)
  ∧ ∀ k1 k2 v1 v2 x,
      objGet k1 activeRoutes = Some v1 → objGet k2 activeRoutes = Some v2 →
      x ∈ v1 → x ∈ v2 → k1 = k2.
Proof.
  unfold buildActiveRoutes.
  set (Q := λ acc : list (string * list Z) * gset Z,
         (∀ k v, objGet k acc.1 = Some v → NoDup v ∧ ∀ x, x ∈ v → x ∈ acc.2)
         ∧ ∀ k1 k2 v1 v2 x,
             objGet k1 acc.1 = Some v1 → objGet k2 acc.1 = Some v2 →
             x ∈ v1 → x ∈ v2 → k1 = k2).
  assert (Hinv : ∀ ready acc, Q acc →
            Q (foldl
                 (λ '(activeRoutes, assignedLampIds) (rd : nat * Drone),
                    match objGet (drone_id rd.2) missionRoutes with
                    | Some proposed =>
                        let '(route, assigned') :=
                          filterRoute occupied lampById proposed assignedLampIds in
                        (match route with
                         | [] => activeRoutes
                         | _ => objSet (drone_id rd.2) route activeRoutes
                         end, assigned')
                    | None => (activeRoutes, assignedLampIds)
                    end)
                 acc ready)).
  { induction ready as [|rd ready IH]; intros [activeRoutes assigned] Hacc; [done|].
    simpl. apply IH. clear IH.
    destruct (objGet (drone_id rd.2) missionRoutes) as [proposed|]; [|done].
    pose proof (filterRoute_fresh occupied lampById proposed assigned) as Hfresh.
    destruct (filterRoute occupied lampById proposed assigned) as [route assigned'].
    simpl in Hfresh. destruct Hfresh as (Hnd & Hkept & Hmono).
    destruct Hacc as [Hvals Hdisj]. simpl in Hvals, Hdisj.
    destruct route as [|y route].
    { split; simpl; [|done]. intros k v Hv. destruct (Hvals k v Hv). split; [done|]. auto. }
    set (kept := y :: route) in *. split; simpl.
    - intros k v. rewrite objGet_objSet. case_decide.
      + intros [= <-]. split; [done|]. intros x Hx. by apply Hkept.
      + intros Hv. destruct (Hvals k v Hv). split; [done|]. auto.
    - intros k1 k2 v1 v2 x. rewrite !objGet_objSet.
      destruct (decide (k1 = _)) as [->|Hne1]; destruct (decide (k2 = _)) as [->|Hne2].
      + done.
      + intros [= <-] Hv2 Hx1 Hx2. exfalso. destruct (Hkept x Hx1) as [Hnot _].
        apply Hnot. by apply (Hvals k2 v2).
      + intros Hv1 [= <-] Hx1 Hx2. exfalso. destruct (Hkept x Hx2) as [Hnot _].
        apply Hnot. by apply (Hvals k1 v1).
      + apply Hdisj. }
  assert (Hstart : Q ([], ∅)).
  { split; simpl; [done|done]. }
  destruct (Hinv readyDrones _ Hstart) as [Hvals Hdisj].
  split; [|done]. intros k v Hv. by destruct (Hvals k v Hv).
Qed.

Lemma filter_sublist {A} (P : A → bool) (l : list A) : List.filter P l `sublist_of` l.
Proof.
  induction l as [|x l IH]; simpl; [done|].
  destruct (P x); [by apply sublist_skip|by apply sublist_cons].
Qed.

Lemma readyDrones_ids s :
  NoDup (map drone_id (drones s)) →
  NoDup (map (λ rd : nat * Drone, drone_id rd.2) (getReadyDronesForMission s)).
Proof.
  intros Hnd. unfold getReadyDronesForMission.
  apply (sublist_NoDup _ (map (λ rd : nat * Drone, drone_id rd.2)
                            (zip (seq 0 (length (drones s))) (drones s)))).
  - replace (map (λ rd : nat * Drone, drone_id rd.2) (zip (seq 0 (length (drones s))) (drones s)))
      with (map drone_id (drones s)); [done|].
    rewrite <- (map_map snd drone_id). f_equal. symmetry.
    apply snd_zip. by rewrite length_seq.
  - apply fmap_sublist, filter_sublist.
Qed.

(** ** Starting a mission *)

Lemma tryStartMission_shape now ref s mission :
  missionAt s ref = Some mission → mission_status mission = planned →
  let s' := (tryStartMission now (Some ref) s).1 in
  ∃ f,
    missions s' = missions (updMission ref f s)
    ∧ mission_id (f mission) = mission_id mission
    ∧ completedLampIds (f mission) = completedLampIds mission
    ∧ targetsKept s s'
    ∧ ((mission_status (f mission) = planned
        ∧ timers s' = timers s ∧ activeMissionTimers s' = activeMissionTimers s)
       ∨ (mission_status (f mission) = running
          ∧ ∃ workers,
              timers s'
              = timers s ++ [{| timer_mission := ref; timer_workers := workers;
                                timer_cleared := false |}]
              ∧ activeMissionTimers s'
                = <[mission_id mission := length (timers s)]> (activeMissionTimers s)
              ∧ (NoDup (map drone_id (drones s)) → workersDisjoint workers)
              ∧ ∀ w x, w ∈ workers → x ∈ workerStops w → x ∈ routeLampIds (f mission))).
Proof.
  intros Hm Hst. unfold tryStartMission. simpl. rewrite Hm. rewrite Hst.
  rewrite !bool_decide_false by done.
  destruct (getReadyDronesForMission s) as [|rd ready] eqn:Hready.
  { simpl. exists (λ m, m). split; [by rewrite (missions_updMission_id ref _ s mission)|].
    split; [done|]. split; [done|]. split.
    - apply (targetsKept_map (sentToCharge s)); [|done].
      intros d. unfold sentToCharge, moveDroneToDockIfAvailable. by repeat case_match.
    - left. done. }
  set (occupied := getOccupiedLampIds s (Some (mission_id mission))).
  destruct (match mission_source mission with manual => _ | auto_service => _ end)
    as [missionRoutes s1] eqn:Hroutes.
  assert (Hs1 : ∃ g, s1 = updMission ref g s
                     ∧ mission_id (g mission) = mission_id mission
                     ∧ completedLampIds (g mission) = completedLampIds mission
                     ∧ mission_status (g mission) = mission_status mission).
  { destruct (mission_source mission).
    - injection Hroutes as _ <-. by eexists.
    - destruct (objKeys (droneRoutes mission)); injection Hroutes as _ <-.
      + by eexists.
      + exists (λ m, m). split; [|done].
        unfold updMission. case_decide; [|done].
        destruct s. unfold with_missions. simpl. f_equal.
        symmetry. by apply list_alter_id. }
  destruct Hs1 as (g & -> & Hgid & Hgdone & Hgst).
  set (activeRoutes := buildActiveRoutes occupied (lampByIdMap s) missionRoutes (rd :: ready)).
  rewrite updMission_updMission.
  destruct (negb _).
  { simpl. eexists. split; [done|]. simpl. split; [done|]. split; [done|].
    split; [by apply targetsKept_eq; unfold updMission; case_decide|].
    left. split; [by rewrite Hgst|]. unfold updMission. by case_decide. }
  destruct (List.filter _ _) as [|ad assigned] eqn:Hassigned.
  { simpl. eexists. split; [done|]. simpl. split; [done|]. split; [done|].
    split; [by apply targetsKept_eq; unfold updMission; case_decide|].
    left. split; [by rewrite Hgst|]. unfold updMission. by case_decide. }
  rewrite <- Hassigned. clear Hassigned.
  set (assignedDrones := List.filter _ (rd :: ready)).
  simpl fst. unfold runMission.
  rewrite updMission_updMission.
  set (s3 := updMission ref _ s).
  set (s4 := foldl _ s3 assignedDrones).
  assert (Hmissions4 : missions s4 = missions s3).
  { apply (missions_foldl_updDrone fst
             (λ s (rd : nat * Drone) drone,
                drone_with_targetLampId None
                  (drone_with_status enroute (moveDroneToDockIfAvailable s drone)))). }
  assert (Hframe4 : timers s4 = timers s3 ∧ activeMissionTimers s4 = activeMissionTimers s3).
  { apply (timers_foldl_updDrone fst
             (λ s (rd : nat * Drone) drone,
                drone_with_targetLampId None
                  (drone_with_status enroute (moveDroneToDockIfAvailable s drone)))). }
  destruct Hframe4 as [Htimers4 Hactive4].
  assert (Hkept4 : targetsKept s3 s4).
  { apply (targetsKept_foldl_updDrone fst
             (λ s (rd : nat * Drone) drone,
                drone_with_targetLampId None
                  (drone_with_status enroute (moveDroneToDockIfAvailable s drone)))).
    intros s0 a d x Hx. simpl in Hx. discriminate. }
  eexists. split.
  { change (missions (with_activeMissionTimers ?a (with_timers ?b ?s))) with (missions s).
    change (missions (addLog ?a ?b ?c ?d ?s)) with (missions s).
    rewrite Hmissions4. reflexivity. }
  split; [done|]. split; [done|]. split.
  { eapply targetsKept_trans; [|eapply targetsKept_trans; [apply Hkept4|]].
    - apply targetsKept_eq. unfold s3, updMission. by case_decide.
    - by apply targetsKept_eq. }
  right. split; [done|].
  eexists. split.
  { change (timers (with_activeMissionTimers ?a (with_timers ?b ?s))) with b.
    change (timers (addLog ?a ?b ?c ?d ?s)) with (timers s).
    rewrite Htimers4. replace (timers s3) with (timers s) by (unfold s3, updMission; by case_decide).
    reflexivity. }
  split.
  { change (activeMissionTimers (with_activeMissionTimers ?a ?s)) with a.
    change (timers (addLog ?a ?b ?c ?d ?s)) with (timers s).
    change (activeMissionTimers (addLog ?a ?b ?c ?d ?s)) with (activeMissionTimers s).
    rewrite Htimers4, Hactive4.
    replace (timers s3) with (timers s) by (unfold s3, updMission; by case_decide).
    replace (activeMissionTimers s3) with (activeMissionTimers s)
      by (unfold s3, updMission; by case_decide).
    reflexivity. }
  destruct (buildActiveRoutes_disjoint occupied (lampByIdMap s) missionRoutes (rd :: ready))
    as [Hnodup Hdisjoint]. fold activeRoutes in Hnodup, Hdisjoint.
  split.
  - intros Hids. split.
    + intros w [a [-> _]]%list_elem_of_fmap. unfold workerStops. simpl.
      destruct (objGet (drone_id a.2) activeRoutes) as [route|] eqn:Hroute; simpl.
      * by apply (Hnodup (drone_id a.2)).
      * constructor.
    + intros p q wp wq x Hp Hq Hxp Hxq.
      rewrite list_lookup_fmap in Hp, Hq.
      apply fmap_Some in Hp as (a & Ha & ->). apply fmap_Some in Hq as (b & Hb & ->).
      unfold workerStops in Hxp, Hxq. simpl in Hxp, Hxq.
      destruct (objGet (drone_id a.2) activeRoutes) as [va|] eqn:Hva;
        [|by apply elem_of_nil in Hxp].
      destruct (objGet (drone_id b.2) activeRoutes) as [vb|] eqn:Hvb;
        [|by apply elem_of_nil in Hxq].
      simpl in Hxp, Hxq.
      pose proof (Hdisjoint _ _ _ _ x Hva Hvb Hxp Hxq) as Hkeys.
      assert (Hnd : NoDup (map (λ rd : nat * Drone, drone_id rd.2) assignedDrones)).
      { apply (sublist_NoDup _ (map (λ rd : nat * Drone, drone_id rd.2)
                                  (getReadyDronesForMission s))).
        - by apply readyDrones_ids.
        - rewrite Hready. apply fmap_sublist, filter_sublist. }
      apply (NoDup_lookup _ _ _ (drone_id a.2) Hnd); rewrite list_lookup_fmap.
      * by rewrite Ha.
      * rewrite Hb. simpl. by rewrite Hkeys.
  - intros w x [a [-> _]]%list_elem_of_fmap. unfold workerStops. simpl.
    destruct (objGet (drone_id a.2) activeRoutes) as [route|] eqn:Hroute; simpl;
      [|by intros ?%elem_of_nil].
    intros Hx. apply elem_of_concat. exists route. split; [done|].
    by apply (objGet_values (drone_id a.2)).
Qed.

Lemma pendingLampIds_all m : completedLampIds m = [] → pendingLampIds m = routeLampIds m.
Proof.
  unfold pendingLampIds. intros ->. induction (routeLampIds m) as [|x l IH]; [done|].
  rewrite filter_cons_True; [by rewrite IH|]. apply not_elem_of_nil.
Qed.

Lemma tryStartMission_fleet now missionArg s :
  dispatchInvariant s → NoDup (map drone_id (drones s)) →
  fleetInvariant (timers s) s →
  fleetInvariant (timers (tryStartMission now missionArg s).1)
    (tryStartMission now missionArg s).1.
Proof.
  intros [_ Hids] Hdrones Hinv.
  destruct missionArg as [ref|]; [|done].
  destruct (missionAt s ref) as [mission|] eqn:Hm;
    [|unfold tryStartMission; simpl; by rewrite Hm].
  destruct (decide (mission_status mission = planned)) as [Hst|Hst].
  2:{ unfold tryStartMission. simpl. rewrite Hm.
      destruct (mission_status mission); [done|..].
      - by rewrite bool_decide_true.
      - rewrite bool_decide_false by done. by rewrite bool_decide_true. }
  destruct (tryStartMission_shape now ref s mission Hm Hst)
    as (f & Hmissions & Hid & Hdone & Hkept & Hcase).
  set (s' := (tryStartMission now (Some ref) s).1) in *.
  destruct Hinv as (Hrefs & Htimers & Htargets & Hplanned).
  assert (Hat : ∀ r, missionAt s' r = if decide (r = ref) then Some (f mission)
                                      else missionAt s r).
  { intros r. rewrite (missionAt_ext _ _ _ Hmissions).
    destruct (decide (r = ref)) as [->|Hne].
    - by rewrite missionAt_updMission, Hm.
    - by rewrite missionAt_updMission_ne. }
  assert (Hold : ∀ t timer, timers s !! t = Some timer → timer_mission timer ≠ ref).
  { intros t timer Ht Heq. destruct (Htimers t timer Ht) as (m & Hm0 & Hnp & _).
    rewrite Heq, Hm in Hm0. injection Hm0 as <-. done. }
  assert (Hwitness : ∀ tm',
            (∀ t timer, timers s !! t = Some timer → tm' !! t = Some timer) →
            targetsWitnessed tm' s').
  { intros tm' Htm' i d' x Hd' Hx. destruct (Hkept i d' x Hd' Hx) as (d & Hd & Hxd).
    destruct (Htargets i d x Hd Hxd) as (t0 & timer0 & w0 & Ht0 & Hrest).
    exists t0, timer0, w0. split; [by apply Htm'|done]. }
  destruct Hcase as [(Hplan & Htm & Hactive)|(Hrun & workers & Htm & Hactive & Hdisj & Hstops)].
  - rewrite Htm. split; [done|]. split; [|split].
    + intros t timer Ht. destruct (Htimers t timer Ht) as (m & Hm0 & Hnp & Hlive).
      exists m. rewrite Hat, decide_False by by apply (Hold t). split; [done|].
      split; [done|]. by rewrite Hactive.
    + by apply Hwitness.
    + intros r m. rewrite Hat. case_decide.
      * intros [= <-] _. rewrite Hdone. by apply (Hplanned ref).
      * apply Hplanned.
  - rewrite Htm. split; [|split; [|split]].
    + rewrite map_app. simpl. apply NoDup_app. split; [done|]. split; [|apply NoDup_singleton].
      intros r Hr ->%list_elem_of_singleton.
      apply list_elem_of_fmap in Hr as (timer & Heq & [t Ht]%list_elem_of_lookup).
      by apply (Hold t timer).
    + intros t timer Ht. destruct (decide (t = length (timers s))) as [->|Hne].
      * rewrite list_lookup_middle in Ht by done. injection Ht as <-. simpl.
        exists (f mission). rewrite Hat, decide_True by done. split; [done|].
        split; [by rewrite Hrun|]. intros _. split; [done|]. split.
        { rewrite Hactive, Hid. apply lookup_insert_eq. }
        split; [by apply Hdisj|].
        intros w x Hw Hx. rewrite pendingLampIds_all.
        -- by apply (Hstops w).
        -- rewrite Hdone. by apply (Hplanned ref).
      * assert (Hlt : (t < length (timers s))%nat).
        { apply lookup_lt_Some in Ht. rewrite length_app in Ht. simpl in Ht. lia. }
        rewrite lookup_app_l in Ht by done.
        destruct (Htimers t timer Ht) as (m & Hm0 & Hnp & Hlive).
        exists m. rewrite Hat, decide_False by by apply (Hold t). split; [done|].
        split; [done|]. intros Hl. destruct (Hlive Hl) as (? & ? & ? & ?).
        split; [done|]. split; [|done]. rewrite Hactive, lookup_insert_ne; [done|].
        intros Heq. apply (idsDistinct_ne s ref (timer_mission timer) mission m); try done.
        intros Href. by apply (Hold t timer).
    + apply Hwitness. intros t timer Ht. rewrite lookup_app_l; [done|].
      by eapply lookup_lt_Some.
    + intros r m. rewrite Hat. case_decide.
      * intros [= <-] Hpl. congruence.
      * apply Hplanned.
Qed.

(** ** Steps that start nothing *)

Lemma fleetInvariant_frame tm s s' :
  missions s' = missions s → activeMissionTimers s' = activeMissionTimers s →
  targetsKept s s' →
  fleetInvariant tm s → fleetInvariant tm s'.
Proof.
  intros Hm Ha Hkept (Hrefs & Htimers & Htargets & Hplanned).
  split; [done|]. split; [|split].
  - intros t timer Ht. destruct (Htimers t timer Ht) as (m & Hat & Hnp & Hlive).
    exists m. rewrite (missionAt_ext s s') by done. split; [done|]. split; [done|].
    by rewrite Ha.
  - intros i d' x Hd' Hx. destruct (Hkept i d' x Hd' Hx) as (d & Hd & Hxd).
    by apply (Htargets i d x).
  - intros r m. rewrite (missionAt_ext s s') by done. apply Hplanned.
Qed.

Lemma fleetInvariant_cons tm s s' m0 :
  missions s' = m0 :: missions s →
  mission_status m0 = planned → completedLampIds m0 = [] →
  activeMissionTimers s' = activeMissionTimers s → targetsKept s s' →
  fleetInvariant tm s → fleetInvariant tm s'.
Proof.
  intros Hm Hst Hdone Ha Hkept (Hrefs & Htimers & Htargets & Hplanned).
  split; [done|]. split; [|split].
  - intros t timer Ht. destruct (Htimers t timer Ht) as (m & Hat & Hnp & Hlive).
    exists m. rewrite (missionAt_cons s s' m0) by done. rewrite decide_False.
    + split; [done|]. split; [done|]. by rewrite Ha.
    + intros Heq. unfold missionAt in Hat. rewrite Heq in Hat.
      destruct (decide _) as [Hlt|]; [lia|done].
  - intros i d' x Hd' Hx. destruct (Hkept i d' x Hd' Hx) as (d & Hd & Hxd).
    by apply (Htargets i d x).
  - intros r m. rewrite (missionAt_cons s s' m0) by done. case_decide.
    + by intros [= <-] _.
    + apply Hplanned.
Qed.

Lemma targetsKept_same s s' :
  map targetLampId (drones s') = map targetLampId (drones s) → targetsKept s s'.
Proof.
  intros Heq i d' x Hd' Hx.
  assert (Hi : map targetLampId (drones s) !! i = Some (Some x)).
  { rewrite <- Heq, list_lookup_fmap, Hd'. simpl. by rewrite Hx. }
  rewrite list_lookup_fmap in Hi. apply fmap_Some in Hi as (d & Hd & Hxd). by exists d.
Qed.

Lemma ensureDroneCoverage_targets now s :
  targetsKept s (ensureDroneCoverageForAllDocks now s).
Proof.
  unfold ensureDroneCoverageForAllDocks.
  set (step := λ (s : State) '(index, dock), _).
  assert (Hfold : ∀ l s0, ∃ extra,
            drones (foldl step s0 l) = drones s0 ++ extra
            ∧ Forall (λ d, targetLampId d = None) extra).
  { induction l as [|[index dock] l IH]; intros s0.
    - exists []. simpl. by rewrite app_nil_r.
    - change (foldl step s0 ((index, dock) :: l)) with (foldl step (step s0 (index, dock)) l).
      destruct (IH (step s0 (index, dock))) as (extra & -> & Hextra). unfold step.
      destruct (List.find _ _).
      + by exists extra.
      + simpl. eexists. rewrite <- app_assoc. split; [done|]. by constructor. }
  destruct (Hfold (zip (seq 0 (length (docks s))) (docks s)) s) as (extra & Hdrones & Hextra).
  intros i d' x Hd' Hx. simpl in Hd'. rewrite Hdrones, list_lookup_fmap in Hd'.
  apply fmap_Some in Hd' as (d & Hd & ->).
  assert (Hxd : targetLampId d = Some x).
  { revert Hx. unfold ensureDroneContainerState, enforceDroneDockBinding.
    repeat case_match; unfold moveDroneToDockIfAvailable; repeat case_match; done. }
  exists d. split; [|done].
  destruct (decide (i < length (drones s))%nat).
  - by rewrite lookup_app_l in Hd.
  - rewrite lookup_app_r in Hd by lia. apply list_elem_of_lookup_2 in Hd.
    rewrite Forall_forall in Hextra. rewrite (Hextra d Hd) in Hxd. done.
Qed.

Lemma ensureDroneCoverage_timers now s :
  timers (ensureDroneCoverageForAllDocks now s) = timers s
  ∧ activeMissionTimers (ensureDroneCoverageForAllDocks now s) = activeMissionTimers s.
Proof.
  unfold ensureDroneCoverageForAllDocks.
  change (timers (with_drones ?a ?s)) with (timers s).
  change (activeMissionTimers (with_drones ?a ?s)) with (activeMissionTimers s).
  generalize (zip (seq 0 (length (docks s))) (docks s)). intros l.
  revert s. induction l as [|[index dock] l IH]; intros s; [done|].
  simpl. split; [rewrite (proj1 (IH _))|rewrite (proj2 (IH _))];
    by destruct (List.find _ _).
Qed.

Lemma tickDrone_frame now s index :
  timers (tickDrone now s index) = timers s
  ∧ activeMissionTimers (tickDrone now s index) = activeMissionTimers s
  ∧ map targetLampId (drones (tickDrone now s index)) = map targetLampId (drones s)
  ∧ map drone_id (drones (tickDrone now s index)) = map drone_id (drones s).
Proof.
  assert (Hkeep : ∀ s0 f, (∀ d, targetLampId (f d) = targetLampId d) →
            (∀ d, drone_id (f d) = drone_id d) →
            map targetLampId (drones (updDrone index f s0)) = map targetLampId (drones s0)
            ∧ map drone_id (drones (updDrone index f s0)) = map drone_id (drones s0)).
  { intros s0 f Ht Hi. unfold updDrone. simpl. by rewrite !map_alter_preserved. }
  unfold tickDrone. destruct (drones s !! index) as [drone|] eqn:Hd; [|done].
  destruct (bool_decide (drone_status drone = servicing)).
  - destruct (_ && _); [|done].
    split; [by repeat case_match|]. split; [by repeat case_match|].
    set (s1 := match getActiveDock s drone with Some _ => _ | None => s end).
    assert (Hs1 : map targetLampId (drones s1) = map targetLampId (drones s)
                  ∧ map drone_id (drones s1) = map drone_id (drones s)).
    { subst s1. destruct (getActiveDock s drone); [|done].
      destruct (0 <? _); [|done].
      change (drones (addLog ?a ?b ?c ?d ?s)) with (drones s).
      destruct (Hkeep (updDock (dock_id d)
                  (λ k, dock_with_containerSwapUpdatedAt (Some now)
                          (dock_with_lastSwapCompletedAt (Some now)
                             (dock_with_containerSwapStatus replaced
                                (dock_with_emptyContainers
                                   (emptyContainers k + pendingContainerOps drone)
                                   (dock_with_fullContainers
                                      (Z.max 0 (fullContainers k - pendingContainerOps drone))
                                      k))))) s)
                  (drone_with_containerLampsRemaining
                     (LAMPS_PER_CONTAINER * pendingContainerOps drone))) as [H1 H2]; done. }
    destruct Hs1 as [<- <-]. by apply Hkeep.
  - destruct (_ || _); [|done].
    destruct (battery drone <? 100).
    + assert (Hcharged : ∀ d0, targetLampId (moveDroneToDockIfAvailable s d0) = targetLampId d0
                               ∧ drone_id (moveDroneToDockIfAvailable s d0) = drone_id d0).
      { intros d0. unfold moveDroneToDockIfAvailable. by destruct (getActiveDock _ _). }
      assert (Hsame : ∀ s0 d1, targetLampId d1 = targetLampId drone → drone_id d1 = drone_id drone →
                drones s0 = drones s →
                map targetLampId (drones (updDrone index (λ _, d1) s0))
                = map targetLampId (drones s)
                ∧ map drone_id (drones (updDrone index (λ _, d1) s0)) = map drone_id (drones s)).
      { intros s0 d1 Ht Hi Hs0. unfold updDrone. simpl. rewrite Hs0.
        split; apply list_eq; intros j; rewrite !list_lookup_fmap;
          (destruct (decide (j = index)) as [->|Hne];
           [rewrite list_lookup_alter_eq, Hd; simpl; congruence
           |by rewrite list_lookup_alter_ne]). }
      destruct (100 <=? _).
      * split; [done|]. split; [done|]. change (drones (addLog ?a ?b ?c ?d ?s)) with (drones s).
        apply Hsame; try done; simpl; by destruct (Hcharged (drone_with_status charging drone)).
      * split; [done|]. split; [done|].
        apply Hsame; try done; simpl; by destruct (Hcharged (drone_with_status charging drone)).
    + destruct (bool_decide _); [|done]. split; [done|]. split; [done|]. by apply Hkeep.
Qed.

Lemma tickDrones_frame now l s :
  timers (foldl (tickDrone now) s l) = timers s
  ∧ activeMissionTimers (foldl (tickDrone now) s l) = activeMissionTimers s
  ∧ map targetLampId (drones (foldl (tickDrone now) s l)) = map targetLampId (drones s)
  ∧ map drone_id (drones (foldl (tickDrone now) s l)) = map drone_id (drones s).
Proof.
  revert s. induction l as [|i l IH]; intros s; [done|].
  simpl. destruct (IH (tickDrone now s i)) as (-> & -> & -> & ->). apply tickDrone_frame.
Qed.

Lemma refillDocks_frame now s :
  timers (refillDocks now s) = timers s
  ∧ activeMissionTimers (refillDocks now s) = activeMissionTimers s
  ∧ drones (refillDocks now s) = drones s.
Proof. unfold refillDocks. by case_match. Qed.

Lemma tryAutoServiceDispatch_fleet now s :
  "M-" +:+ pretty now ∉ map mission_id (missions s) →
  dispatchInvariant s → NoDup (map drone_id (drones s)) →
  fleetInvariant (timers s) s →
  fleetInvariant (timers (tryAutoServiceDispatch now s)) (tryAutoServiceDispatch now s).
Proof.
  intros Hfresh Hdispatch Hids Hinv. unfold tryAutoServiceDispatch.
  destruct (autoDispatchAttempt now s) as [dispatch|]; [|done].
  destruct (createMission now _ _ _ _ s) as [s1 ref] eqn:Hcreate.
  unfold createMission in Hcreate. injection Hcreate as <- <-.
  set (s1 := addLog now "mission" _ _ _).
  assert (Hfleet1 : fleetInvariant (timers s1) s1).
  { eapply (fleetInvariant_cons (timers s) s); [reflexivity|done|done|done| |done].
    by apply targetsKept_eq. }
  assert (Hdispatch1 : dispatchInvariant s1).
  { eapply (dispatchInvariant_cons s); [reflexivity|discriminate|done|done]. }
  pose proof (tryStartMission_fleet now (Some (length (missions s))) s1 Hdispatch1 Hids Hfleet1)
    as Hstart.
  destruct (tryStartMission now (Some (length (missions s))) s1) as [s2 [|statusCode error]];
    simpl in Hstart.
  - by apply (fleetInvariant_ext _ s2).
  - by apply (fleetInvariant_ext _ s2).
Qed.

Lemma engineStep_fleet e s :
  clockFresh e s = true → fleetDistinct e s = true →
  dispatchInvariant s → fleetInvariant (timers s) s →
  fleetInvariant (timers (engineStep e s)) (engineStep e s).
Proof.
  unfold clockFresh, fleetDistinct. intros Hfresh Hids%bool_decide_eq_true Hdispatch Hinv.
  destruct e; simpl in *.
  - by apply missionTick_fleet.
  - apply bool_decide_eq_true in Hfresh. unfold globalTick.
    set (s1 := ensureDroneCoverageForAllDocks now s) in *.
    set (s2 := refillDocks now s1).
    set (s3 := foldl (tickDrone now) s2 (seq 0 (length (drones s2)))).
    destruct (ensureDroneCoverage_timers now s) as [Ht1 Ha1]. fold s1 in Ht1, Ha1.
    destruct (refillDocks_frame now s1) as (Ht2 & Ha2 & Hd2). fold s2 in Ht2, Ha2, Hd2.
    destruct (tickDrones_frame now (seq 0 (length (drones s2))) s2) as (Ht3 & Ha3 & Htg3 & Hid3).
    fold s3 in Ht3, Ha3, Htg3, Hid3.
    assert (Hm3 : missions s3 = missions s).
    { unfold s3, s2, s1.
      by rewrite tickDrones_missions, refillDocks_missions, ensureDroneCoverage_missions. }
    apply tryAutoServiceDispatch_fleet.
    + by rewrite Hm3.
    + by apply (dispatchInvariant_ext s).
    + by rewrite Hid3, Hd2.
    + replace (timers s3) with (timers s) by congruence.
      apply (fleetInvariant_frame _ s); [done|congruence| |done].
      eapply targetsKept_trans; [apply ensureDroneCoverage_targets|]. fold s1.
      eapply targetsKept_trans; [by apply (targetsKept_eq s1 s2)|].
      by apply targetsKept_same.
  - apply bool_decide_eq_true in Hfresh. unfold apiFailLamp, markLampForReplacement.
    destruct (findLamp s lampId) as [lamp|]; [|done]. simpl.
    set (s1 := addLog now "alarm" _ _ _).
    assert (Hfleet1 : fleetInvariant (timers s1) s1) by by apply (fleetInvariant_ext _ s).
    destruct (autoServiceEnabled s); [|done].
    apply tryAutoServiceDispatch_fleet;
      [done|by apply (dispatchInvariant_ext s)|done|done].
  - unfold apiPlanMission.
    destruct (List.filter _ (lamps s)); [by apply (fleetInvariant_ext _ s)|].
    destruct (plan_routeLampIds _); [by apply (fleetInvariant_ext _ s)|].
    eapply (fleetInvariant_cons (timers s) s); [reflexivity|done|done|done| |done].
    by apply targetsKept_eq.
  - unfold apiStartMission.
    pose proof (tryStartMission_fleet now (findMission s missionId) s Hdispatch Hids Hinv)
      as Hstart.
    destruct (tryStartMission now (findMission s missionId) s) as [s1 [|statusCode error]];
      [done|]. by apply (fleetInvariant_ext _ s1).
  - apply (fleetInvariant_frame _ s); try done.
    unfold apiReplaceAllContainers.
    eapply (targetsKept_map _ s); [|reflexivity].
    intros d. simpl. by destruct (bool_decide _).
  - by apply (fleetInvariant_ext _ s).
Qed.

Lemma fleet_targetsDistinct s :
  dispatchInvariant s → fleetInvariant (timers s) s → targetsDistinct s.
Proof.
  intros [Hpending _] (Hrefs & Htimers & Htargets & _) i j di dj x Hne Hdi Hdj Hxi Hxj.
  destruct (Htargets i di x Hdi Hxi) as (t1 & timer1 & w1 & Ht1 & Hl1 & Hw1 & Hi1 & Hx1).
  destruct (Htargets j dj x Hdj Hxj) as (t2 & timer2 & w2 & Ht2 & Hl2 & Hw2 & Hi2 & Hx2).
  destruct (Htimers t1 timer1 Ht1) as (m1 & Hm1 & _ & Hlive1).
  destruct (Htimers t2 timer2 Ht2) as (m2 & Hm2 & _ & Hlive2).
  destruct (Hlive1 Hl1) as (Hrun1 & _ & [_ Hdisj1] & Hstops1).
  destruct (Hlive2 Hl2) as (Hrun2 & _ & _ & Hstops2).
  assert (Hs1 : x ∈ workerStops w1) by (unfold workerStops; rewrite Hx1; left).
  assert (Hs2 : x ∈ workerStops w2) by (unfold workerStops; rewrite Hx2; left).
  destruct (decide (t1 = t2)) as [->|Htne].
  - rewrite Ht1 in Ht2. injection Ht2 as <-.
    apply list_elem_of_lookup in Hw1 as [p Hp]. apply list_elem_of_lookup in Hw2 as [q Hq].
    pose proof (Hdisj1 p q w1 w2 x Hp Hq Hs1 Hs2) as ->.
    rewrite Hp in Hq. injection Hq as <-. congruence.
  - assert (Hrne : timer_mission timer1 ≠ timer_mission timer2).
    { intros Heq. apply Htne.
      apply (NoDup_lookup _ _ _ (timer_mission timer1) Hrefs); rewrite list_lookup_fmap.
      - by rewrite Ht1.
      - rewrite Ht2. simpl. by rewrite Heq. }
    apply (Hpending _ _ m1 m2 x Hrne Hm1 Hm2 Hrun1 Hrun2).
    + by apply (Hstops1 w1).
    + by apply (Hstops2 w2).
Qed.

Lemma engineStep_invariant e s :
  clockFresh e s = true → dispatchInvariant s → dispatchInvariant (engineStep e s).
Proof.
  unfold clockFresh. intros Hfresh Hinv. destruct e; simpl in *.
  - apply (missionsShrink_invariant s); [apply missionTick_missions|done].
  - apply bool_decide_eq_true in Hfresh. unfold globalTick.
    assert (Hsame : missions (foldl (tickDrone now)
                                (refillDocks now (ensureDroneCoverageForAllDocks now s))
                                (seq 0 (length (drones (refillDocks now
                                   (ensureDroneCoverageForAllDocks now s))))))
                    = missions s)
      by (by rewrite tickDrones_missions, refillDocks_missions, ensureDroneCoverage_missions).
    apply tryAutoServiceDispatch_invariant; [by rewrite Hsame|].
    by apply (dispatchInvariant_ext s).
  - apply bool_decide_eq_true in Hfresh. unfold apiFailLamp, markLampForReplacement.
    destruct (findLamp s lampId) as [lamp|]; [|done]. simpl.
    destruct (autoServiceEnabled s); [|by apply (dispatchInvariant_ext s)].
    apply tryAutoServiceDispatch_invariant; [done|]. by apply (dispatchInvariant_ext s).
  - apply bool_decide_eq_true in Hfresh. unfold apiPlanMission.
    destruct (List.filter _ (lamps s)); [by apply (dispatchInvariant_ext s)|].
    destruct (plan_routeLampIds _); [by apply (dispatchInvariant_ext s)|].
    eapply (dispatchInvariant_cons s); [reflexivity|discriminate|done|done].
  - unfold apiStartMission.
    pose proof (tryStartMission_invariant now (findMission s missionId) s Hinv) as Hstart.
    destruct (tryStartMission now (findMission s missionId) s) as [s1 [|statusCode error]];
      [done|]. by apply (dispatchInvariant_ext s1).
  - by apply (dispatchInvariant_ext s).
  - by apply (dispatchInvariant_ext s).
Qed.

Lemma dispatchInvariant_initial s : missions s = [] → dispatchInvariant s.
Proof.
  intros Hnone. split.
  - intros ref1 ref2 m1 m2 x _ H1. unfold missionAt in H1. rewrite Hnone in H1.
    destruct (decide _) as [Hlt|]; [simpl in Hlt; lia|done].
  - unfold idsDistinct. rewrite Hnone. constructor.
Qed.

Lemma freshStart_invariant s :
  freshStart s = true → dispatchInvariant s ∧ fleetInvariant (timers s) s.
Proof.
  unfold freshStart. destruct (missions s) as [|m ms] eqn:Hmissions; [|done].
  destruct (timers s) as [|t ts] eqn:Htimers; [|done]. intros Hidle.
  split; [by apply dispatchInvariant_initial|].
  split; [constructor|]. split; [|split].
  - intros t timer Ht. by rewrite lookup_nil in Ht.
  - intros i d x Hd Hx. rewrite forallb_forall in Hidle.
    specialize (Hidle d (proj1 (list_elem_of_In _ _) (list_elem_of_lookup_2 _ _ _ Hd))).
    apply bool_decide_eq_true in Hidle. congruence.
  - intros r m Hm. unfold missionAt in Hm. rewrite Hmissions in Hm.
    destruct (decide _) as [Hlt|]; [simpl in Hlt; lia|done].
Qed.

Lemma engineRun_invariant events s :
  freshRun events s = true →
  dispatchInvariant s → fleetInvariant (timers s) s →
  dispatchInvariant (engineRun events s)
  ∧ fleetInvariant (timers (engineRun events s)) (engineRun events s).
Proof.
  revert s. induction events as [|e events IH]; intros s Hfresh Hdispatch Hfleet; [done|].
  simpl in Hfresh. apply andb_true_iff in Hfresh as [[He Hids]%andb_true_iff Hrest].
  simpl. apply IH; [done| |].
  - by apply engineStep_invariant.
  - by apply engineStep_fleet.
Qed.

Lemma freshRun_take n events s : freshRun events s = true → freshRun (take n events) s = true.
Proof.
  revert n s. induction events as [|e events IH]; intros [|n] s; simpl; try done.
  intros [He Hrest]%andb_true_iff. rewrite He. simpl. by apply IH.
Qed.

Lemma assignLamp_subset activeDrones st lamp id x :
  x ∈ default [] ((assignLamp activeDrones st lamp).1 !! id) →
  x ∈ default [] (st.1 !! id) ∨ x = lamp.
Proof.
  destruct st as [assigned capacity]. unfold assignLamp.
  destruct (List.find _ _) as [selected|]; [|by left]. simpl.
  destruct (decide (drone_id selected = id)) as [<-|Hne].
  - rewrite lookup_alter_eq. destruct (assigned !! drone_id selected) as [l|]; simpl.
    + intros [?|Heq%list_elem_of_singleton]%elem_of_app; auto.
    + by left.
  - rewrite lookup_alter_ne by done. by left.
Qed.

Lemma assignLamps_subset activeDrones lamps st id x :
  x ∈ default [] ((foldl (assignLamp activeDrones) st lamps).1 !! id) →
  x ∈ default [] (st.1 !! id) ∨ x ∈ lamps.
Proof.
  revert st. induction lamps as [|lamp lamps IH]; intros st; simpl; [by left|].
  intros [Hin|Hin]%IH.
  - apply assignLamp_subset in Hin as [?| ->]; [by left|right; by left].
  - right. by right.
Qed.

Lemma initialAssignment_empty activeDrones id :
  default [] ((initialAssignment activeDrones).1 !! id) = [].
Proof.
  unfold initialAssignment. simpl.
  destruct (newMap _ !! id) as [l|] eqn:Hl; [|done]. simpl.
  apply newMap_lookup_Some in Hl. apply in_map_iff in Hl as (d & [= _ <-] & _).
  done.
Qed.

Lemma buildCapacityAwareRoutes_ids lamps drones x :
  x ∈ plan_routeLampIds (buildCapacityAwareRoutes lamps drones) → x ∈ map lamp_id lamps.
Proof.
  unfold buildCapacityAwareRoutes.
  set (activeDrones := List.filter isOperational drones).
  destruct lamps as [|lamp lamps]; [by intros ?%elem_of_nil|].
  destruct activeDrones as [|drone rest] eqn:Hactive; [by intros ?%elem_of_nil|].
  rewrite <- Hactive. simpl plan_routeLampIds. generalize (lamp :: lamps). clear lamp lamps.
  intros lamps Hin. apply elem_of_concat in Hin as (route & Hx & Hroute).
  set (Q := λ route : list Z, ∀ x, x ∈ route → x ∈ map lamp_id lamps).
  assert (Hall : ∀ ds acc, Forall Q (objValues acc) →
            Forall Q (objValues
              (foldl
                 (λ droneRoutes drone,
                    let assigned := default [] (assignedLamps lamps activeDrones !! drone_id drone) in
                    let orderedLamps := nearestNeighborRoute assigned (position drone) in
                    objSet (drone_id drone) (map lamp_id orderedLamps) droneRoutes)
                 acc ds))).
  { induction ds as [|d ds IH]; intros acc Hacc; [done|]. simpl. apply IH.
    apply objValues_objSet; [done|]. intros y Hy.
    apply list_elem_of_fmap in Hy as (l & -> & Hl).
    rewrite nearestNeighborRoute_perm in Hl.
    unfold assignedLamps in Hl. apply assignLamps_subset in Hl as [Hl|Hl].
    - rewrite initialAssignment_empty in Hl. by apply elem_of_nil in Hl.
    - apply list_elem_of_fmap. by exists l. }
  specialize (Hall activeDrones [] (Forall_nil_2 _)).
  rewrite Forall_forall in Hall. by apply (Hall route Hroute).
Qed.

Lemma apiPlanMission_planned now requested s ref :
  (apiPlanMission now requested s).2 = Some ref →
  ∃ mission,
    missionAt (apiPlanMission now requested s).1.1 ref = Some mission
    ∧ mission_status mission = planned
    ∧ ∀ x, x ∈ routeLampIds mission →
        x ∈ requested ∧ (x ∉ getOccupiedLampIds s None)
        ∧ ∃ lamp, lamp ∈ lamps s ∧ lamp_id lamp = x ∧ lamp_status lamp = lamp_replace.
Proof.
  unfold apiPlanMission.
  set (candidates := List.filter _ (lamps s)).
  destruct candidates as [|c cs] eqn:Hc; [done|]. rewrite <- Hc.
  set (optimized := buildCapacityAwareRoutes candidates _).
  destruct (plan_routeLampIds optimized) as [|y ys] eqn:Hplan; [done|]. rewrite <- Hplan.
  unfold createMission. simpl. intros [= <-]. eexists. split.
  { erewrite (missionAt_cons s); [|reflexivity]. by rewrite decide_True. }
  split; [done|]. simpl. intros x Hx.
  apply buildCapacityAwareRoutes_ids in Hx.
  apply list_elem_of_fmap in Hx as (lamp & -> & Hlamp).
  subst candidates. apply list_elem_of_In, filter_In in Hlamp as [Hin Hkeep].
  apply andb_true_iff in Hkeep as [[Hreq Hst]%andb_true_iff Hocc].
  apply bool_decide_eq_true in Hreq, Hst. apply negb_true_iff, bool_decide_eq_false in Hocc.
  split; [by apply elem_of_list_to_set in Hreq|]. split; [done|].
  exists lamp. split; [by apply list_elem_of_In|done].
Qed.

Lemma tryStartMission_started now ref s mission :
  missionAt s ref = Some mission → mission_status mission ≠ running →
  ∃ started,
    missionAt (tryStartMission now (Some ref) s).1 ref = Some started
    ∧ mission_id started = mission_id mission
    ∧ (mission_status started = running →
       ∀ x, x ∈ routeLampIds started →
         (x ∉ getOccupiedLampIds s (Some (mission_id mission)))
         ∧ ∃ lamp, lampByIdMap s !! x = Some lamp ∧ lamp_status lamp = lamp_replace).
Proof.
  intros Hm Hst.
  destruct (tryStartMission_missions now ref s mission Hm) as (f & Hmissions & Hid & Hstarted).
  exists (f mission). split.
  { rewrite (missionAt_ext (updMission ref f s)) by done.
    by rewrite missionAt_updMission, Hm. }
  split; [done|]. intros Hrun.
  destruct (Hstarted Hrun) as [Hsame|Hfree]; [|done].
  rewrite Hsame in Hrun. done.
Qed.

(** C1, as amended.  Along every run of the engine from a state in which
    nothing has been planned or started, in which no mission is created at
    a clock value already used for a mission id and the drones among which
    a mission is dispatched have distinct ids, at every instant: no lamp is
    a pending stop (a stop not yet completed) of two running missions, and
    no two drones have the same target lamp; the occupied set that
    [getOccupiedLampIds] computes from the state at hand holds exactly the
    pending stops of the running missions that are not excluded and the
    targets of the drones that are flying or replacing; every stop of a
    mission that [tryStartMission] starts is a lamp to replace outside the
    occupied set of that state; and every stop of a mission that the
    planning command creates is a requested lamp to replace outside the
    occupied set of that state. *)
Theorem pending_stops_disjoint events s n :
  freshStart s = true → freshRun events s = true →
  let s' := engineRun (take n events) s in
  (pendingDisjoint s' ∧ idsDistinct s')
  ∧ targetsDistinct s'
  ∧ (∀ exclude x, x ∈ getOccupiedLampIds s' exclude ↔ occupiedIn s' exclude x)
  ∧ (∀ now ref mission,
       missionAt s' ref = Some mission → mission_status mission ≠ running →
       ∃ started,
         missionAt (tryStartMission now (Some ref) s').1 ref = Some started
         ∧ mission_id started = mission_id mission
         ∧ (mission_status started = running →
            ∀ x, x ∈ routeLampIds started →
              (x ∉ getOccupiedLampIds s' (Some (mission_id mission)))
              ∧ ∃ lamp, lampByIdMap s' !! x = Some lamp ∧ lamp_status lamp = lamp_replace))
  ∧ (∀ now requested ref,
       (apiPlanMission now requested s').2 = Some ref →
       ∃ mission,
         missionAt (apiPlanMission now requested s').1.1 ref = Some mission
         ∧ mission_status mission = planned
         ∧ ∀ x, x ∈ routeLampIds mission →
             x ∈ requested ∧ (x ∉ getOccupiedLampIds s' None)
             ∧ ∃ lamp, lamp ∈ lamps s' ∧ lamp_id lamp = x ∧ lamp_status lamp = lamp_replace).
Proof.
  intros Hstart Hfresh s'.
  destruct (freshStart_invariant s Hstart) as [Hdispatch Hfleet].
  destruct (engineRun_invariant (take n events) s (freshRun_take n events s Hfresh)
              Hdispatch Hfleet) as [Hdispatch' Hfleet'].
  split; [done|]. split; [by apply fleet_targetsDistinct|]. split; [|split].
  - intros exclude x. apply getOccupiedLampIds_spec.
  - intros now ref mission. apply tryStartMission_started.
  - intros now requested ref. apply apiPlanMission_planned.
Qed.

Lemma length_flat_map_const {A B} (f : A → list B) (l : list A) (n : nat) :
  (∀ x, In x l → length (f x) = n) → length (flat_map f l) = (length l * n)%nat.
Proof.
  induction l as [|x l IH]; intros Hf; simpl; [done|].
  rewrite length_app, Hf, IH; [done| |by left]. intros y Hy. apply Hf. by right.
Qed.

Lemma permutations_rec_length {A} (n : nat) (items : list A) :
  (length items ≤ n)%nat → length (permutations_rec n items) = fact (length items).
Proof.
  revert items. induction n as [|n IH]; intros items Hlen; simpl.
  { destruct items; [done|simpl in Hlen; lia]. }
  destruct (decide (length items ≤ 1)%nat) as [Hle|Hgt].
  { destruct items as [|x [|y l]]; simpl in *; try done. lia. }
  rewrite (length_flat_map_const _ _ (fact (length items - 1))).
  - rewrite length_seq. destruct (length items) as [|k] eqn:Hk; [lia|].
    simpl. replace (k - 0)%nat with k by lia. lia.
  - intros index Hin. apply in_seq in Hin.
    destruct (lookup_lt_is_Some_2 items index) as [current Hcur]; [lia|].
    rewrite Hcur, length_map, IH.
    + f_equal. rewrite length_app, length_take, length_drop. lia.
    + rewrite length_app, length_take, length_drop. lia.
Qed.

(** X1.  The generator [permutations] yields exactly the rearrangements of
    its argument: a list is among its results if and only if it is a
    permutation of the items, and for [n] items it yields [n!] lists. *)
Theorem permutations_all {A} (items : list A) :
  (∀ p, p ∈ permutations items ↔ p ≡ₚ items)
  ∧ length (permutations items) = fact (length items).
Proof.
  split.
  - intros p. rewrite list_elem_of_In. apply permutations_spec.
  - by apply permutations_rec_length.
Qed.

(** ** The greedy branch of [nearestNeighborRoute] *)

Lemma nearestIndex_min current seen remaining bestIndex bestDistance :
  match bestDistance with
  | None => seen = []
  | Some b =>
      ∃ x, (seen ++ remaining) !! bestIndex = Some x
        ∧ b = geoDistance current (lampPoint x)
        ∧ ∀ y, y ∈ seen → fltb (geoDistance current (lampPoint y)) b = false
  end →
  seen ++ remaining ≠ [] →
  ∃ x,
    (seen ++ remaining) !! nearestIndex current remaining (length seen) bestIndex bestDistance
    = Some x
    ∧ ∀ y, y ∈ seen ++ remaining →
        fltb (geoDistance current (lampPoint y)) (geoDistance current (lampPoint x)) = false.
Proof.
  revert seen bestIndex bestDistance.
  induction remaining as [|lamp rest IH]; intros seen bestIndex bestDistance Hbest Hne; simpl.
  - rewrite app_nil_r in *. destruct bestDistance as [b|]; [|done].
    destruct Hbest as (x & Hx & -> & Hmin). by exists x.
  - replace (seen ++ lamp :: rest) with ((seen ++ [lamp]) ++ rest) in *
      by by rewrite <- app_assoc.
    replace (S (length seen)) with (length (seen ++ [lamp]))
      by (rewrite length_app; simpl; lia).
    destruct (ltInf _ bestDistance) eqn:Hlt; apply IH; try done.
    + exists lamp. split; [|split; [done|]].
      * rewrite lookup_app_l by (rewrite length_app; simpl; lia).
        by rewrite list_lookup_middle.
      * intros y [Hy|Hy%list_elem_of_singleton]%elem_of_app.
        -- destruct bestDistance as [b|]; [|by subst seen; inversion Hy].
           destruct Hbest as (x & _ & -> & Hmin). simpl in Hlt.
           destruct (fltb (geoDistance current (lampPoint y))
                       (geoDistance current (lampPoint lamp))) eqn:Hyl; [|done].
           rewrite <- (Hmin y Hy). symmetry. by eapply fltb_trans.
        -- subst y. apply fltb_irrefl.
    + destruct bestDistance as [b|]; [|done]. simpl in Hlt.
      destruct Hbest as (x & Hx & -> & Hmin). exists x. split; [done|]. split; [done|].
      intros y [Hy|Hy%list_elem_of_singleton]%elem_of_app; [by apply Hmin|by subst y].
Qed.

Lemma greedyRoute_nearest n remaining current i x y :
  length remaining = n →
  greedyRoute n remaining current !! i = Some x →
  y ∈ drop i (greedyRoute n remaining current) →
  let from := stopBefore current (greedyRoute n remaining current) i in
  fltb (geoDistance from (lampPoint y)) (geoDistance from (lampPoint x)) = false.
Proof.
  revert remaining current i. induction n as [|n IH]; intros remaining current i Hlen Hx Hy.
  { simpl in Hx. by rewrite lookup_nil in Hx. }
  assert (Hne : [] ++ remaining ≠ []) by (destruct remaining; [discriminate|done]).
  destruct (nearestIndex_min current [] remaining 0 None eq_refl Hne) as (best & Hbest & Hmin).
  simpl in Hbest, Hmin. simpl in Hx, Hy |- *. rewrite Hbest in Hx, Hy |- *.
  set (rest := take _ remaining ++ drop _ remaining) in *.
  assert (Hrest : length rest = n).
  { unfold rest. apply lookup_lt_Some in Hbest.
    rewrite length_app, length_take, length_drop. lia. }
  assert (Hperm : best :: greedyRoute n rest (lampPoint best) ≡ₚ remaining).
  { rewrite greedyRoute_perm by done. unfold rest.
    rewrite Permutation_middle. by rewrite take_drop_middle. }
  destruct i as [|i].
  - cbn in Hx. injection Hx as <-. cbn. apply Hmin. by rewrite <- Hperm.
  - change ((best :: greedyRoute n rest (lampPoint best)) !! S i)
      with (greedyRoute n rest (lampPoint best) !! i) in Hx.
    change (drop (S i) (best :: greedyRoute n rest (lampPoint best)))
      with (drop i (greedyRoute n rest (lampPoint best))) in Hy.
    pose proof (IH rest (lampPoint best) i Hrest Hx Hy) as Hgoal.
    destruct i as [|i]; [exact Hgoal|].
    change (stopBefore current (best :: greedyRoute n rest (lampPoint best)) (S (S i)))
      with (default current (lampPoint <$> greedyRoute n rest (lampPoint best) !! i)).
    change (stopBefore (lampPoint best) (greedyRoute n rest (lampPoint best)) (S i))
      with (default (lampPoint best) (lampPoint <$> greedyRoute n rest (lampPoint best) !! i))
      in Hgoal.
    destruct (lookup_lt_is_Some_2 (greedyRoute n rest (lampPoint best)) i) as [prev Hprev].
    { apply lookup_lt_Some in Hx. lia. }
    by rewrite Hprev in Hgoal |- *.
Qed.

(** X2.  With more than eight lamps [nearestNeighborRoute] takes the greedy
    branch: the route is a permutation of the lamps, and every stop is a
    nearest one among the stops not yet visited, seen from the start
    position (first stop) or from the stop before it: no later stop of the
    route is strictly closer. *)
Theorem nearestNeighborRoute_greedy lamps startPosition :
  (8 < length lamps)%nat →
  let route := nearestNeighborRoute lamps startPosition in
  route ≡ₚ lamps
  ∧ ∀ i x y, route !! i = Some x → y ∈ drop i route →
      fltb (geoDistance (stopBefore startPosition route i) (lampPoint y))
           (geoDistance (stopBefore startPosition route i) (lampPoint x)) = false.
Proof.
  intros Hlen route. split; [apply nearestNeighborRoute_perm|].
  intros i x y Hx Hy. subst route. unfold nearestNeighborRoute in *.
  destruct (decide (length lamps = 0)%nat) as [Hz|_]; [lia|].
  destruct (decide (length lamps ≤ MAX_EXACT_POINTS)%nat) as [Hle|_].
  { unfold MAX_EXACT_POINTS in Hle. lia. }
  by apply greedyRoute_nearest.
Qed.

(** ** Cheapest insertion *)

Lemma insertionScan_min route lamp startPosition pre rest bestIndex bestDelta :
  route = pre ++ rest →
  match bestDelta with
  | None => pre = []
  | Some b =>
      (bestIndex < length pre)%nat
      ∧ b = insertionDelta route lamp startPosition bestIndex
      ∧ ∀ k, (k < length pre)%nat →
          fltb (insertionDelta route lamp startPosition k) b = false
  end →
  let result :=
    insertionScan lamp (stopBefore startPosition route (length pre)) rest (length pre)
      bestIndex bestDelta in
  (result.1 ≤ length route)%nat
  ∧ result.2 = Some (insertionDelta route lamp startPosition result.1)
  ∧ ∀ k, (k ≤ length route)%nat →
      fltb (insertionDelta route lamp startPosition k)
           (insertionDelta route lamp startPosition result.1) = false.
Proof.
  revert pre bestIndex bestDelta.
  induction rest as [|next rest IH]; intros pre bestIndex bestDelta Hroute Hbest.
  - rewrite app_nil_r in Hroute. subst pre. cbn [insertionScan].
    set (delta := fsub _ _).
    assert (Hdelta : delta = insertionDelta route lamp startPosition (length route)).
    { unfold insertionDelta. by rewrite lookup_ge_None_2 by lia. }
    destruct (ltInf delta bestDelta) eqn:Hlt; cbn [fst snd].
    + split; [lia|]. split; [by rewrite Hdelta|]. rewrite <- Hdelta.
      intros k Hk. destruct (decide (k = length route)) as [->|Hne].
      { rewrite <- Hdelta. apply fltb_irrefl. }
      destruct bestDelta as [b|]; [|destruct route; simpl in *; [lia|done]].
      destruct Hbest as (_ & -> & Hmin). simpl in Hlt.
      destruct (fltb (insertionDelta route lamp startPosition k) delta) eqn:Hk'; [|done].
      rewrite <- (Hmin k) by lia. symmetry. by eapply fltb_trans.
    + destruct bestDelta as [b|]; [|done]. simpl in Hlt.
      destruct Hbest as (Hlt' & -> & Hmin). split; [lia|]. split; [done|].
      intros k Hk. destruct (decide (k = length route)) as [->|Hne].
      * by rewrite <- Hdelta.
      * apply Hmin. lia.
  - cbn [insertionScan]. set (delta := fsub _ _).
    assert (Hnext : route !! length pre = Some next).
    { subst route. by rewrite list_lookup_middle. }
    assert (Hdelta : delta = insertionDelta route lamp startPosition (length pre)).
    { unfold insertionDelta. by rewrite Hnext. }
    assert (Hprev : lampPoint next = stopBefore startPosition route (length (pre ++ [next]))).
    { rewrite length_app. simpl. replace (length pre + 1)%nat with (S (length pre)) by lia.
      simpl. by rewrite Hnext. }
    assert (Hlen : S (length pre) = length (pre ++ [next])).
    { rewrite length_app. simpl. lia. }
    assert (Hroute' : route = (pre ++ [next]) ++ rest) by by rewrite <- app_assoc.
    destruct (ltInf delta bestDelta) eqn:Hlt; rewrite Hprev, Hlen; apply IH; try done.
    + rewrite <- Hlen. split; [lia|]. split; [done|].
      intros k Hk. destruct (decide (k = length pre)) as [->|Hne].
      { rewrite <- Hdelta. apply fltb_irrefl. }
      destruct bestDelta as [b|]; [|subst pre; simpl in *; lia].
      destruct Hbest as (_ & -> & Hmin). simpl in Hlt.
      destruct (fltb (insertionDelta route lamp startPosition k) delta) eqn:Hk'; [|done].
      rewrite <- (Hmin k) by lia. symmetry. by eapply fltb_trans.
    + destruct bestDelta as [b|]; [|done]. simpl in Hlt.
      destruct Hbest as (Hlt' & -> & Hmin). rewrite <- Hlen. split; [lia|]. split; [done|].
      intros k Hk. destruct (decide (k = length pre)) as [->|Hne].
      * by rewrite <- Hdelta.
      * apply Hmin. lia.
Qed.

(** X3.  [bestInsertionDelta]: for an empty route the answer is position 0
    at the distance from the start; for a non-empty route the position is
    within [0 .. route.length], the delta returned is the cost of inserting
    the lamp at that position, and no position has a strictly smaller
    cost. *)
Theorem bestInsertionDelta_cheapest route lamp startPosition :
  let result := bestInsertionDelta route lamp startPosition in
  (route = [] → result = (0%nat, Some (geoDistance startPosition (lampPoint lamp))))
  ∧ (route ≠ [] →
     (result.1 ≤ length route)%nat
     ∧ result.2 = Some (insertionDelta route lamp startPosition result.1)
     ∧ ∀ k, (k ≤ length route)%nat →
         fltb (insertionDelta route lamp startPosition k)
              (insertionDelta route lamp startPosition result.1) = false).
Proof.
  intros result. split; [by intros ->|]. intros Hne. subst result.
  unfold bestInsertionDelta. destruct route as [|first rest]; [done|].
  by apply (insertionScan_min (first :: rest) lamp startPosition [] (first :: rest) 0 None).
Qed.

(** ** The joint optimizer *)

Lemma twoOptRoute_perm route startPosition : twoOptRoute route startPosition ≡ₚ route.
Proof.
  unfold twoOptRoute. destruct (decide _); [done|].
  by apply twoOptWhile_state.
Qed.

Lemma routes_alter (ids : list string) (m : gmap string (list Lamp)) k f x :
  NoDup ids → k ∈ ids → is_Some (m !! k) → (∀ r, f r ≡ₚ x :: r) →
  concat (map (routeOf (alter f k m)) ids) ≡ₚ x :: concat (map (routeOf m) ids).
Proof.
  intros Hnd Hk [r0 Hr0] Hf. induction ids as [|id ids IH]; [by inversion Hk|].
  apply NoDup_cons in Hnd as [Hid Hnd]. simpl.
  destruct (decide (k = id)) as [->|Hne].
  - assert (Hrest : map (routeOf (alter f id m)) ids = map (routeOf m) ids).
    { apply map_ext_in. intros id' Hin%list_elem_of_In. unfold routeOf.
      rewrite lookup_alter_ne; [done|]. by intros ->. }
    rewrite Hrest. unfold routeOf at 1 3. rewrite lookup_alter_eq, Hr0. simpl.
    by rewrite Hf.
  - apply elem_of_cons in Hk as [?|Hk]; [done|].
    rewrite IH by done. unfold routeOf at 1 3. rewrite lookup_alter_ne by done.
    by rewrite Permutation_middle.
Qed.

Lemma alter_is_Some (m : gmap string (list Lamp)) f k id :
  is_Some (m !! id) → is_Some (alter f k m !! id).
Proof.
  intros Hid. destruct (decide (k = id)) as [->|Hne].
  - rewrite lookup_alter_eq. by apply fmap_is_Some.
  - by rewrite lookup_alter_ne.
Qed.

Lemma spliceOut_perm {A} (l : list A) i x : l !! i = Some x → x :: spliceOut i l ≡ₚ l.
Proof.
  intros Hx. unfold spliceOut. rewrite Permutation_middle. by rewrite take_drop_middle.
Qed.

Lemma spliceIn_perm {A} (l : list A) i x : spliceIn i x l ≡ₚ x :: l.
Proof.
  unfold spliceIn. rewrite <- Permutation_middle. by rewrite take_drop.
Qed.

Lemma seedLoop_routes ids n seedDrones unassigned m :
  NoDup ids →
  (∀ d, d ∈ seedDrones → drone_id d ∈ ids) →
  (∀ id, id ∈ ids → is_Some (m !! id)) →
  (∀ id, id ∈ ids → is_Some ((seedLoop n seedDrones unassigned m).2 !! id))
  ∧ (seedLoop n seedDrones unassigned m).1
      ++ concat (map (routeOf (seedLoop n seedDrones unassigned m).2) ids)
    ≡ₚ unassigned ++ concat (map (routeOf m) ids).
Proof.
  intros Hnd. revert seedDrones unassigned m.
  induction n as [|n IH]; intros seedDrones unassigned m Hseed Hdom; simpl; [done|].
  destruct (decide _); [done|].
  destruct (seedScan seedDrones unassigned) as [bestDroneIndex bestLampIndex].
  destruct (seedDrones !! bestDroneIndex) as [chosenDrone|] eqn:Hdrone; [|done].
  destruct (unassigned !! bestLampIndex) as [seedLamp|] eqn:Hlamp; [|done].
  destruct (IH (spliceOut bestDroneIndex seedDrones) (spliceOut bestLampIndex unassigned)
              (alter (λ r, r ++ [seedLamp]) (drone_id chosenDrone) m)) as [Hdom' Hperm].
  - intros d Hd. apply Hseed. unfold spliceOut in Hd.
    apply elem_of_app in Hd as [Hd|Hd].
    + exact (elem_of_sublist _ _ _ Hd (sublist_take _ _)).
    + exact (elem_of_sublist _ _ _ Hd (sublist_drop _ _)).
  - intros id Hid. by apply alter_is_Some, Hdom.
  - split; [done|]. rewrite Hperm. rewrite routes_alter.
    + rewrite <- Permutation_middle.
      by rewrite app_comm_cons, (spliceOut_perm _ _ _ Hlamp).
    + done.
    + apply Hseed. by eapply list_elem_of_lookup_2.
    + apply Hdom, Hseed. by eapply list_elem_of_lookup_2.
    + intros r. by rewrite <- Permutation_cons_append.
Qed.

Lemma insertionChoice_valid activeDrones unassigned m firstId :
  unassigned ≠ [] → firstId ∈ map drone_id activeDrones →
  ((insertionChoice activeDrones unassigned m firstId).1.1 < length unassigned)%nat
  ∧ (insertionChoice activeDrones unassigned m firstId).1.2 ∈ map drone_id activeDrones.
Proof.
  intros Hne Hfirst. unfold insertionChoice.
  set (P := λ st : nat * string * nat * option num,
              (st.1.1.1 < length unassigned)%nat ∧ st.1.1.2 ∈ map drone_id activeDrones).
  match goal with
  | |- context [foldl ?f ?a ?l] => assert (HP : P (foldl f a l))
  end.
  { apply foldl_preserves.
    - intros st li Hli HP. destruct (unassigned !! li) as [lamp|] eqn:Hlamp; [|done].
      apply foldl_preserves; [|done].
      intros [[[bl bd] bi] bdelta] drone Hdrone HP'.
      destruct (ltInf2 _ _); [|done]. split; simpl.
      + by eapply lookup_lt_Some.
      + apply list_elem_of_In, in_map, Hdrone.
    - split; simpl; [|done]. destruct unassigned; [done|simpl; lia]. }
  destruct (foldl _ _ _) as [[[bl bd] bi] bdelta]. exact HP.
Qed.

Lemma insertionLoop_routes activeDrones n unassigned m firstId :
  NoDup (map drone_id activeDrones) →
  firstId ∈ map drone_id activeDrones →
  length unassigned = n →
  (∀ id, id ∈ map drone_id activeDrones → is_Some (m !! id)) →
  concat (map (routeOf (insertionLoop n activeDrones unassigned m firstId))
            (map drone_id activeDrones))
  ≡ₚ unassigned ++ concat (map (routeOf m) (map drone_id activeDrones)).
Proof.
  intros Hnd Hfirst. revert unassigned m.
  induction n as [|n IH]; intros unassigned m Hlen Hdom; simpl.
  { by destruct unassigned. }
  assert (Hne : unassigned ≠ []) by (destruct unassigned; [discriminate|done]).
  destruct (insertionChoice_valid activeDrones unassigned m firstId Hne Hfirst) as [Hli Hid].
  destruct (insertionChoice activeDrones unassigned m firstId)
    as [[bestLampIndex bestDroneId] bestInsertIndex]. simpl in Hli, Hid.
  destruct (lookup_lt_is_Some_2 unassigned bestLampIndex Hli) as [lampToAssign Hlamp].
  rewrite Hlamp. rewrite IH.
  - rewrite routes_alter; [|done|done|by apply Hdom|intros r; apply spliceIn_perm].
    rewrite <- Permutation_middle.
      by rewrite app_comm_cons, (spliceOut_perm _ _ _ Hlamp).
  - unfold spliceOut. rewrite length_app, length_take, length_drop. lia.
  - intros id Hid'. by apply alter_is_Some, Hdom.
Qed.

Lemma initialRoutes_empty (activeDrones : list Drone) :
  let m : gmap string (list Lamp) :=
    list_to_map (map (λ drone, (drone_id drone, [])) activeDrones) in
  (∀ id, id ∈ map drone_id activeDrones → is_Some (m !! id))
  ∧ ∀ ids, concat (map (routeOf m) ids) = [].
Proof.
  intros m. split.
  - intros id Hid. destruct (m !! id) eqn:Hm; [done|].
    apply not_elem_of_list_to_map in Hm. rewrite <- list_fmap_compose in Hm.
    by destruct Hm.
  - intros ids. induction ids as [|id ids IH]; [done|]. simpl. rewrite IH, app_nil_r.
    unfold routeOf. destruct (m !! id) as [r|] eqn:Hm; [|done]. simpl.
    apply elem_of_list_to_map_2, list_elem_of_In, in_map_iff in Hm as (d & [= _ <-] & _).
    done.
Qed.

Lemma optimizedLampRoutes_partition lamps drones :
  let activeDrones := List.filter isOperational drones in
  lamps ≠ [] → activeDrones ≠ [] → NoDup (map drone_id activeDrones) →
  map fst (optimizedLampRoutes lamps drones) = map drone_id activeDrones
  ∧ concat (map snd (optimizedLampRoutes lamps drones)) ≡ₚ lamps.
Proof.
  intros activeDrones Hlamps Hdrones Hnd. unfold optimizedLampRoutes. fold activeDrones.
  destruct lamps as [|lamp lamps]; [done|].
  destruct activeDrones as [|first rest] eqn:Hactive; [done|]. rewrite <- Hactive in *.
  set (m0 := list_to_map _).
  destruct (initialRoutes_empty activeDrones) as [Hdom0 Hempty0]. fold m0 in Hdom0, Hempty0.
  destruct (seedLoop_routes (map drone_id activeDrones) (length activeDrones) activeDrones
              (lamp :: lamps) m0 Hnd) as [Hdom1 Hperm1]; [|done|].
  { intros d Hd. apply list_elem_of_In, in_map. by apply list_elem_of_In. }
  destruct (seedLoop _ _ _ _) as [unassigned seeded]. simpl in Hdom1, Hperm1.
  rewrite Hempty0, app_nil_r in Hperm1.
  assert (Hfirst : drone_id first ∈ map drone_id activeDrones).
  { rewrite Hactive. simpl. left. }
  pose proof (insertionLoop_routes activeDrones (length unassigned) unassigned seeded
                (drone_id first) Hnd Hfirst eq_refl Hdom1) as Hperm2.
  rewrite (foldl_objSet_NoDup drone_id
             (λ drone, twoOptRoute
                (routeOf (insertionLoop (length unassigned) activeDrones unassigned seeded
                            (drone_id first)) (drone_id drone)) (position drone)))
    by done.
  simpl. rewrite !map_map. simpl. split; [done|].
  rewrite <- Hperm1, <- Hperm2. rewrite map_map.
  generalize (insertionLoop (length unassigned) activeDrones unassigned seeded (drone_id first)).
  intros m. clear -Laws. induction activeDrones as [|d l IH]; simpl; [done|].
  by rewrite twoOptRoute_perm, IH.
Qed.

(** X4.  [optimizeMultiDroneRoutes] hands every lamp to exactly one drone.
    With no lamp or no operational drone the plan is empty.  Otherwise (ids
    of the operational drones distinct) the keys of [droneRoutes] are the
    ids of the operational drones, each once, in whatever order the object
    lists them; [routeLampIds] is the routes of that object flattened; and
    [routeLampIds] is a permutation of the ids of the lamps given. *)
Theorem optimizeMultiDroneRoutes_partition lamps drones :
  let activeDrones := List.filter isOperational drones in
  let plan := optimizeMultiDroneRoutes lamps drones in
  (lamps = [] ∨ activeDrones = [] →
   plan_routeLampIds plan = [] ∧ plan_droneRoutes plan = [])
  ∧ (lamps ≠ [] → activeDrones ≠ [] → NoDup (map drone_id activeDrones) →
     objKeys (plan_droneRoutes plan) ≡ₚ map drone_id activeDrones
     ∧ plan_routeLampIds plan = concat (objValues (plan_droneRoutes plan))
     ∧ plan_routeLampIds plan ≡ₚ map lamp_id lamps).
Proof.
  intros activeDrones plan. split.
  - intros Hempty. subst plan. unfold optimizeMultiDroneRoutes, optimizedLampRoutes.
    fold activeDrones. destruct Hempty as [->| ->]; [done|]. by destruct lamps.
  - intros Hlamps Hdrones Hnd.
    destruct (optimizedLampRoutes_partition lamps drones Hlamps Hdrones Hnd) as [Hkeys Hperm].
    subst plan. unfold optimizeMultiDroneRoutes, objKeys, objValues. simpl.
    rewrite !map_map. simpl. split; [|split; [done|]].
    { match goal with |- ?keys ≡ₚ ?ids => assert (keys = ids) as -> by done end. done. }
    transitivity (map lamp_id (concat (map snd (optimizedLampRoutes lamps drones))));
      [|by apply Permutation_map].
    clear. induction (optimizedLampRoutes lamps drones) as [|kv l IH]; simpl; [done|].
    by rewrite map_app, IH.
Qed.

(** ** Dock binding and coverage *)

(** X5.  [enforceDroneDockBinding] is idempotent.  A non-empty
    [homeDockId] wins and is copied to [activeDockId]; with no (or an empty)
    home dock a non-empty [activeDockId] becomes the home dock; with neither
    the drone is left as it is. *)
Theorem enforceDroneDockBinding_idempotent drone :
  let bound := enforceDroneDockBinding drone in
  enforceDroneDockBinding bound = bound
  ∧ (truthyStr (homeDockId drone) = true →
     homeDockId bound = homeDockId drone ∧ activeDockId bound = homeDockId drone)
  ∧ (truthyStr (homeDockId drone) = false → truthyStr (activeDockId drone) = true →
     homeDockId bound = activeDockId drone ∧ activeDockId bound = activeDockId drone)
  ∧ (truthyStr (homeDockId drone) = false → truthyStr (activeDockId drone) = false →
     bound = drone).
Proof.
  destruct drone as [id level op st target ops stock ends home active pos].
  unfold enforceDroneDockBinding, truthyStr, drone_with_homeDockId, drone_with_activeDockId.
  destruct home as [h|], active as [a|]; simpl;
    repeat (case_bool_decide; simpl); simplify_eq; try done;
    repeat (case_bool_decide; simpl); simplify_eq; done.
Qed.

Lemma enforceDroneDockBinding_bound drone dockId :
  dockId ≠ "" → boundDockId drone = Some dockId →
  homeDockId (enforceDroneDockBinding drone) = Some dockId
  ∧ activeDockId (enforceDroneDockBinding drone) = Some dockId.
Proof.
  destruct drone as [id level op st target ops stock ends home active pos].
  unfold enforceDroneDockBinding, boundDockId, truthyStr, drone_with_homeDockId,
    drone_with_activeDockId.
  intros Hid. destruct home as [h|], active as [a|]; simpl; intros [= ->];
    repeat (case_bool_decide; simpl); simplify_eq; done.
Qed.

Lemma coverage_fold now (l : list (nat * Dock)) s :
  let s1 :=
    foldl
      (λ s '(index, dock),
         match List.find (λ drone, bool_decide (boundDockId drone = Some (dock_id dock)))
                 (drones s) with
         | Some _ => s
         | None =>
             let newDrone := createDroneForDock dock index in
             addLog now "drone"
               ("Добавлен " +:+ drone_id newDrone +:+ " для " +:+ dock_name dock)
               (VObj [("droneId", VStr (drone_id newDrone)); ("dockId", VStr (dock_id dock))])
               (with_drones (drones s ++ [newDrone]) s)
         end)
      s l in
  (∃ extra, drones s1 = drones s ++ extra ∧ (length extra ≤ length l)%nat)
  ∧ docks s1 = docks s ∧ lamps s1 = lamps s ∧ missions s1 = missions s
  ∧ ∀ index dock, (index, dock) ∈ l →
      ∃ drone, drone ∈ drones s1 ∧ boundDockId drone = Some (dock_id dock).
Proof.
  revert s. induction l as [|[index dock] l IH]; intros s.
  { simpl. split; [exists []; by rewrite app_nil_r|]. repeat split; try done.
    intros ?? Hin. by apply elem_of_nil in Hin. }
  cbn [foldl]. cbv zeta.
  set (s0 := match List.find _ (drones s) with Some _ => s | None => _ end).
  assert (Hs0 : (∃ extra, drones s0 = drones s ++ extra ∧ (length extra ≤ 1)%nat)
                ∧ docks s0 = docks s ∧ lamps s0 = lamps s ∧ missions s0 = missions s
                ∧ ∃ drone, drone ∈ drones s0 ∧ boundDockId drone = Some (dock_id dock)).
  { subst s0. destruct (List.find _ (drones s)) as [found|] eqn:Hfind.
    - split; [exists []; rewrite app_nil_r; simpl; split; [done|lia]|].
      repeat split; try done. apply find_some in Hfind as [Hin Hb].
      apply bool_decide_eq_true in Hb. exists found. split; [by apply list_elem_of_In|done].
    - split; [eexists [_]; simpl; split; [done|lia]|]. repeat split; try done.
      eexists. split; [simpl; apply elem_of_app; right; apply list_elem_of_here|]. done. }
  destruct Hs0 as ((extra0 & Hextra0 & Hlen0) & Hdocks0 & Hlamps0 & Hmissions0 & drone0 & Hin0 & Hb0).
  destruct (IH s0) as ((extra & Hextra & Hlen) & Hdocks & Hlamps & Hmissions & Hcover).
  cbv zeta in Hextra, Hdocks, Hlamps, Hmissions, Hcover.
  split.
  { exists (extra0 ++ extra). rewrite Hextra, Hextra0, <- app_assoc. split; [done|].
    rewrite length_app. simpl. lia. }
  split; [congruence|]. split; [congruence|]. split; [congruence|].
  intros index' dock' [[= -> ->]|Hin]%elem_of_cons.
  - exists drone0. split; [|done]. rewrite Hextra. apply elem_of_app. by left.
  - by apply (Hcover index').
Qed.

(** X6.  After [ensureDroneCoverageForAllDocks] every dock with a non-empty
    id has a drone whose home and active dock it is.  No drone is removed,
    at most one drone per dock is added, and docks, lamps and missions are
    untouched. *)
Theorem ensureDroneCoverage_covers now s :
  let s' := ensureDroneCoverageForAllDocks now s in
  (∀ dock, dock ∈ docks s → dock_id dock ≠ "" →
     ∃ drone, drone ∈ drones s'
       ∧ homeDockId drone = Some (dock_id dock) ∧ activeDockId drone = Some (dock_id dock))
  ∧ (length (drones s) ≤ length (drones s') ≤ length (drones s) + length (docks s))%nat
  ∧ docks s' = docks s ∧ lamps s' = lamps s ∧ missions s' = missions s.
Proof.
  unfold ensureDroneCoverageForAllDocks.
  destruct (coverage_fold now (zip (seq 0 (length (docks s))) (docks s)) s)
    as ((extra & Hextra & Hlen) & Hdocks & Hlamps & Hmissions & Hcover).
  set (s1 := foldl _ s _) in *. simpl.
  rewrite length_zip_with, length_seq in Hlen.
  split; [|split; [rewrite length_map, Hextra, length_app; lia|done]].
  intros dock Hdock Hid.
  apply list_elem_of_lookup in Hdock as [index Hdock].
  destruct (Hcover index dock) as (drone & Hin & Hbound).
  { apply list_elem_of_lookup. exists index. apply lookup_zip_with_Some.
    exists index, dock. split; [done|]. split; [|done].
    by rewrite lookup_seq_lt by (by eapply lookup_lt_Some). }
  eexists. split; [apply list_elem_of_In, in_map, list_elem_of_In, Hin|]. cbv beta.
  assert (Hbind : homeDockId (enforceDroneDockBinding drone) = Some (dock_id dock)
                  ∧ activeDockId (enforceDroneDockBinding drone) = Some (dock_id dock)).
  { by apply enforceDroneDockBinding_bound. }
  unfold ensureDroneContainerState, moveDroneToDockIfAvailable.
  destruct (_ && _); [|done]. by destruct (getActiveDock _ _).
Qed.

(** ** Nearest drone and nearest dock *)

Lemma foldl_nearest {A} (cost : A → num) (first : A) (rest : list A) :
  let result :=
    foldl (λ '(nearest, best) x, if fltb (cost x) best then (x, cost x) else (nearest, best))
      (first, cost first) rest in
  result.1 ∈ first :: rest
  ∧ ∀ y, y ∈ first :: rest → fltb (cost y) (cost result.1) = false.
Proof.
  intros result.
  assert (Hinv : result.1 ∈ first :: rest ∧ result.2 = cost result.1
                 ∧ ∀ y, y ∈ first :: rest → fltb (cost y) result.2 = false).
  { subst result. induction rest as [|x rest IH] using rev_ind; simpl.
    - split; [left|]. split; [done|]. intros y ->%list_elem_of_singleton. apply fltb_irrefl.
    - rewrite foldl_app. simpl. destruct (foldl _ _ rest) as [nearest best].
      simpl in IH. destruct IH as (Hin & -> & Hmin).
      destruct (fltb (cost x) (cost nearest)) eqn:Hlt; simpl.
      + split; [apply elem_of_cons; right; apply elem_of_app; right; left|].
        split; [done|].
        intros y [->|[Hy| ->%list_elem_of_singleton]%elem_of_app]%elem_of_cons.
        * destruct (fltb (cost first) (cost x)) eqn:Hfx; [|done].
          rewrite <- (Hmin first) by left. symmetry. by eapply fltb_trans.
        * destruct (fltb (cost y) (cost x)) eqn:Hyx; [|done].
          rewrite <- (Hmin y) by (by right). symmetry. by eapply fltb_trans.
        * apply fltb_irrefl.
      + split.
        { apply elem_of_cons in Hin as [->|Hin]; [left|].
          apply elem_of_cons. right. apply elem_of_app. by left. }
        split; [done|].
        intros y [->|[Hy| ->%list_elem_of_singleton]%elem_of_app]%elem_of_cons.
        * apply Hmin. left.
        * apply Hmin. by right.
        * done. }
  destruct Hinv as (Hin & Heq & Hmin). split; [done|]. by rewrite <- Heq.
Qed.

(** X7.  [getNearestReadyDroneForLamp] answers [null] exactly for an empty
    list; otherwise it answers a drone of the list, and no drone of the
    list is strictly closer to the lamp. *)
Theorem getNearestReadyDroneForLamp_nearest lamp readyDrones :
  (getNearestReadyDroneForLamp lamp readyDrones = None ↔ readyDrones = [])
  ∧ ∀ drone, getNearestReadyDroneForLamp lamp readyDrones = Some drone →
      drone ∈ readyDrones
      ∧ ∀ other, other ∈ readyDrones →
          fltb (droneDistance lamp other) (droneDistance lamp drone) = false.
Proof.
  unfold getNearestReadyDroneForLamp. destruct readyDrones as [|first rest]; [done|].
  split; [done|]. intros drone [= <-].
  apply (foldl_nearest (droneDistance lamp) first rest).
Qed.

(** X8.  [findNearestDock] answers [null] without a position or without
    docks; otherwise it answers a dock of the state, and no dock is strictly
    closer to the position. *)
Theorem findNearestDock_nearest s position :
  (findNearestDock s (Some position) = None ↔ docks s = [])
  ∧ findNearestDock s None = None
  ∧ ∀ dock, findNearestDock s (Some position) = Some dock →
      dock ∈ docks s
      ∧ ∀ other, other ∈ docks s →
          fltb (geoDistance position (pointOfDock other))
               (geoDistance position (pointOfDock dock)) = false.
Proof.
  unfold findNearestDock. destruct (docks s) as [|first rest]; [done|].
  split; [done|]. split; [done|]. intros dock [= <-].
  apply (foldl_nearest (λ dock, geoDistance position (pointOfDock dock)) first rest).
Qed.

(** ** The capacity-aware plan as a whole *)

Lemma assigned_concat_alter (ids : list string) (m : gmap string (list Lamp)) k x :
  NoDup ids → k ∈ ids → is_Some (m !! k) →
  concat (map (λ id, default [] (alter (λ l, l ++ [x]) k m !! id)) ids)
  ≡ₚ x :: concat (map (λ id, default [] (m !! id)) ids).
Proof.
  intros Hnd Hk [r0 Hr0]. induction ids as [|id ids IH]; [by inversion Hk|].
  apply NoDup_cons in Hnd as [Hid Hnd]. simpl.
  destruct (decide (k = id)) as [->|Hne].
  - assert (Hrest : map (λ id', default [] (alter (λ l, l ++ [x]) id m !! id')) ids
                    = map (λ id', default [] (m !! id')) ids).
    { apply map_ext_in. intros id' Hin%list_elem_of_In.
      rewrite lookup_alter_ne; [done|]. by intros ->. }
    rewrite Hrest, lookup_alter_eq, Hr0. simpl.
    rewrite <- app_assoc. simpl. by rewrite <- Permutation_middle.
  - apply elem_of_cons in Hk as [?|Hk]; [done|].
    rewrite IH by done. rewrite lookup_alter_ne by done.
    by rewrite Permutation_middle.
Qed.

Lemma assignLamp_exhausted activeDrones st lamp :
  (∀ drone, In drone activeDrones → capacityOf st.2 (drone_id drone) ≤ 0) →
  assignLamp activeDrones st lamp = st.
Proof.
  intros Hfull. destruct (assignLamp_spec activeDrones st lamp) as [[_ ?]|(drone & Hnear & _)];
    [done|].
  destruct Hnear as (Hin & Hcap & _). specialize (Hfull drone Hin). lia.
Qed.

Lemma assignLamps_exhausted activeDrones st lamps :
  (∀ drone, In drone activeDrones → capacityOf st.2 (drone_id drone) ≤ 0) →
  foldl (assignLamp activeDrones) st lamps = st.
Proof.
  intros Hfull. induction lamps as [|lamp lamps IH]; simpl; [done|].
  by rewrite assignLamp_exhausted.
Qed.

Lemma assignLamps_account activeDrones capacity0 lamps st :
  capacityInvariant activeDrones capacity0 st →
  NoDup (map drone_id activeDrones) →
  let st' := foldl (assignLamp activeDrones) st lamps in
  concat (map (λ id, default [] (st'.1 !! id)) (map drone_id activeDrones))
    ⊆+ lamps ++ concat (map (λ id, default [] (st.1 !! id)) (map drone_id activeDrones))
  ∧ (totalAssigned activeDrones st'.1 = (totalAssigned activeDrones st.1 + length lamps)%nat
     ∨ ∀ drone, In drone activeDrones → capacityOf st'.2 (drone_id drone) = 0).
Proof.
  intros Hinv Hnd. revert st Hinv.
  induction lamps as [|lamp lamps IH]; intros st Hinv; simpl.
  { split; [done|]. left. lia. }
  pose proof (assignLamp_capacityInvariant activeDrones capacity0 st lamp Hinv) as Hinv1.
  destruct (assignLamp_spec activeDrones st lamp) as [[Hfull Hsame]|(drone & Hnear & Hstep)].
  - rewrite Hsame. rewrite assignLamps_exhausted by done. split.
    + apply submseteq_cons, submseteq_inserts_l. done.
    + right. intros drone Hin. destruct Hinv as (_ & _ & Hpos).
      specialize (Hfull drone Hin). specialize (Hpos (drone_id drone)). lia.
  - destruct (IH _ Hinv1) as [Hsub Hcount]. destruct Hnear as (Hin & Hcap & _).
    assert (Hsome : is_Some (st.1 !! drone_id drone)) by (by apply Hinv).
    split.
    + etrans; [exact Hsub|]. rewrite Hstep. simpl.
      rewrite assigned_concat_alter; [|done|by apply list_elem_of_In, in_map|done].
      by rewrite Permutation_middle.
    + destruct Hcount as [Hcount|Hfull]; [left|by right].
      rewrite Hcount, Hstep. simpl.
      rewrite totalAssigned_alter_in; [lia|done|by apply list_elem_of_In, in_map|done].
Qed.

(** X9.  The plan of [buildCapacityAwareRoutes] (ids of the operational
    drones distinct) never holds a lamp that was not asked for, nor a lamp
    more often than it was asked for; and a lamp is left out only when the
    fleet is full: either [routeLampIds] is a permutation of the ids of the
    lamps given, or the route of every operational drone is exactly as long
    as the capacity of the drone. *)
Theorem buildCapacityAwareRoutes_plan lamps drones :
  let activeDrones := List.filter isOperational drones in
  let plan := buildCapacityAwareRoutes lamps drones in
  NoDup (map drone_id activeDrones) →
  plan_routeLampIds plan ⊆+ map lamp_id lamps
  ∧ (plan_routeLampIds plan ≡ₚ map lamp_id lamps
     ∨ ∀ drone, In drone activeDrones →
         ∃ route, objGet (drone_id drone) (plan_droneRoutes plan) = Some route
           ∧ Z.of_nat (length route) = getDroneLampCapacity drone).
Proof.
  intros activeDrones plan Hnd.
  destruct (decide (lamps = [])) as [->|Hlamps]; [by split; [|left]|].
  destruct (buildCapacityAwareRoutes_droneRoutes lamps drones Hnd Hlamps) as [Hroutes Hids].
  fold activeDrones plan in Hroutes, Hids.
  destruct (assignLamps_account activeDrones _ lamps _
              (initial_capacityInvariant activeDrones) Hnd) as [Hsub Hcount].
  change (foldl (assignLamp activeDrones) (initialAssignment activeDrones) lamps).1
    with (assignedLamps lamps activeDrones) in Hsub, Hcount.
  assert (Hplan : plan_routeLampIds plan
                  ≡ₚ map lamp_id
                       (concat (map (λ id, default [] (assignedLamps lamps activeDrones !! id))
                                  (map drone_id activeDrones)))).
  { rewrite Hids, Hroutes. unfold objValues. rewrite !map_map. simpl.
    generalize (assignedLamps lamps activeDrones). intros m.
    clear -Laws. induction activeDrones as [|d l IH]; simpl; [done|].
    rewrite map_app, IH. unfold assignedTo. by rewrite nearestNeighborRoute_perm. }
  assert (Hnone : concat (map (λ id, default [] ((initialAssignment activeDrones).1 !! id))
                            (map drone_id activeDrones)) = []).
  { generalize (map drone_id activeDrones) at 1. intros ids.
    induction ids as [|id ids IH]; [done|]. cbn [map concat].
    by rewrite initialAssignment_empty, IH. }
  rewrite Hnone, app_nil_r in Hsub.
  split.
  { rewrite Hplan. by apply fmap_submseteq. }
  destruct Hcount as [Hcount|Hfull].
  - left. rewrite totalAssigned_initial in Hcount. simpl in Hcount.
    rewrite Hplan. apply Permutation_map. apply submseteq_length_Permutation; [done|].
    rewrite <- Hcount. unfold totalAssigned, assignedTo.
    generalize (assignedLamps lamps activeDrones). intros m.
    clear. induction activeDrones as [|d l IH]; simpl; [done|].
    rewrite length_app. lia.
  - right. intros drone Hin. eexists. split.
    { rewrite Hroutes. by apply (objGet_map_NoDup drone_id). }
    rewrite length_map, nearestNeighborRoute_perm.
    destruct (assignLamps_capacityInvariant activeDrones _ lamps _
                (initial_capacityInvariant activeDrones)) as (_ & Hsum & _).
    specialize (Hsum (drone_id drone)). specialize (Hfull drone Hin).
    rewrite initial_capacity_NoDup in Hsum by done.
    unfold assignedTo, assignedLamps. lia.
Qed.

(** ** The auto-service plan *)

Lemma planScan_spec s plan index lampIds maxCount :
  ∃ k,
    (k ≤ length plan)%nat
    ∧ planScan s plan index lampIds maxCount
      = (lampIds ++ List.filter (lampNeedsReplacement s) (take k plan), (index + k)%nat)
    ∧ Z.of_nat (length (lampIds ++ List.filter (lampNeedsReplacement s) (take k plan)))
      ≤ Z.max (Z.of_nat (length lampIds)) maxCount
    ∧ ((k < length plan)%nat →
       maxCount
       ≤ Z.of_nat (length (lampIds ++ List.filter (lampNeedsReplacement s) (take k plan)))).
Proof.
  revert index lampIds. induction plan as [|lampId plan IH]; intros index lampIds; simpl.
  { exists 0%nat. simpl. rewrite app_nil_r, Nat.add_0_r. repeat split; try done; lia. }
  case_bool_decide as Hroom.
  - set (lampIds' := match findLamp s lampId with Some _ => _ | None => lampIds end).
    destruct (IH (S index) lampIds') as (k & Hk & Hscan & Hbound & Hfull).
    exists (S k). simpl.
    assert (Heq : lampIds ++ (if lampNeedsReplacement s lampId
                              then lampId :: List.filter (lampNeedsReplacement s) (take k plan)
                              else List.filter (lampNeedsReplacement s) (take k plan))
                  = lampIds' ++ List.filter (lampNeedsReplacement s) (take k plan)).
    { subst lampIds'. unfold lampNeedsReplacement at 1.
      destruct (findLamp s lampId) as [lamp|]; [|done].
      destruct (bool_decide _); [|done]. by rewrite <- app_assoc. }
    rewrite Heq. split; [lia|]. split; [rewrite Hscan; f_equal; lia|].
    assert (Hlen' : Z.of_nat (length lampIds') ≤ maxCount).
    { subst lampIds'. destruct (findLamp s lampId) as [lamp|]; [|lia].
      destruct (bool_decide _); [|lia]. rewrite length_app. simpl. lia. }
    split; [lia|]. intros Hlt. apply Hfull. lia.
  - exists 0%nat. simpl. rewrite app_nil_r, Nat.add_0_r. repeat split; try done; lia.
Qed.

(** X10.  [findNextPlannedLampsForDrone] scans the plan of the drone from
    [startIndex]: [nextIndex] is not before [startIndex] and not beyond the
    end of the plan; the lamps returned are, in plan order, the lamps in
    status [replace] among the plan entries scanned; there are at most
    [maxCount] of them; and the scan stops before the end of the plan only
    when [maxCount] lamps have been found. *)
Theorem findNextPlannedLampsForDrone_spec s droneId startIndex maxCount :
  let plan := default [] (objGet droneId AUTO_SERVICE_PLAN) in
  let result := findNextPlannedLampsForDrone s droneId startIndex maxCount in
  (startIndex ≤ result.2)%nat
  ∧ (result.2 ≤ startIndex `max` length plan)%nat
  ∧ result.1
    = List.filter (lampNeedsReplacement s) (take (result.2 - startIndex) (drop startIndex plan))
  ∧ Z.of_nat (length result.1) ≤ Z.max 0 maxCount
  ∧ ((result.2 < length plan)%nat → maxCount ≤ Z.of_nat (length result.1)).
Proof.
  intros plan result. subst result. unfold findNextPlannedLampsForDrone. fold plan.
  destruct (planScan_spec s (drop startIndex plan) startIndex [] maxCount)
    as (k & Hk & -> & Hbound & Hfull).
  rewrite length_drop in Hk, Hfull. simpl in *.
  replace (startIndex + k - startIndex)%nat with k by lia.
  split; [lia|]. split; [lia|]. split; [done|]. split; [done|].
  intros Hlt. apply Hfull. lia.
Qed.

Lemma elem_of_objSet {V} (k k' : string) (v v' : V) o :
  (k', v') ∈ objSet k v o → (k', v') = (k, v) ∨ (k', v') ∈ o.
Proof.
  induction o as [|[k0 v0] o IH]; simpl.
  - intros ->%list_elem_of_singleton. by left.
  - destruct (decide (k = k0)) as [->|Hne].
    + intros [->|Hin]%elem_of_cons; [by left|]. right. by right.
    + intros [->|Hin]%elem_of_cons; [right; left|].
      destruct (IH Hin) as [?|?]; [by left|]. right. by right.
Qed.

Lemma objSet_not_nil {V} (k : string) (v : V) o : objSet k v o ≠ [].
Proof. destruct o as [|[k0 v0] o]; simpl; [done|]. by destruct (decide _). Qed.

Lemma findNextPlannedLampsForDrone_stops s droneId startIndex maxCount :
  let result := findNextPlannedLampsForDrone s droneId startIndex maxCount in
  (startIndex ≤ result.2)%nat
  ∧ Z.of_nat (length result.1) ≤ Z.max 0 maxCount
  ∧ ∀ x, x ∈ result.1 →
      x ∈ default [] (objGet droneId AUTO_SERVICE_PLAN) ∧ lampNeedsReplacement s x = true.
Proof.
  intros result. subst result. unfold findNextPlannedLampsForDrone.
  set (plan := default [] (objGet droneId AUTO_SERVICE_PLAN)).
  destruct (planScan_spec s (drop startIndex plan) startIndex [] maxCount)
    as (k & Hk & -> & Hbound & Hfull).
  simpl in *. split; [lia|]. split; [done|].
  intros x [Hin Hneeds]%list_elem_of_In%filter_In. split; [|done].
  apply list_elem_of_In in Hin.
  apply (elem_of_sublist _ _ _ Hin). etrans; [apply sublist_take|apply sublist_drop].
Qed.

Lemma buildAutoServiceDispatch_progress s readyDrones id next :
  (id, next) ∈ ad_nextProgress (buildAutoServiceDispatch s readyDrones) →
  (default 0 (autoServiceProgress s !! id) ≤ next)%nat.
Proof.
  revert id next. unfold buildAutoServiceDispatch.
  apply (foldl_preserves
           (λ dispatch, ∀ id next, (id, next) ∈ ad_nextProgress dispatch →
              (default 0 (autoServiceProgress s !! id) ≤ next)%nat)).
  - intros dispatch rd _ Hprogress. cbv zeta.
    destruct (findNextPlannedLampsForDrone_stops s (drone_id rd.2)
                (default 0%nat (autoServiceProgress s !! drone_id rd.2))
                (Z.max 1 (Z.min LAMPS_PER_CONTAINER (containerLampsRemaining rd.2))))
      as (Hnext & _).
    destruct (findNextPlannedLampsForDrone _ _ _ _) as [lampIds nextIndex]. simpl in Hnext.
    destruct lampIds; simpl;
      intros id next [[= -> ->]|Hin]%elem_of_objSet; try done; by apply Hprogress.
  - intros id next Hin. by apply elem_of_nil in Hin.
Qed.

(** X11.  [buildAutoServiceDispatch]: every lamp dispatched is a lamp in
    status [replace]; every route of [droneRoutes] is non-empty, has at most
    [LAMPS_PER_CONTAINER] stops, and its stops are in the plan of its drone
    and in [routeLampIds]; no cursor of [nextProgress] is behind the current
    cursor of its drone; and [routeLampIds] is empty exactly when
    [droneRoutes] is. *)
Theorem buildAutoServiceDispatch_spec s readyDrones :
  let dispatch := buildAutoServiceDispatch s readyDrones in
  (∀ x, x ∈ ad_routeLampIds dispatch → lampNeedsReplacement s x = true)
  ∧ (∀ id route, (id, route) ∈ ad_droneRoutes dispatch →
       route ≠ [] ∧ (length route ≤ 5)%nat
       ∧ ∀ x, x ∈ route →
           x ∈ default [] (objGet id AUTO_SERVICE_PLAN) ∧ x ∈ ad_routeLampIds dispatch)
  ∧ (∀ id next, (id, next) ∈ ad_nextProgress dispatch →
       (default 0 (autoServiceProgress s !! id) ≤ next)%nat)
  ∧ (ad_routeLampIds dispatch = [] ↔ ad_droneRoutes dispatch = []).
Proof.
  intros dispatch. subst dispatch. unfold buildAutoServiceDispatch.
  apply foldl_preserves.
  - intros dispatch rd _ (Hneeds & Hroutes & Hprogress & Hempty). cbv zeta.
    destruct (findNextPlannedLampsForDrone_stops s (drone_id rd.2)
                (default 0%nat (autoServiceProgress s !! drone_id rd.2))
                (Z.max 1 (Z.min LAMPS_PER_CONTAINER (containerLampsRemaining rd.2))))
      as (Hnext & Hlen & Hstops).
    destruct (findNextPlannedLampsForDrone _ _ _ _) as [lampIds nextIndex].
    simpl in Hnext, Hlen, Hstops.
    assert (Hprogress' : ∀ id next,
              (id, next) ∈ objSet (drone_id rd.2) nextIndex (ad_nextProgress dispatch) →
              (default 0 (autoServiceProgress s !! id) ≤ next)%nat).
    { intros id next [[= -> ->]|Hin]%elem_of_objSet; [done|by apply Hprogress]. }
    destruct lampIds as [|x lampIds]; simpl.
    { done. }
    split; [|split; [|split; [done|]]].
    + intros y [Hy|Hy]%elem_of_app; [by apply Hneeds|by apply Hstops].
    + intros id route [[= -> ->]|Hin]%elem_of_objSet.
      * split; [done|]. split.
        { unfold LAMPS_PER_CONTAINER in Hlen. simpl in Hlen |- *. lia. }
        intros y Hy. split; [by apply Hstops|]. apply elem_of_app. by right.
      * destruct (Hroutes id route Hin) as (Hne & Hlen' & Hin').
        split; [done|]. split; [done|]. intros y Hy.
        destruct (Hin' y Hy) as [? ?]. split; [done|]. apply elem_of_app. by left.
    + split.
      * intros Heq. by apply app_eq_nil in Heq as [_ ?].
      * intros Heq. by apply objSet_not_nil in Heq.
  - simpl. repeat split; try done; intros;
      by match goal with H : _ ∈ [] |- _ => apply elem_of_nil in H end.
Qed.

(** ** Missions in the store *)

(** X12.  [findMission] answers the newest mission with the id asked for
    (the one created last), and [undefined] exactly when no mission has that
    id. *)
Theorem findMission_newest s missionId :
  match findMission s missionId with
  | Some ref =>
      ∃ m, missionAt s ref = Some m ∧ mission_id m = missionId
        ∧ ∀ ref' m', missionAt s ref' = Some m' → mission_id m' = missionId → (ref' ≤ ref)%nat
  | None => ∀ m, m ∈ missions s → mission_id m ≠ missionId
  end.
Proof.
  unfold findMission.
  destruct (list_find _ (missions s)) as [[index m]|] eqn:Hfind.
  - apply list_find_Some in Hfind as (Hm & Hid & Hfirst).
    pose proof (lookup_lt_Some _ _ _ Hm) as Hlt.
    exists m. split; [|split; [done|]].
    + unfold missionAt, missionIndex. rewrite decide_True by lia.
      rewrite <- Hm. f_equal. lia.
    + intros ref' m' Hm' Hid'. unfold missionAt, missionIndex in Hm'.
      destruct (decide _) as [Hlt'|]; [|done].
      destruct (decide (ref' ≤ length (missions s) - 1 - index)%nat) as [|Hgt]; [done|].
      exfalso. apply (Hfirst _ _ Hm'); [lia|done].
  - intros m Hm Hid. apply list_elem_of_lookup in Hm as [i Hm].
    eapply list_find_None in Hfind. rewrite Forall_forall in Hfind.
    apply (Hfind m); [by eapply list_elem_of_lookup_2|done].
Qed.

(** X13.  A mission made by [createMission] is found again by
    [findMission] under its id [M-<now>]; it is [planned], has the route,
    the drone routes and the source it was given and no completed stop.
    The references and the lookup by id of the other missions are as
    before, and drones and lamps are untouched. *)
Theorem createMission_findMission now route dock optRoutes optSource s :
  let result := createMission now route dock optRoutes optSource s in
  findMission result.1 ("M-" +:+ pretty now) = Some result.2
  ∧ (∃ m, missionAt result.1 result.2 = Some m
       ∧ mission_id m = "M-" +:+ pretty now
       ∧ mission_status m = planned
       ∧ routeLampIds m = route
       ∧ completedLampIds m = []
       ∧ droneRoutes m = default [] optRoutes
       ∧ mission_source m = default manual optSource)
  ∧ (∀ ref, ref ≠ result.2 → missionAt result.1 ref = missionAt s ref)
  ∧ (∀ other, other ≠ "M-" +:+ pretty now → findMission result.1 other = findMission s other)
  ∧ drones result.1 = drones s ∧ lamps result.1 = lamps s.
Proof.
  unfold createMission. simpl. split; [|split; [|split; [|split; [|done]]]].
  - unfold findMission. simpl. rewrite decide_True by done. f_equal. lia.
  - eexists. split.
    { erewrite (missionAt_cons s); [|reflexivity]. by rewrite decide_True. }
    done.
  - intros ref Hne. erewrite (missionAt_cons s); [|reflexivity]. by rewrite decide_False.
  - intros other Hne. unfold findMission. simpl. rewrite decide_False by done.
    destruct (list_find _ (missions s)) as [[index m]|]; simpl; [|done].
    f_equal. lia.
Qed.

(** ** Commands *)

(** X14.  The planning command answers 400, 409 or 200.  It answers 400
    exactly when no lamp of the state is requested, in status [replace] and
    free.  When it does not answer 200 no mission is made and the state
    only gains one [error] log entry.  When it answers 200 exactly one
    mission is added, in front, [planned], [manual] and with a non-empty
    route, and drones and lamps are untouched. *)
Theorem apiPlanMission_status now requested s :
  let result := apiPlanMission now requested s in
  let candidate lamp :=
    lamp_id lamp ∈ requested ∧ lamp_status lamp = lamp_replace
    ∧ lamp_id lamp ∉ getOccupiedLampIds s None in
  (result.1.2 = 400 ∨ result.1.2 = 409 ∨ result.1.2 = 200)
  ∧ (result.1.2 = 400 ↔ ∀ lamp, lamp ∈ lamps s → ¬ candidate lamp)
  ∧ (result.1.2 ≠ 200 →
     result.2 = None
     ∧ ∃ entry, result.1.1 = with_logs (logs s ++ [entry]) s ∧ log_type entry = "error")
  ∧ (result.1.2 = 200 →
     result.2 = Some (length (missions s))
     ∧ ∃ mission, missions result.1.1 = mission :: missions s
         ∧ mission_status mission = planned ∧ mission_source mission = manual
         ∧ routeLampIds mission ≠ []
         ∧ drones result.1.1 = drones s ∧ lamps result.1.1 = lamps s).
Proof.
  intros result candidate. subst result. unfold apiPlanMission.
  set (keep := λ lamp : Lamp,
         bool_decide (lamp_id lamp ∈ (list_to_set requested : gset Z))
         && bool_decide (lamp_status lamp = lamp_replace)
         && negb (bool_decide (lamp_id lamp ∈ getOccupiedLampIds s None))).
  assert (Hkeep : ∀ lamp, keep lamp = true ↔ candidate lamp).
  { intros lamp. unfold keep, candidate.
    rewrite !andb_true_iff, negb_true_iff, !bool_decide_eq_true, bool_decide_eq_false.
    rewrite elem_of_list_to_set. tauto. }
  destruct (List.filter keep (lamps s)) as [|c cs] eqn:Hc.
  { simpl. split; [by left|]. split; [|split; [|done]].
    - split; [|done]. intros _ lamp Hlamp Hcand.
      assert (Hin : In lamp (List.filter keep (lamps s))).
      { apply filter_In. split; [by apply list_elem_of_In|by apply Hkeep]. }
      by rewrite Hc in Hin.
    - intros _. split; [done|]. by eexists. }
  rewrite <- Hc.
  assert (Hsome : ¬ ∀ lamp, lamp ∈ lamps s → ¬ candidate lamp).
  { intros Hnone. assert (Hin : In c (List.filter keep (lamps s))) by (rewrite Hc; by left).
    apply filter_In in Hin as [Hin Hk]. apply (Hnone c); [by apply list_elem_of_In|].
    by apply Hkeep. }
  destruct (plan_routeLampIds _) as [|y ys] eqn:Hplan; simpl.
  - split; [right; by left|]. split; [split; [done|intros; by exfalso]|].
    split; [|done]. intros _. split; [done|]. by eexists.
  - split; [right; by right|]. split; [split; [done|intros; by exfalso]|].
    split; [done|]. intros _. split; [done|]. eexists. split; [done|]. done.
Qed.

(** X15.  The start command rejects an unknown mission id with 404 and a
    running or completed mission with 400; in these cases the state only
    gains the [error] log entry with the reason and the status code. *)
Theorem apiStartMission_rejects now missionId s :
  let rejection statusCode error :=
    addLog now "error" ("Не удалось запустить миссию " +:+ missionId)
      (VObj [("missionId", VStr missionId); ("reason", VStr error);
             ("statusCode", VNum statusCode)]) s in
  (findMission s missionId = None →
   apiStartMission now missionId s = (rejection 404 ERR_NOT_FOUND, 404))
  ∧ (∀ ref mission, findMission s missionId = Some ref → missionAt s ref = Some mission →
       (mission_status mission = running →
        apiStartMission now missionId s = (rejection 400 ERR_RUNNING, 400))
       ∧ (mission_status mission = completed →
          apiStartMission now missionId s = (rejection 400 ERR_COMPLETED, 400))).
Proof.
  intros rejection. unfold apiStartMission. split.
  - intros ->. done.
  - intros ref mission -> Hm.
    pose proof (tryStartMission_preconditions now (Some ref) s) as Hpre.
    simpl in Hpre. rewrite Hm in Hpre.
    split; intros Hst; rewrite Hst in Hpre; by rewrite Hpre.
Qed.

(** X16.  After the replace-all command every drone has a full container,
    no pending container operation and no service deadline; a drone that was
    [servicing] is [charging] below 100 and [idle] at 100, the status of
    every other drone is as before; ids, batteries, targets and positions
    are as before.  Every dock is marked [replaced] at the time of the
    command, with its container counts unchanged; lamps, missions and timers
    are untouched. *)
Theorem apiReplaceAllContainers_resets now s :
  let s' := apiReplaceAllContainers now s in
  length (drones s') = length (drones s)
  ∧ (∀ i d, drones s !! i = Some d →
       ∃ d', drones s' !! i = Some d'
         ∧ containerLampsRemaining d' = LAMPS_PER_CONTAINER
         ∧ pendingContainerOps d' = 0
         ∧ serviceEndsAt d' = None
         ∧ drone_status d'
           = (if bool_decide (drone_status d = servicing)
              then (if battery d <? 100 then charging else idle)
              else drone_status d)
         ∧ drone_id d' = drone_id d ∧ battery d' = battery d
         ∧ targetLampId d' = targetLampId d ∧ position d' = position d)
  ∧ (∀ k, k ∈ docks s' →
       containerSwapStatus k = replaced ∧ lastSwapCompletedAt k = Some now)
  ∧ map fullContainers (docks s') = map fullContainers (docks s)
  ∧ map emptyContainers (docks s') = map emptyContainers (docks s)
  ∧ lamps s' = lamps s ∧ missions s' = missions s ∧ timers s' = timers s.
Proof.
  unfold apiReplaceAllContainers. simpl.
  split; [by rewrite length_map|]. split; [|split; [|by rewrite !map_map]].
  - intros i d Hd. eexists. split.
    { change (map ?f ?l) with (f <$> l). by rewrite list_lookup_fmap, Hd. }
    simpl. case_bool_decide; simpl; by unfold restingStatus.
  - intros k [k0 [-> _]]%list_elem_of_fmap. done.
Qed.

(** X17.  The refill step of the global tick keeps the number of
    containers of every dock: what leaves [emptyContainers] enters
    [fullContainers], at most [DOCK_REFILL_UNITS] per dock, and only when
    the refill interval has passed, the pause after the last swap of the
    dock is over and the dock has an empty container.  Before the interval
    has passed the state is unchanged; otherwise [lastDockRefillAt] is set
    to the time of the tick. *)
Theorem refillDocks_conserves now s :
  let s' := refillDocks now s in
  Forall2
    (λ k k',
       dock_id k' = dock_id k
       ∧ fullContainers k' + emptyContainers k' = fullContainers k + emptyContainers k
       ∧ fullContainers k ≤ fullContainers k' ≤ fullContainers k + DOCK_REFILL_UNITS
       ∧ (0 ≤ emptyContainers k → 0 ≤ emptyContainers k')
       ∧ (fullContainers k < fullContainers k' →
          DOCK_REFILL_INTERVAL_MS ≤ now - lastDockRefillAt s
          ∧ DOCK_REFILL_PAUSE_AFTER_SWAP_MS ≤ now - default 0 (lastSwapCompletedAt k)
          ∧ 0 < emptyContainers k))
    (docks s) (docks s')
  ∧ drones s' = drones s ∧ lamps s' = lamps s ∧ missions s' = missions s
  ∧ (now - lastDockRefillAt s < DOCK_REFILL_INTERVAL_MS → s' = s)
  ∧ (DOCK_REFILL_INTERVAL_MS ≤ now - lastDockRefillAt s → lastDockRefillAt s' = now).
Proof.
  unfold refillDocks.
  destruct (Z.leb_spec DOCK_REFILL_INTERVAL_MS (now - lastDockRefillAt s)) as [Hdue|Hearly];
    cbn [docks drones lamps missions lastDockRefillAt with_docks with_lastDockRefillAt].
  - split; [|split; [done|split; [done|split; [done|split; [lia|done]]]]].
    apply Forall2_fmap_r, Forall_Forall2_diag, Forall_forall. intros k _.
    unfold compose. cbv beta.
    destruct (now - default 0 (lastSwapCompletedAt k) <? DOCK_REFILL_PAUSE_AFTER_SWAP_MS)
      eqn:Hpause.
    { unfold DOCK_REFILL_UNITS. repeat split; intros; lia. }
    apply Z.ltb_ge in Hpause.
    destruct (0 <? Z.min DOCK_REFILL_UNITS (emptyContainers k)) eqn:Hpos; simpl.
    + apply Z.ltb_lt in Hpos. unfold DOCK_REFILL_UNITS in *.
      repeat split; intros; try done; lia.
    + unfold DOCK_REFILL_UNITS. repeat split; intros; lia.
  - split; [|split; [done|split; [done|split; [done|split; [done|lia]]]]].
    apply Forall_Forall2_diag, Forall_forall. intros k _.
    unfold DOCK_REFILL_UNITS. repeat split; intros; lia.
Qed.

Lemma lampEvolves_refl valid l : lampEvolves valid l l.
Proof. do 5 (split; [done|]). auto. Qed.

Lemma lampEvolves_trans valid l1 l2 l3 :
  lampEvolves valid l1 l2 → lampEvolves valid l2 l3 → lampEvolves valid l1 l3.
Proof.
  intros (? & ? & ? & ? & ? & H12) (? & ? & ? & ? & ? & H23).
  repeat split; try congruence. auto.
Qed.

Lemma dockEvolves_refl k : dockEvolves k k.
Proof. do 4 (split; [done|]). auto. Qed.

Lemma dockEvolves_trans k1 k2 k3 : dockEvolves k1 k2 → dockEvolves k2 k3 → dockEvolves k1 k3.
Proof.
  intros (? & ? & ? & ? & H12) (? & ? & ? & ? & H23).
  split; [congruence|]. split; [congruence|]. split; [congruence|]. split; [congruence|].
  intros Hf He. destruct (H12 Hf He). auto.
Qed.

Lemma droneEvolves_refl valid d : droneEvolves valid d d.
Proof. split; [done|]. split; [done|]. auto. Qed.

Lemma droneEvolves_trans valid d1 d2 d3 :
  droneEvolves valid d1 d2 → droneEvolves valid d2 d3 → droneEvolves valid d1 d3.
Proof.
  intros (? & ? & H12) (? & ? & H23). split; [congruence|]. split; [congruence|]. auto.
Qed.

Lemma missionAdvances_refl m : missionAdvances m m.
Proof. do 3 (split; [done|]). split; [lia|]. split; [done|]. auto. Qed.

Lemma missionAdvances_trans m1 m2 m3 :
  missionAdvances m1 m2 → missionAdvances m2 m3 → missionAdvances m1 m3.
Proof.
  intros (? & ? & ? & Hr12 & Hp12 & Hf12) (? & ? & ? & Hr23 & Hp23 & Hf23).
  split; [congruence|]. split; [congruence|]. split; [congruence|]. split; [lia|].
  split; [by etrans|]. intros Hst. destruct (Hf12 Hst) as [Hroute Hroutes].
  destruct Hf23 as [Hroute' Hroutes']; [|split; congruence].
  intros Hplanned. rewrite Hplanned in Hr12. destruct (mission_status m1); simpl in *; try done; lia.
Qed.

Lemma evolves_refl valid s : evolves valid s s.
Proof.
  split; [apply Forall_Forall2_diag, Forall_forall; intros; apply lampEvolves_refl|].
  split; [apply Forall_Forall2_diag, Forall_forall; intros; apply dockEvolves_refl|].
  split; [intros j; destruct (drones s !! j); [apply droneEvolves_refl|done]|].
  split; [intros ref m Hm; exists m; split; [done|apply missionAdvances_refl]|].
  split; [done|]. intros. lia.
Qed.

Lemma evolves_trans valid s1 s2 s3 :
  evolves valid s1 s2 → evolves valid s2 s3 → evolves valid s1 s3.
Proof.
  intros (Hl12 & Hk12 & Hd12 & Hm12 & Hg12 & Hp12) (Hl23 & Hk23 & Hd23 & Hm23 & Hg23 & Hp23).
  split; [eapply Forall2_trans; [|done..]; intros ???; apply lampEvolves_trans|].
  split; [eapply Forall2_trans; [|done..]; intros ???; apply dockEvolves_trans|].
  split.
  { intros j. specialize (Hd12 j). specialize (Hd23 j).
    destruct (drones s1 !! j) as [d1|], (drones s2 !! j) as [d2|], (drones s3 !! j) as [d3|];
      try done.
    - by eapply droneEvolves_trans.
    - destruct Hd12 as [Hop Hsound]. destruct Hd23 as (_ & Hop' & Hsound').
      split; [congruence|]. auto. }
  split.
  { intros ref m1 Hm1. destruct (Hm12 ref m1 Hm1) as (m2 & Hm2 & Ha12).
    destruct (Hm23 ref m2 Hm2) as (m3 & Hm3 & Ha23).
    exists m3. split; [done|]. by eapply missionAdvances_trans. }
  split; [by etrans|]. intros id. specialize (Hp12 id). specialize (Hp23 id). lia.
Qed.

Lemma evolves_weaken (valid valid' : Prop) s s' :
  (valid' → valid) → evolves valid s s' → evolves valid' s s'.
Proof.
  intros Himpl (Hl & Hk & Hd & Hm & Hg & Hp).
  split.
  { eapply Forall2_impl; [done|]. intros l l' (? & ? & ? & ? & ? & Hc).
    do 5 (split; [done|]). auto. }
  split; [done|]. split; [|done].
  intros j. specialize (Hd j). destruct (drones s !! j), (drones s' !! j); try done.
  - destruct Hd as (? & ? & Hsound). split; [done|]. split; [done|]. auto.
  - destruct Hd as [? Hsound]. split; [done|]. auto.
Qed.

(** A state that differs in none of the fields that [evolves] reads. *)
Lemma evolves_fields valid s s' :
  lamps s' = lamps s → docks s' = docks s → drones s' = drones s →
  missions s' = missions s → logs s' = logs s →
  autoServiceProgress s' = autoServiceProgress s →
  evolves valid s s'.
Proof.
  intros Hl Hk Hd Hm Hg Hp. destruct (evolves_refl valid s) as (? & ? & Hdr & Hmi & ? & ?).
  unfold evolves, progressOf, missionAt. rewrite Hl, Hk, Hd, Hm, Hg, Hp. done.
Qed.

Lemma evolves_addLog valid now type message payload s :
  evolves valid s (addLog now type message payload s).
Proof.
  destruct (evolves_refl valid s) as (? & ? & Hdr & Hmi & ? & ?).
  repeat split; try done. simpl. by apply prefix_app_r.
Qed.

Lemma evolves_updDrone valid ref f s :
  (∀ d, drones s !! ref = Some d → droneEvolves valid d (f d)) →
  evolves valid s (updDrone ref f s).
Proof.
  intros Hf. destruct (evolves_refl valid s) as (? & ? & Hdr & Hmi & ? & ?).
  repeat split; try done. intros j. simpl.
  destruct (decide (ref = j)) as [->|Hne].
  - rewrite list_lookup_alter_eq. destruct (drones s !! j) as [d|] eqn:Hd; simpl; [|done].
    by apply Hf.
  - rewrite list_lookup_alter_ne by done. apply Hdr.
Qed.

Lemma evolves_updMission valid ref f s :
  (∀ m, missionAt s ref = Some m → missionAdvances m (f m)) →
  evolves valid s (updMission ref f s).
Proof.
  intros Hf. destruct (evolves_refl valid s) as (Hl & Hk & Hdr & Hmi & Hg & Hp).
  assert (Hfields : lamps (updMission ref f s) = lamps s
                    ∧ docks (updMission ref f s) = docks s
                    ∧ logs (updMission ref f s) = logs s
                    ∧ autoServiceProgress (updMission ref f s) = autoServiceProgress s)
    by (unfold updMission; by case_decide).
  destruct Hfields as (Hlamps & Hdocks & Hlogs & Hprogress).
  unfold evolves, progressOf. rewrite Hlamps, Hdocks, Hlogs, Hprogress, drones_updMission.
  split; [done|]. split; [done|]. split; [done|]. split; [|done].
  intros ref' m Hm. destruct (decide (ref = ref')) as [->|Hne].
  - rewrite missionAt_updMission, Hm. eexists. split; [done|]. by apply Hf.
  - rewrite missionAt_updMission_ne by done. exists m. split; [done|].
    apply missionAdvances_refl.
Qed.

Lemma alterFirst_Forall2 {A} (R : A → A → Prop) (p : A → bool) (f : A → A) (l : list A) :
  (∀ x, R x x) → (∀ x, List.find p l = Some x → R x (f x)) →
  Forall2 R l (alterFirst p f l).
Proof.
  intros Hrefl. induction l as [|x l IH]; intros Hf; simpl; [constructor|].
  simpl in Hf. destruct (p x) eqn:Hp.
  - constructor; [by apply Hf|]. apply Forall_Forall2_diag, Forall_forall. auto.
  - constructor; [done|]. by apply IH.
Qed.

Lemma evolves_updLamp valid lampId f s :
  (∀ l, findLamp s lampId = Some l → lampEvolves valid l (f l)) →
  evolves valid s (updLamp lampId f s).
Proof.
  intros Hf. destruct (evolves_refl valid s) as (? & ? & Hdr & Hmi & ? & ?).
  repeat split; try done. simpl. apply alterFirst_Forall2; [apply lampEvolves_refl|done].
Qed.

Lemma evolves_updDock valid dockId f s :
  (∀ k, dockEvolves k (f k)) → evolves valid s (updDock dockId f s).
Proof.
  intros Hf. destruct (evolves_refl valid s) as (? & ? & Hdr & Hmi & ? & ?).
  repeat split; try done. simpl. apply alterFirst_Forall2; [apply dockEvolves_refl|auto].
Qed.

Lemma evolves_mapDrones valid f s :
  (∀ d, droneEvolves valid d (f d)) → evolves valid s (with_drones (map f (drones s)) s).
Proof.
  intros Hf. destruct (evolves_refl valid s) as (? & ? & Hdr & Hmi & ? & ?).
  split; [done|]. split; [done|]. split; [|done]. intros j. simpl.
  change (map f (drones s)) with (f <$> drones s). rewrite list_lookup_fmap.
  destruct (drones s !! j); simpl; [apply Hf|done].
Qed.

Lemma evolves_newDrone valid d s :
  isOperational d = true → droneSound d →
  evolves valid s (with_drones (drones s ++ [d]) s).
Proof.
  intros Hop Hsound. destruct (evolves_refl valid s) as (? & ? & Hdr & Hmi & ? & ?).
  split; [done|]. split; [done|]. split; [|done]. intros j. simpl.
  destruct (drones s !! j) as [d0|] eqn:Hd0.
  - rewrite lookup_app_l by (by eapply lookup_lt_Some). rewrite Hd0. apply droneEvolves_refl.
  - apply lookup_ge_None in Hd0. rewrite lookup_app_r by done.
    destruct (j - length (drones s))%nat; simpl; [auto|done].
Qed.

Lemma evolves_mapDocks valid f s :
  (∀ k, dockEvolves k (f k)) → evolves valid s (with_docks (map f (docks s)) s).
Proof.
  intros Hf. destruct (evolves_refl valid s) as (? & ? & Hdr & Hmi & ? & ?).
  split; [done|]. split; [|done]. simpl.
  apply Forall2_fmap_r, Forall_Forall2_diag, Forall_forall. intros k _. apply Hf.
Qed.

Lemma evolves_newMission valid m s : evolves valid s (with_missions (m :: missions s) s).
Proof.
  destruct (evolves_refl valid s) as (? & ? & Hdr & Hmi & ? & ?).
  split; [done|]. split; [done|]. split; [done|]. split; [|done]. intros ref m0 Hm0. exists m0. split; [|apply missionAdvances_refl].
  erewrite (missionAt_cons s); [|reflexivity]. rewrite decide_False; [done|].
  intros ->. unfold missionAt in Hm0. destruct (decide _); [lia|done].
Qed.

Lemma evolves_progress valid progress s :
  (∀ droneId, (progressOf s droneId ≤ default 0 (progress !! droneId))%nat) →
  evolves valid s (with_autoServiceProgress progress s).
Proof.
  intros Hp. destruct (evolves_refl valid s) as (? & ? & Hdr & Hmi & ? & ?).
  do 5 (split; [done|]). done.
Qed.

(** *** Drones *)

Ltac drone_evolves :=
  intros;
  unfold droneEvolves, droneSound, sentToCharge, moveDroneToDockIfAvailable, restingStatus,
    enforceDroneDockBinding, ensureDroneContainerState, moveDroneTowards;
  repeat case_match; simpl;
  (split; [done|]); (split; [done|]);
  (let Hb := fresh "Hb" in let Hp := fresh "Hp" in let Hs := fresh "Hs" in
   intros ? (Hb & Hp & Hs);
   (split; [lia|]); (split; [lia|]);
   intros; try discriminate; try (split; [by eexists|lia]); auto).

Lemma droneEvolves_move valid s d : droneEvolves valid d (moveDroneToDockIfAvailable s d).
Proof. drone_evolves. Qed.

Lemma droneEvolves_towards valid d target : droneEvolves valid d (moveDroneTowards d target).1.
Proof. drone_evolves. Qed.

Lemma droneEvolves_enroute valid d : droneEvolves valid d (drone_with_status enroute d).
Proof. drone_evolves. Qed.

Lemma evolves_foldl_updDrone {A} valid (key : A → nat) (f : State → A → Drone → Drone) l s :
  (∀ s a d, droneEvolves valid d (f s a d)) →
  evolves valid s (foldl (λ s a, updDrone (key a) (f s a) s) s l).
Proof.
  intros Hf. revert s. induction l as [|a l IH]; intros s; simpl; [apply evolves_refl|].
  eapply evolves_trans; [|apply IH]. apply evolves_updDrone. intros d _. apply Hf.
Qed.

(** *** Dispatch *)

Lemma createMission_evolves valid now route dock optRoutes optSource s :
  evolves valid s (createMission now route dock optRoutes optSource s).1.
Proof.
  unfold createMission. simpl.
  eapply evolves_trans; [apply evolves_newMission|apply evolves_addLog].
Qed.

Lemma tryStartMission_evolves valid now missionArg s :
  evolves valid s (tryStartMission now missionArg s).1.
Proof.
  unfold tryStartMission.
  destruct (missionArg ≫= missionAt s) as [mission|] eqn:Hm; [|apply evolves_refl].
  destruct missionArg as [ref|]; [|done]. simpl in Hm. simpl.
  destruct (bool_decide (mission_status mission = running)) eqn:Hrunning; [apply evolves_refl|].
  destruct (bool_decide (mission_status mission = completed)) eqn:Hcompleted;
    [apply evolves_refl|].
  apply bool_decide_eq_false in Hrunning, Hcompleted.
  assert (Hst : mission_status mission = planned) by (by destruct (mission_status mission)).
  destruct (getReadyDronesForMission s) as [|rd ready] eqn:Hready.
  { simpl. apply evolves_mapDrones. drone_evolves. }
  set (occupied := getOccupiedLampIds s (Some (mission_id mission))).
  destruct (match mission_source mission with manual => _ | auto_service => _ end)
    as [missionRoutes s1] eqn:Hroutes.
  assert (Hs1 : ∃ g, s1 = updMission ref g s
                     ∧ (∀ m, mission_status m = planned → missionAdvances m (g m))
                     ∧ mission_status (g mission) = planned).
  { destruct (mission_source mission).
    - injection Hroutes as _ <-. eexists. split; [done|]. split; [|done].
      intros m Hpl. do 3 (split; [done|]). split; [simpl; lia|]. split; [done|].
      by intros [].
    - destruct (objKeys (droneRoutes mission)); injection Hroutes as _ <-.
      + eexists. split; [done|]. split; [|done].
        intros m Hpl. do 3 (split; [done|]). split; [simpl; lia|]. split; [done|].
        by intros [].
      + exists (λ m, m). split; [|split; [intros; apply missionAdvances_refl|done]].
        unfold updMission. case_decide; [|done].
        destruct s. unfold with_missions. simpl. f_equal.
        symmetry. by apply list_alter_id. }
  destruct Hs1 as (g & -> & Hg & Hgst).
  set (activeRoutes := buildActiveRoutes occupied (lampByIdMap s) missionRoutes (rd :: ready)).
  rewrite updMission_updMission.
  assert (Hplanned : ∀ h : Mission → Mission,
            (∀ m, mission_status m = planned → missionAdvances m (h m)) →
            evolves valid s (updMission ref h s)).
  { intros h Hh. apply evolves_updMission. intros m Hm'.
    rewrite Hm in Hm'. injection Hm' as <-. by apply Hh. }
  assert (Hroute : ∀ m, mission_status m = planned →
            missionAdvances m
              ((mission_with_routeLampIds (concat (objValues activeRoutes)) ∘ g) m)).
  { intros m Hpl. destruct (Hg m Hpl) as (? & ? & ? & ? & ? & _).
    do 3 (split; [done|]). split; [done|]. split; [done|]. by intros []. }
  destruct (negb _); [by apply Hplanned|].
  destruct (List.filter _ _) as [|ad assigned]; [by apply Hplanned|].
  generalize (ad :: assigned). intros assignedDrones. simpl fst. unfold runMission.
  rewrite updMission_updMission.
  eapply evolves_trans; [|apply evolves_fields; reflexivity].
  eapply evolves_trans; [|apply evolves_addLog].
  eapply evolves_trans;
    [|apply (evolves_foldl_updDrone valid fst
               (λ s (rd : nat * Drone) drone,
                  drone_with_targetLampId None
                    (drone_with_status enroute (moveDroneToDockIfAvailable s drone))));
      drone_evolves].
  apply Hplanned. intros m Hpl. destruct (Hroute m Hpl) as (? & ? & ? & ? & ? & _).
  do 3 (split; [done|]). split; [simpl; rewrite Hpl; simpl; lia|]. split; [done|]. by intros [].
Qed.

Lemma tryAutoServiceDispatch_evolves valid now s :
  evolves valid s (tryAutoServiceDispatch now s).
Proof.
  unfold tryAutoServiceDispatch.
  destruct (autoDispatchAttempt now s) as [dispatch|] eqn:Hattempt; [|apply evolves_refl].
  pose proof (createMission_evolves valid now (ad_routeLampIds dispatch) None
                (Some (ad_droneRoutes dispatch)) (Some auto_service) s) as Hcreate.
  assert (Hcursor : autoServiceProgress
                      (createMission now (ad_routeLampIds dispatch) None
                         (Some (ad_droneRoutes dispatch)) (Some auto_service) s).1
                    = autoServiceProgress s) by done.
  destruct (createMission _ _ _ _ _ s) as [s1 ref]. simpl in Hcreate, Hcursor.
  pose proof (tryStartMission_evolves valid now (Some ref) s1) as Hstart.
  pose proof (tryStartMission_dispatchCursor now (Some ref) s1) as Hsame.
  destruct (tryStartMission now (Some ref) s1) as [s2 [|statusCode error]];
    simpl in Hstart, Hsame.
  - eapply evolves_trans; [|apply evolves_addLog].
    eapply evolves_trans; [|apply evolves_fields; reflexivity].
    eapply evolves_trans; [exact Hcreate|]. eapply evolves_trans; [exact Hstart|].
    apply evolves_progress. intros droneId.
    assert (Hprogress2 : autoServiceProgress s2 = autoServiceProgress s).
    { unfold dispatchCursor in Hsame. congruence. }
    unfold progressOf. rewrite Hprogress2.
    unfold autoDispatchAttempt in Hattempt.
    destruct (_ || _); [done|]. destruct (existsb _ _); [done|].
    destruct (getReadyDronesForMission s) as [|rd ready] eqn:Hready; [done|].
    destruct (ad_routeLampIds _) eqn:Hroute; [done|]. injection Hattempt as <-.
    pose proof (buildAutoServiceDispatch_progress s (rd :: ready)) as Hnext.
    revert Hnext. generalize (ad_nextProgress (buildAutoServiceDispatch s (rd :: ready))).
    intros next Hnext.
    assert (Hfold : ∀ (progress : gmap string nat),
              (default 0 (autoServiceProgress s !! droneId)
               ≤ default 0 (progress !! droneId))%nat →
              (default 0 (autoServiceProgress s !! droneId)
               ≤ default 0 (foldl (λ progress kv, <[kv.1 := kv.2]> progress) progress next
                             !! droneId))%nat).
    { induction next as [|[id n] next IH]; intros progress Hle; simpl; [done|].
      apply IH.
      - intros id' n' Hin. apply Hnext. by right.
      - destruct (decide (id = droneId)) as [->|Hne].
        + rewrite lookup_insert_eq. simpl. apply Hnext. left.
        + by rewrite lookup_insert_ne. }
    by apply Hfold.
  - eapply evolves_trans; [|apply evolves_addLog].
    eapply evolves_trans; [exact Hcreate|exact Hstart].
Qed.

(** *** The mission engine *)

Lemma interruptLowBattery_evolves valid now s w :
  evolves valid s (interruptLowBattery now s w).1.
Proof.
  unfold interruptLowBattery. destruct (drones s !! w_drone w) as [drone|]; [|apply evolves_refl].
  destruct (_ && _); [|apply evolves_refl]. simpl.
  eapply evolves_trans; [apply evolves_addLog|]. apply evolves_updDrone. drone_evolves.
Qed.

Lemma dropTarget_evolves valid s w : evolves valid s (dropTarget s w).1.
Proof. unfold dropTarget. simpl. apply evolves_updDrone. drone_evolves. Qed.

Lemma serveTarget_evolves valid now draws missionRef s w target drone :
  drones s !! w_drone w = Some drone →
  (valid → drawsInRange draws) →
  evolves valid s (serveTarget now draws missionRef s w target drone).1.
Proof.
  intros Hdrone Hdraws. unfold serveTarget.
  destruct (findLamp s target) as [lamp|] eqn:Hlamp; [|apply dropTarget_evolves].
  destruct (negb _ && negb _) eqn:Hskip.
  { eapply evolves_trans; [apply evolves_addLog|apply dropTarget_evolves]. }
  destruct (bool_decide (drone_status drone = replacing)) eqn:Hreplacing.
  - destruct (now - replaceStartedAt w <? REPLACEMENT_DURATION_MS); [apply evolves_refl|].
    eapply evolves_trans; [|apply dropTarget_evolves].
    eapply evolves_trans; [|apply evolves_addLog].
    eapply evolves_trans; [|apply evolves_updDrone].
    + eapply evolves_trans; [|apply evolves_updMission].
      * apply evolves_updLamp. intros l _. unfold lampEvolves, lampConsistent. simpl.
        do 5 (split; [done|]). intros Hvalid _. destruct (Hdraws Hvalid) as [He _].
        split; [done|]. split; [done|]. lia.
      * intros m _. do 3 (split; [done|]). split; [simpl; lia|].
        split; [by apply prefix_app_r|]. done.
    + intros d _. unfold droneEvolves, droneSound. simpl.
      split; [done|]. split; [done|]. intros Hvalid (Hb & Hp & Hs).
      destruct (Hdraws Hvalid) as [_ Hbat]. split; [lia|]. split; [lia|]. done.
  - simpl in Hskip. apply negb_false_iff, bool_decide_eq_true in Hskip.
    destruct (moveDroneTowards _ _) as [moved arrived] eqn:Hmove.
    assert (Hmoved : droneEvolves valid drone moved).
    { replace moved with (moveDroneTowards (drone_with_status enroute drone)
                            {| lat := lamp_lat lamp; lng := lamp_lng lamp |}).1
        by by rewrite Hmove.
      eapply droneEvolves_trans; [apply droneEvolves_enroute|apply droneEvolves_towards]. }
    assert (Hs1 : evolves valid s (updDrone (w_drone w) (λ _, moved) s)).
    { apply evolves_updDrone. intros d Hd. rewrite Hdrone in Hd. by injection Hd as <-. }
    destruct arrived; [|done].
    destruct (negb _) eqn:Hreplace.
    { eapply evolves_trans; [exact Hs1|apply dropTarget_evolves]. }
    destruct (containerLampsRemaining moved <=? 0).
    { eapply evolves_trans; [exact Hs1|].
      eapply evolves_trans; [apply evolves_addLog|apply dropTarget_evolves]. }
    simpl. eapply evolves_trans; [exact Hs1|].
    eapply evolves_trans; [|apply evolves_addLog].
    eapply evolves_trans; [|apply evolves_updDrone; drone_evolves].
    apply evolves_updLamp. intros l Hl.
    change (findLamp (updDrone (w_drone w) (λ _, moved) s) target) with (findLamp s target) in Hl.
    rewrite Hlamp in Hl. injection Hl as <-.
    unfold lampEvolves, lampConsistent. simpl. do 5 (split; [done|]).
    rewrite Hskip. simpl. done.
Qed.

Lemma returnToDock_evolves valid now s w drone :
  drones s !! w_drone w = Some drone →
  evolves valid s (returnToDock now s w drone).1.
Proof.
  intros Hdrone. unfold returnToDock.
  destruct (getActiveDock s drone) as [dock|].
  2: { simpl. apply evolves_updDrone. drone_evolves. }
  destruct (moveDroneTowards _ _) as [moved arrived] eqn:Hmove.
  assert (Hmoved : droneEvolves valid drone moved).
  { replace moved with (moveDroneTowards (drone_with_status enroute drone)
                          {| lat := dock_lat dock; lng := dock_lng dock |}).1
      by by rewrite Hmove.
    eapply droneEvolves_trans; [apply droneEvolves_enroute|apply droneEvolves_towards]. }
  assert (Hs1 : evolves valid s (updDrone (w_drone w) (λ _, moved) s)).
  { apply evolves_updDrone. intros d Hd. rewrite Hdrone in Hd. by injection Hd as <-. }
  destruct arrived; [|done].
  destruct (containerLampsRemaining moved <=? 0); simpl.
  - eapply evolves_trans; [exact Hs1|].
    eapply evolves_trans; [|apply evolves_addLog].
    eapply evolves_trans; [|apply evolves_updDock].
    + apply evolves_updDrone. intros d Hd.
      rewrite lookup_updDrone, Hdrone in Hd. injection Hd as <-.
      unfold droneEvolves, droneSound. simpl. split; [done|]. split; [done|].
      intros _ (Hb & Hp & Hs). split; [lia|]. split; [lia|]. intros _.
      split; [by eexists|lia].
    + intros k. unfold dockEvolves. simpl. do 4 (split; [done|]). auto.
  - eapply evolves_trans; [exact Hs1|]. apply evolves_updDrone. drone_evolves.
Qed.

Lemma workerStep_evolves valid now draws missionRef s w :
  (valid → drawsInRange draws) →
  evolves valid s (workerStep now draws missionRef s w).1.
Proof.
  intros Hdraws. unfold workerStep.
  destruct (drones s !! w_drone w) as [drone|] eqn:Hdrone; [|apply evolves_refl].
  destruct (w_targetLampId w) as [target|]; [by apply serveTarget_evolves|].
  destruct (queue w) as [|nextLampId rest]; [by apply returnToDock_evolves|].
  simpl. apply evolves_updDrone. drone_evolves.
Qed.

Lemma workerTick_evolves valid now draws missionRef s w :
  (valid → drawsInRange draws) →
  evolves valid s (workerTick now draws missionRef s w).1.
Proof.
  intros Hdraws. unfold workerTick.
  destruct (drones s !! w_drone w) as [drone|]; [|apply evolves_refl].
  destruct (_ || _); [apply evolves_refl|].
  pose proof (interruptLowBattery_evolves valid now s w) as Hint.
  destruct (interruptLowBattery now s w) as [s1 w1].
  eapply evolves_trans; [exact Hint|by apply workerStep_evolves].
Qed.

Lemma runWorkers_evolves valid now draws missionRef index s workers :
  (valid → ∀ i, drawsInRange (draws i)) →
  evolves valid s (runWorkers now draws missionRef index s workers).1.
Proof.
  intros Hdraws. revert index s.
  induction workers as [|w workers IH]; intros index s; simpl; [apply evolves_refl|].
  pose proof (workerTick_evolves valid now (draws index) missionRef s w) as Hw.
  destruct (workerTick now (draws index) missionRef s w) as [s1 w1].
  pose proof (IH (S index) s1) as Hrest.
  destruct (runWorkers now draws missionRef (S index) s1 workers) as [s2 rest'].
  simpl in *. eapply evolves_trans; [apply Hw; auto|exact Hrest].
Qed.

Lemma completeMission_evolves valid now missionRef workers s :
  evolves valid s (completeMission now missionRef workers s).
Proof.
  unfold completeMission.
  eapply evolves_trans; [|apply evolves_addLog].
  eapply evolves_trans;
    [|apply (evolves_foldl_updDrone valid w_drone
               (λ s (w : Worker) d,
                  let d1 := drone_with_targetLampId None d in
                  if bool_decide (drone_status d1 = servicing) then d1
                  else
                    let d2 := drone_with_status (restingStatus d1) d1 in
                    if bool_decide (drone_status d2 = charging)
                    then moveDroneToDockIfAvailable s d2
                    else d2))].
  - eapply evolves_trans; [|apply evolves_updMission].
    + destruct (activeMissionTimers s !! _); [|apply evolves_refl].
      apply evolves_fields; reflexivity.
    + intros m _. do 3 (split; [done|]). split; [destruct (mission_status m); simpl; lia|].
      split; [done|]. done.
  - intros s0 a d. cbv zeta. case_bool_decide as Hserv; [drone_evolves|].
    simpl in Hserv. unfold droneEvolves, droneSound, moveDroneToDockIfAvailable, restingStatus.
    repeat case_match; simpl; (split; [done|]); (split; [done|]);
      intros ? (Hb & Hp & Hs); (split; [lia|]); (split; [lia|]); intros; discriminate.
Qed.

Lemma missionTick_evolves valid now draws timerId s :
  (valid → ∀ i, drawsInRange (draws i)) →
  evolves valid s (missionTick now draws timerId s).
Proof.
  intros Hdraws. unfold missionTick.
  destruct (timers s !! timerId) as [timer|]; [|apply evolves_refl].
  destruct (timer_cleared timer); [apply evolves_refl|].
  pose proof (runWorkers_evolves valid now draws (timer_mission timer) 0 s
                (timer_workers timer) Hdraws) as Hrun.
  destruct (runWorkers now draws (timer_mission timer) 0 s (timer_workers timer))
    as [s1 workers]. simpl in Hrun.
  assert (Hs2 : evolves valid s
                  (with_timers
                     (alter (λ t, {| timer_mission := timer_mission t; timer_workers := workers;
                                     timer_cleared := timer_cleared t |}) timerId (timers s1))
                     s1)).
  { eapply evolves_trans; [exact Hrun|]. apply evolves_fields; reflexivity. }
  destruct (forallb _ _); [|done].
  eapply evolves_trans; [exact Hs2|apply completeMission_evolves].
Qed.

(** *** The global tick *)

Lemma ensureDroneCoverage_evolves valid now s :
  evolves valid s (ensureDroneCoverageForAllDocks now s).
Proof.
  unfold ensureDroneCoverageForAllDocks.
  eapply evolves_trans; [|apply evolves_mapDrones].
  - generalize (zip (seq 0 (length (docks s))) (docks s)). intros l. revert s.
    induction l as [|[index dock] l IH]; intros s; [apply evolves_refl|].
    cbn [foldl]. eapply evolves_trans; [|apply IH].
    destruct (List.find _ (drones s)); [apply evolves_refl|]. cbv zeta.
    eapply evolves_trans; [|apply evolves_addLog].
    apply evolves_newDrone; [done|]. unfold droneSound. simpl.
    split; [lia|]. split; [lia|]. discriminate.
  - intros d. cbv zeta.
    destruct (_ && _).
    + eapply droneEvolves_trans; [|apply droneEvolves_move]. drone_evolves.
    + drone_evolves.
Qed.

Lemma refillDocks_evolves valid now s : evolves valid s (refillDocks now s).
Proof.
  unfold refillDocks. destruct (_ <=? _); [|apply evolves_refl].
  eapply evolves_trans; [|apply evolves_fields; reflexivity].
  apply evolves_mapDocks. intros k.
  destruct (_ <? DOCK_REFILL_PAUSE_AFTER_SWAP_MS); [apply dockEvolves_refl|].
  destruct (0 <? _) eqn:Hpos; [|apply dockEvolves_refl].
  apply Z.ltb_lt in Hpos. unfold dockEvolves. simpl. do 4 (split; [done|]).
  intros Hf He. lia.
Qed.

Lemma tickDrone_evolves valid now s index : evolves valid s (tickDrone now s index).
Proof.
  unfold tickDrone. destruct (drones s !! index) as [drone|] eqn:Hdrone; [|apply evolves_refl].
  destruct (bool_decide (drone_status drone = servicing)).
  - destruct (_ && _); [|apply evolves_refl].
    eapply evolves_trans; [|apply evolves_updDrone; drone_evolves].
    destruct (getActiveDock s drone) as [dock|]; [|apply evolves_refl].
    destruct (0 <? pendingContainerOps drone) eqn:Hops; [|apply evolves_refl].
    apply Z.ltb_lt in Hops.
    eapply evolves_trans; [|apply evolves_addLog].
    eapply evolves_trans; [|apply evolves_updDrone; drone_evolves].
    apply evolves_updDock. intros k. unfold dockEvolves. simpl. do 4 (split; [done|]).
    intros Hf He. lia.
  - destruct (_ || _); [|apply evolves_refl].
    destruct (battery drone <? 100) eqn:Hlow.
    + set (charged := drone_with_battery _ _).
      assert (Hcharged : droneEvolves valid drone charged
                         ∧ droneEvolves valid drone (drone_with_status idle charged)).
      { subst charged.
        unfold droneEvolves, droneSound, moveDroneToDockIfAvailable, CHARGE_RATE_PER_TICK.
        destruct (getActiveDock _ _); simpl;
          (split; (split; [done|]; split; [done|]; intros _ (Hb & Hp & _);
                   split; [lia|]; split; [lia|]; discriminate)). }
      destruct Hcharged as [Hcharging Hidle].
      destruct (100 <=? _).
      * eapply evolves_trans; [|apply evolves_addLog]. apply evolves_updDrone.
        intros d Hd. rewrite Hdrone in Hd. by injection Hd as <-.
      * apply evolves_updDrone. intros d Hd. rewrite Hdrone in Hd. by injection Hd as <-.
    + destruct (bool_decide _); [|apply evolves_refl]. apply evolves_updDrone. drone_evolves.
Qed.

Lemma tickDrones_evolves valid now l s : evolves valid s (foldl (tickDrone now) s l).
Proof.
  revert s. induction l as [|index l IH]; intros s; simpl; [apply evolves_refl|].
  eapply evolves_trans; [apply tickDrone_evolves|apply IH].
Qed.

Lemma globalTick_evolves valid now s : evolves valid s (globalTick now s).
Proof.
  unfold globalTick.
  eapply evolves_trans; [|apply tryAutoServiceDispatch_evolves].
  eapply evolves_trans; [|apply tickDrones_evolves].
  eapply evolves_trans; [apply ensureDroneCoverage_evolves|apply refillDocks_evolves].
Qed.

(** *** The commands *)

Lemma markLampForReplacement_evolves valid now lampId s :
  evolves valid s (markLampForReplacement now lampId s).1.
Proof.
  unfold markLampForReplacement. destruct (findLamp s lampId) as [lamp|]; [|apply evolves_refl].
  simpl. eapply evolves_trans; [|apply evolves_addLog].
  apply evolves_updLamp. intros l _. unfold lampEvolves, lampConsistent, markedLamp. simpl.
  do 5 (split; [done|]). done.
Qed.

Lemma apiFailLamp_evolves valid now lampId s : evolves valid s (apiFailLamp now lampId s).1.
Proof.
  unfold apiFailLamp.
  pose proof (markLampForReplacement_evolves valid now lampId s) as Hmark.
  destruct (markLampForReplacement now lampId s) as [s1 [lamp|]]; simpl in *; [|done].
  destruct (autoServiceEnabled s1); [|done].
  eapply evolves_trans; [exact Hmark|apply tryAutoServiceDispatch_evolves].
Qed.

Lemma apiPlanMission_evolves valid now requested s :
  evolves valid s (apiPlanMission now requested s).1.1.
Proof.
  unfold apiPlanMission. destruct (List.filter _ (lamps s)); [apply evolves_addLog|].
  destruct (plan_routeLampIds _); [apply evolves_addLog|].
  unfold createMission. simpl.
  eapply evolves_trans; [apply evolves_newMission|apply evolves_addLog].
Qed.

Lemma apiStartMission_evolves valid now missionId s :
  evolves valid s (apiStartMission now missionId s).1.
Proof.
  unfold apiStartMission.
  pose proof (tryStartMission_evolves valid now (findMission s missionId) s) as Hstart.
  destruct (tryStartMission now (findMission s missionId) s) as [s1 [|statusCode error]];
    [done|].
  simpl in *. eapply evolves_trans; [exact Hstart|apply evolves_addLog].
Qed.

Lemma apiReplaceAllContainers_evolves valid now s :
  evolves valid s (apiReplaceAllContainers now s).
Proof.
  unfold apiReplaceAllContainers.
  eapply evolves_trans; [|apply evolves_addLog].
  eapply evolves_trans; [apply evolves_mapDrones|apply evolves_mapDocks].
  - intros d. cbv beta zeta.
    destruct (bool_decide _) eqn:Hserv; [drone_evolves|].
    apply bool_decide_eq_false in Hserv. simpl in Hserv.
    unfold droneEvolves, droneSound. simpl. split; [done|]. split; [done|].
    intros _ (Hb & Hp & _). split; [lia|]. split; [lia|]. done.
  - intros k. unfold dockEvolves. simpl. do 4 (split; [done|]). auto.
Qed.

Lemma engineStep_evolves e s : evolves (drawsValid e) s (engineStep e s).
Proof.
  destruct e as [now draws timerId|now|now lampId|now requested|now missionId|now|now enabled];
    simpl.
  - by apply missionTick_evolves.
  - apply globalTick_evolves.
  - apply apiFailLamp_evolves.
  - apply apiPlanMission_evolves.
  - apply apiStartMission_evolves.
  - apply apiReplaceAllContainers_evolves.
  - unfold apiAutoServiceToggle. eapply evolves_trans; [|apply evolves_addLog].
    apply evolves_fields; reflexivity.
Qed.

Lemma engineRun_evolves events s :
  evolves (Forall drawsValid events) s (engineRun events s).
Proof.
  revert s. induction events as [|e events IH]; intros s; simpl; [apply evolves_refl|].
  eapply evolves_trans.
  - eapply evolves_weaken; [|apply engineStep_evolves]. by intros [? ?]%Forall_cons.
  - eapply evolves_weaken; [|apply IH]. by intros [? ?]%Forall_cons.
Qed.


(** ** Invariants of every run *)

Lemma prefix_lookup {A} (l l' : list A) :
  (∀ j x, l !! j = Some x → l' !! j = Some x) → l `prefix_of` l'.
Proof.
  intros Hsame. exists (drop (length l) l').
  rewrite <- (take_drop (length l) l') at 1. f_equal.
  apply list_eq. intros j. destruct (l !! j) as [x|] eqn:Hx.
  - rewrite lookup_take_lt by (by eapply lookup_lt_Some). by apply Hsame.
  - apply lookup_ge_None in Hx. apply lookup_ge_None.
    rewrite length_take. lia.
Qed.

(** X20.  Along every run whose draws are in range, every drone stays
    sound: its battery is between 20 and 100, its count of pending container
    operations is not negative, and a drone in [servicing] has a service
    deadline and at least one pending operation.  This holds for the drones
    added on the way as well. *)
Theorem fleet_stays_sound events s :
  Forall drawsValid events →
  (∀ d, d ∈ drones s → droneSound d) →
  ∀ d, d ∈ drones (engineRun events s) → droneSound d.
Proof.
  intros Hvalid Hsound d' [j Hj]%list_elem_of_lookup.
  destruct (engineRun_evolves events s) as (_ & _ & Hdrones & _).
  specialize (Hdrones j). rewrite Hj in Hdrones.
  destruct (drones s !! j) as [d|] eqn:Hd.
  - destruct Hdrones as (_ & _ & Hkeep). apply Hkeep; [done|].
    apply Hsound. by eapply list_elem_of_lookup_2.
  - destruct Hdrones as [_ Hfresh]. by apply Hfresh.
Qed.

(** X21.  The fleet only grows: along every run each drone keeps its place
    in [state.drones], its id and its operational flag, and the drones added
    are operational. *)
Theorem fleet_only_grows events s :
  map drone_id (drones s) `prefix_of` map drone_id (drones (engineRun events s))
  ∧ map isOperational (drones s) `prefix_of` map isOperational (drones (engineRun events s))
  ∧ Forall (λ d, isOperational d = true)
      (drop (length (drones s)) (drones (engineRun events s))).
Proof.
  destruct (engineRun_evolves events s) as (_ & _ & Hdrones & _).
  split; [|split].
  - apply prefix_lookup. intros j x Hx. specialize (Hdrones j).
    change (map drone_id ?l) with (drone_id <$> l) in *. rewrite list_lookup_fmap in Hx |- *.
    destruct (drones s !! j) as [d|]; [|done]. injection Hx as <-.
    destruct (drones (engineRun events s) !! j) as [d'|]; [|done].
    destruct Hdrones as (Heq & _). simpl. by rewrite Heq.
  - apply prefix_lookup. intros j x Hx. specialize (Hdrones j).
    change (map isOperational ?l) with (isOperational <$> l) in *.
    rewrite list_lookup_fmap in Hx |- *.
    destruct (drones s !! j) as [d|]; [|done]. injection Hx as <-.
    destruct (drones (engineRun events s) !! j) as [d'|]; [|done].
    destruct Hdrones as (_ & Heq & _). simpl. by rewrite Heq.
  - apply Forall_forall. intros d' [j Hj]%list_elem_of_lookup.
    rewrite lookup_drop in Hj. specialize (Hdrones (length (drones s) + j)%nat).
    rewrite Hj in Hdrones. rewrite lookup_ge_None_2 in Hdrones by lia. by destruct Hdrones.
Qed.

(** X22.  No run moves, renames, adds or removes a lamp or a dock: ids,
    names and coordinates of lamps and docks are as at the start, place by
    place. *)
Theorem map_is_static events s :
  Forall2
    (λ l l', lamp_id l' = lamp_id l ∧ lamp_name l' = lamp_name l
             ∧ lampPoint l' = lampPoint l)
    (lamps s) (lamps (engineRun events s))
  ∧ Forall2
      (λ k k', dock_id k' = dock_id k ∧ dock_name k' = dock_name k
               ∧ dock_lat k' = dock_lat k ∧ dock_lng k' = dock_lng k)
      (docks s) (docks (engineRun events s)).
Proof.
  destruct (engineRun_evolves events s) as (Hlamps & Hdocks & _).
  split.
  - eapply Forall2_impl; [exact Hlamps|]. intros l l' (? & ? & Hlat & Hlng & _).
    unfold lampPoint. by rewrite Hlat, Hlng.
  - eapply Forall2_impl; [exact Hdocks|]. by intros k k' (? & ? & ? & ? & _).
Qed.

(** X23.  Along every run whose draws are in range every lamp stays
    consistent: it is lit, holds a cassette and draws 100 to 112 W exactly
    when its status is [ok], and is off and draws nothing otherwise. *)
Theorem lamps_stay_consistent events s :
  Forall drawsValid events →
  Forall lampConsistent (lamps s) →
  Forall lampConsistent (lamps (engineRun events s)).
Proof.
  intros Hvalid Hs. destruct (engineRun_evolves events s) as (Hlamps & _).
  induction Hlamps as [|l l' ls ls' Hl _ IH]; [done|].
  apply Forall_cons in Hs as [Hl0 Hs]. constructor; [|by apply IH].
  destruct Hl as (_ & _ & _ & _ & _ & Hkeep). by apply Hkeep.
Qed.

(** X24.  The container counts of the docks never become negative. *)
Theorem dock_stock_not_negative events s :
  Forall (λ k, 0 ≤ fullContainers k ∧ 0 ≤ emptyContainers k) (docks s) →
  Forall (λ k, 0 ≤ fullContainers k ∧ 0 ≤ emptyContainers k) (docks (engineRun events s)).
Proof.
  intros Hs. destruct (engineRun_evolves events s) as (_ & Hdocks & _).
  induction Hdocks as [|k k' ks ks' Hk _ IH]; [done|].
  apply Forall_cons in Hs as [[Hf He] Hs]. constructor; [|by apply IH].
  destruct Hk as (_ & _ & _ & _ & Hkeep). by apply Hkeep.
Qed.

(** X25.  The log is append-only: the log at the start of a run is a
    prefix of the log at its end. *)
Theorem log_is_append_only events s : logs s `prefix_of` logs (engineRun events s).
Proof. by destruct (engineRun_evolves events s) as (_ & _ & _ & _ & ? & _). Qed.

(** X26.  The cursor of a drone in the auto-service plan never moves
    back. *)
Theorem plan_cursor_never_goes_back events s droneId :
  (progressOf s droneId ≤ progressOf (engineRun events s) droneId)%nat.
Proof. by destruct (engineRun_evolves events s) as (_ & _ & _ & _ & _ & ?). Qed.

(** X27.  A mission only advances: along every run it keeps its reference,
    id, source and creation time; its status goes from [planned] to
    [running] to [completed] and never back; its completed stops are only
    added to; and once it is not [planned] any more its route and drone
    routes are fixed. *)
Theorem missions_only_advance events s ref m :
  missionAt s ref = Some m →
  ∃ m', missionAt (engineRun events s) ref = Some m'
    ∧ mission_id m' = mission_id m ∧ mission_source m' = mission_source m
    ∧ createdAt m' = createdAt m
    ∧ (statusRank (mission_status m) ≤ statusRank (mission_status m'))%nat
    ∧ completedLampIds m `prefix_of` completedLampIds m'
    ∧ (mission_status m ≠ planned →
       routeLampIds m' = routeLampIds m ∧ droneRoutes m' = droneRoutes m).
Proof.
  intros Hm. destruct (engineRun_evolves events s) as (_ & _ & _ & Hmissions & _).
  destruct (Hmissions ref m Hm) as (m' & Hm' & Hadv). by exists m'.
Qed.

(** ** A successful start *)

Lemma readyDrones_lookup s rd :
  rd ∈ getReadyDronesForMission s → drones s !! rd.1 = Some rd.2 ∧ isReadyDrone rd.2 = true.
Proof.
  unfold getReadyDronesForMission. intros [Hin Hready]%list_elem_of_In%filter_In.
  split; [|done]. apply list_elem_of_In, list_elem_of_lookup in Hin as [i Hi].
  destruct rd as [j d]. apply lookup_zip_with_Some in Hi as (j' & d' & [= <- <-] & Hj & Hd).
  apply lookup_seq in Hj as [-> _]. done.
Qed.

Lemma objSet_keys {V} (k : string) (v : V) o :
  NoDup (objKeys o) → NoDup (objKeys (objSet k v o)) ∧ ∀ k', k' ∈ objKeys (objSet k v o) → k' = k ∨ k' ∈ objKeys o.
Proof.
  induction o as [|[k0 v0] o IH]; simpl.
  - intros _. split; [apply NoDup_singleton|]. intros k' ->%list_elem_of_singleton. by left.
  - intros [Hk0 Hnd]%NoDup_cons. destruct (decide (k = k0)) as [->|Hne]; simpl.
    + split; [by apply NoDup_cons|]. intros k' Hk'. by right.
    + destruct (IH Hnd) as [Hnd' Hkeys]. split.
      * apply NoDup_cons. split; [|done]. intros Hin. destruct (Hkeys _ Hin); [done|done].
      * intros k' [->|Hin]%elem_of_cons; [right; left|].
        destruct (Hkeys _ Hin); [by left|]. right. by right.
Qed.

Lemma buildActiveRoutes_keys occupied lampById missionRoutes readyDrones :
  let activeRoutes := buildActiveRoutes occupied lampById missionRoutes readyDrones in
  NoDup (objKeys activeRoutes)
  ∧ ∀ id route, (id, route) ∈ activeRoutes →
      route ≠ [] ∧ ∃ rd, rd ∈ readyDrones ∧ drone_id rd.2 = id.
Proof.
  unfold buildActiveRoutes.
  induction readyDrones as [|rd readyDrones IH] using rev_ind.
  { simpl. split; [constructor|]. intros ?? Hin. by apply elem_of_nil in Hin. }
  rewrite foldl_app. cbn [foldl].
  destruct (foldl _ _ readyDrones) as [activeRoutes assigned]. simpl in IH.
  destruct IH as [Hnd Hroutes].
  assert (Hold : ∀ id route, (id, route) ∈ activeRoutes →
            route ≠ [] ∧ ∃ rd0, rd0 ∈ readyDrones ++ [rd] ∧ drone_id rd0.2 = id).
  { intros id route Hin. destruct (Hroutes id route Hin) as [Hne (rd0 & Hrd0 & Hid)].
    split; [done|]. exists rd0. split; [|done]. apply elem_of_app. by left. }
  destruct (objGet (drone_id rd.2) missionRoutes) as [proposed|]; [|done].
  destruct (filterRoute occupied lampById proposed assigned) as [route assigned'].
  destruct route as [|x route]; [done|]. simpl.
  split; [by apply objSet_keys|].
  intros id route' [[= -> ->]|Hin]%elem_of_objSet; [|by apply Hold].
  split; [done|]. exists rd. split; [|done]. apply elem_of_app. right. left.
Qed.

Lemma objGet_elem_of {V} (k : string) (v : V) o :
  NoDup (objKeys o) → (k, v) ∈ o → objGet k o = Some v.
Proof.
  induction o as [|[k0 v0] o IH]; simpl; [by intros _ ?%elem_of_nil|].
  intros [Hk0 Hnd]%NoDup_cons [[= -> ->]|Hin]%elem_of_cons.
  - by rewrite decide_True.
  - rewrite decide_False; [by apply IH|]. intros ->. apply Hk0.
    apply list_elem_of_fmap. by exists (k0, v).
Qed.

Lemma routes_NoDup (o : list (string * list Z)) :
  NoDup (objKeys o) →
  (∀ k v, (k, v) ∈ o → NoDup v) →
  (∀ k1 k2 v1 v2 x, (k1, v1) ∈ o → (k2, v2) ∈ o → x ∈ v1 → x ∈ v2 → k1 = k2) →
  NoDup (concat (objValues o)).
Proof.
  induction o as [|[k v] o IH]; simpl; [constructor|].
  intros [Hk Hnd]%NoDup_cons Heach Hdisjoint. apply NoDup_app. split; [|split].
  - apply (Heach k). left.
  - intros x Hx [v' [Hx' Hv']]%elem_of_concat.
    apply list_elem_of_fmap in Hv' as ([k' v''] & -> & Hin). simpl in Hx'.
    assert (k = k') as -> by (apply (Hdisjoint k k' v v'' x); [left|by right|done|done]).
    apply Hk. apply list_elem_of_fmap. by exists (k', v'').
  - apply IH; [done|..].
    + intros k' v' Hin. apply (Heach k'). by right.
    + intros k1 k2 v1 v2 x H1 H2. apply Hdisjoint; by right.
Qed.

Lemma elem_of_objGet {V} (k : string) (v : V) o : objGet k o = Some v → (k, v) ∈ o.
Proof.
  induction o as [|[k0 v0] o IH]; simpl; [done|].
  destruct (decide (k = k0)) as [->|Hne].
  - intros [= ->]. left.
  - intros Hget. right. by apply IH.
Qed.

Lemma foldl_updDrone_lookup {A} (key : A → nat) (f : State → A → Drone → Drone)
    (P : Drone → Drone → Prop) (Q : Drone → Prop) l s i d :
  (∀ d, P d d) → (∀ d1 d2 d3, P d1 d2 → P d2 d3 → P d1 d3) →
  (∀ s a d, P d (f s a d)) → (∀ s a d, Q (f s a d)) →
  drones s !! i = Some d →
  ∃ d', drones (foldl (λ s a, updDrone (key a) (f s a) s) s l) !! i = Some d'
    ∧ P d d' ∧ (i ∉ map key l → d' = d) ∧ (i ∈ map key l → Q d').
Proof.
  intros Hrefl Htrans HP HQ. revert s d. induction l as [|a l IH] using rev_ind; intros s d Hd.
  { simpl. exists d. split; [done|]. split; [done|]. split; [done|].
    by intros ?%elem_of_nil. }
  rewrite foldl_app. cbn [foldl]. destruct (IH s d Hd) as (d1 & Hd1 & HP1 & Hout & Hin).
  destruct (decide (key a = i)) as [<-|Hne].
  - rewrite lookup_updDrone, Hd1. simpl. eexists. split; [done|].
    split; [by eapply Htrans|]. split; [|done].
    intros Hnot. exfalso. apply Hnot. rewrite map_app. apply elem_of_app. right. left.
  - rewrite lookup_updDrone_ne by done. exists d1. split; [done|]. split; [done|]. split.
    + intros Hnot. apply Hout. intros Hi. apply Hnot. rewrite map_app. apply elem_of_app.
      by left.
    + rewrite map_app. intros [Hi|Hi%list_elem_of_singleton]%elem_of_app; [by apply Hin|].
      simpl in Hi. congruence.
Qed.

Lemma lamps_foldl_updDrone {A} (key : A → nat) (f : State → A → Drone → Drone) l s :
  lamps (foldl (λ s x, updDrone (key x) (f s x) s) s l) = lamps s.
Proof. revert s. induction l as [|a l IH]; intros s; simpl; [done|]. by rewrite IH. Qed.

(** X19.  When [tryStartMission] succeeds, the mission was [planned] and is
    now [running] with [startedAt] set and the same id; its [routeLampIds]
    is its drone routes flattened, is not empty and holds no lamp twice;
    every drone route is non-empty and belongs to a drone that was ready.
    Every drone keeps its id, battery and container stock, and a drone that
    has changed was ready and is now [enroute] without a target.  The lamps
    are untouched and one timer has been added. *)
Theorem tryStartMission_success now ref s mission s' :
  missionAt s ref = Some mission →
  tryStartMission now (Some ref) s = (s', StartOk) →
  mission_status mission = planned
  ∧ (∃ started,
       missionAt s' ref = Some started
       ∧ mission_status started = running ∧ startedAt started = Some now
       ∧ mission_id started = mission_id mission
       ∧ routeLampIds started = concat (objValues (droneRoutes started))
       ∧ routeLampIds started ≠ [] ∧ NoDup (routeLampIds started)
       ∧ ∀ id route, (id, route) ∈ droneRoutes started →
           route ≠ [] ∧ ∃ rd, rd ∈ getReadyDronesForMission s ∧ drone_id rd.2 = id)
  ∧ (∀ i d, drones s !! i = Some d →
       ∃ d', drones s' !! i = Some d'
         ∧ drone_id d' = drone_id d ∧ battery d' = battery d
         ∧ containerLampsRemaining d' = containerLampsRemaining d
         ∧ (d' = d
            ∨ (isReadyDrone d = true ∧ drone_status d' = enroute ∧ targetLampId d' = None)))
  ∧ lamps s' = lamps s
  ∧ length (timers s') = S (length (timers s)).
Proof.
  intros Hm Hrun. unfold tryStartMission in Hrun. simpl in Hrun. rewrite Hm in Hrun.
  destruct (bool_decide (mission_status mission = running)) eqn:Hrunning; [done|].
  destruct (bool_decide (mission_status mission = completed)) eqn:Hcompleted; [done|].
  apply bool_decide_eq_false in Hrunning, Hcompleted.
  assert (Hst : mission_status mission = planned) by (by destruct (mission_status mission)).
  split; [done|].
  destruct (getReadyDronesForMission s) as [|rd ready] eqn:Hready; [done|].
  set (occupied := getOccupiedLampIds s (Some (mission_id mission))) in *.
  destruct (match mission_source mission with manual => _ | auto_service => _ end)
    as [missionRoutes s1] eqn:Hroutes.
  assert (Hs1 : ∃ g, s1 = updMission ref g s
                     ∧ mission_id (g mission) = mission_id mission).
  { destruct (mission_source mission).
    - injection Hroutes as _ <-. by eexists.
    - destruct (objKeys (droneRoutes mission)); injection Hroutes as _ <-.
      + by eexists.
      + exists (λ m, m). split; [|done].
        unfold updMission. case_decide; [|done].
        destruct s. unfold with_missions. simpl. f_equal.
        symmetry. by apply list_alter_id. }
  destruct Hs1 as (g & -> & Hgid).
  set (activeRoutes := buildActiveRoutes occupied (lampByIdMap s) missionRoutes (rd :: ready))
    in *.
  rewrite updMission_updMission in Hrun.
  destruct (negb _) eqn:Hany; [done|].
  destruct (List.filter _ _) as [|ad assigned] eqn:Hassigned; [done|].
  rewrite <- Hassigned in Hrun. clear Hassigned.
  set (assignedDrones := List.filter _ (rd :: ready)) in *.
  rewrite updMission_updMission in Hrun. injection Hrun as <-.
  set (s3 := updMission ref _ s).
  set (step := λ (s : State) (rd : nat * Drone) (drone : Drone),
                 drone_with_targetLampId None
                   (drone_with_status enroute (moveDroneToDockIfAvailable s drone))).
  change (foldl _ s3 assignedDrones)
    with (foldl (λ s a, updDrone (fst a) (step s a) s) s3 assignedDrones).
  set (s4 := foldl _ s3 assignedDrones).
  assert (Hmissions4 : missions s4 = missions s3) by apply (missions_foldl_updDrone fst step).
  destruct (buildActiveRoutes_disjoint occupied (lampByIdMap s) missionRoutes (rd :: ready))
    as [Hnodup Hdisjoint]. fold activeRoutes in Hnodup, Hdisjoint.
  destruct (buildActiveRoutes_keys occupied (lampByIdMap s) missionRoutes (rd :: ready))
    as [Hkeys Hready']. fold activeRoutes in Hkeys, Hready'.
  split; [|split; [|split]].
  - eexists. split.
    { unfold runMission. erewrite missionAt_ext; [|exact Hmissions4].
      unfold s3. by rewrite missionAt_updMission, Hm. }
    simpl. split; [done|]. split; [done|]. split; [done|]. split; [done|].
    split; [|split; [|done]].
    + intros Hnil. apply negb_false_iff in Hany.
      apply existsb_exists in Hany as (route & Hroute & Hlen).
      apply bool_decide_eq_true in Hlen.
      assert (Hin : ∀ x, x ∈ route → x ∈ concat (objValues activeRoutes)).
      { intros x Hx. apply elem_of_concat. exists route. split; [done|].
        by apply list_elem_of_In. }
      destruct route as [|x route]; [simpl in Hlen; lia|].
      specialize (Hin x (list_elem_of_here _ _)). rewrite Hnil in Hin. by apply elem_of_nil in Hin.
    + apply routes_NoDup; [done|..].
      * intros k v Hin. apply (Hnodup k). by apply objGet_elem_of.
      * intros k1 k2 v1 v2 x H1 H2. apply Hdisjoint; by apply objGet_elem_of.
  - intros i d Hd.
    assert (Hd3 : drones s3 !! i = Some d) by (unfold s3; by rewrite drones_updMission).
    destruct (foldl_updDrone_lookup fst step
                (λ d d', drone_id d' = drone_id d ∧ battery d' = battery d
                         ∧ containerLampsRemaining d' = containerLampsRemaining d)
                (λ d', drone_status d' = enroute ∧ targetLampId d' = None)
                assignedDrones s3 i d) as (d' & Hd' & (Hid & Hbat & Hstock) & Hout & Hin).
    + done.
    + intros d1 d2 d3 (? & ? & ?) (? & ? & ?). repeat split; congruence.
    + intros s0 a d0. unfold step, moveDroneToDockIfAvailable.
      by destruct (getActiveDock _ _).
    + done.
    + done.
    + exists d'. split; [done|]. split; [done|]. split; [done|]. split; [done|].
      destruct (decide (i ∈ map fst assignedDrones)) as [Hi|Hi]; [|left; by apply Hout].
      right. destruct (Hin Hi) as [Hstatus Htarget]. split; [|done].
      apply list_elem_of_fmap in Hi as (a & -> & Ha).
      assert (Ha' : a ∈ getReadyDronesForMission s).
      { rewrite Hready. apply list_elem_of_In. apply list_elem_of_In in Ha.
        unfold assignedDrones in Ha. by apply filter_In in Ha as [? _]. }
      destruct (readyDrones_lookup s a Ha') as [Hlookup Hok]. congruence.
  - unfold runMission. simpl.
    change (lamps s4 = lamps s).
    transitivity (lamps s3).
    + apply (lamps_foldl_updDrone fst step).
    + unfold s3, updMission. by case_decide.
  - unfold runMission. simpl. rewrite length_app. simpl.
    destruct (timers_foldl_updDrone fst step assignedDrones s3) as [Htimers _].
    fold s4 in Htimers. rewrite Htimers.
    unfold s3, updMission. case_decide; simpl; lia.
Qed.


(** ** Failing a lamp *)

Lemma tryStartMission_lamps now missionArg s :
  lamps (tryStartMission now missionArg s).1 = lamps s.
Proof.
  unfold tryStartMission.
  destruct (missionArg ≫= missionAt s) as [mission|]; [|done].
  destruct (bool_decide (mission_status mission = running)); [done|].
  destruct (bool_decide (mission_status mission = completed)); [done|].
  destruct (getReadyDronesForMission s) as [|rd ready] eqn:Hready; [done|].
  assert (Hupd : ∀ r f s0, lamps (updMission r f s0) = lamps s0)
    by (intros; unfold updMission; by case_decide).
  destruct (match mission_source mission with manual => _ | auto_service => _ end)
    as [missionRoutes s1] eqn:Hroutes.
  assert (Hs1 : lamps s1 = lamps s).
  { destruct (mission_source mission).
    - injection Hroutes as _ <-. apply Hupd.
    - destruct (objKeys (droneRoutes mission)); injection Hroutes as _ <-; [apply Hupd|done]. }
  destruct (negb _); [simpl; by rewrite Hupd|].
  destruct (List.filter _ _) as [|ad assigned]; [simpl; by rewrite Hupd|].
  generalize (ad :: assigned). intros assignedDrones. simpl fst. unfold runMission.
  change (lamps (with_activeMissionTimers ?a (with_timers ?b ?s))) with (lamps s).
  change (lamps (addLog ?a ?b ?c ?d ?s)) with (lamps s).
  rewrite (lamps_foldl_updDrone fst
             (λ s (rd : nat * Drone) drone,
                drone_with_targetLampId None
                  (drone_with_status enroute (moveDroneToDockIfAvailable s drone)))).
  by rewrite !Hupd.
Qed.

Lemma tryAutoServiceDispatch_lamps now s : lamps (tryAutoServiceDispatch now s) = lamps s.
Proof.
  unfold tryAutoServiceDispatch. destruct (autoDispatchAttempt now s) as [dispatch|]; [|done].
  destruct (createMission _ _ _ _ _ _) as [s1 ref] eqn:Hcreate.
  assert (lamps s1 = lamps s) as <-.
  { unfold createMission in Hcreate. by injection Hcreate as <- _. }
  pose proof (tryStartMission_lamps now (Some ref) s1) as Hstart.
  destruct (tryStartMission now (Some ref) s1) as [s2 [|code err]]; simpl in Hstart; done.
Qed.

Lemma find_alterFirst_other {A} (p q : A → bool) (f : A → A) (l : list A) :
  (∀ x, p x = true → q x = false ∧ q (f x) = false) →
  List.find q (alterFirst p f l) = List.find q l.
Proof.
  intros Hpq. induction l as [|x l IH]; simpl; [done|].
  destruct (p x) eqn:Hp; simpl.
  - destruct (Hpq x Hp) as [-> ->]. done.
  - by rewrite IH.
Qed.

(** X18.  The fail command answers 404 or 200; 404 exactly when no lamp
    has the id, and then the state is unchanged.  On 200 the lamp is in
    status [replace], off and draws nothing, also when the automatic service
    dispatches at once; no lamp with another id has changed; and with the
    automatic service off, missions and drones are untouched. *)
Theorem apiFailLamp_spec now lampId s :
  let result := apiFailLamp now lampId s in
  (result.2 = 404 ∨ result.2 = 200)
  ∧ (result.2 = 404 ↔ findLamp s lampId = None)
  ∧ (result.2 = 404 → result.1 = s)
  ∧ (result.2 = 200 →
     (∃ marked, findLamp result.1 lampId = Some marked
        ∧ lamp_status marked = lamp_replace ∧ powerOn marked = false ∧ energyW marked = 0)
     ∧ (∀ other, other ≠ lampId → findLamp result.1 other = findLamp s other)
     ∧ (autoServiceEnabled s = false →
        missions result.1 = missions s ∧ drones result.1 = drones s)).
Proof.
  intros result. subst result. unfold apiFailLamp, markLampForReplacement.
  destruct (findLamp s lampId) as [lamp|] eqn:Hlamp; simpl.
  2: { split; [by left|]. split; [done|]. split; [done|]. done. }
  split; [by right|]. split; [done|]. split; [done|]. intros _.
  set (s1 := addLog _ _ _ _ _).
  assert (Hlamps : lamps (if autoServiceEnabled s then tryAutoServiceDispatch now s1 else s1)
                   = lamps (updLamp lampId markedLamp s)).
  { destruct (autoServiceEnabled s); [|done]. by rewrite tryAutoServiceDispatch_lamps. }
  unfold findLamp in *. rewrite Hlamps. simpl. split; [|split].
  - exists (markedLamp lamp). split; [|done].
    apply find_alterFirst; [done|]. simpl.
    apply find_some in Hlamp as [_ Hid]. done.
  - intros other Hne. apply find_alterFirst_other. intros x Hx.
    apply bool_decide_eq_true in Hx. simpl.
    split; apply bool_decide_eq_false; congruence.
  - intros ->. done.
Qed.

(** ** The batteries over a global tick *)

Lemma batteries_updDrone ref f s :
  (∀ d, battery (f d) = battery d) →
  map battery (drones (updDrone ref f s)) = map battery (drones s).
Proof. intros Hf. unfold updDrone. simpl. by apply map_alter_preserved. Qed.

Lemma batteries_foldl_updDrone {A} (ref : A → nat) (f : State → A → Drone → Drone) l s :
  (∀ s x d, battery (f s x d) = battery d) →
  map battery (drones (foldl (λ s x, updDrone (ref x) (f s x) s) s l))
  = map battery (drones s).
Proof.
  intros Hf. revert s. induction l as [|x l IH]; intros s; simpl; [done|].
  rewrite IH. by apply batteries_updDrone.
Qed.

Lemma moveDroneToDockIfAvailable_battery s drone :
  battery (moveDroneToDockIfAvailable s drone) = battery drone.
Proof. unfold moveDroneToDockIfAvailable. by destruct (getActiveDock _ _). Qed.

Lemma tryStartMission_batteries now missionArg s :
  map battery (drones (tryStartMission now missionArg s).1) = map battery (drones s).
Proof.
  unfold tryStartMission.
  destruct (missionArg ≫= missionAt s) as [mission|]; [|done].
  destruct (bool_decide (mission_status mission = running)); [done|].
  destruct (bool_decide (mission_status mission = completed)); [done|].
  destruct (getReadyDronesForMission s) as [|rd ready] eqn:Hready.
  { simpl. apply map_map_preserved. intros d. unfold sentToCharge.
    destruct (_ <? _); [|done]. by rewrite moveDroneToDockIfAvailable_battery. }
  destruct (match mission_source mission with manual => _ | auto_service => _ end)
    as [missionRoutes s1] eqn:Hroutes.
  assert (Hs1 : drones s1 = drones s).
  { destruct (mission_source mission).
    - injection Hroutes as _ <-. apply drones_updMission.
    - destruct (objKeys (droneRoutes mission)).
      + injection Hroutes as _ <-. apply drones_updMission.
      + by injection Hroutes as _ <-. }
  destruct (negb _); [simpl; by rewrite drones_updMission, Hs1|].
  destruct (List.filter _ _) as [|ad assigned]; [simpl; by rewrite drones_updMission, Hs1|].
  generalize (ad :: assigned). intros assignedDrones. simpl fst. unfold runMission.
  change (drones (with_activeMissionTimers ?a (with_timers ?b ?s))) with (drones s).
  change (drones (addLog ?a ?b ?c ?d ?s)) with (drones s).
  rewrite (batteries_foldl_updDrone fst
             (λ s (rd : nat * Drone) drone,
                drone_with_targetLampId None
                  (drone_with_status enroute (moveDroneToDockIfAvailable s drone)))).
  - by rewrite !drones_updMission, Hs1.
  - intros s' x d. simpl. apply moveDroneToDockIfAvailable_battery.
Qed.

Lemma tryAutoServiceDispatch_batteries now s :
  map battery (drones (tryAutoServiceDispatch now s)) = map battery (drones s).
Proof.
  unfold tryAutoServiceDispatch. destruct (autoDispatchAttempt now s) as [dispatch|]; [|done].
  destruct (createMission _ _ _ _ _ _) as [s1 ref] eqn:Hcreate.
  assert (drones s1 = drones s) as <-.
  { unfold createMission in Hcreate. by injection Hcreate as <- _. }
  pose proof (tryStartMission_batteries now (Some ref) s1) as Hstart.
  destruct (tryStartMission now (Some ref) s1) as [s2 [|code err]]; simpl in Hstart; done.
Qed.

(** The coverage repair keeps battery and status of every drone; the
    drones it adds are idle at 100. *)
Lemma ensureDroneCoverage_batteries now s :
  ∃ extra,
    map (λ d, (battery d, drone_status d)) (drones (ensureDroneCoverageForAllDocks now s))
    = map (λ d, (battery d, drone_status d)) (drones s) ++ replicate extra (100, idle).
Proof.
  unfold ensureDroneCoverageForAllDocks.
  set (step := λ (s : State) '(index, dock), _).
  set (view := λ d : Drone, (battery d, drone_status d)).
  assert (Hfold : ∀ l s0, ∃ extra,
            map view (drones (foldl step s0 l)) = map view (drones s0) ++ replicate extra (100, idle)).
  { induction l as [|[index dock] l IH]; intros s0.
    - exists 0%nat. simpl. by rewrite app_nil_r.
    - change (foldl step s0 ((index, dock) :: l)) with (foldl step (step s0 (index, dock)) l).
      destruct (IH (step s0 (index, dock))) as [extra ->]. unfold step.
      destruct (List.find _ _).
      + by exists extra.
      + exists (S extra). simpl. rewrite map_app, <- app_assoc. done. }
  destruct (Hfold (zip (seq 0 (length (docks s))) (docks s)) s) as [extra Hextra].
  exists extra. rewrite <- Hextra. simpl. apply map_map_preserved.
  intros d. unfold view, ensureDroneContainerState, enforceDroneDockBinding.
  repeat case_match; unfold moveDroneToDockIfAvailable; repeat case_match; done.
Qed.

(** The battery of a drone after its turn in the drone loop. *)
Lemma tickDrone_battery now s i d :
  drones s !! i = Some d →
  ∃ d', drones (tickDrone now s i) !! i = Some d'
    ∧ battery d'
      = (if (bool_decide (drone_status d = idle) || bool_decide (drone_status d = charging))
            && (battery d <? 100)
         then Z.min 100 (battery d + CHARGE_RATE_PER_TICK) else battery d).
Proof.
  intros Hd. unfold tickDrone. rewrite Hd.
  destruct (bool_decide (drone_status d = servicing)) eqn:Hsrv.
  - apply bool_decide_eq_true in Hsrv. rewrite Hsrv. simpl.
    destruct (truthyNum (serviceEndsAt d) && (default 0 (serviceEndsAt d) <=? now));
      [|eauto].
    destruct (getActiveDock s d) as [dock|]; [destruct (0 <? pendingContainerOps d)|].
    + eexists. split;
        [by rewrite lookup_updDrone, drones_addLog, lookup_updDrone, drones_updDock, Hd|done].
    + eexists. split; [by rewrite lookup_updDrone, Hd|done].
    + eexists. split; [by rewrite lookup_updDrone, Hd|done].
  - destruct (bool_decide (drone_status d = idle) || bool_decide (drone_status d = charging));
      [|eauto].
    simpl. destruct (battery d <? 100).
    + destruct (100 <=? _).
      * eexists. split; [by rewrite drones_addLog, lookup_updDrone, Hd|done].
      * eexists. split; [by rewrite lookup_updDrone, Hd|done].
    + destruct (bool_decide (drone_status d = charging)); [|eauto].
      eexists. split; [by rewrite lookup_updDrone, Hd|done].
Qed.

Lemma tickDrones_battery now l s j d :
  NoDup l → j ∈ l → drones s !! j = Some d →
  ∃ d', drones (foldl (tickDrone now) s l) !! j = Some d'
    ∧ battery d'
      = (if (bool_decide (drone_status d = idle) || bool_decide (drone_status d = charging))
            && (battery d <? 100)
         then Z.min 100 (battery d + CHARGE_RATE_PER_TICK) else battery d).
Proof.
  revert s. induction l as [|i l IH]; intros s Hnd Hj Hd; [by apply elem_of_nil in Hj|].
  simpl. apply NoDup_cons in Hnd as [Hi Hnd]. destruct (decide (i = j)) as [->|Hne].
  - rewrite tickDrones_other by done. by apply tickDrone_battery.
  - apply IH; [done| |by rewrite tickDrone_other].
    apply elem_of_cons in Hj as [->|Hj]; done.
Qed.

(** X28.  A global tick charges exactly the drones at rest: a drone that is
    [idle] or [charging] below 100 gains [CHARGE_RATE_PER_TICK], capped at
    100; the battery of every other drone is as before, whatever the tick
    dispatches; and the drones the tick adds to the fleet are at 100. *)
Theorem globalTick_charges now s :
  ∃ added : nat,
    map battery (drones (globalTick now s))
    = map (λ d, if (bool_decide (drone_status d = idle)
                    || bool_decide (drone_status d = charging))
                   && (battery d <? 100)
                then Z.min 100 (battery d + CHARGE_RATE_PER_TICK) else battery d)
        (drones s)
      ++ replicate added 100.
Proof.
  unfold globalTick. rewrite tryAutoServiceDispatch_batteries.
  destruct (ensureDroneCoverage_batteries now s) as [added Hcover].
  set (s1 := ensureDroneCoverageForAllDocks now s) in *.
  assert (Hrefill : drones (refillDocks now s1) = drones s1).
  { unfold refillDocks. by destruct (_ <=? _). }
  set (s2 := refillDocks now s1) in *.
  set (charge := λ d : Drone,
         if (bool_decide (drone_status d = idle) || bool_decide (drone_status d = charging))
            && (battery d <? 100)
         then Z.min 100 (battery d + CHARGE_RATE_PER_TICK) else battery d).
  assert (Hloop : map battery (drones (foldl (tickDrone now) s2 (seq 0 (length (drones s2)))))
                  = map charge (drones s2)).
  { apply list_eq. intros j. rewrite !list_lookup_fmap.
    destruct (drones s2 !! j) as [d|] eqn:Hd.
    - destruct (tickDrones_battery now (seq 0 (length (drones s2))) s2 j d) as (d' & -> & Hb);
        [apply NoDup_seq| |done|by simpl; f_equal].
      apply elem_of_seq. apply lookup_lt_Some in Hd. lia.
    - rewrite tickDrones_other, Hd; [done|].
      intros Hin%elem_of_seq. apply lookup_ge_None in Hd. lia. }
  exists added. rewrite Hloop, Hrefill.
  set (rule := λ v : Z * DroneStatus,
         if (bool_decide (v.2 = idle) || bool_decide (v.2 = charging)) && (v.1 <? 100)
         then Z.min 100 (v.1 + CHARGE_RATE_PER_TICK) else v.1).
  assert (Hview : ∀ l, map charge l = map rule (map (λ d, (battery d, drone_status d)) l)).
  { intros l. by rewrite map_map. }
  rewrite (Hview (drones s1)), Hcover, map_app, <- Hview. f_equal.
  clear. induction added as [|n IH]; [done|]. simpl. by rewrite IH.
Qed.

(** X29.  A replacement takes [REPLACEMENT_DURATION_MS]: for an operational
    drone that is [replacing] the target of its unfinished worker, a mission
    tick before that time has passed changes nothing.  At the first tick
    after it the lamp, whatever its status, is [ok], lit, holds a cassette
    and draws 100 W plus the draw; no other lamp changes; the lamp is
    appended to the completed stops of the mission; the drone has one lamp
    less in its container (not below 0), has lost [4 + draw] of battery (not
    below 20), is [enroute] and has no target; and the worker has counted
    the replacement and kept its queue. *)
Theorem workerTick_replacement now draws missionRef s w drone target lamp :
  drones s !! w_drone w = Some drone →
  w_completed w = false →
  isOperational drone = true →
  drone_status drone = replacing →
  w_targetLampId w = Some target →
  findLamp s target = Some lamp →
  let result := workerTick now draws missionRef s w in
  if now - replaceStartedAt w <? REPLACEMENT_DURATION_MS then result = (s, w)
  else
    (∃ lamp',
       findLamp result.1 target = Some lamp'
       ∧ lamp_status lamp' = lamp_ok ∧ powerOn lamp' = true ∧ cassettePresent lamp' = true
       ∧ energyW lamp' = 100 + drawEnergy draws)
    ∧ (∀ other, other ≠ target → findLamp result.1 other = findLamp s other)
    ∧ (∀ m, missionAt s missionRef = Some m →
         ∃ m', missionAt result.1 missionRef = Some m'
           ∧ completedLampIds m' = completedLampIds m ++ [target]
           ∧ mission_status m' = mission_status m
           ∧ routeLampIds m' = routeLampIds m)
    ∧ (∃ drone',
         drones result.1 !! w_drone w = Some drone'
         ∧ drone_status drone' = enroute ∧ targetLampId drone' = None
         ∧ containerLampsRemaining drone' = Z.max 0 (containerLampsRemaining drone - 1)
         ∧ battery drone' = Z.max 20 (battery drone - (4 + drawBattery draws)))
    ∧ w_targetLampId result.2 = None
    ∧ queue result.2 = queue w
    ∧ replacedCount result.2 = replacedCount w + 1
    ∧ w_completed result.2 = false.
Proof.
  intros Hdrone Hcompleted Hop Hstatus Htarget Hlamp result. subst result.
  destruct (findLamp_Some _ _ _ Hlamp) as [_ Hid].
  unfold workerTick. rewrite Hdrone, Hcompleted, Hop. cbn [orb negb].
  unfold interruptLowBattery. rewrite Hdrone.
  rewrite (bool_decide_eq_true_2 (drone_status drone = replacing) Hstatus).
  cbn [negb]. rewrite andb_false_r.
  unfold workerStep. rewrite Hdrone, Htarget. unfold serveTarget. rewrite Hlamp.
  rewrite (bool_decide_eq_true_2 (drone_status drone = replacing) Hstatus).
  cbn [negb andb].
  destruct (now - replaceStartedAt w <? REPLACEMENT_DURATION_MS); [done|].
  unfold dropTarget. cbn [fst snd].
  change (w_drone (worker_with_replacedCount _ w)) with (w_drone w).
  set (fix_lamp := λ l : Lamp, lamp_with_energyW (100 + drawEnergy draws) _).
  set (s1 := updLamp target fix_lamp s).
  set (s2 := updMission missionRef _ s1).
  assert (Hlamps2 : lamps s2 = lamps s1) by (unfold s2, updMission; by case_decide).
  assert (Hdrones2 : drones s2 = drones s) by (unfold s2; by rewrite drones_updMission).
  split.
  { exists (fix_lamp lamp). split; [|done].
    unfold findLamp. cbn [lamps updDrone addLog with_drones with_logs]. rewrite Hlamps2.
    apply find_alterFirst; [done|]. simpl. by apply bool_decide_eq_true. }
  split.
  { intros other Hother. unfold findLamp.
    cbn [lamps updDrone addLog with_drones with_logs]. rewrite Hlamps2.
    apply find_alterFirst_other. intros x Hx%bool_decide_eq_true. simpl.
    split; apply bool_decide_eq_false; congruence. }
  split.
  { intros m Hm. eexists. split.
    - match goal with
      | |- missionAt ?x _ = _ => rewrite (missionAt_ext s2 x missionRef) by done
      end.
      unfold s2. rewrite missionAt_updMission, (missionAt_ext s s1 missionRef) by done.
      rewrite Hm. done.
    - simpl. by rewrite Hid. }
  split.
  { eexists. split.
    - rewrite lookup_updDrone, drones_addLog, lookup_updDrone, Hdrones2, Hdrone. done.
    - done. }
  done.
Qed.

(** ** The end of a mission *)

(** A worker changes neither the id nor the status of a mission. *)
Lemma workerTick_status now draws missionRef s w ref :
  (λ m, (mission_id m, mission_status m)) <$> missionAt (workerTick now draws missionRef s w).1 ref
  = (λ m, (mission_id m, mission_status m)) <$> missionAt s ref.
Proof.
  destruct (workerTick_effect now draws missionRef s w) as (_ & _ & _ & [[Hm _]|(x & _ & _ & Hm)]).
  - by rewrite (missionAt_ext _ _ ref Hm).
  - rewrite (missionAt_ext _ _ ref Hm). destruct (decide (ref = missionRef)) as [->|Hne].
    + rewrite missionAt_updMission. by destruct (missionAt s missionRef).
    + by rewrite missionAt_updMission_ne.
Qed.

Lemma runWorkers_frame now draws missionRef workers :
  ∀ index s,
    let result := runWorkers now draws missionRef index s workers in
    map w_drone result.2 = map w_drone workers
    ∧ activeMissionTimers result.1 = activeMissionTimers s
    ∧ timers result.1 = timers s
    ∧ ∀ ref, (λ m, (mission_id m, mission_status m)) <$> missionAt result.1 ref
             = (λ m, (mission_id m, mission_status m)) <$> missionAt s ref.
Proof.
  induction workers as [|w rest IH]; intros index s; [done|].
  cbn [runWorkers].
  pose proof (workerTick_effect now (draws index) missionRef s w) as (Hdrone & Hactive & _).
  pose proof (workerTick_timers now (draws index) missionRef s w) as Htimers.
  pose proof (workerTick_status now (draws index) missionRef s w) as Hstatus.
  destruct (workerTick now (draws index) missionRef s w) as [s1 w1].
  specialize (IH (S index) s1).
  destruct (runWorkers now draws missionRef (S index) s1 rest) as [s2 rest'].
  simpl in *. destruct IH as (Hmap & Hactive' & Htimers' & Hstatus').
  split; [by rewrite Hdrone, Hmap|]. split; [congruence|]. split; [congruence|].
  intros ref. by rewrite Hstatus', Hstatus.
Qed.

Lemma length_foldl_updDrone {A} (key : A → nat) (f : State → A → Drone → Drone) l s :
  length (drones (foldl (λ s a, updDrone (key a) (f s a) s) s l)) = length (drones s).
Proof.
  revert s. induction l as [|a l IH]; intros s; simpl; [done|].
  rewrite IH. unfold updDrone. simpl. apply length_alter.
Qed.

Lemma completeMission_length now ref workers s :
  length (drones (completeMission now ref workers s)) = length (drones s).
Proof.
  unfold completeMission. cbn [drones addLog with_logs].
  rewrite (length_foldl_updDrone w_drone (λ (s : State) (w : Worker) (d : Drone), _)).
  rewrite drones_updMission. by destruct (activeMissionTimers s !! _).
Qed.

(** What [completeMission] leaves behind. *)
Lemma completeMission_spec now ref workers s m :
  missionAt s ref = Some m →
  let s' := completeMission now ref workers s in
  missionAt s' ref = Some (mission_with_finishedAt (Some now) (mission_with_status completed m))
  ∧ activeMissionTimers s' !! mission_id m = None
  ∧ (∀ t timer, timers s !! t = Some timer →
       ∃ timer', timers s' !! t = Some timer'
         ∧ timer_workers timer' = timer_workers timer
         ∧ (timer_cleared timer = true → timer_cleared timer' = true)
         ∧ (activeMissionTimers s !! mission_id m = Some t → timer_cleared timer' = true)
         ∧ (activeMissionTimers s !! mission_id m ≠ Some t →
            timer_cleared timer' = timer_cleared timer))
  ∧ ∀ i d', drones s' !! i = Some d' →
      ∃ d, drones s !! i = Some d ∧ isOperational d' = isOperational d
        ∧ (i ∈ map w_drone workers →
           targetLampId d' = None
           ∧ (drone_status d' = servicing ∨ drone_status d' = charging
              ∨ drone_status d' = idle)).
Proof.
  intros Hm s'. subst s'. unfold completeMission. rewrite Hm.
  change (default "" (mission_id <$> Some m)) with (mission_id m).
  match goal with |- context [updMission ref _ ?x] => set (s1 := x) end.
  assert (Hs1 : missions s1 = missions s ∧ drones s1 = drones s).
  { unfold s1. by destruct (activeMissionTimers s !! mission_id m). }
  destruct Hs1 as [Hmissions1 Hdrones1].
  set (s2 := updMission ref _ s1).
  set (step := λ (s : State) (w : Worker), updDrone (w_drone w) _ s).
  assert (Hframe : ∀ l s0, missions (foldl step s0 l) = missions s0
                           ∧ timers (foldl step s0 l) = timers s0
                           ∧ activeMissionTimers (foldl step s0 l) = activeMissionTimers s0).
  { induction l as [|w l IH]; intros s0; [done|]. simpl. destruct (IH (step s0 w)) as (-> & -> & ->).
    done. }
  destruct (Hframe workers s2) as (Hmissions3 & Htimers3 & Hactive3).
  split.
  { rewrite (missionAt_ext s2 _ ref) by done. unfold s2.
    by rewrite missionAt_updMission, (missionAt_ext s s1 ref Hmissions1), Hm. }
  split.
  { cbn [activeMissionTimers addLog with_logs]. rewrite Hactive3.
    replace (activeMissionTimers s2) with (activeMissionTimers s1)
      by (unfold s2, updMission; by case_decide).
    unfold s1. destruct (activeMissionTimers s !! mission_id m) eqn:Hactive; [|done].
    simpl. apply lookup_delete_eq. }
  split.
  { intros t timer Ht. cbn [timers addLog with_logs]. rewrite Htimers3.
    replace (timers s2) with (timers s1) by (unfold s2, updMission; by case_decide).
    unfold s1. destruct (activeMissionTimers s !! mission_id m) as [t0|] eqn:Hactive.
    - simpl. destruct (decide (t0 = t)) as [->|Hne].
      + rewrite list_lookup_alter_eq, Ht. simpl. eexists. split; [done|]. simpl.
        split; [done|]. split; [done|]. split; [done|]. congruence.
      + rewrite list_lookup_alter_ne by done. exists timer. split; [done|].
        split; [done|]. split; [done|]. split; [congruence|done].
    - exists timer. split; [done|]. split; [done|]. split; [done|]. split; [done|done]. }
  intros i d' Hd'. cbn [drones addLog with_logs] in Hd'.
  assert (Hdrones2 : drones s2 = drones s) by (unfold s2; by rewrite drones_updMission).
  assert (Hlt : (i < length (drones s2))%nat).
  { apply lookup_lt_Some in Hd'. unfold step in Hd'.
    by rewrite (length_foldl_updDrone w_drone
                  (λ (s : State) (w : Worker) (d : Drone), _)) in Hd'. }
  destruct (lookup_lt_is_Some_2 _ _ Hlt) as [d Hd].
  destruct (foldl_updDrone_lookup w_drone
              (λ (s : State) (w : Worker) (d : Drone),
                 let d1 := drone_with_targetLampId None d in
                 if bool_decide (drone_status d1 = servicing) then d1
                 else
                   let d2 := drone_with_status (restingStatus d1) d1 in
                   if bool_decide (drone_status d2 = charging)
                   then moveDroneToDockIfAvailable s d2
                   else d2)
              (λ d d', isOperational d' = isOperational d)
              (λ d', targetLampId d' = None
                     ∧ (drone_status d' = servicing ∨ drone_status d' = charging
                        ∨ drone_status d' = idle))
              workers s2 i d) as (d'' & Hd'' & Hop & _ & Hin); [done|congruence| | |done|].
  - intros s0 w d0. simpl. unfold moveDroneToDockIfAvailable, restingStatus.
    repeat case_match; done.
  - intros s0 w d0. simpl. unfold moveDroneToDockIfAvailable, restingStatus.
    repeat (case_bool_decide || case_match); simpl in *; auto.
  - change (drones (foldl step s2 workers) !! i = Some d'') in Hd''. rewrite Hd' in Hd''. injection Hd'' as <-.
    exists d. split; [by rewrite <- Hdrones2|]. split; [done|]. exact Hin.
Qed.

(** X30.  The end of a mission.  After a firing of the timer of a mission
    that is not completed, the mission is completed exactly when every
    worker of the timer is finished or has a drone that is out of operation.
    If it is not, its status and the timer are as before.  If it is, its
    [finishedAt] is the time of the firing, the mission is no longer in
    [activeMissionTimers], the timer (when it is the one registered for the
    mission) is stopped, and every drone of the mission has no target and
    is [servicing], [charging] or [idle]. *)
Theorem missionTick_completion now draws timerId s timer m :
  timers s !! timerId = Some timer →
  timer_cleared timer = false →
  missionAt s (timer_mission timer) = Some m →
  mission_status m ≠ completed →
  let s' := missionTick now draws timerId s in
  ∃ m' timer',
    missionAt s' (timer_mission timer) = Some m'
    ∧ timers s' !! timerId = Some timer'
    ∧ mission_id m' = mission_id m
    ∧ map w_drone (timer_workers timer') = map w_drone (timer_workers timer)
    ∧ (mission_status m' = completed
       ↔ Forall (λ w, w_completed w = true
                      ∨ ∃ d, drones s' !! w_drone w = Some d ∧ isOperational d = false)
           (timer_workers timer'))
    ∧ (mission_status m' ≠ completed →
       mission_status m' = mission_status m ∧ timer_cleared timer' = false
       ∧ activeMissionTimers s' = activeMissionTimers s)
    ∧ (mission_status m' = completed →
       finishedAt m' = Some now
       ∧ activeMissionTimers s' !! mission_id m = None
       ∧ (activeMissionTimers s !! mission_id m = Some timerId → timer_cleared timer' = true)
       ∧ ∀ w d', w ∈ timer_workers timer → drones s' !! w_drone w = Some d' →
           targetLampId d' = None
           ∧ (drone_status d' = servicing ∨ drone_status d' = charging
              ∨ drone_status d' = idle)).
Proof.
  intros Htimer Hcleared Hm Hstatus s'. subst s'.
  unfold missionTick. rewrite Htimer, Hcleared.
  destruct (runWorkers_frame now draws (timer_mission timer) (timer_workers timer) 0%nat s)
    as (Hworkers & Hactive & Htimers & Hmissions).
  destruct (runWorkers now draws (timer_mission timer) 0 s (timer_workers timer))
    as [s1 workers]. simpl in Hworkers, Hactive, Htimers, Hmissions.
  specialize (Hmissions (timer_mission timer)). rewrite Hm in Hmissions.
  destruct (missionAt s1 (timer_mission timer)) as [m1|] eqn:Hm1; [|done].
  injection Hmissions as Hid1 Hstatus1.
  set (s2 := with_timers _ s1).
  assert (Htimer2 : timers s2 !! timerId
                    = Some {| timer_mission := timer_mission timer; timer_workers := workers;
                              timer_cleared := false |}).
  { unfold s2. simpl. by rewrite list_lookup_alter_eq, Htimers, Htimer, <- Hcleared. }
  assert (Hm2 : missionAt s2 (timer_mission timer) = Some m1) by done.
  set (finished := λ (d : option Drone) (w : Worker),
         w_completed w = true ∨ ∃ d0, d = Some d0 ∧ isOperational d0 = false).
  assert (Hdone : ∀ st, forallb
                    (λ w, w_completed w
                          || negb (default true (isOperational <$> drones st !! w_drone w)))
                    workers = true
                  ↔ Forall (λ w, finished (drones st !! w_drone w) w) workers).
  { intros st. rewrite forallb_forall, Forall_forall. apply forall_proper. intros w.
    rewrite <- list_elem_of_In. apply forall_proper. intros _. unfold finished.
    destruct (w_completed w); simpl; [by intuition|].
    destruct (drones st !! w_drone w) as [d|]; simpl.
    - destruct (isOperational d) eqn:Hop; simpl.
      + split; [done|]. intros [?|(d0 & ? & ?)]; [done|]. simplify_eq. congruence.
      + split; [|done]. intros _. right. eauto.
    - split; [done|]. by intros [?|(d0 & ? & ?)]. }
  destruct (forallb _ workers) eqn:Hall.
  - destruct (completeMission_spec now (timer_mission timer) workers s2 m1 Hm2)
      as (Hm' & Hgone & Hclear & Hdrones).
    destruct (Hclear timerId _ Htimer2) as (timer' & Htimer' & Hw' & _ & Hstopped & _).
    eexists. exists timer'. split; [exact Hm'|]. split; [exact Htimer'|].
    split; [done|]. split; [by rewrite Hw'|]. split; [|split; [done|]].
    + split; [|done]. intros _. rewrite Hw'. apply (Hdone s2) in Hall.
      eapply Forall_impl; [exact Hall|]. intros w [?|(d0 & Hd0 & Hop)]; [by left|]. right.
      simpl in Hd0.
      assert (Hlt : is_Some (drones (completeMission now (timer_mission timer) workers s2)
                             !! w_drone w)).
      { apply lookup_lt_is_Some. rewrite completeMission_length. by eapply lookup_lt_Some. }
      destruct Hlt as [d' Hd']. destruct (Hdrones _ _ Hd') as (d & Hd & Hop' & _).
      simpl in Hd. rewrite Hd0 in Hd. injection Hd as <-. exists d'. split; [done|congruence].
    + intros _. split; [done|]. split; [by rewrite <- Hid1|]. split.
      * intros Hreg. apply Hstopped. simpl. by rewrite Hactive, Hid1.
      * intros w d' Hw Hd'. destruct (Hdrones _ _ Hd') as (_ & _ & _ & Hrest).
        apply Hrest. rewrite Hworkers. apply list_elem_of_fmap. eauto.
  - exists m1. eexists. split; [done|]. split; [exact Htimer2|]. split; [done|].
    split; [done|]. split; [|split].
    + rewrite Hstatus1. split; [done|]. intros Hfin. apply (Hdone s2) in Hfin. congruence.
    + intros _. done.
    + intros Hfin. congruence.
Qed.

(** ** The workers of a timer along a run *)










End Properties.

(** * Concrete runs *)

Lemma FixedNumberLaws : @JsNumberLaws FixedNumber.
Proof.
  split; simpl.
  - intros x. apply Z.ltb_irrefl.
  - intros x y z Hxy Hyz. apply Z.ltb_lt in Hxy, Hyz. apply Z.ltb_lt. lia.
  - intros x y. destruct (Z.ltb_spec (x - y) 0), (Z.ltb_spec x y); lia.
Qed.

Section Runs.
#[local] Existing Instances FixedNumber FixedGeometry FixedNumberLaws.

Lemma nearestNeighborRoute_exact_witness :
  fourLamps ≠ [] ∧ (length fourLamps ≤ 8)%nat
  ∧ nearestNeighborRoute fourLamps origin ≡ₚ fourLamps
  ∧ ∀ p, p ≡ₚ fourLamps →
      fltb (routeDistance p origin)
        (routeDistance (nearestNeighborRoute fourLamps origin) origin) = false.
Proof.
  split; [done|]. split; [simpl; lia|].
  apply nearestNeighborRoute_exact; [done|simpl; lia].
Defined.

(** The exact route through the four lamps, and the route of the joint
    optimizer for one drone at the origin. *)
Example fourLamps_routes :
  map lamp_id (nearestNeighborRoute fourLamps origin) = [103; 100; 102; 101]
  ∧ routeDistance (nearestNeighborRoute fourLamps origin) origin = 9255
  ∧ plan_droneRoutes
      (optimizeMultiDroneRoutes fourLamps [droneAtOrigin])
    = [("drone-01", [101; 102; 100; 103])]
  ∧ map (λ kv : string * list Lamp, routeDistance kv.2 origin)
      (optimizedLampRoutes fourLamps [droneAtOrigin])
    = [12911].
Proof. vm_compute. done. Qed.



Lemma buildCapacityAwareRoutes_nearest_available_witness :
  NoDup (map drone_id (List.filter isOperational twoDrones))
  ∧ assignedLamps threeLamps (List.filter isOperational twoDrones)
    = (foldl (assignLamp (List.filter isOperational twoDrones))
         (initialAssignment (List.filter isOperational twoDrones)) threeLamps).1
  ∧ length (plan_routeLampIds (buildCapacityAwareRoutes threeLamps twoDrones)) = 3%nat.
Proof.
  assert (Hnd : NoDup (map drone_id (List.filter isOperational twoDrones))).
  { apply (bool_decide_unpack _). vm_compute. exact I. }
  destruct (buildCapacityAwareRoutes_nearest_available threeLamps twoDrones Hnd)
    as (Hassigned & _ & _ & Hscenario).
  split; [exact Hnd|]. split; [exact Hassigned|].
  destruct (Hscenario _ _ _ _ _ eq_refl eq_refl eq_refl eq_refl eq_refl eq_refl) as [Hcount _].
  exact Hcount.
Defined.

Lemma tryStartMission_no_route_not_atomic_witness :
  missionAt staleMissionState 0 = Some (exMission "M-1" planned manual [("drone-01", [100])] [])
  ∧ (tryStartMission 1000 (Some 0%nat) staleMissionState).2 = StartFailed 400 ERR_NO_ROUTES
  ∧ missionAt (tryStartMission 1000 (Some 0%nat) staleMissionState).1 0
    = Some (mission_with_routeLampIds []
              (exMission "M-1" planned manual [("drone-01", [100])] [])).
Proof.
  assert (Hfail : (tryStartMission 1000 (Some 0%nat) staleMissionState).2
                  = StartFailed 400 ERR_NO_ROUTES) by (vm_compute; reflexivity).
  split; [reflexivity|]. split; [exact Hfail|].
  destruct (tryStartMission_no_route_not_atomic 1000 0 staleMissionState
              (exMission "M-1" planned manual [("drone-01", [100])] [])
              (tryStartMission 1000 (Some 0%nat) staleMissionState).1)
    as (_ & Hleft & _).
  - reflexivity.
  - reflexivity.
  - reflexivity.
  - rewrite <- Hfail. apply surjective_pairing.
  - rewrite Hleft. vm_compute. reflexivity.
Defined.

(** C2 fails on this input: no drone is ready, and [tryStartMission] answers
    409 after setting to [charging] not only the idle [drone-02] but also
    [drone-01], which is [enroute] to lamp 100 for the running mission; it
    also moves that drone to its dock. *)
Theorem tryStartMission_no_ready_flips_busy_drone :
  let result := tryStartMission 1000 (Some 1%nat) busyFleetState in
  length (getReadyDronesForMission busyFleetState) = 0%nat
  ∧ result.2 = StartFailed 409 ERR_NO_READY
  ∧ map drone_status (drones busyFleetState) = [enroute; idle]
  ∧ map drone_status (drones result.1) = [charging; charging]
  ∧ map targetLampId (drones result.1) = [Some 100; None]
  ∧ map (λ drone, coords (position drone)) (drones busyFleetState)
    = [(500, 500); (3000, 3000)]
  ∧ map (λ drone, coords (position drone)) (drones result.1) = [(0, 0); (3000, 3000)].
Proof. vm_compute. repeat split. Qed.


(** The completing tick of that run, evaluated: the stock of [drone-01]
    goes from 5 to 4 and its battery from 100 to 96. *)
Example replacement_takes_one_lamp :
  (λ d, (drone_status d, containerLampsRemaining d, battery d))
    <$> drones (engineRun (take 4 refailTrace) cleanState) !! 0%nat
  = Some (replacing, 5, 100)
  ∧ (λ d, (drone_status d, containerLampsRemaining d, battery d))
      <$> drones (engineRun (take 5 refailTrace) cleanState) !! 0%nat
    = Some (enroute, 4, 96).
Proof. vm_compute. done. Qed.


(** A service that completes with two pending container operations loads
    ten lamps. *)
Example service_with_two_pending_operations :
  map containerLampsRemaining (drones doubleServiceState) = [0]
  ∧ map containerLampsRemaining (drones (engineStep (GlobalTimer 1000) doubleServiceState))
    = [10].
Proof. vm_compute. done. Qed.

Lemma workerTick_low_battery_witness :
  queue (workerTick 1000 noDraws 0 (lowBatteryState 500 500) lowBatteryWorker).2 = []
  ∧ w_targetLampId (workerTick 1000 noDraws 0 (lowBatteryState 500 500) lowBatteryWorker).2
    = None
  ∧ lamps (workerTick 1000 noDraws 0 (lowBatteryState 500 500) lowBatteryWorker).1
    = lamps (lowBatteryState 500 500).
Proof.
  destruct (workerTick_low_battery 1000 noDraws 0 (lowBatteryState 500 500) lowBatteryWorker
              (lowBatteryDrone 500 500) 100) as (Hqueue & Htarget & Hlamps & _);
    [reflexivity|reflexivity|reflexivity|
     simpl; unfold RETURN_TO_DOCK_BATTERY_THRESHOLD; lia|reflexivity|discriminate|].
  split; [exact Hqueue|]. split; [exact Htarget|exact Hlamps].
Defined.

(** C7 fails as stated: a drone interrupted within one step of its dock
    ends the tick [charging], with its worker complete, not [enroute]. *)
Lemma low_battery_at_dock_not_enroute :
  ¬ lowBatteryClaim 1000 noDraws 0 (lowBatteryState 0 0) lowBatteryWorker.
Proof.
  intros Hclaim.
  destruct (Hclaim (lowBatteryDrone 0 0) 100) as (_ & _ & _ & drone' & Hdrone' & _ & Hstatus);
    [reflexivity|reflexivity|reflexivity|
     simpl; unfold RETURN_TO_DOCK_BATTERY_THRESHOLD; lia|reflexivity|discriminate|].
  assert (Hrun : drone_status <$>
                   drones (workerTick 1000 noDraws 0 (lowBatteryState 0 0) lowBatteryWorker).1
                     !! 0%nat = Some charging) by (vm_compute; reflexivity).
  change (w_drone lowBatteryWorker) with 0%nat in Hdrone'.
  rewrite Hdrone' in Hrun. simpl in Hrun. congruence.
Qed.

(** The same drone half a kilometre away is [enroute] after the tick. *)
Example low_battery_away_from_dock :
  let result := workerTick 1000 noDraws 0 (lowBatteryState 500 500) lowBatteryWorker in
  drone_status <$> drones result.1 !! 0%nat = Some enroute
  ∧ w_completed result.2 = false
  ∧ map lamp_status (lamps result.1) = [lamp_replace; lamp_replace].
Proof. vm_compute. done. Qed.

Lemma tryAutoServiceDispatch_failure_witness :
  autoDispatchAttempt 10000 blockedAutoState
  = Some {| ad_droneRoutes := [("drone-01", [142])]; ad_routeLampIds := [142];
            ad_nextProgress := [("drone-01", 15%nat)] |}
  ∧ autoServiceProgress (tryAutoServiceDispatch 10000 blockedAutoState)
    = autoServiceProgress blockedAutoState
  ∧ lastAutoDispatchAt (tryAutoServiceDispatch 10000 blockedAutoState)
    = lastAutoDispatchAt blockedAutoState.
Proof.
  assert (Hattempt : autoDispatchAttempt 10000 blockedAutoState
                     = Some {| ad_droneRoutes := [("drone-01", [142])];
                               ad_routeLampIds := [142];
                               ad_nextProgress := [("drone-01", 15%nat)] |})
    by (vm_compute; reflexivity).
  split; [exact Hattempt|].
  destruct (tryAutoServiceDispatch_failure 10000 blockedAutoState _ 400 ERR_NO_ROUTES Hattempt)
    as (Hprogress & Hlast & _); [vm_compute; reflexivity|].
  split; [exact Hprogress|exact Hlast].
Defined.

(** C8 fails as stated: the start of the automatic mission fails at
    [10000], and the poll one second later, well inside the cooldown of four
    seconds, passes the guards again and creates a second mission. *)
Lemma auto_dispatch_retried_within_cooldown : ¬ autoFailureClaim 10000 blockedAutoState.
Proof.
  intros Hclaim.
  assert (Hfails : autoStartFails 10000 blockedAutoState).
  { exists {| ad_droneRoutes := [("drone-01", [142])]; ad_routeLampIds := [142];
              ad_nextProgress := [("drone-01", 15%nat)] |}, 400, ERR_NO_ROUTES.
    split; vm_compute; reflexivity. }
  destruct (Hclaim Hfails) as (_ & _ & Hquiet).
  assert (Hretry : attempts 11000 (tryAutoServiceDispatch 10000 blockedAutoState) = true)
    by (vm_compute; reflexivity).
  unfold attempts in Hretry. rewrite Hquiet in Hretry; [discriminate|].
  unfold AUTO_DISPATCH_COOLDOWN_MS. lia.
Qed.

Example auto_dispatch_retry_run :
  map log_type (logs (tryAutoServiceDispatch 10000 blockedAutoState)) = ["mission"; "error"]
  ∧ map mission_id
      (missions (engineStep (GlobalTimer 11000)
                   (tryAutoServiceDispatch 10000 blockedAutoState)))
    = ["M-11000"; "M-10000"].
Proof. vm_compute. done. Qed.

Lemma pending_stops_disjoint_witness :
  (pendingDisjoint (engineRun (take 8 refailTrace) cleanState)
   ∧ idsDistinct (engineRun (take 8 refailTrace) cleanState))
  ∧ targetsDistinct (engineRun (take 8 refailTrace) cleanState).
Proof.
  destruct (pending_stops_disjoint refailTrace cleanState 8) as (Hpending & Htargets & _);
    [vm_compute; reflexivity|vm_compute; reflexivity|].
  split; [exact Hpending|exact Htargets].
Defined.

(** C1 fails as stated: after the run, lamp 100 is in [replace] and both
    running missions have it in their routes, the first one as a stop it has
    completed. *)
Lemma refailed_lamp_in_two_running_routes :
  ¬ noDoubleAssignment (engineRun refailTrace cleanState).
Proof.
  intros Hclaim. destruct (Hclaim 100) as [Hroutes _]; [vm_compute; reflexivity|].
  assert (Hcount : routeReferences (engineRun refailTrace cleanState) 100 = 2%nat)
    by (vm_compute; reflexivity).
  rewrite Hcount in Hroutes. lia.
Qed.

Example refail_run :
  map (λ m, (mission_id m, mission_status m, routeLampIds m, completedLampIds m))
    (missions (engineRun (take 5 refailTrace) cleanState))
  = [("M-1000", running, [100; 101], [100])]
  ∧ map (λ m, (mission_id m, mission_status m, routeLampIds m, completedLampIds m))
      (missions (engineRun refailTrace cleanState))
    = [("M-5000", running, [100], []); ("M-1000", running, [100; 101], [100])]
  ∧ map lamp_status (lamps (engineRun refailTrace cleanState)) = [lamp_replace; lamp_replace]
  ∧ map pendingLampIds (missions (engineRun refailTrace cleanState)) = [[100]; [101]].
Proof. vm_compute. done. Qed.

(** Two container operations are pending only when a drone is flown by two
    missions at once, which needs the start that sets a busy drone to
    [charging]: in this run from a state with a full container both workers
    bring the drone back with an empty container, two container operations
    are pending when the service ends, and the stock is set to 10. *)
Lemma double_dispatch_overfills_container :
  containerRange oneDroneState
  ∧ ¬ containerRange (engineRun doubleDispatchTrace oneDroneState).
Proof.
  split.
  - intros d Hd. simpl in Hd. apply list_elem_of_singleton in Hd as ->.
    simpl. unfold LAMPS_PER_CONTAINER. lia.
  - intros Hrange.
    assert (Hstock : map containerLampsRemaining
                       (drones (engineRun doubleDispatchTrace oneDroneState)) = [10])
      by (vm_compute; reflexivity).
    revert Hrange Hstock. unfold containerRange.
    generalize (drones (engineRun doubleDispatchTrace oneDroneState)).
    intros [|d l] Hrange Hstock; [discriminate|].
    injection Hstock as Hd _. specialize (Hrange d (list_elem_of_here _ _)).
    unfold LAMPS_PER_CONTAINER in Hrange. lia.
Qed.

Example double_dispatch_run :
  map (λ d, (drone_status d, containerLampsRemaining d, pendingContainerOps d))
    (drones (engineRun (take 8 doubleDispatchTrace) oneDroneState))
  = [(enroute, 4, 0)]
  ∧ map (λ m, (mission_id m, mission_status m))
      (missions (engineRun (take 8 doubleDispatchTrace) oneDroneState))
    = [("M-5000", running); ("M-1000", running)]
  ∧ map (λ t, map w_drone (timer_workers t))
      (timers (engineRun (take 8 doubleDispatchTrace) oneDroneState))
    = [[0%nat]; [0%nat]]
  ∧ map (λ d, (drone_status d, containerLampsRemaining d, pendingContainerOps d))
      (drones (engineRun (take 30 doubleDispatchTrace) oneDroneState))
    = [(servicing, 0, 2)]
  ∧ map (λ d, (drone_status d, containerLampsRemaining d, pendingContainerOps d))
      (drones (engineRun doubleDispatchTrace oneDroneState))
    = [(charging, 10, 0)].
Proof. vm_compute. done. Qed.

Lemma nearestNeighborRoute_greedy_witness :
  (8 < length (lamps oneDroneState))%nat
  ∧ nearestNeighborRoute (lamps oneDroneState) origin ≡ₚ lamps oneDroneState.
Proof.
  assert (Hlen : (8 < length (lamps oneDroneState))%nat) by (vm_compute; lia).
  split; [exact Hlen|].
  destruct (nearestNeighborRoute_greedy (lamps oneDroneState) origin Hlen) as [Hperm _].
  exact Hperm.
Defined.

Lemma bestInsertionDelta_cheapest_witness :
  threeLamps ≠ []
  ∧ ((bestInsertionDelta threeLamps (exLamp 103 2000 0 lamp_replace) origin).1
     ≤ length threeLamps)%nat.
Proof.
  assert (Hne : threeLamps ≠ []) by discriminate.
  split; [exact Hne|].
  destruct (bestInsertionDelta_cheapest threeLamps (exLamp 103 2000 0 lamp_replace) origin)
    as [_ Hrest].
  destruct (Hrest Hne) as [Hle _]. exact Hle.
Defined.

Lemma optimizeMultiDroneRoutes_partition_witness :
  fourLamps ≠ []
  ∧ List.filter isOperational [droneAtOrigin] ≠ []
  ∧ NoDup (map drone_id (List.filter isOperational [droneAtOrigin]))
  ∧ plan_routeLampIds (optimizeMultiDroneRoutes fourLamps [droneAtOrigin])
    ≡ₚ map lamp_id fourLamps.
Proof.
  assert (Hlamps : fourLamps ≠ []) by discriminate.
  assert (Hdrones : List.filter isOperational [droneAtOrigin] ≠ []) by discriminate.
  assert (Hnd : NoDup (map drone_id (List.filter isOperational [droneAtOrigin]))).
  { apply (bool_decide_unpack _). vm_compute. exact I. }
  split; [exact Hlamps|]. split; [exact Hdrones|]. split; [exact Hnd|].
  destruct (optimizeMultiDroneRoutes_partition fourLamps [droneAtOrigin]) as [_ Hplan].
  destruct (Hplan Hlamps Hdrones Hnd) as (_ & _ & Hperm). exact Hperm.
Defined.

Lemma getNearestReadyDroneForLamp_nearest_witness :
  getNearestReadyDroneForLamp (exLamp 101 (-4000) 4000 lamp_replace) twoDrones = None
  ↔ twoDrones = [].
Proof.
  exact (proj1 (getNearestReadyDroneForLamp_nearest
                  (exLamp 101 (-4000) 4000 lamp_replace) twoDrones)).
Defined.

Lemma findNearestDock_nearest_witness :
  findNearestDock cleanState (Some origin) = None ↔ docks cleanState = [].
Proof. exact (proj1 (findNearestDock_nearest cleanState origin)). Defined.

Lemma buildCapacityAwareRoutes_plan_witness :
  NoDup (map drone_id (List.filter isOperational twoDrones))
  ∧ plan_routeLampIds (buildCapacityAwareRoutes threeLamps twoDrones)
    ⊆+ map lamp_id threeLamps.
Proof.
  assert (Hnd : NoDup (map drone_id (List.filter isOperational twoDrones))).
  { apply (bool_decide_unpack _). vm_compute. exact I. }
  split; [exact Hnd|].
  destruct (buildCapacityAwareRoutes_plan threeLamps twoDrones Hnd) as [Hsub _].
  exact Hsub.
Defined.

Lemma tryStartMission_success_witness :
  missionAt plannedState 0 = Some plannedMission
  ∧ tryStartMission 1100 (Some 0%nat) plannedState
    = ((tryStartMission 1100 (Some 0%nat) plannedState).1, StartOk)
  ∧ mission_status plannedMission = planned
  ∧ lamps (tryStartMission 1100 (Some 0%nat) plannedState).1 = lamps plannedState.
Proof.
  assert (Hm : missionAt plannedState 0 = Some plannedMission) by (vm_compute; reflexivity).
  assert (Hok : (tryStartMission 1100 (Some 0%nat) plannedState).2 = StartOk)
    by (vm_compute; reflexivity).
  assert (Hrun : tryStartMission 1100 (Some 0%nat) plannedState
                 = ((tryStartMission 1100 (Some 0%nat) plannedState).1, StartOk)).
  { rewrite <- Hok. apply surjective_pairing. }
  split; [exact Hm|]. split; [exact Hrun|].
  destruct (tryStartMission_success 1100 0 plannedState plannedMission _ Hm Hrun)
    as (Hst & _ & _ & Hlamps & _).
  split; [exact Hst|exact Hlamps].
Defined.

Lemma fleet_stays_sound_witness :
  Forall drawsValid refailTrace
  ∧ (∀ d, d ∈ drones cleanState → droneSound d)
  ∧ ∀ d, d ∈ drones (engineRun refailTrace cleanState) → droneSound d.
Proof.
  assert (Hvalid : Forall drawsValid refailTrace).
  { repeat constructor; intros; simpl; lia. }
  assert (Hsound : ∀ d, d ∈ drones cleanState → droneSound d).
  { intros d Hd. simpl in Hd. repeat (apply elem_of_cons in Hd as [->|Hd]);
      [..|by apply elem_of_nil in Hd]; (split; [simpl; lia|split; [simpl; lia|discriminate]]). }
  split; [exact Hvalid|]. split; [exact Hsound|].
  exact (fleet_stays_sound refailTrace cleanState Hvalid Hsound).
Defined.

Lemma lamps_stay_consistent_witness :
  Forall drawsValid refailTrace
  ∧ Forall lampConsistent (lamps cleanState)
  ∧ Forall lampConsistent (lamps (engineRun refailTrace cleanState)).
Proof.
  assert (Hvalid : Forall drawsValid refailTrace).
  { repeat constructor; intros; simpl; lia. }
  assert (Hlamps : Forall lampConsistent (lamps cleanState)).
  { repeat constructor. }
  split; [exact Hvalid|]. split; [exact Hlamps|].
  exact (lamps_stay_consistent refailTrace cleanState Hvalid Hlamps).
Defined.

Lemma dock_stock_not_negative_witness :
  Forall (λ k, 0 ≤ fullContainers k ∧ 0 ≤ emptyContainers k) (docks cleanState)
  ∧ Forall (λ k, 0 ≤ fullContainers k ∧ 0 ≤ emptyContainers k)
      (docks (engineRun refailTrace cleanState)).
Proof.
  assert (Hdocks : Forall (λ k, 0 ≤ fullContainers k ∧ 0 ≤ emptyContainers k)
                     (docks cleanState)).
  { repeat constructor; simpl; lia. }
  split; [exact Hdocks|].
  exact (dock_stock_not_negative refailTrace cleanState Hdocks).
Defined.

Lemma missions_only_advance_witness :
  missionAt plannedState 0 = Some plannedMission
  ∧ ∃ m', missionAt (engineRun [StartMission 1100 "M-1000"] plannedState) 0 = Some m'
      ∧ mission_id m' = mission_id plannedMission
      ∧ (statusRank (mission_status plannedMission) ≤ statusRank (mission_status m'))%nat.
Proof.
  assert (Hm : missionAt plannedState 0 = Some plannedMission) by (vm_compute; reflexivity).
  split; [exact Hm|].
  destruct (missions_only_advance [StartMission 1100 "M-1000"] plannedState 0 plannedMission Hm)
    as (m' & Hm' & Hid & _ & _ & Hrank & _).
  exists m'. split; [exact Hm'|]. split; [exact Hid|exact Hrank].
Defined.

Lemma workerTick_replacement_witness :
  drones replacingState !! w_drone replacingWorker = Some replacingDrone
  ∧ findLamp replacingState 100 = Some (exLamp 100 1000 1000 lamp_in_progress)
  ∧ replacedCount (workerTick 3000 noDraws 0 replacingState replacingWorker).2 = 1.
Proof.
  assert (Hdrone : drones replacingState !! w_drone replacingWorker = Some replacingDrone)
    by reflexivity.
  assert (Hlamp : findLamp replacingState 100 = Some (exLamp 100 1000 1000 lamp_in_progress))
    by reflexivity.
  split; [exact Hdrone|]. split; [exact Hlamp|].
  pose proof (workerTick_replacement 3000 noDraws 0 replacingState replacingWorker
                replacingDrone 100 _ Hdrone eq_refl eq_refl eq_refl eq_refl Hlamp) as Hdone.
  cbv zeta in Hdone.
  change (3000 - replaceStartedAt replacingWorker <? REPLACEMENT_DURATION_MS)
    with false in Hdone.
  cbv iota in Hdone. destruct Hdone as (_ & _ & _ & _ & _ & _ & Hcount & _). exact Hcount.
Defined.

Lemma missionTick_completion_witness :
  timers startedState !! 0%nat = Some startedTimer
  ∧ missionAt startedState 0 = Some startedMission
  ∧ ∃ m' timer',
      missionAt (missionTick 1250 (λ _, noDraws) 0 startedState) 0 = Some m'
      ∧ timers (missionTick 1250 (λ _, noDraws) 0 startedState) !! 0%nat = Some timer'
      ∧ mission_id m' = "M-1000".
Proof.
  assert (Htimer : timers startedState !! 0%nat = Some startedTimer)
    by (vm_compute; reflexivity).
  assert (Hm : missionAt startedState 0 = Some startedMission) by (vm_compute; reflexivity).
  split; [exact Htimer|]. split; [exact Hm|].
  destruct (missionTick_completion 1250 (λ _, noDraws) 0%nat startedState startedTimer
              startedMission Htimer eq_refl Hm)
    as (m' & timer' & Hm' & Htimer' & Hid & _); [discriminate|].
  exists m', timer'. split; [exact Hm'|]. split; [exact Htimer'|exact Hid].
Defined.

End Runs.
